(** * The CUDA tracing JIT of Enoki (src/cuda/trace.cu)

    A shallow embedding of the trace recorder, its two reference counts,
    the scheduler and the PTX emitter, followed by the properties that the
    specification states about them.

    Conventions of the embedding.
    - [uint32_t] and [size_t] values are numbers in [N]; every operation
      that can leave the 32-bit range is written with its wrap-around
      ([u32]).
    - The three process-wide objects [__trace], [__active] and [__dirty]
      are the fields of [State]; every function of the source is a
      computation in the monad [M] that threads this state.
    - A C++ exception is the outcome [Throw]: it carries the state that the
      caller sees when it catches the exception.  A failed [assert], an
      access outside a container and an exhausted recursion budget are the
      outcome [Abort].
    - [assert] is compiled out when [NDEBUG] is set; the flag is a field of
      the class [Build].
    - The driver is assumed not to fail: [cudaMalloc] hands out fresh
      non-null addresses, [cudaFree] and the kernel launch succeed.  The
      launch itself is recorded in the log [launches]; the contents of
      device memory are not part of the state.
    - [__active] is a [gset] and the buckets of [cuda_eval] are a [gmap];
      a loop over one of them runs in the order of [elements] and
      [map_to_list], which stands for the unspecified order of the
      unordered containers of the source.
    - The recursions of [cuda_var_free] and of [sweep_recursive] take a
      bound on their depth as their first argument; every function that
      reaches them hands the bound on. *)

From Stdlib Require Import NArith String Ascii List Lia DecimalString.
From stdpp Require Import base option list gmap strings.

Local Open Scope N_scope.

(** ** Machine integers *)

Definition u32 (n : N) : N := n mod 2 ^ 32.
Definition u8 (n : N) : N := n mod 2 ^ 8.

(** [x - 1] on an unsigned 32-bit counter. *)
Definition u32_pred (n : N) : N := u32 (n + (2 ^ 32 - 1)).

(** [x + 1] on an unsigned 32-bit counter. *)
Definition u32_succ (n : N) : N := u32 (n + 1).

Definition ENOKI_CUDA_REG_RESERVED : N := 10.

(** ** Element types *)

(** Modelled from the spec: the enumeration [EnokiType] is declared in
    common.cuh, which is not part of the sources at hand; its members are
    the ones that trace.cu switches over. *)
Inductive EnokiType :=
  | Invalid | Int8 | UInt8 | Int16 | UInt16 | Int32 | UInt32
  | Int64 | UInt64 | Float16 | Float32 | Float64 | Bool | Pointer.

#[global] Instance EnokiType_eq_dec : EqDecision EnokiType.
Proof. solve_decision. Defined.

(** [(size_t) -1] *)
Definition SIZE_MAX : N := 2 ^ 64 - 1.

Definition cuda_register_size (t : EnokiType) : N :=
  match t with
  | UInt8 | Int8 | Bool => 1
  | UInt16 | Int16 => 2
  | UInt32 | Int32 => 4
  | Pointer | UInt64 | Int64 => 8
  | Float32 => 4
  | Float64 => 8
  | _ => SIZE_MAX
  end.

(** The three functions below return [const char *]; [None] is [nullptr]. *)
Definition cuda_register_type (t : EnokiType) : option string :=
  match t with
  | UInt8 => Some "u8" | Int8 => Some "s8"
  | UInt16 => Some "u16" | Int16 => Some "s16"
  | UInt32 => Some "u32" | Int32 => Some "s32"
  | Pointer | UInt64 => Some "u64"
  | Int64 => Some "s64"
  | Float16 => Some "f16" | Float32 => Some "f32" | Float64 => Some "f64"
  | Bool => Some "pred"
  | Invalid => None
  end%string.

Definition cuda_register_type_bin (t : EnokiType) : option string :=
  match t with
  | UInt8 | Int8 => Some "b8"
  | UInt16 | Float16 | Int16 => Some "b16"
  | Float32 | UInt32 | Int32 => Some "b32"
  | Pointer | Float64 | UInt64 | Int64 => Some "b64"
  | Bool => Some "pred"
  | Invalid => None
  end%string.

Definition cuda_register_name (t : EnokiType) : option string :=
  match t with
  | UInt8 | Int8 => Some "%b"
  | UInt16 | Int16 => Some "%w"
  | UInt32 | Int32 => Some "%r"
  | Pointer | UInt64 | Int64 => Some "%rd"
  | Float32 => Some "%f"
  | Float64 => Some "%d"
  | Bool => Some "%p"
  | _ => None
  end%string.

(** ** Trace nodes *)

(** [std::array<uint32_t, 3>] *)
Definition array3 : Type := N * N * N.

Definition arr_get (a : array3) (i : N) : option N :=
  let '(a0, a1, a2) := a in
  match i with
  | 0 => Some a0
  | 1 => Some a1
  | 2 => Some a2
  | _ => None
  end.

Definition arr_set (a : array3) (i : N) (x : N) : array3 :=
  let '(a0, a1, a2) := a in
  match i with
  | 0 => (x, a1, a2)
  | 1 => (a0, x, a2)
  | 2 => (a0, a1, x)
  | _ => a
  end.

(** [struct Variable].  A device pointer is an address; [0] is [nullptr]. *)
Record Var := mkVar {
  type : EnokiType;
  cmd : string;
  comment : string;
  size : N;
  data : N;
  ref_count_ext : N;
  ref_count_int : N;
  dep : array3;
  side_effect : bool;
  dirty : bool;
  free : bool;
  subtree_size : N
}.

(** The constructor [Variable(EnokiType type)] with the default member
    initialisers. *)
Definition Variable_ (t : EnokiType) : Var :=
  {| type := t; cmd := ""; comment := ""; size := 1; data := 0;
     ref_count_ext := 0; ref_count_int := 0; dep := (0, 0, 0);
     side_effect := false; dirty := false; free := true;
     subtree_size := 0 |}.

Definition is_collected (v : Var) : bool :=
  (ref_count_int v =? 0) && (ref_count_ext v =? 0).

Definition set_cmd (c : string) (v : Var) : Var :=
  mkVar (type v) c (comment v) (size v) (data v) (ref_count_ext v)
        (ref_count_int v) (dep v) (side_effect v) (dirty v) (free v)
        (subtree_size v).
Definition set_comment (c : string) (v : Var) : Var :=
  mkVar (type v) (cmd v) c (size v) (data v) (ref_count_ext v)
        (ref_count_int v) (dep v) (side_effect v) (dirty v) (free v)
        (subtree_size v).
Definition set_size (n : N) (v : Var) : Var :=
  mkVar (type v) (cmd v) (comment v) n (data v) (ref_count_ext v)
        (ref_count_int v) (dep v) (side_effect v) (dirty v) (free v)
        (subtree_size v).
Definition set_data (p : N) (v : Var) : Var :=
  mkVar (type v) (cmd v) (comment v) (size v) p (ref_count_ext v)
        (ref_count_int v) (dep v) (side_effect v) (dirty v) (free v)
        (subtree_size v).
Definition set_ref_count_ext (n : N) (v : Var) : Var :=
  mkVar (type v) (cmd v) (comment v) (size v) (data v) n
        (ref_count_int v) (dep v) (side_effect v) (dirty v) (free v)
        (subtree_size v).
Definition set_ref_count_int (n : N) (v : Var) : Var :=
  mkVar (type v) (cmd v) (comment v) (size v) (data v) (ref_count_ext v)
        n (dep v) (side_effect v) (dirty v) (free v) (subtree_size v).
Definition set_dep (d : array3) (v : Var) : Var :=
  mkVar (type v) (cmd v) (comment v) (size v) (data v) (ref_count_ext v)
        (ref_count_int v) d (side_effect v) (dirty v) (free v)
        (subtree_size v).
Definition set_side_effect (b : bool) (v : Var) : Var :=
  mkVar (type v) (cmd v) (comment v) (size v) (data v) (ref_count_ext v)
        (ref_count_int v) (dep v) b (dirty v) (free v) (subtree_size v).
Definition set_dirty (b : bool) (v : Var) : Var :=
  mkVar (type v) (cmd v) (comment v) (size v) (data v) (ref_count_ext v)
        (ref_count_int v) (dep v) (side_effect v) b (free v)
        (subtree_size v).
Definition set_free (b : bool) (v : Var) : Var :=
  mkVar (type v) (cmd v) (comment v) (size v) (data v) (ref_count_ext v)
        (ref_count_int v) (dep v) (side_effect v) (dirty v) b
        (subtree_size v).
Definition set_subtree_size (n : N) (v : Var) : Var :=
  mkVar (type v) (cmd v) (comment v) (size v) (data v) (ref_count_ext v)
        (ref_count_int v) (dep v) (side_effect v) (dirty v) (free v) n.

(** ** The process-wide state *)

(** One kernel launch, as [cuda_jit_run] receives it. *)
Record Launch := mkLaunch {
  l_source : string;
  l_ptrs : list N;
  l_size : N
}.

Record State := mkState {
  __trace : list Var;
  __active : gset N;
  __dirty : list N;
  (** next address that [cudaMalloc] hands out *)
  dev_next : N;
  (** kernels launched so far, oldest first *)
  launches : list Launch
}.

(** The state of a process before any call: the static objects are empty. *)
Definition state0 : State :=
  {| __trace := []; __active := ∅; __dirty := []; dev_next := 1;
     launches := [] |}.

Definition with_trace (f : list Var -> list Var) (s : State) : State :=
  mkState (f (__trace s)) (__active s) (__dirty s) (dev_next s) (launches s).
Definition with_active (f : gset N -> gset N) (s : State) : State :=
  mkState (__trace s) (f (__active s)) (__dirty s) (dev_next s) (launches s).
Definition with_dirty (f : list N -> list N) (s : State) : State :=
  mkState (__trace s) (__active s) (f (__dirty s)) (dev_next s) (launches s).
Definition with_dev_next (f : N -> N) (s : State) : State :=
  mkState (__trace s) (__active s) (__dirty s) (f (dev_next s)) (launches s).
Definition with_launches (f : list Launch -> list Launch) (s : State) : State :=
  mkState (__trace s) (__active s) (__dirty s) (dev_next s) (f (launches s)).

(** ** Outcomes and the monad *)

Inductive abort := AssertionFailed | UndefinedBehaviour | OutOfFuel.

Inductive result (A : Type) :=
  | Ok (a : A) (s : State)
  | Throw (msg : string) (s : State)
  | Abort (r : abort).
Arguments Ok {A} a s.
Arguments Throw {A} msg s.
Arguments Abort {A} r.

Definition M (A : Type) : Type := State -> result A.

Definition ret {A} (a : A) : M A := fun s => Ok a s.

Definition bind {A B} (c : M A) (k : A -> M B) : M B :=
  fun s =>
    match c s with
    | Ok a s' => k a s'
    | Throw msg s' => Throw msg s'
    | Abort r => Abort r
    end.

Notation "'let*' x ':=' c 'in' k" := (bind c (fun x => k))
  (at level 10, x pattern, c at level 100, k at level 200).

Definition throw {A} (msg : string) : M A := fun s => Throw msg s.
Definition abort_with {A} (r : abort) : M A := fun _ => Abort r.
Definition get : M State := fun s => Ok s s.
Definition modify (f : State -> State) : M unit := fun s => Ok tt (f s).

(** a statement executed only under a condition *)
Definition when (b : bool) (c : M unit) : M unit := if b then c else ret tt.

(** a loop over a container, in the order of the list *)
Fixpoint for_each {A} (l : list A) (body : A -> M unit) : M unit :=
  match l with
  | [] => ret tt
  | x :: l' => let* _ := body x in for_each l' body
  end.

(** a loop that carries an accumulator *)
Fixpoint fold_each {A B} (l : list A) (acc : B) (body : B -> A -> M B) : M B :=
  match l with
  | [] => ret acc
  | x :: l' => let* acc' := body acc x in fold_each l' acc' body
  end.

(** dereferencing a pointer that may be null, reading past a container *)
Definition defined {A} (o : option A) : M A :=
  match o with
  | Some a => ret a
  | None => abort_with UndefinedBehaviour
  end.

(** [tr.size()] *)
Definition trace_size : M N := fun s => Ok (N.of_nat (length (__trace s))) s.

(** [tr[index]], read *)
Definition at_ (index : N) : M Var :=
  fun s => defined (__trace s !! N.to_nat index) s.

(** an assignment to a member of [tr[index]] *)
Definition update (index : N) (f : Var -> Var) : M unit :=
  let* v := at_ index in
  modify (with_trace (fun tr => <[N.to_nat index := f v]> tr)).

(** [tr.emplace_back(...)] followed by the assignments to [tr.back()] *)
Definition emplace_back (v : Var) : M unit :=
  modify (with_trace (fun tr => tr ++ [v])).

(** [cudaMalloc]: a fresh non-null address *)
Definition cudaMalloc (bytes : N) : M N :=
  fun s => Ok (dev_next s) (with_dev_next (fun p => p + 1) s).

(** [cudaFree] leaves the trace alone *)
Definition cudaFree (p : N) : M unit := ret tt.

Class Build := { NDEBUG : bool }.

Section Tracer.
Context {B : Build}.

Definition assert_ (c : bool) : M unit :=
  if c then ret tt
  else if NDEBUG then ret tt
  else abort_with AssertionFailed.

(** ** Initialisation and the variable store *)

Definition cuda_init : M unit :=
  modify (fun s =>
    with_active (fun _ => ∅)
      (with_trace (fun _ =>
         Variable_ Invalid :: Variable_ UInt64 ::
         replicate 8 (Variable_ UInt32)) s)).

Definition cuda_shutdown : M unit :=
  modify (fun s => with_active (fun _ => ∅) (with_trace (fun _ => []) s)).

Definition cuda_var_ptr (index : N) : M N :=
  let* v := at_ index in ret (data v).

Definition cuda_var_size (index : N) : M N :=
  let* v := at_ index in ret (size v).

Definition cuda_var_set_comment (index : N) (str : string) : M unit :=
  update index (set_comment str).

Definition cuda_var_set_size (index : N) (sz : N) : M unit :=
  update index (set_size sz).

(** ** Reference counting *)

Definition cuda_inc_ref_ext (index : N) : M unit :=
  if index <? ENOKI_CUDA_REG_RESERVED then ret tt
  else
    let* n := trace_size in
    let* _ := assert_ (index <? n) in
    update index (fun v => set_ref_count_ext (u32_succ (ref_count_ext v)) v).

Definition cuda_inc_ref_int (index : N) : M unit :=
  if index <? ENOKI_CUDA_REG_RESERVED then ret tt
  else
    let* n := trace_size in
    let* _ := assert_ (index <? n) in
    update index (fun v => set_ref_count_int (u32_succ (ref_count_int v)) v).

(** The body of [cuda_dec_ref_int]; [var_free] is the function that it
    calls when the node is collected. *)
Definition dec_ref_int_with (var_free : N -> M unit) (index : N) : M unit :=
  if index <? ENOKI_CUDA_REG_RESERVED then ret tt
  else
    let* n := trace_size in
    if n =? 0 then throw "CUDA tracing JIT is uninitialized!"
    else
      let* _ := assert_ (index <? n) in
      let* _ := update index
        (fun v => set_ref_count_int (u32_pred (ref_count_int v)) v) in
      let* v := at_ index in
      when (is_collected v) (var_free index).

(** [cuda_var_free] and [cuda_dec_ref_int] call each other; the first
    argument bounds the depth of that recursion. *)
Fixpoint cuda_var_free (fuel : nat) (idx : N) : M unit :=
  match fuel with
  | O => abort_with OutOfFuel
  | S fuel' =>
      let* _ := at_ idx in
      let* _ :=
        for_each [0; 1; 2] (fun i =>
          let* v := at_ idx in
          let* d := defined (arr_get (dep v) i) in
          let* _ := dec_ref_int_with (cuda_var_free fuel') d in
          update idx (fun v => set_dep (arr_set (dep v) i 0) v)) in
      let* v := at_ idx in
      let* _ := when (free v) (cudaFree (data v)) in
      update idx (set_data 0)
  end.

Definition cuda_dec_ref_int (fuel : nat) (index : N) : M unit :=
  dec_ref_int_with (cuda_var_free fuel) index.

Definition cuda_dec_ref_ext (fuel : nat) (index : N) : M unit :=
  let* n := trace_size in
  if (index <? ENOKI_CUDA_REG_RESERVED) || (n =? 0) then ret tt
  else
    let* _ := assert_ (index <? n) in
    let* v := at_ index in
    if ref_count_ext v =? 0
    then throw "cuda_dec_ref_ext(): Negative reference count!"
    else
      let* _ := update index
        (fun v => set_ref_count_ext (u32_pred (ref_count_ext v)) v) in
      let* v := at_ index in
      let* _ := when (ref_count_ext v =? 0)
                  (modify (with_active (fun a => a ∖ {[index]}))) in
      let* v := at_ index in
      when (is_collected v) (cuda_var_free fuel index).

Definition cuda_var_register (t : EnokiType) (sz : N) (ptr : N)
    (parent : N) (dealloc : bool) : M N :=
  let* n := trace_size in
  let idx := u32 n in
  let* _ := emplace_back
    (set_free dealloc (set_size sz (set_data ptr
       (set_cmd "" (set_dep (parent, 0, 0) (Variable_ t)))))) in
  let* _ := cuda_inc_ref_ext idx in
  let* _ := cuda_inc_ref_int parent in
  ret idx.

Definition cuda_var_mark_side_effect (index : N) : M unit :=
  let* n := trace_size in
  let* _ := assert_ ((ENOKI_CUDA_REG_RESERVED <? index) && (index <? n)) in
  update index (set_side_effect true).

Definition cuda_var_mark_dirty (index : N) : M unit :=
  let* n := trace_size in
  let* _ := assert_ ((ENOKI_CUDA_REG_RESERVED <? index) && (index <? n)) in
  let* _ := update index (set_dirty true) in
  modify (with_dirty (fun d => d ++ [index])).

End Tracer.

(** ** Text output *)

(** [oss << x] *)
Notation "a << b" := (String.append a b) (at level 50, left associativity).

Definition endl : string := String "010"%char "".

(** a number, as [operator<<] prints it *)
Definition dec (n : N) : string := NilZero.string_of_uint (N.to_uint n).

Definition empty (s : string) : bool :=
  match s with
  | EmptyString => true
  | String _ _ => false
  end.

(** [cmd[cmd.length() - 1]] *)
Fixpoint last_char (s : string) : option ascii :=
  match s with
  | EmptyString => None
  | String c EmptyString => Some c
  | String _ rest => last_char rest
  end.

Definition is_char (c : ascii) (d : string) : bool :=
  match d with
  | String c' EmptyString => Ascii.eqb c c'
  | _ => false
  end.

(** [reg_map[index]] of an [std::unordered_map]: a missing key reads as 0 *)
Definition reg_lookup (reg_map : gmap N N) (index : N) : N :=
  default 0 (reg_map !! index).

Section Emitter.
Context {B : Build}.

(** ** Template expansion *)

(** The loop of [cuda_render_cmd], from position [i] on; [rest] is
    [cmd.substr(i)].  The test [i + 2 >= cmd.length()] says that fewer than
    two characters follow position [i]. *)
Fixpoint render_loop (full : string) (tr : list Var) (reg_map : gmap N N)
    (index : N) (rest : string) (oss : string) : M string :=
  match rest with
  | EmptyString => ret oss
  | String c rest1 =>
      match is_char c "$", rest1 with
      | true, String ty (String d rest3) =>
          let dep_offset := u8 (N_of_ascii d + 256 - 48) in
          if negb (is_char ty "t") && negb (is_char ty "b")
             && negb (is_char ty "r")
          then throw "cuda_render_cmd: invalid '$' template!"
          else if (dep_offset <? 1) && (4 <? dep_offset)
          then throw "cuda_render_cmd: out of bounds!"
          else
            let* var := defined (tr !! N.to_nat index) in
            let* dep_ :=
              if dep_offset =? 1 then ret index
              else if dep_offset <? 2 then abort_with UndefinedBehaviour
              else defined (arr_get (dep var) (dep_offset - 2)) in
            if N.of_nat (length tr) <=? dep_
            then throw "cuda_render_cmd: out of bounds!"
            else
              let* dv := defined (tr !! N.to_nat dep_) in
              let dep_type := type dv in
              let result_ :=
                if is_char ty "t" then cuda_register_type dep_type
                else if is_char ty "b" then cuda_register_type_bin dep_type
                else if is_char ty "r" then cuda_register_name dep_type
                else None in
              match result_ with
              | None =>
                  (* the message ends with the number of [dep_type], whose
                     value is fixed by the missing header *)
                  throw ("CUDABackend: internal error -- unsupported type: "
                         << full << " marked with type ")
              | Some res =>
                  let oss := oss << res in
                  if is_char ty "r" then
                    match reg_map !! dep_ with
                    | None =>
                        throw "CUDABackend: internal error -- variable not found!"
                    | Some r =>
                        render_loop full tr reg_map index rest3 (oss << dec r)
                    end
                  else render_loop full tr reg_map index rest3 oss
              end
      | _, _ => render_loop full tr reg_map index rest1 (oss << String c "")
      end
  end.

(** The end of [cuda_render_cmd]: a template that is not empty and does
    not end in a newline gets a semicolon and a newline. *)
Definition terminate_line (cmd_ oss : string) : string :=
  match last_char cmd_ with
  | Some c => if Ascii.eqb c "010" then oss else oss << ";" << endl
  | None => oss
  end.

Definition cuda_render_cmd (oss : string) (tr : list Var)
    (reg_map : gmap N N) (index : N) : M string :=
  let* var := defined (tr !! N.to_nat index) in
  let cmd_ := cmd var in
  let* oss := render_loop cmd_ tr reg_map index cmd_ (oss << "    ") in
  ret (terminate_line cmd_ oss).

(** ** Assembly of one kernel *)

(** The register map: every scheduled node gets the next number, then
    [reg_map[2] = 2]. *)
Definition assign_registers (sweep : list N) : gmap N N * N :=
  fold_left (fun '(m, n_vars) index => (<[index := n_vars]> m, u32_succ n_vars))
            sweep (∅, ENOKI_CUDA_REG_RESERVED).

Definition make_reg_map (sweep : list N) : gmap N N :=
  <[2 := 2]> (assign_registers sweep).1.

Definition kernel_header (n_vars : N) : string :=
  ".version 6.3" << endl
  << ".target sm_75" << endl
  << ".address_size 64" << endl
  << endl
  << ".extern .func  (.param .b32 rv) vprintf (" << endl
  << "    .param .b64 fmt," << endl
  << "    .param .b64 buf" << endl
  << ");" << endl
  << endl
  << ".visible .entry enoki_kernel(.param .u64 ptr," << endl
  << "                             .param .u32 size) {" << endl
  << "    .reg.b8 %b<" << dec n_vars << ">;" << endl
  << "    .reg.b16 %w<" << dec n_vars << ">;" << endl
  << "    .reg.b32 %r<" << dec n_vars << ">;" << endl
  << "    .reg.b64 %rd<" << dec n_vars << ">;" << endl
  << "    .reg.f32 %f<" << dec n_vars << ">;" << endl
  << "    .reg.f64 %d<" << dec n_vars << ">;" << endl
  << "    .reg.pred %p<" << dec n_vars << ">;" << endl << endl
  << "    .reg.u64 %foo;"
  << endl
  << "    // Grid-stride loop setup" << endl
  << "    ld.param.u64 %rd0, [ptr];" << endl
  << "    cvta.to.global.u64 %rd0, %rd0;" << endl
  << "    ld.param.u32 %r1, [size];" << endl
  << "    mov.u32 %r4, %tid.x;" << endl
  << "    mov.u32 %r5, %ctaid.x;" << endl
  << "    mov.u32 %r6, %ntid.x;" << endl
  << "    mad.lo.u32 %r2, %r5, %r6, %r4;" << endl
  << "    setp.ge.u32 %p0, %r2, %r1;" << endl
  << "    @%p0 bra L0;" << endl
  << endl
  << "    mov.u32 %r7, %nctaid.x;" << endl
  << "    mul.lo.u32 %r3, %r6, %r7;" << endl
  << endl
  << "L1:" << endl
  << "    // Loop body" << endl.

Definition kernel_footer : string :=
  endl
  << "    add.u32     %r2, %r2, %r3;" << endl
  << "    setp.lt.u32 %p0, %r2, %r1;" << endl
  << "    @%p0 bra L1;" << endl
  << endl
  << "L0:" << endl
  << "    @!%p0 st.global.u64 [%rd0], %foo;" << endl
  << "    ret;" << endl
  << "}" << endl.

(** [if (!var.comment.empty()) oss << ": " << var.comment;] *)
Definition comment_suffix (var : Var) : string :=
  if empty (comment var) then "" else ": " << comment var.

(** The branch of the loop body for a node that carries a device pointer. *)
Definition emit_load (reg_map : gmap N N) (index : N) (var : Var)
    (oss : string) (ptrs : list N) : M (string * list N) :=
  let idx := N.of_nat (length ptrs) in
  let ptrs := ptrs ++ [data var] in
  let* name := defined (cuda_register_name (type var)) in
  let oss := oss << endl
      << "    // Load register " << name << dec (reg_lookup reg_map index)
      << comment_suffix var << endl
      << "    ld.global.u64 %rd8, [%rd0 + " << dec (idx * 8) << "];" << endl
      << "    cvta.to.global.u64 %rd8, %rd8;" << endl in
  let oss :=
    if size var =? 1 then oss
    else oss << "    mul.wide.u32 %rd9, %r2, "
             << dec (cuda_register_size (type var)) << ";" << endl
             << "    add.u64 %rd8, %rd8, %rd9;" << endl in
  if decide (type var = Bool) then
    ret (oss << "    ld.global.u8 %w1, [%rd8];" << endl
             << "    setp.ne.u16 " << name << dec (reg_lookup reg_map index)
             << ", %w1, 0;", ptrs)
  else
    let* ty := defined (cuda_register_type (type var)) in
    ret (oss << "    ld.global." << ty << " " << name
             << dec (reg_lookup reg_map index) << ", [%rd8]" << ";" << endl,
         ptrs).

(** The text of the store that follows the allocation of an output. *)
Definition emit_store (reg_map : gmap N N) (index : N) (var : Var)
    (oss : string) (idx : N) : M string :=
  let* name := defined (cuda_register_name (type var)) in
  let oss := oss << endl
      << "    // Store register " << name << dec (reg_lookup reg_map index)
      << comment_suffix var << endl
      << "    ld.global.u64 %rd8, [%rd0 + " << dec (idx * 8) << "];" << endl
      << "    cvta.to.global.u64 %rd8, %rd8;" << endl
      << "    mul.wide.u32 %rd9, %r2, "
      << dec (cuda_register_size (type var)) << ";" << endl
      << "    add.u64 %rd8, %rd8, %rd9;" << endl in
  if decide (type var = Bool) then
    ret (oss << "    selp.u16 %w1, 1, 0, " << name
             << dec (reg_lookup reg_map index) << ";" << endl
             << "    st.global.u8" << " [%rd8], %w1;" << endl)
  else
    let* ty := defined (cuda_register_type (type var)) in
    ret (oss << "    st.global." << ty << " [%rd8], " << name
             << dec (reg_lookup reg_map index) << ";" << endl).

(** The branch of the loop body for a node without a device pointer. *)
Definition emit_compute (fuel : nat) (size_ : N) (reg_map : gmap N N)
    (index : N) (var : Var) (oss : string) (ptrs : list N)
    : M (string * list N) :=
  let* oss :=
    if empty (comment var) then ret oss
    else
      let* name := defined (cuda_register_name (type var)) in
      ret (oss << "    // Compute register " << name
               << dec (reg_lookup reg_map index) << ": " << comment var
               << endl) in
  let* st := get in
  let* oss := cuda_render_cmd oss (__trace st) reg_map index in
  let* _ := when (side_effect var) (cuda_dec_ref_ext fuel index) in
  let* var := at_ index in
  if ref_count_ext var =? 0 then ret (oss, ptrs)
  else if negb (size var =? size_) then ret (oss, ptrs)
  else
    let* sz := cuda_var_size index in
    let size_in_bytes := (sz * cuda_register_size (type var)) mod 2 ^ 64 in
    let* p := cudaMalloc size_in_bytes in
    let* _ := update index (set_data p) in
    let* var := at_ index in
    let idx := N.of_nat (length ptrs) in
    let ptrs := ptrs ++ [data var] in
    let* oss := emit_store reg_map index var oss idx in
    ret (oss, ptrs).

(** The body of the loop over the schedule in [cuda_jit_assemble]. *)
Definition assemble_var (fuel : nat) (size_ : N) (reg_map : gmap N N)
    (acc : string * list N) (index : N) : M (string * list N) :=
  let '(oss, ptrs) := acc in
  let* var := at_ index in
  if is_collected var || (empty (cmd var) && (data var =? 0))
  then throw ("CUDABackend: found invalid/expired variable in schedule! "
              << dec index)
  else if negb (size var =? 1) && negb (size var =? size_)
  then throw "CUDABackend: encountered arrays of incompatible size!"
  else
    let oss := oss << endl in
    if negb (data var =? 0) then emit_load reg_map index var oss ptrs
    else emit_compute fuel size_ reg_map index var oss ptrs.

Definition cuda_jit_assemble (fuel : nat) (size_ : N) (sweep : list N)
    : M (string * list N) :=
  let n_vars := (assign_registers sweep).2 in
  let reg_map := make_reg_map sweep in
  let oss := kernel_header n_vars in
  let* acc := fold_each sweep (oss, []) (assemble_var fuel size_ reg_map) in
  ret (acc.1 << kernel_footer, acc.2).

(** [cuda_jit_run] hands the kernel to the driver. *)
Definition cuda_jit_run (source : string) (ptrs : list N) (size_ : N)
    : M unit :=
  modify (with_launches (fun l => l ++ [mkLaunch source ptrs size_])).

End Emitter.

(** ** Scheduling *)

Definition swap01 (a : array3) : array3 := let '(a0, a1, a2) := a in (a1, a0, a2).
Definition swap02 (a : array3) : array3 := let '(a0, a1, a2) := a in (a2, a1, a0).

(** The lambda [prio] of [sweep_recursive]: the subtree size of the node in
    slot [i] of [deps], 0 for a reserved index. *)
Definition prio (tr : list Var) (deps : array3) (i : N) : option N :=
  k ← arr_get deps i;
  if ENOKI_CUDA_REG_RESERVED <=? k
  then subtree_size <$> tr !! N.to_nat k
  else Some 0.

(** The three conditional swaps, in the order of the source. *)
Definition reorder_deps (tr : list Var) (deps : array3) : option array3 :=
  p1 ← prio tr deps 1; p2 ← prio tr deps 2;
  let deps := if p1 <? p2 then swap01 deps else deps in
  p0 ← prio tr deps 0; p2 ← prio tr deps 2;
  let deps := if p0 <? p2 then swap02 deps else deps in
  p0 ← prio tr deps 0; p1 ← prio tr deps 1;
  let deps := if p0 <? p1 then swap01 deps else deps in
  Some deps.

Definition array3_to_list (a : array3) : list N :=
  let '(a0, a1, a2) := a in [a0; a1; a2].

(** [sweep_recursive] reads the trace and updates the set [visited] and the
    vector [sweep]; the first argument bounds the depth of the recursion. *)
Fixpoint sweep_recursive (fuel : nat) (tr : list Var) (visited : gset N)
    (sweep : list N) (idx : N) : abort + (gset N * list N) :=
  match fuel with
  | O => inl OutOfFuel
  | S fuel' =>
      if decide (idx ∈ visited) then inr (visited, sweep)
      else
        let visited := {[idx]} ∪ visited in
        match tr !! N.to_nat idx with
        | None => inl UndefinedBehaviour
        | Some v =>
            match reorder_deps tr (dep v) with
            | None => inl UndefinedBehaviour
            | Some deps =>
                match
                  fold_left (fun acc k =>
                      match acc with
                      | inl e => inl e
                      | inr (visited, sweep) =>
                          if ENOKI_CUDA_REG_RESERVED <=? k
                          then sweep_recursive fuel' tr visited sweep k
                          else inr (visited, sweep)
                      end)
                    (array3_to_list deps) (inr (visited, sweep))
                with
                | inl e => inl e
                | inr (visited, sweep) => inr (visited, sweep ++ [idx])
                end
            end
        end
  end.

(** The first loop of [cuda_eval]: one visited set and one schedule per
    element count, filled from the active nodes. *)
Definition build_sweeps (fuel : nat) (tr : list Var) (active : list N)
    : abort + gmap N (gset N * list N) :=
  fold_left (fun acc idx =>
      match acc with
      | inl e => inl e
      | inr sweeps =>
          match tr !! N.to_nat idx with
          | None => inl UndefinedBehaviour
          | Some v =>
              let sweep := default (∅, []) (sweeps !! size v) in
              match sweep_recursive fuel tr sweep.1 sweep.2 idx with
              | inl e => inl e
              | inr r => inr (<[size v := r]> sweeps)
              end
          end
      end)
    active (inr ∅).

Definition lift_abort {A} (r : abort + A) : M A :=
  match r with
  | inl e => abort_with e
  | inr a => ret a
  end.

Section Builder.
Context {B : Build}.

(** The last loop of [cuda_eval] for one scheduled node: a computed node
    that has a device pointer drops its three dependencies. *)
Definition collapse_var (fuel : nat) (idx : N) : M unit :=
  let* v := at_ idx in
  when (negb (data v =? 0) && negb (empty (cmd v)))
    (for_each [0; 1; 2] (fun j =>
       let* v := at_ idx in
       let* d := defined (arr_get (dep v) j) in
       let* _ := cuda_dec_ref_int fuel d in
       update idx (fun v => set_dep (arr_set (dep v) j 0) v))).

(** The body of the loop over the buckets in [cuda_eval]. *)
Definition eval_bucket (fuel : nat) (bucket : N * (gset N * list N)) : M unit :=
  let size_ := bucket.1 in
  let schedule := bucket.2.2 in
  let* res := cuda_jit_assemble fuel size_ schedule in
  if empty res.1 then ret tt
  else
    let* _ := cuda_jit_run res.1 res.2 size_ in
    for_each schedule (collapse_var fuel).

Definition cuda_eval (fuel : nat) : M unit :=
  let* st := get in
  let* sweeps :=
    lift_abort (build_sweeps fuel (__trace st) (elements (__active st))) in
  let* _ := for_each (__dirty st) (fun idx => update idx (set_dirty false)) in
  let* _ := modify (with_active (fun _ => ∅)) in
  let* _ := modify (with_dirty (fun _ => [])) in
  for_each (map_to_list sweeps) (eval_bucket fuel).

(** ** Trace append routines *)

(** The four overloads of [cuda_trace_append]. *)
Definition cuda_trace_append0 (t : EnokiType) (cmd_ : string) : M N :=
  let* n := trace_size in
  let idx := u32 n in
  let* _ := emplace_back
    (set_subtree_size 1 (set_cmd cmd_ (set_dep (0, 0, 0) (Variable_ t)))) in
  let* _ := cuda_inc_ref_ext idx in
  let* _ := modify (with_active (fun a => {[idx]} ∪ a)) in
  ret idx.

Definition cuda_trace_append1 (fuel : nat) (t : EnokiType) (cmd_ : string)
    (arg1 : N) : M N :=
  let* n := trace_size in
  let* _ := assert_ (arg1 <? n) in
  let* v1 := at_ arg1 in
  let* _ := when (dirty v1) (cuda_eval fuel) in
  let* n := trace_size in
  let idx := u32 n in
  let* v1 := at_ arg1 in
  let* _ := emplace_back
    (set_subtree_size (u32 (subtree_size v1 + 1))
      (set_cmd cmd_ (set_dep (arg1, 0, 0) (set_size (size v1) (Variable_ t))))) in
  let* _ := cuda_inc_ref_int arg1 in
  let* _ := cuda_inc_ref_ext idx in
  let* _ := modify (with_active (fun a => {[idx]} ∪ a)) in
  ret idx.

Definition cuda_trace_append2 (fuel : nat) (t : EnokiType) (cmd_ : string)
    (arg1 arg2 : N) : M N :=
  let* n := trace_size in
  let* _ := assert_ ((arg1 <? n) && (arg2 <? n)) in
  let* v1 := at_ arg1 in
  let* d :=
    if dirty v1 then ret true else let* v2 := at_ arg2 in ret (dirty v2) in
  let* _ := when d (cuda_eval fuel) in
  let* n := trace_size in
  let idx := u32 n in
  let* v1 := at_ arg1 in
  let* v2 := at_ arg2 in
  let* _ := emplace_back
    (set_subtree_size (u32 (subtree_size v1 + subtree_size v2 + 1))
      (set_cmd cmd_ (set_dep (arg1, arg2, 0)
        (set_size (N.max (size v1) (size v2)) (Variable_ t))))) in
  let* _ := cuda_inc_ref_int arg1 in
  let* _ := cuda_inc_ref_int arg2 in
  let* _ := cuda_inc_ref_ext idx in
  let* _ := modify (with_active (fun a => {[idx]} ∪ a)) in
  ret idx.

Definition cuda_trace_append3 (fuel : nat) (t : EnokiType) (cmd_ : string)
    (arg1 arg2 arg3 : N) : M N :=
  let* n := trace_size in
  let* _ := assert_ ((arg1 <? n) && (arg2 <? n) && (arg3 <? n)) in
  let* v1 := at_ arg1 in
  let* d :=
    if dirty v1 then ret true
    else
      let* v2 := at_ arg2 in
      if dirty v2 then ret true else let* v3 := at_ arg3 in ret (dirty v3) in
  let* _ := when d (cuda_eval fuel) in
  let* n := trace_size in
  let idx := u32 n in
  let* v1 := at_ arg1 in
  let* v2 := at_ arg2 in
  let* v3 := at_ arg3 in
  let* _ := emplace_back
    (set_subtree_size
       (u32 (subtree_size v1 + subtree_size v2 + subtree_size v3 + 1))
      (set_cmd cmd_ (set_dep (arg1, arg2, arg3)
        (set_size (N.max (N.max (size v1) (size v2)) (size v3))
           (Variable_ t))))) in
  let* _ := cuda_inc_ref_int arg1 in
  let* _ := cuda_inc_ref_int arg2 in
  let* _ := cuda_inc_ref_int arg3 in
  let* _ := cuda_inc_ref_ext idx in
  let* _ := modify (with_active (fun a => {[idx]} ∪ a)) in
  ret idx.

(** ** printf *)

(** [(unsigned) fmt[i]] for a [char] that is signed *)
Definition unsigned_of_char (c : ascii) : N :=
  let n := N_of_ascii c in
  if n <? 128 then n else n + (2 ^ 32 - 256).

(** the bytes of [fmt], the terminating 0 included, separated by commas *)
Fixpoint fmt_bytes (fmt : string) : string :=
  match fmt with
  | EmptyString => dec 0
  | String c rest => dec (unsigned_of_char c) << ", " << fmt_bytes rest
  end.

(** The loop of [cuda_trace_printf] over the arguments. *)
Definition printf_args (arg : list N) (narg : N) (oss : string) : M string :=
  fold_each (seq 0 (N.to_nat narg)) oss (fun oss i =>
    let* a := defined (arg !! i) in
    let* n := trace_size in
    let* _ := assert_ (a <? n) in
    let* v := at_ a in
    let i := N.of_nat i in
    match type v with
    | Float32 =>
        ret (oss << "        cvt.f64.f32 %d0, $r" << dec (i + 2) << ";" << endl
                 << "        st.local.f64 [buf + " << dec (i * 8) << "], %d0;"
                 << endl)
    | _ =>
        ret (oss << "        st.local.$t" << dec (i + 2) << " [buf + "
                 << dec (i * 8) << "], $r" << dec (i + 2) << ";" << endl)
    end).

Definition printf_tail : string :=
  "        cvta.global.u64 %fmt_r, fmt;" << endl
  << "        cvta.local.u64 %buf_r, buf;" << endl
  << "        {" << endl
  << "            .param .b64 fmt_p;" << endl
  << "            .param .b64 buf_p;" << endl
  << "            .param .b32 rv_p;" << endl
  << "            st.param.b64 [fmt_p], %fmt_r;" << endl
  << "            st.param.b64 [buf_p], %buf_r;" << endl
  << "            call.uni (rv_p), vprintf, (fmt_p, buf_p);" << endl
  << "        }" << endl
  << "    }" << endl.

(** The PTX block that [cuda_trace_printf] builds. *)
Definition printf_block (fmt : string) (narg : N) (arg : list N) : M string :=
  let oss := "{" << endl
    << "        .global .align 1 .b8 fmt[] = {" << fmt_bytes fmt
    << "};" << endl
    << "        .local .align 8 .b8 buf[" << dec (u32 (8 * narg)) << "];" << endl
    << "        .reg.b64 %fmt_r, %buf_r;" << endl in
  let* oss := printf_args arg narg oss in
  ret (oss << printf_tail).

(** [arg[i]] for the call of an overload *)
Definition arg_at (arg : list N) (i : nat) : M N := defined (arg !! i).

(** The value returned by the overload is dropped; [idx] keeps its initial
    value 0 until the call of [cuda_var_mark_side_effect]. *)
Definition cuda_trace_printf (fuel : nat) (fmt : string) (narg : N)
    (arg : list N) : M unit :=
  let* block := printf_block fmt narg arg in
  let idx := 0 in
  let* _ :=
    if narg =? 0 then
      let* _ := cuda_trace_append0 UInt32 block in ret tt
    else if narg =? 1 then
      let* a0 := arg_at arg 0 in
      let* _ := cuda_trace_append1 fuel UInt32 block a0 in ret tt
    else if narg =? 2 then
      let* a0 := arg_at arg 0 in
      let* a1 := arg_at arg 1 in
      let* _ := cuda_trace_append2 fuel UInt32 block a0 a1 in ret tt
    else if narg =? 3 then
      let* a0 := arg_at arg 0 in
      let* a1 := arg_at arg 1 in
      let* a2 := arg_at arg 2 in
      let* _ := cuda_trace_append3 fuel UInt32 block a0 a1 a2 in ret tt
    else
      throw "cuda_trace_print(): at most 3 variables can be printed at once!" in
  cuda_var_mark_side_effect idx.

(** [cuda_fetch_element] up to the copy to the host: the result is the
    device address that [cudaMemcpy] reads. *)
Definition cuda_fetch_element (fuel : nat) (src index size_ : N) : M N :=
  let* v := at_ src in
  let* _ := when ((data v =? 0) || dirty v) (cuda_eval fuel) in
  let* v := at_ src in
  let* _ := assert_ (negb (dirty v)) in
  ret (data v + size_ * index).

Definition cuda_managed_malloc (size_ : N) : M N := cudaMalloc size_.

Definition cuda_managed_free (ptr : N) : M unit := cudaFree ptr.

End Builder.

(** ** The host interface *)

(** The two ways to build the file: with assertions and without. *)
Definition debug_build : Build := {| NDEBUG := false |}.
Definition release_build : Build := {| NDEBUG := true |}.

(** One call of an exported function. *)
Inductive call :=
  | call_init
  | call_shutdown
  | call_var_set_comment (index : N) (str : string)
  | call_var_set_size (index : N) (sz : N)
  | call_var_register (t : EnokiType) (sz ptr parent : N) (dealloc : bool)
  | call_var_free (fuel : nat) (idx : N)
  | call_inc_ref_ext (index : N)
  | call_inc_ref_int (index : N)
  | call_dec_ref_ext (fuel : nat) (index : N)
  | call_dec_ref_int (fuel : nat) (index : N)
  | call_var_mark_side_effect (index : N)
  | call_var_mark_dirty (index : N)
  | call_trace_append0 (t : EnokiType) (cmd_ : string)
  | call_trace_append1 (fuel : nat) (t : EnokiType) (cmd_ : string) (arg1 : N)
  | call_trace_append2 (fuel : nat) (t : EnokiType) (cmd_ : string)
      (arg1 arg2 : N)
  | call_trace_append3 (fuel : nat) (t : EnokiType) (cmd_ : string)
      (arg1 arg2 arg3 : N)
  | call_trace_printf (fuel : nat) (fmt : string) (narg : N) (arg : list N)
  | call_eval (fuel : nat)
  | call_jit_run (source : string) (ptrs : list N) (size_ : N)
  | call_fetch_element (fuel : nat) (src index size_ : N)
  | call_var_ptr (index : N)
  | call_var_size (index : N)
  | call_managed_malloc (size_ : N)
  | call_managed_free (ptr : N).

Definition ignore {A} (c : M A) : M unit := let* _ := c in ret tt.

Definition exec {B : Build} (c : call) : M unit :=
  match c with
  | call_init => cuda_init
  | call_shutdown => cuda_shutdown
  | call_var_set_comment i str => cuda_var_set_comment i str
  | call_var_set_size i sz => cuda_var_set_size i sz
  | call_var_register t sz ptr parent dealloc =>
      ignore (cuda_var_register t sz ptr parent dealloc)
  | call_var_free fuel idx => cuda_var_free fuel idx
  | call_inc_ref_ext i => cuda_inc_ref_ext i
  | call_inc_ref_int i => cuda_inc_ref_int i
  | call_dec_ref_ext fuel i => cuda_dec_ref_ext fuel i
  | call_dec_ref_int fuel i => cuda_dec_ref_int fuel i
  | call_var_mark_side_effect i => cuda_var_mark_side_effect i
  | call_var_mark_dirty i => cuda_var_mark_dirty i
  | call_trace_append0 t c => ignore (cuda_trace_append0 t c)
  | call_trace_append1 fuel t c a1 => ignore (cuda_trace_append1 fuel t c a1)
  | call_trace_append2 fuel t c a1 a2 =>
      ignore (cuda_trace_append2 fuel t c a1 a2)
  | call_trace_append3 fuel t c a1 a2 a3 =>
      ignore (cuda_trace_append3 fuel t c a1 a2 a3)
  | call_trace_printf fuel fmt narg arg => cuda_trace_printf fuel fmt narg arg
  | call_eval fuel => cuda_eval fuel
  | call_jit_run source ptrs sz => cuda_jit_run source ptrs sz
  | call_fetch_element fuel src i sz =>
      ignore (cuda_fetch_element fuel src i sz)
  | call_var_ptr i => ignore (cuda_var_ptr i)
  | call_var_size i => ignore (cuda_var_size i)
  | call_managed_malloc sz => ignore (cuda_managed_malloc sz)
  | call_managed_free ptr => cuda_managed_free ptr
  end.

(** The state in which a call leaves the process, when the process goes
    on: after a normal return or after an exception. *)
Definition state_after {A} (r : result A) : option State :=
  match r with
  | Ok _ s => Some s
  | Throw _ s => Some s
  | Abort _ => None
  end.

(** The states that a sequence of calls can produce. *)
Fixpoint run_calls {B : Build} (l : list call) (s : State) : option State :=
  match l with
  | [] => Some s
  | c :: l' =>
      match state_after (exec c s) with
      | Some s' => run_calls l' s'
      | None => None
      end
  end.

Definition reachable {B : Build} (s : State) : Prop :=
  exists l, run_calls l state0 = Some s.

(** ** Predicates on states *)

Definition node (s : State) (i : N) : option Var := __trace s !! N.to_nat i.

(** no node is dirty *)
Definition no_dirty (s : State) : Prop :=
  forall i v, node s i = Some v -> dirty v = false.

(** every dirty node is in the dirty queue *)
Definition dirty_queued (s : State) : Prop :=
  forall i v, node s i = Some v -> dirty v = true -> i ∈ __dirty s.

(** a computed node with a device pointer has dropped its dependencies *)
Definition collapsed (idx : N) (s : State) : Prop :=
  forall v, node s idx = Some v ->
    empty (cmd v) = false -> data v <> 0 -> dep v = (0, 0, 0).

Definition active_empty (s : State) : Prop := __active s = ∅.

Definition dirty_empty (s : State) : Prop := __dirty s = [].

(** the sizes and the subtree sizes of the nodes, in the order of the
    trace *)
Definition shape (s : State) : list (N * N) :=
  (fun v => (size v, subtree_size v)) <$> __trace s.

(** the body of the loop over the dirty queue in [cuda_eval] *)
Definition clear_dirty (idx : N) : M unit := update idx (set_dirty false).

(** the state that an evaluation leaves: nothing dirty, nothing active *)
Definition clean (s : State) : Prop :=
  no_dirty s /\ active_empty s /\ dirty_empty s.

(** what an append fixes of a node: element count, subtree size, dirty
    flag and dependencies, in the order of the trace *)
Definition view_of (v : Var) : N * N * bool * array3 :=
  (size v, subtree_size v, dirty v, dep v).

Definition view (s : State) : list (N * N * bool * array3) :=
  view_of <$> __trace s.

(** The barrier of an append: either no operand is dirty and nothing
    happens, or an operand is dirty and [cuda_eval] runs to its end. *)
Definition barrier {B : Build} (fuel : nat) (args : list N) (s s1 : State)
    : Prop :=
  ((forall a, a ∈ args -> exists v, node s a = Some v /\ dirty v = false) /\
   s1 = s) \/
  ((exists a v, a ∈ args /\ node s a = Some v /\ dirty v = true) /\
   cuda_eval fuel s = Ok tt s1).

(** the external reference count of node [index] is [c] *)
Definition ext_count (index c : N) (s : State) : Prop :=
  ref_count_ext <$> node s index = Some c.

(** a visited set and a schedule, as a traversal keeps them: no node twice
    in the schedule, every scheduled node visited *)
Definition sweep_ok (b : gset N * list N) : Prop :=
  NoDup b.2 /\ (forall x, x ∈ b.2 -> x ∈ b.1).

(** [b'] comes from [b] by traversals: more nodes are visited, and the
    nodes added to the schedule had not been visited *)
Definition extends (b b' : gset N * list N) : Prop :=
  sweep_ok b' /\ (forall x, x ∈ b.1 -> x ∈ b'.1) /\
  (forall x, x ∈ b'.2 -> x ∈ b.2 \/ (x ∉ b.1)).

(** slot [j] of the dependencies of node [idx] is 0 *)
Definition slot_zero (j idx : N) (s : State) : Prop :=
  forall w, node s idx = Some w -> arr_get (dep w) j = Some 0.

(** One round of the loop that drops the dependencies of [idx] in
    [collapse_var]. *)
Definition drop_dep {B : Build} (fuel : nat) (idx j : N) : M unit :=
  let* v := at_ idx in
  let* d := defined (arr_get (dep v) j) in
  let* _ := cuda_dec_ref_int fuel d in
  update idx (fun v => set_dep (arr_set (dep v) j 0) v).

(** the schedules that [cuda_eval] builds in state [s], bucket after
    bucket in the order of the loop over the buckets *)
Definition schedule_of (fuel : nat) (s : State) : option (list (list N)) :=
  match build_sweeps fuel (__trace s) (elements (__active s)) with
  | inl _ => None
  | inr sweeps => Some ((fun b => b.2.2) <$> map_to_list sweeps)
  end.

(** [idx] is in one of these schedules *)
Definition scheduled (fuel : nat) (s : State) (idx : N) : Prop :=
  exists ls l, schedule_of fuel s = Some ls /\ l ∈ ls /\ idx ∈ l.

(** ** Reading a template *)

(** no ['$'] in the text *)
Fixpoint no_dollar (s : string) : bool :=
  match s with
  | EmptyString => true
  | String c rest => negb (is_char c "$") && no_dollar rest
  end.

(** one of the letters [t], [b], [r] *)
Definition is_tbr (ty : ascii) : bool :=
  is_char ty "t" || is_char ty "b" || is_char ty "r".

(** The shape of a template that [cuda_render_cmd] accepts: ordinary
    characters, a ['$'] among the last two characters, and [$] followed by
    one of [t], [b], [r] and one more character. *)
Inductive scanned : string -> Prop :=
  | scanned_nil : scanned ""
  | scanned_char c rest :
      is_char c "$" = false -> scanned rest -> scanned (String c rest)
  | scanned_tail c rest :
      (String.length rest < 2)%nat -> scanned rest -> scanned (String c rest)
  | scanned_token ty d rest :
      is_tbr ty = true ->
      scanned rest ->
      scanned (String "$" (String ty (String d rest))).

(** [c] returns normally only if [P] holds *)
Definition returns_only_if {A} (c : M A) (P : Prop) : Prop :=
  forall s a s', c s = Ok a s' -> P.

(** ** Hoare triples for the monad *)

(** [triple P c Q E]: from a state in [P], a normal return of [c] ends in
    [Q] and an exception leaves a state in [E]. *)
Definition triple {A} (P : State -> Prop) (c : M A)
    (Q : A -> State -> Prop) (E : State -> Prop) : Prop :=
  forall s, P s ->
    match c s with
    | Ok a s' => Q a s'
    | Throw _ s' => E s'
    | Abort _ => True
    end.

(** [c] keeps the invariant [I], also when it throws. *)
Definition keeps {A} (I : State -> Prop) (c : M A) : Prop :=
  triple I c (fun _ => I) I.

(** [c] does not change the state. *)
Definition pure_ {A} (c : M A) : Prop :=
  forall s, match c s with
            | Ok _ s' => s' = s
            | Throw _ s' => s' = s
            | Abort _ => True
            end.

Definition set_node (i : N) (v : Var) (s : State) : State :=
  with_trace (fun tr => <[N.to_nat i := v]> tr) s.

(** The changes that reference counting makes to a node. *)
Inductive gc_step : Var -> Var -> Prop :=
  | gc_step_int v n : gc_step v (set_ref_count_int n v)
  | gc_step_dep v j : gc_step v (set_dep (arr_set (dep v) j 0) v)
  | gc_step_data v : gc_step v (set_data 0 v).

(** Invariants that survive the release of nodes. *)
Record gc_closed (I : State -> Prop) : Prop := {
  gc_node : forall s i v v',
    I s -> node s i = Some v -> gc_step v v' -> I (set_node i v' s)
}.

(** Invariants that survive an external decrement. *)
Record ext_closed (I : State -> Prop) : Prop := {
  ext_gc : gc_closed I;
  ext_node : forall s i v n,
    I s -> node s i = Some v -> I (set_node i (set_ref_count_ext n v) s);
  ext_active : forall s i, I s -> I (with_active (fun a => a ∖ {[i]}) s)
}.

(** Invariants that survive the assembly and the launch of a kernel in
    which only the nodes in [allowed] receive a buffer. *)
Record asm_closed (allowed : N -> Prop) (I : State -> Prop) : Prop := {
  asm_ext : ext_closed I;
  asm_dev : forall s f, I s -> I (with_dev_next f s);
  asm_data : forall s i v p,
    allowed i -> I s -> node s i = Some v -> I (set_node i (set_data p v) s);
  asm_launch : forall s f, I s -> I (with_launches f s)
}.

(** Invariants that survive a change of a reference count. *)
Definition count_closed (I : State -> Prop) : Prop :=
  forall s i v n,
    I s -> node s i = Some v ->
    I (set_node i (set_ref_count_int n v) s) /\
    I (set_node i (set_ref_count_ext n v) s).

(** ** Scenarios *)

(** Two nodes; the second one is marked as a side effect and its handle is
    released before the evaluation. *)
Definition released_side_effect : list call :=
  [ call_init;
    call_trace_append0 UInt32 "mov.u32 $r1, 1";
    call_trace_append0 UInt32 "mov.u32 $r1, 2";
    call_var_mark_side_effect 11;
    call_dec_ref_ext 100 11 ].

(** Two nodes; the second one is marked as a side effect and keeps the
    reference that it got when it was appended. *)
Definition held_side_effect : list call :=
  [ call_init;
    call_trace_append0 UInt32 "mov.u32 $r1, 1";
    call_trace_append0 UInt32 "mov.u32 $r1, 2";
    call_var_mark_side_effect 11 ].

(** A node with three operands whose subtree sizes are 1, 2 and 3; only
    the node itself keeps its handle. *)
Definition three_operands : list call :=
  [ call_init;
    call_trace_append0 UInt32 "mov.u32 $r1, 1";
    call_trace_append0 UInt32 "mov.u32 $r1, 2";
    call_trace_append1 100 UInt32 "neg.s32 $r1, $r2" 11;
    call_trace_append0 UInt32 "mov.u32 $r1, 3";
    call_trace_append0 UInt32 "mov.u32 $r1, 4";
    call_trace_append2 100 UInt32 "add.u32 $r1, $r2, $r3" 13 14;
    call_trace_append3 100 UInt32 "mad.lo.u32 $r1, $r2, $r3, $r4" 10 12 15;
    call_dec_ref_ext 100 10; call_dec_ref_ext 100 11;
    call_dec_ref_ext 100 12; call_dec_ref_ext 100 13;
    call_dec_ref_ext 100 14; call_dec_ref_ext 100 15 ].

(** [n] times [x = append(x, x)], from a start node. *)
Fixpoint doubling (n : nat) (last : N) : list call :=
  match n with
  | O => []
  | S n' =>
      call_trace_append2 100 UInt32 "add.u32 $r1, $r2, $r3" last last
      :: doubling n' (last + 1)
  end.

Definition doubled (n : nat) : list call :=
  call_init :: call_trace_append0 UInt32 "mov.u32 $r1, 1" :: doubling n 10.

(** A node that is marked dirty and then consumed. *)
Definition dirty_operand : list call :=
  [ call_init;
    call_trace_append0 UInt32 "mov.u32 $r1, 1";
    call_trace_append0 UInt32 "mov.u32 $r1, 2";
    call_var_mark_dirty 11 ].

(** the state after a sequence of calls, when there is one *)
Definition state_of (o : option State) : State := default state0 o.

(** The states at the end of the scenarios, in a build with assertions. *)
Definition state_after_calls (l : list call) : State :=
  state_of (@run_calls debug_build l state0).

Definition released_state : State := state_after_calls released_side_effect.
Definition held_state : State := state_after_calls held_side_effect.
Definition three_operands_state : State := state_after_calls three_operands.
Definition doubled_state (n : nat) : State := state_after_calls (doubled n).
Definition dirty_state : State := state_after_calls dirty_operand.

(** The overload of [cuda_trace_append] for a list of operands. *)
Definition append_overload {B : Build} (fuel : nat) (t : EnokiType)
    (cmd_ : string) (args : list N) : option (M N) :=
  match args with
  | [] => Some (cuda_trace_append0 t cmd_)
  | [a1] => Some (cuda_trace_append1 fuel t cmd_ a1)
  | [a1; a2] => Some (cuda_trace_append2 fuel t cmd_ a1 a2)
  | [a1; a2; a3] => Some (cuda_trace_append3 fuel t cmd_ a1 a2 a3)
  | _ => None
  end.

(** the dependency slots for a list of at most three operands *)
Definition deps_of (args : list N) : array3 :=
  (default 0 (args !! 0%nat), default 0 (args !! 1%nat),
   default 0 (args !! 2%nat)).

(** the largest element count among the operands, 1 without operands *)
Definition max_count (ops : list Var) : N :=
  match ops with
  | [] => 1
  | v :: vs => foldl N.max (size v) (size <$> vs)
  end.

(** the sum of the subtree sizes of the operands *)
Definition sum_subtree (ops : list Var) : N :=
  foldr N.add 0 (subtree_size <$> ops).

(** ** Further predicates on schedules *)

(** the visited nodes are the scheduled ones and the ones in [stack], the
    nodes whose traversal has begun and not ended *)
Definition visited_split (stack : list N) (b : gset N * list N) : Prop :=
  forall x, x ∈ b.1 <-> x ∈ b.2 \/ x ∈ stack.

(** every dependency at or above the reserved count is an earlier entry of
    the trace *)
Definition acyclic (tr : list Var) : Prop :=
  forall i v d,
    tr !! i = Some v -> d ∈ array3_to_list (dep v) ->
    ENOKI_CUDA_REG_RESERVED <= d -> (N.to_nat d < i)%nat.

Definition acyclic_state (s : State) : Prop := acyclic (__trace s).

(** the same, as a test *)
Definition acyclicb (tr : list Var) : bool :=
  forallb (fun iv : nat * Var =>
      forallb (fun d => (d <? ENOKI_CUDA_REG_RESERVED) || (d <? N.of_nat iv.1))
              (array3_to_list (dep iv.2)))
    (imap (fun i v => (i, v)) tr).

(** in a schedule, every dependency of a node at or above the reserved
    count stands before the node *)
Definition dependencies_first (tr : list Var) (sw : list N) : Prop :=
  forall pos i v d,
    sw !! pos = Some i -> tr !! N.to_nat i = Some v ->
    d ∈ array3_to_list (dep v) -> ENOKI_CUDA_REG_RESERVED <= d ->
    exists pos', (pos' < pos)%nat /\ sw !! pos' = Some d.

(** the priority of a slot, as [sweep_recursive] computes it, when the
    slot is in range *)
Definition prio_of (tr : list Var) (k : N) : N :=
  if ENOKI_CUDA_REG_RESERVED <=? k
  then default 0 (subtree_size <$> tr !! N.to_nat k)
  else 0.

(** a registration whose parent is a reserved index or a node of the
    trace *)
Definition parent_exists (c : call) (s : State) : Prop :=
  match c with
  | call_var_register _ _ _ parent _ =>
      parent < ENOKI_CUDA_REG_RESERVED \/
      (N.to_nat parent < length (__trace s))%nat
  | _ => True
  end.

(** the same for every call of a sequence, each in the state in which it
    is made *)
Fixpoint parents_exist {B : Build} (l : list call) (s : State) : Prop :=
  match l with
  | [] => True
  | c :: l' =>
      parent_exists c s /\
      match state_after (exec c s) with
      | Some s' => parents_exist l' s'
      | None => True
      end
  end.

(** a buffer is registered, a view of it with the buffer as its parent,
    and a node computed from the view *)
Definition registered_parent : list call :=
  [call_init;
   call_var_register Float32 16 4096 0 false;
   call_var_register Float32 8 4128 10 false;
   call_trace_append1 10 Float32 "add.f32 $r1, $r2, $r2" 11].

Definition registered_parent_state : State :=
  state_after_calls registered_parent.

(** [j] is [i] or is reached from [i] through dependencies at or above the
    reserved count *)
Inductive reaches (tr : list Var) : N -> N -> Prop :=
  | reaches_refl i : reaches tr i i
  | reaches_step i v d j :
      tr !! N.to_nat i = Some v -> d ∈ array3_to_list (dep v) ->
      ENOKI_CUDA_REG_RESERVED <= d -> reaches tr d j -> reaches tr i j.

(** ** Further scenarios *)

(** the state of [three_operands] before the handles of the operands are
    released: every node holds one external reference *)
Definition handles_held : list call := firstn 8 three_operands.

Definition handles_held_state : State := state_after_calls handles_held.

(** the top node of [handles_held] loses its handle *)
Definition top_released_state : State :=
  state_of (state_after
    (@cuda_dec_ref_ext debug_build 100 16 handles_held_state)).

(** the node computed from the registered view loses its handle, so that
    the view is referenced by its own handle only *)
Definition view_unused : list call :=
  registered_parent ++ [call_dec_ref_ext 10 12].

Definition view_unused_state : State := state_after_calls view_unused.

(** the view loses its handle too *)
Definition view_released_state : State :=
  state_of (state_after
    (@cuda_dec_ref_ext debug_build 10 11 view_unused_state)).

(** the state after the evaluation of [three_operands] *)
Definition three_operands_evaluated : State :=
  state_of (state_after (@cuda_eval debug_build 100 three_operands_state)).

(** a node whose template names the register of the reserved operand 1,
    which has none *)
Definition reserved_operand : list call :=
  [call_init; call_trace_append1 10 UInt32 "mov.u32 $r1, $r2" 1].

Definition reserved_operand_state : State :=
  state_after_calls reserved_operand.

Definition reserved_operand_failed : State :=
  state_of (state_after (@cuda_eval debug_build 100 reserved_operand_state)).

(** nodes of two element counts are active *)
Definition two_sizes : list call :=
  [call_init;
   call_var_register Float32 16 4096 0 false;
   call_var_register Float32 8 4128 0 false;
   call_trace_append1 10 Float32 "neg.f32 $r1, $r2" 10;
   call_trace_append1 10 Float32 "neg.f32 $r1, $r2" 11;
   call_trace_append1 10 Float32 "abs.f32 $r1, $r2" 10].

Definition two_sizes_state : State := state_after_calls two_sizes.

Definition two_sizes_evaluated : State :=
  state_of (state_after (@cuda_eval debug_build 100 two_sizes_state)).

(** the list of the launches is [L] *)
Definition launched (L : list Launch) (s : State) : Prop := launches s = L.

(** what a node is created with and keeps: type, instruction template,
    ownership of the buffer and subtree size *)
Definition origin_of (v : Var) : EnokiType * string * bool * N :=
  (type v, cmd v, free v, subtree_size v).

(** the same for the trace, in its order *)
Definition origin (s : State) : list (EnokiType * string * bool * N) :=
  origin_of <$> __trace s.

(** the trace begins with nodes created as in [l] *)
Definition begins_with (l : list (EnokiType * string * bool * N))
    (s : State) : Prop :=
  l `prefix_of` origin s.

(** the calls that replace the trace *)
Definition replaces_trace (c : call) : bool :=
  match c with
  | call_init | call_shutdown => true
  | _ => false
  end.

(** the node that the digit [k] of a placeholder names: the node itself
    for 1, the operand [k - 2] for 2, 3 and 4 *)
Definition placeholder_target (index : N) (v : Var) (k : N) : option N :=
  if k =? 1 then Some index else arr_get (dep v) (k - 2).

(** the character of the digit [k] *)
Definition digit (k : N) : ascii := ascii_of_N (48 + k).

(** a placeholder: ['$'], a letter and a digit *)
Definition placeholder (ty : ascii) (k : N) : string :=
  String "$" (String ty (String (digit k) "")).

(** the number of increments that the operands [args] cause on the
    internal count of node [a]: one for each occurrence, none for a
    reserved index *)
Definition uses (args : list N) (a : N) : nat :=
  if a <? ENOKI_CUDA_REG_RESERVED then 0%nat else count_occ N.eq_dec args a.

(** [s'] is [s] with the internal counts raised for the operands [args] *)
Definition counted (args : list N) (s s' : State) : Prop :=
  __active s' = __active s /\ __dirty s' = __dirty s /\
  launches s' = launches s /\
  length (__trace s') = length (__trace s) /\
  forall a v, node s a = Some v ->
    node s' a =
    Some (set_ref_count_int
            (Nat.iter (uses args a) u32_succ (ref_count_int v)) v).

(** the increments for a list of operands, one after the other, and then
    [k] *)
Definition inc_each {B : Build} {A} (args : list N) (k : M A) : M A :=
  fold_right (fun a acc => let* _ := cuda_inc_ref_int a in acc) k args.

(** a node computed from the same operand twice *)
Definition squared : list call :=
  [call_init;
   call_trace_append0 Float32 "mov.f32 $r1, 0f40000000";
   call_trace_append2 10 Float32 "mul.f32 $r1, $r2, $r3" 10 10].

Definition squared_state : State := state_after_calls (firstn 2 squared).

(** the number of bits of a byte count, as the binary type names it *)
Definition bits_token (bytes : N) : string := "b" << dec (8 * bytes).

(** the state of [registered_parent] before the registration of the
    view *)
Definition buffer_registered_state : State :=
  state_after_calls (firstn 2 registered_parent).


(** a node is marked dirty and the trace is set up again before any
    evaluation *)
Definition marked_then_init : list call :=
  [call_init;
   call_trace_append0 UInt32 "mov.u32 $r1, 1";
   call_trace_append0 UInt32 "mov.u32 $r1, 2";
   call_var_mark_dirty 11;
   call_shutdown].

Definition marked_then_init_state : State :=
  state_after_calls marked_then_init.

(** every node of the active set is a node of the trace *)
Definition active_exist (s : State) : Prop :=
  forall idx, idx ∈ __active s -> (N.to_nat idx < length (__trace s))%nat.

(** and the trace has more than [n] nodes *)
Definition active_exist_beyond (n : N) (s : State) : Prop :=
  active_exist s /\ (N.to_nat n < length (__trace s))%nat.

(** node [idx] has an empty template and no buffer *)
Definition hollow (idx : N) (s : State) : Prop :=
  exists v, node s idx = Some v /\ empty (cmd v) = true /\ data v = 0.

(** node [idx] has [sz] elements *)
Definition sized (idx sz : N) (s : State) : Prop :=
  exists v, node s idx = Some v /\ size v = sz.

(** a node with an empty template is active *)
Definition hollow_node : list call :=
  [call_init; call_trace_append0 UInt32 ""].

Definition hollow_state : State := state_after_calls hollow_node.

(** a node computed from buffers of 16 and of 8 elements *)
Definition mixed_sizes : list call :=
  [call_init;
   call_var_register Float32 16 4096 0 false;
   call_var_register Float32 8 4128 0 false;
   call_trace_append2 10 Float32 "add.f32 $r1, $r2, $r3" 10 11].

Definition mixed_sizes_state : State := state_after_calls mixed_sizes.

(** ** Internal counts and dependency slots *)

(** the number of slots of the dependencies [d] that hold [a] *)
Definition occ (d : array3) (a : N) : nat :=
  count_occ N.eq_dec (array3_to_list d) a.

(** the number of dependency slots of the trace that hold [a] *)
Definition slots (tr : list Var) (a : N) : nat :=
  sum_list_with (fun v => occ (dep v) a) tr.

(** one more decrement of node [d] has been made than slots have been
    cleared, or one more slot holds [d] than increments have been made *)
Definition owed_add (d : N) (owed : N -> nat) : N -> nat :=
  fun a => if decide (a = d) then S (owed a) else owed a.

(** the internal count of every node above the reserved indices is a
    32-bit number that, with the count that is owed, is the number of the
    slots that hold the node, modulo 2^32 *)
Definition balanced_but (owed : N -> nat) (s : State) : Prop :=
  forall a v, ENOKI_CUDA_REG_RESERVED <= a -> node s a = Some v ->
    ref_count_int v < 2 ^ 32 /\
    u32 (ref_count_int v + N.of_nat (owed a))
    = u32 (N.of_nat (slots (__trace s) a)).

Definition balanced (s : State) : Prop := balanced_but (fun _ => 0%nat) s.

(** the invariant of a release: the dependencies point backwards, the
    counts are balanced up to [owed], the trace is not empty, and [F]
    holds, which speaks of nodes that the release does not reach *)
Definition releasing (owed : N -> nat) (F : State -> Prop) (s : State)
    : Prop :=
  acyclic_state s /\ balanced_but owed s /\ __trace s <> [] /\ F s.

(** [F] does not depend on the nodes up to [x] *)
Definition above (x : N) (F : State -> Prop) : Prop :=
  forall s j v', j <= x -> F s -> F (set_node j v' s).

(** the calls that leave the internal counts to the library *)
Definition counts_by_library (c : call) : bool :=
  match c with
  | call_inc_ref_int _ | call_dec_ref_int _ _ => false
  | _ => true
  end.

(** the invariant of the trace between two calls *)
Definition sound (s : State) : Prop := acyclic_state s /\ balanced s.

(** the calls of a sequence leave the internal counts to the library *)
Definition library_counts (l : list call) : bool := forallb counts_by_library l.

(** ** Nodes that wait for an evaluation *)

(** node [idx] holds a handle, is no side effect, and has a template and
    [sz] elements; the next address of the allocator is not null *)
Definition awaiting (idx sz : N) (s : State) : Prop :=
  dev_next s <> 0 /\
  exists v, node s idx = Some v /\ ref_count_ext v <> 0 /\
            side_effect v = false /\ empty (cmd v) = false /\ size v = sz.

(** and it has a buffer *)
Definition materialised (idx sz : N) (s : State) : Prop :=
  awaiting idx sz s /\ exists v, node s idx = Some v /\ data v <> 0.

(** what the evaluation may change of the node [idx] without harm *)
Definition same_node (v v' : Var) : Prop :=
  ref_count_ext v' = ref_count_ext v /\ side_effect v' = side_effect v /\
  cmd v' = cmd v /\ size v' = size v /\ (data v' = data v \/ data v' <> 0).

(** * Proofs *)

(** ** Rules of the triples *)

Lemma triple_conseq {A} (P P' : State -> Prop) (c : M A)
    (Q Q' : A -> State -> Prop) (E E' : State -> Prop) :
  triple P' c Q' E' ->
  (forall s, P s -> P' s) ->
  (forall a s, Q' a s -> Q a s) ->
  (forall s, E' s -> E s) ->
  triple P c Q E.
Proof.
  intros H HP HQ HE s Hs. specialize (H s (HP s Hs)).
  destruct (c s); auto.
Qed.

Lemma triple_pre {A} (P P' : State -> Prop) (c : M A) Q E :
  triple P' c Q E -> (forall s, P s -> P' s) -> triple P c Q E.
Proof. intros H HP. eapply triple_conseq; eauto. Qed.

Lemma triple_ret {A} (P : State -> Prop) (a : A) (Q : A -> State -> Prop) E :
  (forall s, P s -> Q a s) -> triple P (ret a) Q E.
Proof. intros H s Hs. simpl. auto. Qed.

Lemma triple_bind {A B} (P : State -> Prop) (c : M A) (k : A -> M B)
    (Q' : A -> State -> Prop) (Q : B -> State -> Prop) E :
  triple P c Q' E ->
  (forall a, triple (Q' a) (k a) Q E) ->
  triple P (bind c k) Q E.
Proof.
  intros Hc Hk s Hs. unfold bind. specialize (Hc s Hs).
  destruct (c s) as [a s'|msg s'|r]; auto.
  apply (Hk a s' Hc).
Qed.

Lemma triple_modify (P : State -> Prop) f (Q : unit -> State -> Prop) E :
  (forall s, P s -> Q tt (f s)) -> triple P (modify f) Q E.
Proof. intros H s Hs. simpl. auto. Qed.

Lemma pure_ret {A} (a : A) : pure_ (ret a).
Proof. intros s. reflexivity. Qed.

Lemma pure_get : pure_ get.
Proof. intros s. reflexivity. Qed.

Lemma pure_trace_size : pure_ trace_size.
Proof. intros s. reflexivity. Qed.

Lemma pure_defined {A} (o : option A) : pure_ (defined o).
Proof. intros s. destruct o; simpl; auto. Qed.

Lemma pure_at index : pure_ (at_ index).
Proof. intros s. unfold at_. apply pure_defined. Qed.

Lemma pure_lift_abort {A} (r : abort + A) : pure_ (lift_abort r).
Proof. intros s. destruct r; simpl; auto. Qed.

Lemma pure_assert {B : Build} c : pure_ (assert_ c).
Proof. intros s. unfold assert_. destruct c, NDEBUG; simpl; auto. Qed.

Lemma pure_throw {A} msg : pure_ (@throw A msg).
Proof. intros s. reflexivity. Qed.

Lemma pure_abort {A} r : pure_ (@abort_with A r).
Proof. intros s. exact I. Qed.

Lemma pure_bind {A C} (c : M A) (k : A -> M C) :
  pure_ c -> (forall a, pure_ (k a)) -> pure_ (bind c k).
Proof.
  intros Hc Hk s. unfold bind. specialize (Hc s).
  destruct (c s) as [a s'|msg s'|r]; auto. subst. apply Hk.
Qed.

Lemma pure_fold_each {A C} (l : list A) (acc : C) body :
  (forall acc x, pure_ (body acc x)) -> pure_ (fold_each l acc body).
Proof.
  intros Hb. revert acc. induction l as [|x l IH]; intros acc; simpl.
  - apply pure_ret.
  - apply pure_bind; auto.
Qed.

(** A computation that only reads keeps every invariant. *)
Lemma keeps_pure {A} (I : State -> Prop) (c : M A) : pure_ c -> keeps I c.
Proof.
  intros Hc s Hs. specialize (Hc s).
  destruct (c s); auto; subst; auto.
Qed.

Lemma keeps_bind {A C} (I : State -> Prop) (c : M A) (k : A -> M C) :
  keeps I c -> (forall a, keeps I (k a)) -> keeps I (bind c k).
Proof. intros Hc Hk. eapply triple_bind; eauto. Qed.

Lemma keeps_modify (I : State -> Prop) f :
  (forall s, I s -> I (f s)) -> keeps I (modify f).
Proof. intros H. apply triple_modify. auto. Qed.

Lemma keeps_when (I : State -> Prop) b c : keeps I c -> keeps I (when b c).
Proof.
  intros H. destruct b; simpl; auto. apply keeps_pure, pure_ret.
Qed.

Lemma keeps_update (I : State -> Prop) index f :
  (forall s v, I s -> node s index = Some v -> I (set_node index (f v) s)) ->
  keeps I (update index f).
Proof.
  intros H s Hs. unfold update, bind, at_.
  destruct (__trace s !! N.to_nat index) as [v|] eqn:Hv; simpl; auto.
  apply H; auto.
Qed.

Lemma keeps_for_each {A} (I : State -> Prop) (l : list A) body :
  (forall x, x ∈ l -> keeps I (body x)) -> keeps I (for_each l body).
Proof.
  induction l as [|x l IH]; intros Hb; simpl.
  - apply keeps_pure, pure_ret.
  - apply keeps_bind.
    + apply Hb. left.
    + intros _. apply IH. intros y Hy. apply Hb. right. exact Hy.
Qed.

Lemma keeps_fold_each {A C} (I : State -> Prop) (l : list A) (acc : C) body :
  (forall acc x, x ∈ l -> keeps I (body acc x)) ->
  keeps I (fold_each l acc body).
Proof.
  revert acc. induction l as [|x l IH]; intros acc Hb; simpl.
  - apply keeps_pure, pure_ret.
  - apply keeps_bind.
    + apply Hb. left.
    + intros acc'. apply IH. intros a y Hy. apply Hb. right. exact Hy.
Qed.

(** What a normal return of a sequence says about its two halves. *)
Lemma bind_Ok {A C} (c : M A) (k : A -> M C) s b s' :
  bind c k s = Ok b s' ->
  exists a s1, c s = Ok a s1 /\ k a s1 = Ok b s'.
Proof.
  unfold bind. destruct (c s) as [a s1|msg s1|r]; intros H; try discriminate.
  eauto.
Qed.

Lemma pure_Ok {A} (c : M A) s a s' : pure_ c -> c s = Ok a s' -> s' = s.
Proof. intros Hc H. specialize (Hc s). rewrite H in Hc. exact Hc. Qed.

Lemma at_Ok index s v s' :
  at_ index s = Ok v s' -> s' = s /\ node s index = Some v.
Proof.
  unfold at_, node. destruct (__trace s !! N.to_nat index); simpl; intros H;
    inversion H; auto.
Qed.

Lemma update_Ok index f s s' :
  update index f s = Ok tt s' ->
  exists v, node s index = Some v /\ s' = set_node index (f v) s.
Proof.
  unfold update. intros H. apply bind_Ok in H as (v & s1 & H1 & H2).
  apply at_Ok in H1 as [-> Hv]. exists v. split; auto.
  unfold modify in H2. inversion H2. reflexivity.
Qed.

Lemma assert_Ok {B : Build} c s s' :
  assert_ c s = Ok tt s' -> s' = s /\ (NDEBUG = false -> c = true).
Proof.
  unfold assert_. destruct c; simpl.
  - intros H. inversion H. auto.
  - destruct NDEBUG; simpl; intros H; inversion H.
    split; [reflexivity | discriminate].
Qed.

(** ** Nodes of a trace *)

Lemma node_set_node_eq s i v v0 :
  node s i = Some v0 -> node (set_node i v s) i = Some v.
Proof.
  unfold node, set_node. simpl. intros H.
  apply list_lookup_insert_eq. eapply lookup_lt_Some; eauto.
Qed.

Lemma node_set_node_ne s i j v :
  i <> j -> node (set_node i v s) j = node s j.
Proof.
  unfold node, set_node. simpl. intros H.
  apply list_lookup_insert_ne. lia.
Qed.

Lemma node_set_node s i j v v0 :
  node s i = Some v0 ->
  node (set_node i v s) j = if decide (i = j) then Some v else node s j.
Proof.
  intros H. destruct (decide (i = j)) as [<-|Hne].
  - eapply node_set_node_eq; eauto.
  - apply node_set_node_ne; auto.
Qed.

(** ** Invariants of reference counting *)

Ltac keeps_step :=
  lazymatch goal with
  | |- keeps _ (bind _ _) => apply keeps_bind; [ | intros ? ]
  | |- keeps _ (ret _) => apply keeps_pure, pure_ret
  | |- keeps _ (throw _) => apply keeps_pure, pure_throw
  | |- keeps _ (abort_with _) => apply keeps_pure, pure_abort
  | |- keeps _ get => apply keeps_pure, pure_get
  | |- keeps _ trace_size => apply keeps_pure, pure_trace_size
  | |- keeps _ (at_ _) => apply keeps_pure, pure_at
  | |- keeps _ (defined _) => apply keeps_pure, pure_defined
  | |- keeps _ (assert_ _) => apply keeps_pure, pure_assert
  | |- keeps _ (lift_abort _) => apply keeps_pure, pure_lift_abort
  | |- keeps _ (cudaFree _) => apply keeps_pure, pure_ret
  | |- keeps _ (when _ _) => apply keeps_when
  | |- keeps _ (for_each _ _) => apply keeps_for_each; intros ? ?
  | |- keeps _ (fold_each _ _ _) => apply keeps_fold_each; intros ? ? ?
  | |- keeps _ (if ?b then _ else _) => destruct b
  | |- keeps _ (match ?x with _ => _ end) => destruct x
  end.

Section Collector.
Context {B : Build}.
Variable I : State -> Prop.

Lemma keeps_gc_update index f :
  gc_closed I -> (forall v, gc_step v (f v)) -> keeps I (update index f).
Proof.
  intros HI Hf. apply keeps_update. intros s v Hs Hv.
  eapply gc_node; eauto.
Qed.

Lemma keeps_dec_ref_int_with var_free index :
  gc_closed I -> (forall i, keeps I (var_free i)) ->
  keeps I (dec_ref_int_with var_free index).
Proof.
  intros HI Hfree. unfold dec_ref_int_with.
  repeat keeps_step; auto.
  apply keeps_gc_update; auto. intros v. constructor.
Qed.

Lemma keeps_var_free fuel idx : gc_closed I -> keeps I (cuda_var_free fuel idx).
Proof.
  intros HI. revert idx. induction fuel as [|fuel IH]; intros idx; simpl.
  - keeps_step.
  - repeat keeps_step;
      lazymatch goal with
      | |- keeps _ (dec_ref_int_with _ _) =>
          apply keeps_dec_ref_int_with; auto
      | |- keeps _ (update _ _) =>
          apply keeps_gc_update; auto; intros v; constructor
      end.
Qed.

Lemma keeps_dec_ref_int fuel index :
  gc_closed I -> keeps I (cuda_dec_ref_int fuel index).
Proof.
  intros HI. apply keeps_dec_ref_int_with; auto.
  intros i. apply keeps_var_free; auto.
Qed.

Lemma keeps_inc_ref_int index :
  gc_closed I -> keeps I (cuda_inc_ref_int index).
Proof.
  intros HI. unfold cuda_inc_ref_int. repeat keeps_step.
  apply keeps_gc_update; auto. intros v. constructor.
Qed.

Lemma keeps_inc_ref_ext index :
  ext_closed I -> keeps I (cuda_inc_ref_ext index).
Proof.
  intros HI. unfold cuda_inc_ref_ext. repeat keeps_step.
  apply keeps_update. intros s v Hs Hv. eapply ext_node; eauto.
Qed.

Lemma keeps_dec_ref_ext fuel index :
  ext_closed I -> keeps I (cuda_dec_ref_ext fuel index).
Proof.
  intros HI. unfold cuda_dec_ref_ext. repeat keeps_step.
  - apply keeps_update. intros s v Hs Hv. eapply ext_node; eauto.
  - apply keeps_modify. intros s Hs. apply ext_active; auto.
  - apply keeps_var_free. apply HI.
Qed.

End Collector.

(** ** Invariants of the emitter *)

Ltac pure_step :=
  lazymatch goal with
  | |- pure_ (bind _ _) => apply pure_bind; [ | intros ? ]
  | |- pure_ (ret _) => apply pure_ret
  | |- pure_ (throw _) => apply pure_throw
  | |- pure_ (abort_with _) => apply pure_abort
  | |- pure_ get => apply pure_get
  | |- pure_ trace_size => apply pure_trace_size
  | |- pure_ (at_ _) => apply pure_at
  | |- pure_ (defined _) => apply pure_defined
  | |- pure_ (assert_ _) => apply pure_assert
  | |- pure_ (lift_abort _) => apply pure_lift_abort
  | |- pure_ (fold_each _ _ _) => apply pure_fold_each; intros ? ?
  | |- pure_ (if ?b then _ else _) => destruct b
  | |- pure_ (match ?x with _ => _ end) => destruct x
  end.

Section EmitterFacts.
Context {B : Build}.

Lemma pure_render_loop full tr reg_map index rest oss :
  pure_ (render_loop full tr reg_map index rest oss).
Proof.
  remember (String.length rest) as n eqn:Hn.
  revert rest oss Hn. induction n as [n IH] using lt_wf_ind.
  intros rest oss Hn. destruct rest as [|c rest1]; cbn [render_loop].
  - apply pure_ret.
  - destruct (is_char c "$").
    + destruct rest1 as [|ty [|d rest3]].
      * eapply IH; [ | reflexivity]. subst n. simpl. lia.
      * eapply IH; [ | reflexivity]. subst n. simpl. lia.
      * repeat pure_step; (eapply IH; [ | reflexivity]); subst n; simpl; lia.
    + eapply IH; [ | reflexivity]. subst n. simpl. lia.
Qed.

Lemma pure_cuda_render_cmd oss tr reg_map index :
  pure_ (cuda_render_cmd oss tr reg_map index).
Proof.
  unfold cuda_render_cmd. repeat pure_step. apply pure_render_loop.
Qed.

Lemma pure_emit_load reg_map index var oss ptrs :
  pure_ (emit_load reg_map index var oss ptrs).
Proof. unfold emit_load. repeat pure_step. Qed.

Lemma pure_emit_store reg_map index var oss idx :
  pure_ (emit_store reg_map index var oss idx).
Proof. unfold emit_store. repeat pure_step. Qed.

Lemma pure_cuda_var_size index : pure_ (cuda_var_size index).
Proof. unfold cuda_var_size. repeat pure_step. Qed.

Variable allowed : N -> Prop.
Variable I : State -> Prop.
Hypothesis HI : asm_closed allowed I.

Lemma keeps_cudaMalloc bytes : keeps I (cudaMalloc bytes).
Proof. intros s Hs. simpl. apply HI. exact Hs. Qed.

Lemma keeps_emit_compute fuel size_ reg_map index var oss ptrs :
  allowed index ->
  keeps I (emit_compute fuel size_ reg_map index var oss ptrs).
Proof.
  intros Hal. unfold emit_compute.
  repeat keeps_step;
    lazymatch goal with
    | |- keeps _ (cuda_render_cmd _ _ _ _) =>
        apply keeps_pure, pure_cuda_render_cmd
    | |- keeps _ (cuda_dec_ref_ext _ _) => apply keeps_dec_ref_ext, HI
    | |- keeps _ (cuda_var_size _) => apply keeps_pure, pure_cuda_var_size
    | |- keeps _ (cudaMalloc _) => apply keeps_cudaMalloc
    | |- keeps _ (emit_store _ _ _ _ _) => apply keeps_pure, pure_emit_store
    | |- keeps _ (update _ _) =>
        apply keeps_update; intros s v Hs Hv; eapply asm_data; eauto
    end.
Qed.

Lemma keeps_assemble_var fuel size_ reg_map acc index :
  allowed index -> keeps I (assemble_var fuel size_ reg_map acc index).
Proof.
  intros Hal. unfold assemble_var. destruct acc as [oss ptrs].
  repeat keeps_step.
  - apply keeps_pure, pure_emit_load.
  - apply keeps_emit_compute; auto.
Qed.

Lemma keeps_cuda_jit_assemble fuel size_ sweep :
  (forall i, i ∈ sweep -> allowed i) ->
  keeps I (cuda_jit_assemble fuel size_ sweep).
Proof.
  intros Hal. unfold cuda_jit_assemble. repeat keeps_step.
  apply keeps_assemble_var. auto.
Qed.

Lemma keeps_cuda_jit_run source ptrs size_ :
  keeps I (cuda_jit_run source ptrs size_).
Proof. apply keeps_modify. intros s Hs. apply HI. exact Hs. Qed.

Lemma keeps_collapse_var fuel idx : keeps I (collapse_var fuel idx).
Proof.
  unfold collapse_var. simpl.
  repeat keeps_step;
    lazymatch goal with
    | |- keeps _ (cuda_dec_ref_int _ _) => apply keeps_dec_ref_int, HI
    | |- keeps _ (update _ _) =>
        apply keeps_gc_update; [apply HI | intros v; constructor]
    end.
Qed.

Lemma keeps_eval_bucket fuel bucket :
  (forall i, i ∈ bucket.2.2 -> allowed i) ->
  keeps I (eval_bucket fuel bucket).
Proof.
  intros Hal. unfold eval_bucket. repeat keeps_step.
  - apply keeps_cuda_jit_assemble; auto.
  - apply keeps_cuda_jit_run.
  - apply keeps_collapse_var.
Qed.

End EmitterFacts.

(** ** The invariants at hand *)

Lemma gc_step_dirty v v' : gc_step v v' -> dirty v' = dirty v.
Proof. intros H. destruct H; reflexivity. Qed.

Lemma gc_step_meta v v' :
  gc_step v v' ->
  cmd v' = cmd v /\ size v' = size v /\ subtree_size v' = subtree_size v /\
  ref_count_ext v' = ref_count_ext v /\ side_effect v' = side_effect v /\
  type v' = type v.
Proof. intros H. destruct H; simpl; auto 10. Qed.

Lemma arr_set_zero j : arr_set (0, 0, 0) j 0 = (0, 0, 0).
Proof.
  destruct j as [|p]; [reflexivity | ].
  destruct p as [p|p| ]; try destruct p; reflexivity.
Qed.

(** A release step keeps a computed node with a pointer collapsed. *)
Lemma gc_step_collapsed v v' :
  gc_step v v' ->
  (empty (cmd v) = false -> data v <> 0 -> dep v = (0, 0, 0)) ->
  empty (cmd v') = false -> data v' <> 0 -> dep v' = (0, 0, 0).
Proof.
  intros H Hv. destruct H; simpl; intros Hc Hd;
    try (apply Hv; assumption); try congruence.
  rewrite Hv by assumption. apply arr_set_zero.
Qed.

Lemma forall_nodes_set (phi : Var -> Prop) s j v' :
  (forall i v, node s i = Some v -> phi v) ->
  is_Some (node s j) -> phi v' ->
  forall i v, node (set_node j v' s) i = Some v -> phi v.
Proof.
  intros Hall [v0 Hj] Hv' i v. rewrite (node_set_node _ _ _ _ _ Hj).
  destruct (decide (j = i)); intros H.
  - inversion H; subst. exact Hv'.
  - eapply Hall; eauto.
Qed.

Lemma no_dirty_closed : asm_closed (fun _ => True) no_dirty.
Proof.
  unfold no_dirty.
  split; [split; [split | | ] | | | ]; try (intros; eauto; fail).
  - intros s i v v' Hs Hv Hstep. apply forall_nodes_set; eauto.
    rewrite (gc_step_dirty _ _ Hstep). eauto.
  - intros s i v n Hs Hv. apply forall_nodes_set; eauto. simpl. eauto.
  - intros s i v p _ Hs Hv. apply forall_nodes_set; eauto. simpl. eauto.
Qed.

Lemma active_empty_closed : asm_closed (fun _ => True) active_empty.
Proof.
  unfold active_empty.
  split; [split; [split | | ] | | | ]; try (intros; simpl; auto; fail).
  intros s i Hs. simpl. rewrite Hs. apply empty_difference_L.
Qed.

Lemma dirty_empty_closed : asm_closed (fun _ => True) dirty_empty.
Proof.
  unfold dirty_empty.
  split; [split; [split | | ] | | | ]; intros; simpl; auto.
Qed.

Lemma collapsed_closed idx : asm_closed (fun i => i <> idx) (collapsed idx).
Proof.
  unfold collapsed.
  split; [split; [split | | ] | | | ]; try (intros; eauto; fail).
  - intros s i v v' Hs Hv Hstep w.
    rewrite (node_set_node _ _ _ _ _ Hv).
    destruct (decide (i = idx)) as [->|Hne]; [ | apply Hs].
    intros Hw. inversion Hw; subst. eapply gc_step_collapsed; eauto.
  - intros s i v n Hs Hv w.
    rewrite (node_set_node _ _ _ _ _ Hv).
    destruct (decide (i = idx)) as [->|Hne]; [ | apply Hs].
    intros Hw. inversion Hw; subst. simpl. apply Hs. exact Hv.
  - intros s i v p Hne Hs Hv w. rewrite node_set_node_ne; auto.
Qed.

Lemma dirty_queued_closed : ext_closed dirty_queued.
Proof.
  unfold dirty_queued.
  split; [split | | ]; try (intros; eauto; fail).
  - intros s i v v' Hs Hv Hstep j w.
    rewrite (node_set_node _ _ _ _ _ Hv).
    destruct (decide (i = j)) as [->|Hne]; [ | apply Hs].
    intros Hw. inversion Hw; subst. rewrite (gc_step_dirty _ _ Hstep).
    simpl. eauto.
  - intros s i v n Hs Hv j w.
    rewrite (node_set_node _ _ _ _ _ Hv).
    destruct (decide (i = j)) as [->|Hne]; [ | apply Hs].
    intros Hw. inversion Hw; subst. simpl. eauto.
Qed.

Lemma shape_set_node s i v v' :
  node s i = Some v -> size v' = size v -> subtree_size v' = subtree_size v ->
  shape (set_node i v' s) = shape s.
Proof.
  unfold shape, set_node, node. simpl. intros Hv H1 H2.
  rewrite list_fmap_insert, H1, H2. apply list_insert_id.
  rewrite list_lookup_fmap, Hv. reflexivity.
Qed.

Lemma shape_closed l : asm_closed (fun _ => True) (fun s => shape s = l).
Proof.
  split; [split; [split | | ] | | | ]; try (intros; simpl; auto; fail).
  - intros s i v v' Hs Hv Hstep. rewrite <- Hs.
    destruct (gc_step_meta _ _ Hstep) as (_ & ? & ? & _).
    eapply shape_set_node; eauto.
  - intros s i v n Hs Hv. rewrite <- Hs. eapply shape_set_node; eauto.
  - intros s i v p _ Hs Hv. rewrite <- Hs. eapply shape_set_node; eauto.
Qed.

Lemma asm_closed_and allowed (I J : State -> Prop) :
  asm_closed allowed I -> asm_closed allowed J ->
  asm_closed allowed (fun s => I s /\ J s).
Proof.
  intros HI HJ.
  split; [split; [split | | ] | | | ].
  - intros s i v v' [] Hv Hstep. split; eapply gc_node; eauto; apply HI || apply HJ.
  - intros s i v n [] Hv. split; eapply ext_node; eauto; apply HI || apply HJ.
  - intros s i []. split; eapply ext_active; eauto; apply HI || apply HJ.
  - intros s f []. split; eapply asm_dev; eauto.
  - intros s i v p Hal [] Hv. split; eapply asm_data; eauto.
  - intros s f []. split; eapply asm_launch; eauto.
Qed.

(** ** The evaluation *)

Lemma update_unfold index f s :
  update index f s =
  match node s index with
  | Some v => Ok tt (set_node index (f v) s)
  | None => Abort UndefinedBehaviour
  end.
Proof.
  unfold update, bind, at_, node. destruct (__trace s !! N.to_nat index);
    reflexivity.
Qed.

(** The loop over the dirty queue does not throw, and it leaves dirty only
    nodes that were dirty and are not in the queue. *)
Lemma clear_dirty_loop q s :
  match for_each q clear_dirty s with
  | Ok _ s' =>
      (forall i v, node s' i = Some v -> dirty v = true ->
         (i ∉ q) /\ (exists v0, node s i = Some v0 /\ dirty v0 = true)) /\
      __active s' = __active s /\ __dirty s' = __dirty s
  | Throw _ _ => False
  | Abort _ => True
  end.
Proof.
  revert s. induction q as [|x q IH]; intros s; simpl.
  - split; [ | auto]. intros i v Hv Hd. split; [ | eauto]. apply not_elem_of_nil.
  - unfold bind, clear_dirty at 1. rewrite update_unfold.
    destruct (node s x) as [v0|] eqn:Hx; [ | exact I].
    specialize (IH (set_node x (set_dirty false v0) s)).
    destruct (for_each q clear_dirty _) as [[] s'|msg s'|r]; auto.
    destruct IH as (IH & Ha & Hq). split; [ | auto].
    intros i v Hv Hd. destruct (IH i v Hv Hd) as (Hni & v1 & Hv1 & Hd1).
    rewrite (node_set_node _ _ _ _ _ Hx) in Hv1.
    destruct (decide (x = i)) as [->|Hne].
    + inversion Hv1; subst. discriminate.
    + split; [ | eauto]. apply not_elem_of_cons. auto.
Qed.

Section Evaluation.
Context {B : Build}.

Lemma cuda_eval_unfold fuel s :
  cuda_eval fuel s =
  match build_sweeps fuel (__trace s) (elements (__active s)) with
  | inl e => Abort e
  | inr sweeps =>
      match for_each (__dirty s) clear_dirty s with
      | Ok _ s1 =>
          for_each (map_to_list sweeps) (eval_bucket fuel)
            (with_dirty (fun _ => []) (with_active (fun _ => ∅) s1))
      | Throw msg s1 => Throw msg s1
      | Abort r => Abort r
      end
  end.
Proof.
  unfold cuda_eval, bind at 1. simpl.
  unfold bind at 1.
  destruct (build_sweeps fuel (__trace s) (elements (__active s))); simpl;
    [reflexivity | ].
  unfold bind at 1. fold clear_dirty.
  destruct (for_each (__dirty s) clear_dirty s); reflexivity.
Qed.

Lemma clean_closed : asm_closed (fun _ => True) clean.
Proof.
  unfold clean. apply asm_closed_and; [apply no_dirty_closed | ].
  apply asm_closed_and; [apply active_empty_closed | apply dirty_empty_closed].
Qed.

Lemma keeps_buckets (I : State -> Prop) fuel l :
  asm_closed (fun _ => True) I -> keeps I (for_each l (eval_bucket fuel)).
Proof.
  intros HI. apply keeps_for_each. intros b _.
  eapply keeps_eval_bucket; [exact HI | ]. intros; exact Logic.I.
Qed.

(** From a state in which every dirty node is queued, an evaluation ends
    in a clean state, whether it returns or throws. *)
Lemma cuda_eval_clean fuel :
  triple dirty_queued (cuda_eval fuel) (fun _ => clean) clean.
Proof.
  intros s Hs. rewrite cuda_eval_unfold.
  destruct (build_sweeps _ _ _) as [e|sweeps]; [exact I | ].
  pose proof (clear_dirty_loop (__dirty s) s) as Hc.
  destruct (for_each (__dirty s) clear_dirty s) as [[] s1|msg s1|r];
    [ | contradiction | exact I].
  destruct Hc as (Hc & _ & _).
  apply (keeps_buckets clean fuel _ clean_closed).
  split; [ | split; reflexivity].
  intros i v Hv. destruct (dirty v) eqn:Hd; [ | reflexivity].
  destruct (Hc i v Hv Hd) as (Hni & v0 & Hv0 & Hd0).
  exfalso. apply Hni. eapply Hs; eauto.
Qed.

Lemma clean_dirty_queued s : clean s -> dirty_queued s.
Proof.
  intros (Hn & _ & _) i v Hv Hd. rewrite (Hn i v Hv) in Hd. discriminate.
Qed.

Lemma keeps_eval_dirty_queued fuel : keeps dirty_queued (cuda_eval fuel).
Proof.
  eapply triple_conseq; [apply cuda_eval_clean | auto | | ];
    intros; apply clean_dirty_queued; assumption.
Qed.

Lemma keeps_eval_shape fuel l : keeps (fun s => shape s = l) (cuda_eval fuel).
Proof.
  unfold cuda_eval. repeat keeps_step.
  - apply keeps_update. intros s v Hs Hv. rewrite <- Hs.
    eapply shape_set_node; eauto.
  - apply keeps_modify. auto.
  - apply keeps_modify. auto.
  - eapply keeps_eval_bucket; [apply shape_closed | intros; exact I].
Qed.

End Evaluation.

(** ** Dropping the dependencies of materialised nodes *)

Lemma triple_True {A} (P : State -> Prop) (c : M A) :
  triple P c (fun _ _ => True) (fun _ => True).
Proof. intros s _. destruct (c s); exact I. Qed.

Lemma triple_and {A} (P P' : State -> Prop) (c : M A) Q Q' E E' :
  triple P c Q E -> triple P' c Q' E' ->
  triple (fun s => P s /\ P' s) c (fun a s => Q a s /\ Q' a s)
         (fun s => E s /\ E' s).
Proof.
  intros H H' s [Hs Hs']. specialize (H s Hs). specialize (H' s Hs').
  destruct (c s); auto.
Qed.

Ltac destruct_slot j :=
  destruct j as [|[[?|?|]|[?|?|]|]].

Lemma arr_get_set_other d j j' :
  arr_get d j = Some 0 -> arr_get (arr_set d j' 0) j = Some 0.
Proof.
  destruct d as [[d0 d1] d2].
  destruct_slot j; destruct_slot j'; simpl; intros H; congruence.
Qed.

Lemma arr_get_set_same d j : j < 3 -> arr_get (arr_set d j 0) j = Some 0.
Proof.
  destruct d as [[d0 d1] d2].
  destruct_slot j; simpl; intros H; try reflexivity; lia.
Qed.

Lemma arr_all_zero d :
  arr_get d 0 = Some 0 -> arr_get d 1 = Some 0 -> arr_get d 2 = Some 0 ->
  d = (0, 0, 0).
Proof. destruct d as [[d0 d1] d2]. simpl. congruence. Qed.

Lemma slot_zero_closed j idx : gc_closed (slot_zero j idx).
Proof.
  split. intros s i v v' Hs Hv Hstep w.
  rewrite (node_set_node _ _ _ _ _ Hv).
  destruct (decide (i = idx)) as [->|Hne]; [ | apply Hs].
  intros Hw. inversion Hw; subst. specialize (Hs v Hv).
  destruct Hstep; simpl; auto. apply arr_get_set_other. exact Hs.
Qed.

Lemma empty_append_r a b : empty b = false -> empty (a << b) = false.
Proof. intros H. destruct a; simpl; auto. Qed.

Section Collapse.
Context {B : Build}.

Lemma collapse_var_unfold fuel idx :
  collapse_var fuel idx =
  let* v := at_ idx in
  when (negb (data v =? 0) && negb (empty (cmd v)))
    (let* _ := drop_dep fuel idx 0 in
     let* _ := drop_dep fuel idx 1 in
     let* _ := drop_dep fuel idx 2 in
     ret tt).
Proof. reflexivity. Qed.

Lemma drop_dep_keeps_slot fuel idx j k :
  keeps (slot_zero k idx) (drop_dep fuel idx j).
Proof.
  unfold drop_dep. repeat keeps_step.
  - apply keeps_dec_ref_int, slot_zero_closed.
  - apply keeps_gc_update; [apply slot_zero_closed | intros v; constructor].
Qed.

Lemma drop_dep_sets_slot fuel idx j :
  j < 3 ->
  triple (fun _ => True) (drop_dep fuel idx j)
         (fun _ => slot_zero j idx) (fun _ => True).
Proof.
  intros Hj. unfold drop_dep.
  eapply triple_bind; [apply triple_True | intros v; simpl].
  eapply triple_bind; [apply triple_True | intros d; simpl].
  eapply triple_bind; [apply triple_True | intros ?; simpl].
  intros s _. rewrite update_unfold.
  destruct (node s idx) as [v0|] eqn:Hv; [ | exact I].
  intros w. rewrite (node_set_node_eq _ _ _ _ Hv). intros Hw.
  inversion Hw; subst. simpl. apply arr_get_set_same. exact Hj.
Qed.

Lemma drop_deps_zero fuel idx :
  triple (fun _ => True)
    (let* _ := drop_dep fuel idx 0 in
     let* _ := drop_dep fuel idx 1 in
     let* _ := drop_dep fuel idx 2 in
     ret tt)
    (fun _ s => slot_zero 0 idx s /\ slot_zero 1 idx s /\ slot_zero 2 idx s)
    (fun _ => True).
Proof.
  eapply triple_bind; [apply drop_dep_sets_slot; lia | intros ?; simpl].
  eapply triple_bind.
  { eapply triple_conseq.
    - apply triple_and;
        [apply (drop_dep_keeps_slot fuel idx 1 0)
        | apply (drop_dep_sets_slot fuel idx 1); lia].
    - simpl. intros s H. split; [exact H | exact I].
    - intros ? s H. exact H.
    - auto. }
  intros ?. simpl.
  eapply triple_bind.
  { eapply triple_conseq.
    - apply triple_and;
        [ apply triple_and;
          [apply (drop_dep_keeps_slot fuel idx 2 0)
          | apply (drop_dep_keeps_slot fuel idx 2 1)]
        | apply (drop_dep_sets_slot fuel idx 2); lia].
    - simpl. intros s H. split; [exact H | exact I].
    - intros ? s H. exact H.
    - auto. }
  intros ?. apply triple_ret. intros s [[] ]. auto.
Qed.

(** The last loop of [cuda_eval] leaves the node that it visits
    collapsed. *)
Lemma collapse_var_collapsed fuel idx :
  triple (fun _ => True) (collapse_var fuel idx)
         (fun _ => collapsed idx) (fun _ => True).
Proof.
  intros s _. rewrite collapse_var_unfold. unfold bind at 1.
  destruct (at_ idx s) as [v s1|msg s1|r] eqn:Hat; auto.
  apply at_Ok in Hat as [-> Hv].
  destruct (negb (data v =? 0) && negb (empty (cmd v))) eqn:Hc; simpl.
  - pose proof (drop_deps_zero fuel idx s Logic.I) as H.
    destruct (bind _ _ s) as [a s2|msg s2|r]; auto.
    destruct H as (H0 & H1 & H2). intros w Hw _ _.
    apply arr_all_zero; [apply (H0 w) | apply (H1 w) | apply (H2 w)]; auto.
  - intros w Hw Hcmd Hdata. rewrite Hv in Hw. inversion Hw; subst.
    apply N.eqb_neq in Hdata. rewrite Hdata, Hcmd in Hc. discriminate.
Qed.

Lemma collapse_loop fuel idx l :
  idx ∈ l ->
  triple (fun _ => True) (for_each l (collapse_var fuel))
         (fun _ => collapsed idx) (fun _ => True).
Proof.
  induction l as [|x l IH]; intros Hin.
  - apply elem_of_nil in Hin. contradiction.
  - simpl. destruct (decide (idx ∈ l)) as [Hl|Hl].
    + eapply triple_bind; [apply triple_True | intros ?; simpl].
      apply IH. exact Hl.
    + apply elem_of_cons in Hin as [->|Hin]; [ | contradiction].
      eapply triple_bind; [apply collapse_var_collapsed | intros ?; simpl].
      eapply triple_conseq;
        [ apply keeps_for_each; intros y _;
          apply (keeps_collapse_var _ _ (collapsed_closed x))
        | auto | auto | auto ].
Qed.

Lemma assemble_nonempty fuel size_ sweep s res s' :
  cuda_jit_assemble fuel size_ sweep s = Ok res s' -> empty res.1 = false.
Proof.
  unfold cuda_jit_assemble. intros H.
  apply bind_Ok in H as (acc & s1 & _ & H). inversion H; subst. simpl.
  apply empty_append_r. reflexivity.
Qed.

Lemma bucket_collapsed fuel idx b :
  idx ∈ b.2.2 ->
  triple (fun _ => True) (eval_bucket fuel b)
         (fun _ => collapsed idx) (fun _ => True).
Proof.
  intros Hin s _. unfold eval_bucket. unfold bind at 1.
  destruct (cuda_jit_assemble _ _ _ s) as [res s1|msg s1|r] eqn:Ha; auto.
  rewrite (assemble_nonempty _ _ _ _ _ _ Ha).
  unfold bind at 1. simpl.
  apply (collapse_loop fuel idx _ Hin). exact I.
Qed.

Lemma bucket_keeps_collapsed fuel idx b :
  triple (collapsed idx) (eval_bucket fuel b)
         (fun _ => collapsed idx) (fun _ => True).
Proof.
  destruct (decide (idx ∈ b.2.2)) as [Hin|Hin].
  - eapply triple_pre; [apply bucket_collapsed; exact Hin | intros; exact I].
  - eapply triple_conseq;
      [ apply (keeps_eval_bucket _ _ (collapsed_closed idx));
        intros i Hi ->; contradiction
      | auto | auto | auto ].
Qed.

Lemma buckets_collapsed fuel idx l :
  (exists b, b ∈ l /\ idx ∈ b.2.2) ->
  triple (fun _ => True) (for_each l (eval_bucket fuel))
         (fun _ => collapsed idx) (fun _ => True).
Proof.
  induction l as [|x l IH]; intros (b & Hb & Hin).
  - apply elem_of_nil in Hb. contradiction.
  - simpl. destruct (decide (idx ∈ x.2.2)) as [Hx|Hx].
    + eapply triple_bind; [apply bucket_collapsed; exact Hx | intros ?; simpl].
      clear IH Hb. induction l as [|y l IH]; simpl.
      * apply triple_ret. auto.
      * eapply triple_bind; [apply bucket_keeps_collapsed | intros ?; exact IH].
    + apply elem_of_cons in Hb as [->|Hb]; [contradiction | ].
      eapply triple_bind; [apply triple_True | intros ?; simpl].
      apply IH. eauto.
Qed.

(** After an evaluation that returns, every scheduled node is collapsed. *)
Lemma cuda_eval_collapsed fuel idx s s' :
  scheduled fuel s idx -> cuda_eval fuel s = Ok tt s' -> collapsed idx s'.
Proof.
  intros (ls & l & Hsw & Hl & Hin) H. unfold schedule_of in Hsw.
  rewrite cuda_eval_unfold in H.
  destruct (build_sweeps _ _ _) as [e|sweeps]; [discriminate | ].
  inversion Hsw; subst ls. clear Hsw.
  destruct (for_each (__dirty s) clear_dirty s) as [[] s1|msg s1|r];
    try discriminate.
  assert (Hex : exists b', b' ∈ map_to_list sweeps /\ idx ∈ b'.2.2).
  { apply list_elem_of_fmap in Hl as (b' & -> & Hb'). eauto. }
  pose proof (buckets_collapsed fuel idx _ Hex
    (with_dirty (fun _ => []) (with_active (fun _ => ∅) s1)) Logic.I) as Hc.
  rewrite H in Hc. exact Hc.
Qed.

End Collapse.

(** ** Every dirty node is queued, in every reachable state *)

Lemma node_emplace s v i w :
  node (with_trace (fun tr => tr ++ [v]) s) i = Some w ->
  node s i = Some w \/ (N.to_nat i = length (__trace s) /\ w = v).
Proof.
  unfold node. simpl. intros H. apply lookup_snoc_Some in H.
  destruct H as [[_ H]|[H1 H2]]; auto.
Qed.

Lemma keeps_dq_update index f :
  (forall v, dirty (f v) = dirty v) -> keeps dirty_queued (update index f).
Proof.
  intros Hf. apply keeps_update. intros s v Hs Hv i w.
  rewrite (node_set_node _ _ _ _ _ Hv).
  destruct (decide (index = i)) as [->|Hne]; [ | apply Hs].
  intros Hw. inversion Hw; subst. rewrite Hf. simpl. eauto.
Qed.

Lemma keeps_dq_emplace v :
  dirty v = false -> keeps dirty_queued (emplace_back v).
Proof.
  intros Hv. apply keeps_modify. intros s Hs i w Hw Hd.
  apply node_emplace in Hw as [Hw|[_ ->]]; [ | congruence].
  simpl. eauto.
Qed.

Lemma keeps_dq_active f : keeps dirty_queued (modify (with_active f)).
Proof. apply keeps_modify. intros s Hs. exact Hs. Qed.

Lemma dirty_queued_init s :
  dirty_queued
    (with_active (fun _ => ∅)
      (with_trace (fun _ =>
         Variable_ Invalid :: Variable_ UInt64 ::
         replicate 8 (Variable_ UInt32)) s)).
Proof.
  intros i v Hv Hd. unfold node in Hv. simpl in Hv.
  apply list_elem_of_lookup_2 in Hv.
  repeat (apply elem_of_cons in Hv as [->|Hv]; [discriminate | ]).
  apply elem_of_nil in Hv. contradiction.
Qed.

Section Reachability.
Context {B : Build}.

Ltac dq_leaf :=
  lazymatch goal with
  | |- keeps _ (update _ _) => apply keeps_dq_update; intros; reflexivity
  | |- keeps _ (emplace_back _) => apply keeps_dq_emplace; reflexivity
  | |- keeps _ (modify (with_active _)) => apply keeps_dq_active
  | |- keeps _ (cuda_inc_ref_ext _) =>
      apply keeps_inc_ref_ext, dirty_queued_closed
  | |- keeps _ (cuda_inc_ref_int _) =>
      apply keeps_inc_ref_int, dirty_queued_closed
  | |- keeps _ (cuda_dec_ref_ext _ _) =>
      apply keeps_dec_ref_ext, dirty_queued_closed
  | |- keeps _ (cuda_dec_ref_int _ _) =>
      apply keeps_dec_ref_int, dirty_queued_closed
  | |- keeps _ (cuda_var_free _ _) =>
      apply keeps_var_free, dirty_queued_closed
  | |- keeps _ (cuda_eval _) => apply keeps_eval_dirty_queued
  end.

Lemma keeps_dq_append0 t c : keeps dirty_queued (cuda_trace_append0 t c).
Proof. unfold cuda_trace_append0. repeat keeps_step; dq_leaf. Qed.

Lemma keeps_dq_append1 fuel t c a1 :
  keeps dirty_queued (cuda_trace_append1 fuel t c a1).
Proof. unfold cuda_trace_append1. repeat keeps_step; dq_leaf. Qed.

Lemma keeps_dq_append2 fuel t c a1 a2 :
  keeps dirty_queued (cuda_trace_append2 fuel t c a1 a2).
Proof. unfold cuda_trace_append2. repeat keeps_step; dq_leaf. Qed.

Lemma keeps_dq_append3 fuel t c a1 a2 a3 :
  keeps dirty_queued (cuda_trace_append3 fuel t c a1 a2 a3).
Proof. unfold cuda_trace_append3. repeat keeps_step; dq_leaf. Qed.

Lemma pure_printf_block fmt narg arg : pure_ (printf_block fmt narg arg).
Proof. unfold printf_block, printf_args. repeat pure_step. Qed.

Lemma keeps_dq_mark_dirty index :
  keeps dirty_queued (cuda_var_mark_dirty index).
Proof.
  unfold cuda_var_mark_dirty.
  keeps_step; [keeps_step | ]. keeps_step; [keeps_step | ].
  intros s Hs. unfold bind. rewrite update_unfold.
  destruct (node s index) as [v|] eqn:Hv; simpl; [ | exact I].
  intros i w Hw Hd.
  change (node (set_node index (set_dirty true v) s) i = Some w) in Hw.
  change (i ∈ __dirty s ++ [index]).
  rewrite (node_set_node _ _ _ _ _ Hv) in Hw.
  destruct (decide (index = i)) as [->|Hne].
  - apply elem_of_app. right. apply list_elem_of_singleton. reflexivity.
  - apply elem_of_app. left. eapply Hs; eauto.
Qed.

Lemma keeps_dq_printf fuel fmt narg arg :
  keeps dirty_queued (cuda_trace_printf fuel fmt narg arg).
Proof.
  unfold cuda_trace_printf, cuda_var_mark_side_effect, arg_at.
  repeat keeps_step;
    lazymatch goal with
    | |- keeps _ (printf_block _ _ _) => apply keeps_pure, pure_printf_block
    | |- keeps _ (cuda_trace_append0 _ _) => apply keeps_dq_append0
    | |- keeps _ (cuda_trace_append1 _ _ _ _) => apply keeps_dq_append1
    | |- keeps _ (cuda_trace_append2 _ _ _ _ _) => apply keeps_dq_append2
    | |- keeps _ (cuda_trace_append3 _ _ _ _ _ _) => apply keeps_dq_append3
    | _ => dq_leaf
    end.
Qed.

(** Each exported function keeps every dirty node queued. *)
Lemma keeps_dq_exec c : keeps dirty_queued (exec c).
Proof.
  destruct c; simpl; unfold ignore.
  - apply keeps_modify. intros s _. apply dirty_queued_init.
  - apply keeps_modify. intros s _ i v Hv. unfold node in Hv. simpl in Hv.
    rewrite lookup_nil in Hv. discriminate.
  - apply keeps_dq_update. reflexivity.
  - apply keeps_dq_update. reflexivity.
  - unfold cuda_var_register. repeat keeps_step; dq_leaf.
  - dq_leaf.
  - dq_leaf.
  - dq_leaf.
  - dq_leaf.
  - dq_leaf.
  - unfold cuda_var_mark_side_effect. repeat keeps_step; dq_leaf.
  - apply keeps_dq_mark_dirty.
  - repeat keeps_step. apply keeps_dq_append0.
  - repeat keeps_step. apply keeps_dq_append1.
  - repeat keeps_step. apply keeps_dq_append2.
  - repeat keeps_step. apply keeps_dq_append3.
  - apply keeps_dq_printf.
  - dq_leaf.
  - apply keeps_modify. intros s Hs. exact Hs.
  - unfold cuda_fetch_element. repeat keeps_step; dq_leaf.
  - unfold cuda_var_ptr. repeat keeps_step.
  - unfold cuda_var_size. repeat keeps_step.
  - repeat keeps_step. intros s Hs. exact Hs.
  - apply keeps_pure, pure_ret.
Qed.

Lemma run_calls_dirty_queued l s s' :
  dirty_queued s -> run_calls l s = Some s' -> dirty_queued s'.
Proof.
  revert s. induction l as [|c l IH]; intros s Hs; simpl.
  - intros H. inversion H; subst. exact Hs.
  - pose proof (keeps_dq_exec c s Hs) as Hc.
    destruct (exec c s) as [a s1|msg s1|r]; simpl; try discriminate;
      apply IH; exact Hc.
Qed.

Lemma reachable_dirty_queued s : reachable s -> dirty_queued s.
Proof.
  intros [l Hl]. eapply run_calls_dirty_queued; [ | exact Hl].
  intros i v Hv. unfold node in Hv. simpl in Hv. rewrite lookup_nil in Hv.
  discriminate.
Qed.

End Reachability.

(** ** Schedules have no repetition *)

Lemma extends_refl b : sweep_ok b -> extends b b.
Proof. intros H. split; [exact H | ]. split; auto. Qed.

Lemma extends_trans b1 b2 b3 : extends b1 b2 -> extends b2 b3 -> extends b1 b3.
Proof.
  intros (H1 & H2 & H3) (H4 & H5 & H6). split; [exact H4 | ].
  split; [auto | ]. intros x Hx.
  destruct (H6 x Hx) as [Hx2|Hx2]; [apply H3; exact Hx2 | ].
  right. intros Hx1. apply Hx2. apply H2. exact Hx1.
Qed.

Lemma fold_left_inl {X Y E : Type} (f : E + Y -> X -> E + Y) l e r :
  (forall e' x, f (inl e') x = inl e') -> fold_left f l (inl e) = inr r -> False.
Proof.
  intros Hf. induction l as [|x l IH]; simpl; [discriminate | ].
  rewrite Hf. exact IH.
Qed.

Lemma sweep_recursive_extends fuel tr vis sw idx b' :
  sweep_ok (vis, sw) ->
  sweep_recursive fuel tr vis sw idx = inr b' ->
  extends (vis, sw) b' /\ idx ∈ b'.1.
Proof.
  revert vis sw idx b'.
  induction fuel as [|fuel IH]; intros vis sw idx b' Hok H; simpl in H;
    [discriminate | ].
  destruct (decide (idx ∈ vis)) as [Hin|Hin].
  { inversion H; subst. split; [apply extends_refl; exact Hok | exact Hin]. }
  destruct (tr !! N.to_nat idx) as [v|]; [ | discriminate].
  destruct (reorder_deps tr (dep v)) as [deps|]; [ | discriminate].
  assert (Hok1 : sweep_ok ({[idx]} ∪ vis, sw)).
  { destruct Hok as [Hnd Hsub]. split; [exact Hnd | ]. simpl.
    intros x Hx. apply elem_of_union. right. apply Hsub. exact Hx. }
  assert (Hfold : forall l b0 r, sweep_ok b0 ->
     fold_left (fun acc k =>
        match acc with
        | inl e => inl e
        | inr (visited, sweep) =>
            if ENOKI_CUDA_REG_RESERVED <=? k
            then sweep_recursive fuel tr visited sweep k
            else inr (visited, sweep)
        end) l (inr b0) = inr r -> extends b0 r).
  { induction l as [|k l IHl]; intros b0 r Hb0 Hr; simpl in Hr.
    - inversion Hr; subst. apply extends_refl. exact Hb0.
    - destruct b0 as [v0 s0].
      destruct (ENOKI_CUDA_REG_RESERVED <=? k).
      + destruct (sweep_recursive fuel tr v0 s0 k) as [e|b2] eqn:Hrec.
        * exfalso. eapply fold_left_inl; [ | exact Hr]. reflexivity.
        * destruct (IH _ _ _ _ Hb0 Hrec) as [He _].
          eapply extends_trans; [exact He | ].
          apply IHl; [apply He | exact Hr].
      + apply IHl; assumption. }
  destruct (fold_left _ _ _) as [e|[vis2 sw2]] eqn:Hf; [discriminate | ].
  inversion H; subst b'. clear H.
  apply Hfold in Hf; [ | exact Hok1].
  destruct Hf as ((Hnd & Hsub) & Hvis & Hnew). simpl in *.
  assert (Hidx2 : idx ∈ vis2).
  { apply Hvis. apply elem_of_union. left. apply elem_of_singleton.
    reflexivity. }
  assert (Hnot : idx ∉ sw2).
  { intros Hx. destruct (Hnew _ Hx) as [Hx1|Hx1].
    - apply Hin. apply Hok. exact Hx1.
    - apply Hx1. apply elem_of_union. left. apply elem_of_singleton.
      reflexivity. }
  split; [ | exact Hidx2]. split; [split | split]; simpl.
  - apply NoDup_app. split; [exact Hnd | ]. split; [ | apply NoDup_singleton].
    intros x Hx Hx'. apply list_elem_of_singleton in Hx'. subst. auto.
  - intros x Hx. apply elem_of_app in Hx as [Hx|Hx]; [auto | ].
    apply list_elem_of_singleton in Hx. subst. exact Hidx2.
  - intros x Hx. apply Hvis. apply elem_of_union. right. exact Hx.
  - intros x Hx. apply elem_of_app in Hx as [Hx|Hx].
    + destruct (Hnew _ Hx) as [Hx1|Hx1]; [auto | ].
      right. intros Hx2. apply Hx1. apply elem_of_union. right. exact Hx2.
    + apply list_elem_of_singleton in Hx. subst. right. exact Hin.
Qed.

(** Every bucket that [cuda_eval] builds has a schedule without
    repetition. *)
Lemma build_sweeps_ok fuel tr active sweeps :
  build_sweeps fuel tr active = inr sweeps ->
  forall sz b, sweeps !! sz = Some b -> sweep_ok b.
Proof.
  unfold build_sweeps.
  assert (Hgen : forall l (m0 m : gmap N (gset N * list N)),
    (forall sz b, m0 !! sz = Some b -> sweep_ok b) ->
    fold_left (fun acc idx =>
      match acc with
      | inl e => inl e
      | inr sweeps =>
          match tr !! N.to_nat idx with
          | None => inl UndefinedBehaviour
          | Some v =>
              let sweep := default (∅, []) (sweeps !! size v) in
              match sweep_recursive fuel tr sweep.1 sweep.2 idx with
              | inl e => inl e
              | inr r => inr (<[size v := r]> sweeps)
              end
          end
      end) l (inr m0) = inr m ->
    forall sz b, m !! sz = Some b -> sweep_ok b).
  { induction l as [|idx l IHl]; intros m0 m Hm0 Hm; simpl in Hm.
    - inversion Hm; subst. exact Hm0.
    - destruct (tr !! N.to_nat idx) as [v|];
        [ | exfalso; eapply fold_left_inl; [ | exact Hm]; reflexivity].
      destruct (sweep_recursive fuel tr _ _ idx) as [e|r] eqn:Hrec;
        [exfalso; eapply fold_left_inl; [ | exact Hm]; reflexivity | ].
      eapply IHl; [ | exact Hm]. intros sz b Hb.
      destruct (decide (size v = sz)) as [<-|Hne].
      + rewrite lookup_insert_eq in Hb. inversion Hb; subst b.
        assert (Hok : sweep_ok (default (∅, []) (m0 !! size v))).
        { destruct (m0 !! size v) as [b0|] eqn:Hb0; simpl.
          - eapply Hm0; eauto.
          - split; [apply NoDup_nil_2 | ]. simpl. intros x Hx.
            apply elem_of_nil in Hx. contradiction. }
        destruct (default (∅, []) (m0 !! size v)) as [v0 s0].
        apply (sweep_recursive_extends _ _ _ _ _ _ Hok Hrec).
      + rewrite lookup_insert_ne in Hb by exact Hne. eapply Hm0; eauto. }
  intros H. eapply Hgen; [ | exact H].
  intros sz b Hb. rewrite lookup_empty in Hb. discriminate.
Qed.

Lemma schedule_of_NoDup fuel s ls l :
  schedule_of fuel s = Some ls -> l ∈ ls -> NoDup l.
Proof.
  unfold schedule_of. intros H Hl.
  destruct (build_sweeps _ _ _) as [e|sweeps] eqn:Hb; [discriminate | ].
  inversion H; subst ls.
  apply list_elem_of_fmap in Hl as ([sz b] & -> & Hin).
  apply elem_of_map_to_list in Hin.
  apply (build_sweeps_ok _ _ _ _ Hb sz b Hin).
Qed.

(** * The claims *)

(** ** Preconditions of the two marking functions *)

(** C10.  With assertions compiled in, [cuda_var_mark_side_effect] and
    [cuda_var_mark_dirty] go on exactly when the index is strictly greater
    than the reserved count and below the size of the trace; on the index
    [ENOKI_CUDA_REG_RESERVED] itself both fail their assertion, in every
    state, although this is the index that the first append after
    [cuda_init] returns. *)
Theorem C10_mark_rejects_first_index :
  (forall index s,
     @cuda_var_mark_side_effect debug_build index s =
     if (ENOKI_CUDA_REG_RESERVED <? index)
        && (index <? N.of_nat (length (__trace s)))
     then update index (set_side_effect true) s
     else Abort AssertionFailed) /\
  (forall index s,
     @cuda_var_mark_dirty debug_build index s =
     if (ENOKI_CUDA_REG_RESERVED <? index)
        && (index <? N.of_nat (length (__trace s)))
     then (let* _ := update index (set_dirty true) in
           modify (with_dirty (fun d => d ++ [index]))) s
     else Abort AssertionFailed) /\
  (forall s,
     @cuda_var_mark_side_effect debug_build ENOKI_CUDA_REG_RESERVED s =
     Abort AssertionFailed) /\
  (forall s,
     @cuda_var_mark_dirty debug_build ENOKI_CUDA_REG_RESERVED s =
     Abort AssertionFailed) /\
  (forall s t c, exists s',
     (let* _ := cuda_init in @cuda_trace_append0 debug_build t c) s =
     Ok ENOKI_CUDA_REG_RESERVED s' /\
     length (__trace s') = 11%nat /\
     ref_count_ext <$> node s' ENOKI_CUDA_REG_RESERVED = Some 1).
Proof.
  assert (H1 : forall index s,
     @cuda_var_mark_side_effect debug_build index s =
     if (ENOKI_CUDA_REG_RESERVED <? index)
        && (index <? N.of_nat (length (__trace s)))
     then update index (set_side_effect true) s
     else Abort AssertionFailed).
  { intros index s. unfold cuda_var_mark_side_effect, bind, trace_size, assert_.
    destruct ((ENOKI_CUDA_REG_RESERVED <? index)
              && (index <? N.of_nat (length (__trace s)))); reflexivity. }
  assert (H2 : forall index s,
     @cuda_var_mark_dirty debug_build index s =
     if (ENOKI_CUDA_REG_RESERVED <? index)
        && (index <? N.of_nat (length (__trace s)))
     then (let* _ := update index (set_dirty true) in
           modify (with_dirty (fun d => d ++ [index]))) s
     else Abort AssertionFailed).
  { intros index s. unfold cuda_var_mark_dirty, bind at 1, trace_size.
    unfold bind at 1, assert_.
    destruct ((ENOKI_CUDA_REG_RESERVED <? index)
              && (index <? N.of_nat (length (__trace s)))); reflexivity. }
  split; [exact H1 | ]. split; [exact H2 | ].
  split; [intros s; rewrite H1; reflexivity | ].
  split; [intros s; rewrite H2; reflexivity | ].
  intros s t c. eexists. split; [lazy; reflexivity | ].
  split; reflexivity.
Qed.

(** ** Decrements at zero *)

(** The external decrement of a node above the reserved indices whose
    external count is 0 throws and leaves the state as it is. *)
Lemma dec_ref_ext_at_zero_throws {B : Build} fuel index s v :
  ENOKI_CUDA_REG_RESERVED <= index ->
  node s index = Some v -> ref_count_ext v = 0 ->
  cuda_dec_ref_ext fuel index s =
  Throw "cuda_dec_ref_ext(): Negative reference count!" s.
Proof.
  intros Hres Hv Hz. unfold cuda_dec_ref_ext, bind at 1, trace_size.
  assert (Hlt : (index <? ENOKI_CUDA_REG_RESERVED) = false)
    by (apply N.ltb_ge; exact Hres).
  pose proof Hv as Hlen. unfold node in Hlen. apply lookup_lt_Some in Hlen.
  assert (Hne : (N.of_nat (length (__trace s)) =? 0) = false)
    by (apply N.eqb_neq; lia).
  assert (Hin : (index <? N.of_nat (length (__trace s))) = true)
    by (apply N.ltb_lt; lia).
  rewrite Hlt, Hne. simpl. unfold bind at 1, assert_. rewrite Hin.
  unfold ret, bind at 1, at_. unfold node in Hv. rewrite Hv. simpl.
  rewrite Hz. reflexivity.
Qed.

(** The internal decrement has no such test: at count 0 it stores
    2^32 - 1. *)
Lemma u32_pred_zero : u32_pred 0 = 4294967295.
Proof. reflexivity. Qed.

(** C4.  After [cuda_init] and one append, the new node 10 has no internal
    reference.  [cuda_dec_ref_int] on it returns normally and leaves the
    internal count at 2^32 - 1; two calls of [cuda_dec_ref_ext] on the same
    node end in the exception of the external decrement. *)
Theorem C4_internal_decrement_wraps :
  (exists s,
     (let* _ := cuda_init in
      let* a := @cuda_trace_append0 debug_build UInt32 "mov.u32 $r1, 1" in
      @cuda_dec_ref_int debug_build 100 a) state0 = Ok tt s /\
     ref_count_int <$> node s 10 = Some 4294967295) /\
  (exists s,
     (let* _ := cuda_init in
      let* a := @cuda_trace_append0 debug_build UInt32 "mov.u32 $r1, 1" in
      let* _ := @cuda_dec_ref_ext debug_build 100 a in
      @cuda_dec_ref_ext debug_build 100 a) state0 =
     Throw "cuda_dec_ref_ext(): Negative reference count!" s).
Proof.
  split.
  - eexists. split; [vm_compute; reflexivity | reflexivity].
  - eexists. vm_compute. reflexivity.
Qed.

(** ** printf *)

(** C2.  [cuda_trace_printf] drops the index that the append returns and
    marks index 0.  With assertions it never returns normally; without
    them a call with no argument after [cuda_init] returns, the appended
    node 10 carries the block and is not marked, and the reserved node 0
    is.  A call with four arguments throws. *)
Theorem C2_printf_marks_index_zero :
  (forall fuel fmt narg arg s s',
     @cuda_trace_printf debug_build fuel fmt narg arg s <> Ok tt s') /\
  (let* _ := cuda_init in
   @cuda_trace_printf debug_build 100 "hi" 0 []) state0 =
  Abort AssertionFailed /\
  (exists s,
     (let* _ := cuda_init in
      @cuda_trace_printf release_build 100 "hi" 0 []) state0 = Ok tt s /\
     side_effect <$> node s 10 = Some false /\
     (empty ∘ cmd) <$> node s 10 = Some false /\
     side_effect <$> node s 0 = Some true) /\
  (exists s,
     (let* _ := cuda_init in
      let* a := @cuda_trace_append0 debug_build UInt32 "mov.u32 $r1, 1" in
      @cuda_trace_printf debug_build 100 "hi" 4 [a; a; a; a]) state0 =
     Throw "cuda_trace_print(): at most 3 variables can be printed at once!"
           s).
Proof.
  split; [ | split; [ | split]]; [ | | | eexists; vm_compute; reflexivity].
  - intros fuel fmt narg arg s s' H. unfold cuda_trace_printf in H.
    apply bind_Ok in H as (block & s1 & _ & H).
    apply bind_Ok in H as ([] & s2 & _ & H).
    unfold cuda_var_mark_side_effect in H.
    apply bind_Ok in H as (n & s3 & _ & H).
    apply bind_Ok in H as ([] & s4 & H & _).
    discriminate H.
  - vm_compute. reflexivity.
  - eexists. split; [vm_compute; reflexivity | ].
    repeat split; reflexivity.
Qed.

(** ** The order of the traversal *)

(** With two operands the three swaps put the operand of the larger
    priority first. *)
Lemma reorder_two_operands tr a b pa pb :
  prio tr (a, b, 0) 0 = Some pa -> prio tr (a, b, 0) 1 = Some pb ->
  reorder_deps tr (a, b, 0) =
  Some (if pa <? pb then (b, a, 0) else (a, b, 0)).
Proof.
  intros Ha Hb. unfold reorder_deps.
  assert (H2 : forall x y, prio tr (x, y, 0) 2 = Some 0) by reflexivity.
  rewrite Hb, H2. simpl.
  assert (Hlt : (pb <? 0) = false) by (apply N.ltb_ge; lia).
  rewrite Hlt, Ha, H2. simpl.
  assert (Hlt' : (pa <? 0) = false) by (apply N.ltb_ge; lia).
  rewrite Hlt', Ha, Hb. simpl. destruct (pa <? pb); reflexivity.
Qed.

(** C3.  A node with the operands 10, 12 and 15, whose subtree sizes are
    1, 2 and 3: the three swaps of [sweep_recursive] leave the order 15,
    10, 12, and the schedule emits node 10 before node 12 and its
    descendant 11. *)
Theorem C3_three_swaps_do_not_sort :
  exists s,
    @run_calls debug_build three_operands state0 = Some s /\
    dep <$> node s 16 = Some (10, 12, 15) /\
    subtree_size <$> node s 10 = Some 1 /\
    subtree_size <$> node s 12 = Some 2 /\
    subtree_size <$> node s 15 = Some 3 /\
    reorder_deps (__trace s) (10, 12, 15) = Some (15, 10, 12) /\
    schedule_of 100 s = Some [[13; 14; 15; 10; 11; 12; 16]].
Proof.
  eexists. split; [vm_compute; reflexivity | ].
  repeat split; vm_compute; reflexivity.
Qed.

(** ** Register allocation *)

Lemma u32_succ_small n : n + 1 < 2 ^ 32 -> u32_succ n = n + 1.
Proof. intros H. unfold u32_succ, u32. apply N.mod_small. exact H. Qed.

(** The loop that numbers the schedule, from any map and any counter. *)
Lemma assign_loop (sweep : list N) (m0 : gmap N N) (n0 : N) :
  NoDup sweep ->
  n0 + N.of_nat (length sweep) < 2 ^ 32 ->
  let r := fold_left
    (fun '(m, n_vars) index => (<[index := n_vars]> m, u32_succ n_vars))
    sweep (m0, n0) in
  r.2 = n0 + N.of_nat (length sweep) /\
  (forall k i, sweep !! k = Some i -> r.1 !! i = Some (n0 + N.of_nat k)) /\
  (forall i, i ∉ sweep -> r.1 !! i = m0 !! i).
Proof.
  revert m0 n0. induction sweep as [|x l IH]; intros m0 n0 Hnd Hlen; simpl.
  - split; [lia | ]. split; [ | reflexivity].
    intros k i H. rewrite lookup_nil in H. discriminate.
  - simpl in Hlen. apply NoDup_cons in Hnd as [Hx Hnd].
    rewrite u32_succ_small by lia.
    destruct (IH (<[x := n0]> m0) (n0 + 1) Hnd ltac:(lia)) as (H1 & H2 & H3).
    split; [rewrite H1; lia | ]. split.
    + intros [|k] i Hk; simpl in Hk.
      * inversion Hk; subst. rewrite (H3 i Hx), lookup_insert_eq.
        f_equal. lia.
      * rewrite (H2 k i Hk). f_equal. lia.
    + intros i Hi. apply not_elem_of_cons in Hi as [Hne Hi].
      rewrite (H3 i Hi). apply lookup_insert_ne. auto.
Qed.

(** C9, as amended.  For a schedule without repetition whose nodes are all
    at or above the reserved count, the register map sends the node at
    position [k] to [ENOKI_CUDA_REG_RESERVED + k]: it is a bijection from
    the schedule onto the numbers from the reserved count up to the
    reserved count plus the length of the schedule, which is also the
    number of registers declared.  Of the reserved indices only 2 is in the
    map, with itself as its register. *)
Theorem C9_register_map (sweep : list N) :
  NoDup sweep ->
  (forall i, i ∈ sweep -> ENOKI_CUDA_REG_RESERVED <= i) ->
  ENOKI_CUDA_REG_RESERVED + N.of_nat (length sweep) < 2 ^ 32 ->
  (assign_registers sweep).2 =
    ENOKI_CUDA_REG_RESERVED + N.of_nat (length sweep) /\
  (forall k i, sweep !! k = Some i ->
     make_reg_map sweep !! i = Some (ENOKI_CUDA_REG_RESERVED + N.of_nat k)) /\
  (forall i j, i ∈ sweep -> j ∈ sweep ->
     make_reg_map sweep !! i = make_reg_map sweep !! j -> i = j) /\
  (forall r,
     ENOKI_CUDA_REG_RESERVED <= r <
       ENOKI_CUDA_REG_RESERVED + N.of_nat (length sweep) ->
     exists i, i ∈ sweep /\ make_reg_map sweep !! i = Some r) /\
  make_reg_map sweep !! 2 = Some 2 /\
  (forall r, r < ENOKI_CUDA_REG_RESERVED -> r <> 2 ->
     make_reg_map sweep !! r = None).
Proof.
  intros Hnd Hres Hlen.
  destruct (assign_loop sweep ∅ ENOKI_CUDA_REG_RESERVED Hnd Hlen)
    as (H1 & H2 & H3).
  fold (assign_registers sweep) in H1, H2, H3.
  assert (Hne2 : forall i, i ∈ sweep -> i <> 2).
  { intros i Hi ->. specialize (Hres 2 Hi).
    unfold ENOKI_CUDA_REG_RESERVED in Hres. lia. }
  assert (Hpos : forall k i, sweep !! k = Some i ->
     make_reg_map sweep !! i = Some (ENOKI_CUDA_REG_RESERVED + N.of_nat k)).
  { intros k i Hk. unfold make_reg_map.
    rewrite lookup_insert_ne; [apply H2; exact Hk | ].
    intros E. apply (Hne2 i); [ | congruence].
    eapply list_elem_of_lookup_2; eauto. }
  split; [exact H1 | ]. split; [exact Hpos | ]. split; [ | split; [ | split]].
  - intros i j Hi Hj Heq.
    apply list_elem_of_lookup_1 in Hi as [ki Hki].
    apply list_elem_of_lookup_1 in Hj as [kj Hkj].
    rewrite (Hpos _ _ Hki), (Hpos _ _ Hkj) in Heq.
    assert (ki = kj) by (inversion Heq; lia). subst. congruence.
  - intros r [Hlo Hhi].
    destruct (lookup_lt_is_Some_2 sweep
                (N.to_nat (r - ENOKI_CUDA_REG_RESERVED))) as [i Hi]; [lia | ].
    exists i. split; [eapply list_elem_of_lookup_2; eauto | ].
    rewrite (Hpos _ _ Hi). f_equal. lia.
  - unfold make_reg_map. apply lookup_insert_eq.
  - intros r Hr Hr2. unfold make_reg_map.
    rewrite lookup_insert_ne by congruence.
    rewrite H3; [apply lookup_empty | ].
    intros Hin. specialize (Hres r Hin). lia.
Qed.

Lemma C9_register_map_witness :
  NoDup [10; 11; 12] /\
  (forall i, i ∈ [10; 11; 12] -> ENOKI_CUDA_REG_RESERVED <= i) /\
  ENOKI_CUDA_REG_RESERVED + N.of_nat (length [10; 11; 12]) < 2 ^ 32 /\
  make_reg_map [10; 11; 12] !! 12 = Some 12.
Proof.
  assert (H1 : NoDup [10; 11; 12]).
  { apply (bool_decide_unpack (NoDup [10; 11; 12])). vm_compute. exact I. }
  assert (H2 : forall i, i ∈ [10; 11; 12] -> ENOKI_CUDA_REG_RESERVED <= i).
  { intros i Hi. unfold ENOKI_CUDA_REG_RESERVED.
    repeat (apply elem_of_cons in Hi as [->|Hi]; [lia | ]).
    apply elem_of_nil in Hi. contradiction. }
  assert (H3 : ENOKI_CUDA_REG_RESERVED + N.of_nat (length [10; 11; 12])
               < 2 ^ 32).
  { vm_compute. reflexivity. }
  split; [exact H1 | ]. split; [exact H2 | ]. split; [exact H3 | ].
  destruct (C9_register_map [10; 11; 12] H1 H2 H3) as (_ & H & _).
  apply (H 2%nat 12). reflexivity.
Defined.

(** The claim C9 as the specification states it fails on the schedule that
    holds the single node 10: the reserved index 1 is not in the register
    map, and a template that names it through [$r2] cannot be expanded. *)
Lemma C9_counterexample :
  ~ (forall r, r < ENOKI_CUDA_REG_RESERVED ->
       make_reg_map [10] !! r = Some r) /\
  exists s,
    (let* _ := cuda_init in
     let* _ := @cuda_trace_append1 debug_build 100 UInt64
                 "mov.u64 $r1, $r2" 1 in
     @cuda_eval debug_build 100) state0 =
    Throw "CUDABackend: internal error -- variable not found!" s.
Proof.
  split.
  - intros H. specialize (H 1 ltac:(reflexivity)). vm_compute in H.
    discriminate H.
  - eexists. vm_compute. reflexivity.
Qed.

(** ** Template expansion *)

Lemma roi_bind {A C} (c : M A) (k : A -> M C) (P : Prop) :
  (forall a, returns_only_if (k a) P) -> returns_only_if (bind c k) P.
Proof.
  intros Hk s b s' H. apply bind_Ok in H as (a & s1 & _ & H).
  eapply Hk; eauto.
Qed.

Lemma roi_throw {A} msg (P : Prop) : returns_only_if (@throw A msg) P.
Proof. intros s a s' H. discriminate H. Qed.

Lemma roi_weaken {A} (c : M A) (P Q : Prop) :
  returns_only_if c P -> (P -> Q) -> returns_only_if c Q.
Proof. intros H HPQ s a s' Hc. apply HPQ. eapply H; eauto. Qed.

Lemma append_assoc (a b c : string) : (a << b) << c = a << (b << c).
Proof.
  induction a as [|x a IH]; [reflexivity | ].
  change (String x ((a << b) << c) = String x (a << (b << c))).
  f_equal. exact IH.
Qed.

Lemma append_nil_r (a : string) : a << "" = a.
Proof.
  induction a as [|x a IH]; [reflexivity | ].
  change (String x (a << "") = String x a). f_equal. exact IH.
Qed.

Lemma is_tbr_false ty :
  is_tbr ty = false ->
  negb (is_char ty "t") && negb (is_char ty "b") && negb (is_char ty "r")
  = true.
Proof.
  unfold is_tbr. destruct (is_char ty "t"), (is_char ty "b"),
    (is_char ty "r"); simpl; congruence.
Qed.

Lemma is_tbr_true ty :
  negb (is_char ty "t") && negb (is_char ty "b") && negb (is_char ty "r")
  = false ->
  is_tbr ty = true.
Proof.
  unfold is_tbr. destruct (is_char ty "t"), (is_char ty "b"),
    (is_char ty "r"); simpl; congruence.
Qed.

Section Templates.
Variables (full : string) (tr : list Var) (reg_map : gmap N N) (index : N).

(** A template that is expanded without an error has the shape
    [scanned]. *)
Lemma render_loop_scanned rest oss :
  returns_only_if (render_loop full tr reg_map index rest oss) (scanned rest).
Proof.
  remember (String.length rest) as n eqn:Hn.
  revert rest oss Hn. induction n as [n IH] using lt_wf_ind.
  intros rest oss Hn. destruct rest as [|c rest1]; cbn [render_loop].
  - intros s a s' _. constructor.
  - assert (Hrest1 : forall oss', returns_only_if
              (render_loop full tr reg_map index rest1 oss')
              (scanned rest1)).
    { intros oss'. eapply IH; [ | reflexivity]. subst n. simpl. lia. }
    destruct (is_char c "$") eqn:Hc.
    + destruct rest1 as [|ty [|d rest3]].
      * eapply roi_weaken; [apply Hrest1 | ].
        intros H. apply scanned_tail; [simpl; lia | exact H].
      * eapply roi_weaken; [apply Hrest1 | ].
        intros H. apply scanned_tail; [simpl; lia | exact H].
      * assert (Hrest3 : forall oss', returns_only_if
              (render_loop full tr reg_map index rest3 oss')
              (scanned rest3)).
        { intros oss'. eapply IH; [ | reflexivity]. subst n. simpl. lia. }
        assert (Hdollar : c = "$"%char).
        { unfold is_char in Hc. apply Ascii.eqb_eq in Hc. exact Hc. }
        subst c.
        destruct (negb (is_char ty "t") && negb (is_char ty "b")
                  && negb (is_char ty "r")) eqn:Hty; [apply roi_throw | ].
        apply is_tbr_true in Hty.
        destruct ((_ <? 1) && (4 <? _)); [apply roi_throw | ].
        apply roi_bind. intros var. apply roi_bind. intros dep_.
        destruct (_ <=? dep_); [apply roi_throw | ].
        apply roi_bind. intros dv.
        destruct (if is_char ty "t" then _ else _) as [res|];
          [ | apply roi_throw].
        destruct (is_char ty "r").
        -- destruct (reg_map !! dep_) as [r|]; [ | apply roi_throw].
           eapply roi_weaken; [apply Hrest3 | ].
           intros H. apply scanned_token; assumption.
        -- eapply roi_weaken; [apply Hrest3 | ].
           intros H. apply scanned_token; assumption.
    + eapply roi_weaken; [apply Hrest1 | ].
      intros H. apply scanned_char; assumption.
Qed.

(** Text without ['$'] is copied. *)
Lemma render_loop_skip pre rest oss :
  no_dollar pre = true ->
  render_loop full tr reg_map index (pre << rest) oss =
  render_loop full tr reg_map index rest (oss << pre).
Proof.
  revert oss. induction pre as [|c pre IH]; intros oss Hpre; simpl in *.
  - rewrite append_nil_r. reflexivity.
  - apply andb_true_iff in Hpre as [Hc Hpre].
    apply negb_true_iff in Hc. rewrite Hc.
    rewrite (IH _ Hpre), append_assoc. reflexivity.
Qed.

End Templates.

(** C5, as amended.  For the template of a node: when the expansion
    returns, every ['$'] that the scan meets with two characters after it
    is followed by one of [t], [b], [r]; the first ['$'] of a template, when
    two characters follow it and the first is none of these letters, ends
    the expansion with the exception for an invalid template; a first ['$']
    that is among the last two characters of the template is copied to the
    output with the rest of the text. *)
Theorem C5_dollar_in_template (oss : string) (tr : list Var)
    (reg_map : gmap N N) (index : N) (v : Var) (s : State) :
  tr !! N.to_nat index = Some v ->
  (forall out s',
     cuda_render_cmd oss tr reg_map index s = Ok out s' -> scanned (cmd v)) /\
  (forall pre ty d rest,
     cmd v = pre << String "$" (String ty (String d rest)) ->
     no_dollar pre = true -> is_tbr ty = false ->
     cuda_render_cmd oss tr reg_map index s =
     Throw "cuda_render_cmd: invalid '$' template!" s) /\
  (forall pre tail,
     cmd v = pre << String "$" tail ->
     no_dollar pre = true -> (String.length tail < 2)%nat ->
     cuda_render_cmd oss tr reg_map index s =
     Ok (terminate_line (cmd v) (oss << "    " << cmd v)) s).
Proof.
  intros Hv. split; [ | split].
  - intros out s' H. unfold cuda_render_cmd in H. rewrite Hv in H.
    apply bind_Ok in H as (var & s1 & H1 & H).
    inversion H1; subst var s1.
    apply bind_Ok in H as (o & s2 & H & _).
    eapply render_loop_scanned; eauto.
  - intros pre ty d rest Hcmd Hpre Hty.
    unfold cuda_render_cmd. rewrite Hv. unfold bind at 1. simpl.
    unfold bind at 1. rewrite Hcmd at 2.
    rewrite render_loop_skip by exact Hpre.
    cbn [render_loop]. change (is_char "$" "$") with true. cbv iota.
    rewrite (is_tbr_false _ Hty). reflexivity.
  - intros pre tail Hcmd Hpre Htail.
    unfold cuda_render_cmd. rewrite Hv. unfold bind at 1. simpl.
    unfold bind at 1. rewrite Hcmd at 2.
    rewrite render_loop_skip by exact Hpre.
    destruct tail as [|c [|c' tail]]; [ | | simpl in Htail; lia].
    + cbn [render_loop]. change (is_char "$" "$") with true. cbv iota.
      unfold ret. rewrite !append_assoc, <- Hcmd. reflexivity.
    + cbn [render_loop]. change (is_char "$" "$") with true. cbv iota.
      destruct (is_char c "$"); unfold ret;
        rewrite !append_assoc; change ("$" << String c "") with (String "$" (String c ""));
        rewrite <- Hcmd; reflexivity.
Qed.

Lemma C5_dollar_in_template_witness :
  [set_cmd "ret$" (Variable_ UInt32)] !! N.to_nat 0 =
    Some (set_cmd "ret$" (Variable_ UInt32)) /\
  cuda_render_cmd "" [set_cmd "ret$" (Variable_ UInt32)] ∅ 0
    state0 = Ok ("    ret$;" << endl) state0.
Proof.
  split; [reflexivity | ].
  destruct (C5_dollar_in_template ""
              [set_cmd "ret$" (Variable_ UInt32)] ∅ 0
              (set_cmd "ret$" (Variable_ UInt32)) state0 eq_refl)
    as (_ & _ & H).
  apply (H "ret" ""); reflexivity || (simpl; lia).
Defined.

(** The claim C5 as the specification states it fails on the templates
    [ret$] and [$t]: the ['$'] is too close to the end, and the template is
    emitted as it is, without an error. *)
Lemma C5_counterexample :
  cuda_render_cmd "" [set_cmd "ret$" (Variable_ UInt32)] ∅ 0
    state0 = Ok ("    ret$;" << endl) state0 /\
  cuda_render_cmd "" [set_cmd "$t" (Variable_ UInt32)] ∅ 0
    state0 = Ok ("    $t;" << endl) state0 /\
  exists s,
    (let* _ := cuda_init in
     let* _ := @cuda_trace_append0 debug_build UInt32 "ret$" in
     @cuda_eval debug_build 100) state0 = Ok tt s /\
    length (launches s) = 1%nat.
Proof.
  split; [vm_compute; reflexivity | ].
  split; [vm_compute; reflexivity | ].
  eexists. split; [vm_compute; reflexivity | reflexivity].
Qed.

(** ** Appending a node *)

Lemma keeps_Ok {A} (I : State -> Prop) (c : M A) s a s' :
  keeps I c -> I s -> c s = Ok a s' -> I s'.
Proof. intros Hk Hs Hc. specialize (Hk s Hs). rewrite Hc in Hk. exact Hk. Qed.

Lemma view_set_node s i v v' :
  node s i = Some v -> view_of v' = view_of v ->
  view (set_node i v' s) = view s.
Proof.
  unfold view, set_node, node. simpl. intros Hv Heq.
  rewrite list_fmap_insert, Heq. apply list_insert_id.
  rewrite list_lookup_fmap, Hv. reflexivity.
Qed.

Lemma view_count_closed l : count_closed (fun s => view s = l).
Proof.
  intros s i v n Hs Hv. split; rewrite <- Hs; eapply view_set_node; eauto.
Qed.

Lemma view_emplace s v :
  view (with_trace (fun tr => tr ++ [v]) s) = view s ++ [view_of v].
Proof. unfold view. simpl. rewrite fmap_app. reflexivity. Qed.

Lemma view_node s i p :
  view s !! N.to_nat i = Some p <-> exists v, node s i = Some v /\ view_of v = p.
Proof.
  unfold view, node. rewrite list_lookup_fmap. split.
  - intros H. destruct (__trace s !! N.to_nat i) as [v|]; simpl in H;
      [ | discriminate]. inversion H. eauto.
  - intros (v & -> & <-). reflexivity.
Qed.

Lemma length_view s : length (view s) = length (__trace s).
Proof. unfold view. apply length_fmap. Qed.

Lemma length_shape s : length (shape s) = length (__trace s).
Proof. unfold shape. apply length_fmap. Qed.

Section Append.
Context {B : Build}.

Lemma keeps_count_inc_ref_int (I : State -> Prop) index :
  count_closed I -> keeps I (cuda_inc_ref_int index).
Proof.
  intros HI. unfold cuda_inc_ref_int. repeat keeps_step.
  apply keeps_update. intros s v Hs Hv. apply (HI s index v _ Hs Hv).
Qed.

Lemma keeps_count_inc_ref_ext (I : State -> Prop) index :
  count_closed I -> keeps I (cuda_inc_ref_ext index).
Proof.
  intros HI. unfold cuda_inc_ref_ext. repeat keeps_step.
  apply keeps_update. intros s v Hs Hv. apply (HI s index v _ Hs Hv).
Qed.

Lemma when_eval_Ok fuel (b : bool) s s1 :
  when b (cuda_eval fuel) s = Ok tt s1 ->
  (b = false /\ s1 = s) \/ (b = true /\ cuda_eval fuel s = Ok tt s1).
Proof.
  destruct b; simpl; intros H; [right; auto | left].
  inversion H. auto.
Qed.

End Append.

Ltac ok_size H :=
  let n := fresh "n" in
  let s := fresh "s" in
  let Hn := fresh "Hn" in
  apply bind_Ok in H as (n & s & Hn & H);
  unfold trace_size in Hn; inversion Hn; subst n s; clear Hn.

Ltac ok_assert H :=
  let s := fresh "s" in
  let Ha := fresh "Ha" in
  apply bind_Ok in H as ([] & s & Ha & H);
  apply assert_Ok in Ha as [-> _].

Ltac ok_at H v Hv :=
  let s := fresh "s" in
  apply bind_Ok in H as (v & s & Hv & H);
  apply at_Ok in Hv as [-> Hv].

Ltac ok_emplace H :=
  let s := fresh "s" in
  let He := fresh "He" in
  apply bind_Ok in H as ([] & s & He & H);
  unfold emplace_back, modify in He; inversion He; subst s; clear He.

Section AppendOverloads.
Context {B : Build}.

(** The reference counting and the insertion into the active set that end
    an append keep the view of the trace and return the index. *)
Ltac finish_insert H :=
  split;
  [ repeat (apply bind_Ok in H as (? & ? & _ & H)); inversion H; reflexivity
  | etrans;
    [ refine (keeps_Ok (fun s => view s = _) _ _ _ _ _ eq_refl H);
      repeat keeps_step;
      lazymatch goal with
      | |- keeps _ (cuda_inc_ref_int _) =>
          apply keeps_count_inc_ref_int, view_count_closed
      | |- keeps _ (cuda_inc_ref_ext _) =>
          apply keeps_count_inc_ref_ext, view_count_closed
      | |- keeps _ (modify _) => apply keeps_modify; auto
      end
    | rewrite view_emplace; reflexivity ] ].

Lemma append0_Ok t c s idx s' :
  cuda_trace_append0 t c s = Ok idx s' ->
  idx = u32 (N.of_nat (length (__trace s))) /\
  view s' = view s ++ [(1, 1, false, (0, 0, 0))].
Proof.
  intros H. unfold cuda_trace_append0 in H.
  ok_size H. ok_emplace H. finish_insert H.
Qed.

Lemma append1_Ok fuel t c a1 s idx s' :
  cuda_trace_append1 fuel t c a1 s = Ok idx s' ->
  exists s1 o1,
    barrier fuel [a1] s s1 /\ node s1 a1 = Some o1 /\
    idx = u32 (N.of_nat (length (__trace s1))) /\
    view s' = view s1 ++
      [(size o1, u32 (subtree_size o1 + 1), false, (a1, 0, 0))].
Proof.
  intros H. unfold cuda_trace_append1 in H.
  ok_size H. ok_assert H. ok_at H v1 Hv1.
  apply bind_Ok in H as ([] & s1 & Hb & H).
  ok_size H. ok_at H o1 Ho1. ok_emplace H.
  exists s1, o1. split; [ | split; [exact Ho1 | finish_insert H]].
  apply when_eval_Ok in Hb as [[Hd ->]|[Hd He]]; [left | right].
  - split; [ | reflexivity]. intros a Ha.
    apply list_elem_of_singleton in Ha as ->. eauto.
  - split; [ | exact He]. exists a1, v1.
    split; [apply list_elem_of_singleton; reflexivity | auto].
Qed.

Lemma append2_Ok fuel t c a1 a2 s idx s' :
  cuda_trace_append2 fuel t c a1 a2 s = Ok idx s' ->
  exists s1 o1 o2,
    barrier fuel [a1; a2] s s1 /\
    node s1 a1 = Some o1 /\ node s1 a2 = Some o2 /\
    idx = u32 (N.of_nat (length (__trace s1))) /\
    view s' = view s1 ++
      [(N.max (size o1) (size o2),
        u32 (subtree_size o1 + subtree_size o2 + 1), false, (a1, a2, 0))].
Proof.
  intros H. unfold cuda_trace_append2 in H.
  ok_size H. ok_assert H. ok_at H v1 Hv1.
  apply bind_Ok in H as (d & sd & Hd & H).
  apply bind_Ok in H as ([] & s1 & Hb & H).
  ok_size H. ok_at H o1 Ho1. ok_at H o2 Ho2. ok_emplace H.
  exists s1, o1, o2.
  split; [ | split; [exact Ho1 | split; [exact Ho2 | finish_insert H]]].
  destruct (dirty v1) eqn:Hd1.
  - inversion Hd; subst. simpl in Hb. right.
    split; [ | exact Hb]. exists a1, v1. split; [left | auto].
  - ok_at Hd v2 Hv2. inversion Hd; subst.
    apply when_eval_Ok in Hb as [[Hd2 ->]|[Hd2 He]]; [left | right].
    + split; [ | reflexivity]. intros a Ha.
      apply elem_of_cons in Ha as [->|Ha]; [eauto | ].
      apply list_elem_of_singleton in Ha as ->. eauto.
    + split; [ | exact He]. exists a2, v2.
      split; [right; left | auto].
Qed.

Lemma append3_Ok fuel t c a1 a2 a3 s idx s' :
  cuda_trace_append3 fuel t c a1 a2 a3 s = Ok idx s' ->
  exists s1 o1 o2 o3,
    barrier fuel [a1; a2; a3] s s1 /\
    node s1 a1 = Some o1 /\ node s1 a2 = Some o2 /\ node s1 a3 = Some o3 /\
    idx = u32 (N.of_nat (length (__trace s1))) /\
    view s' = view s1 ++
      [(N.max (N.max (size o1) (size o2)) (size o3),
        u32 (subtree_size o1 + subtree_size o2 + subtree_size o3 + 1),
        false, (a1, a2, a3))].
Proof.
  intros H. unfold cuda_trace_append3 in H.
  ok_size H. ok_assert H. ok_at H v1 Hv1.
  apply bind_Ok in H as (d & sd & Hd & H).
  apply bind_Ok in H as ([] & s1 & Hb & H).
  ok_size H. ok_at H o1 Ho1. ok_at H o2 Ho2. ok_at H o3 Ho3. ok_emplace H.
  exists s1, o1, o2, o3.
  split; [ | split; [exact Ho1 | split; [exact Ho2 | split;
            [exact Ho3 | finish_insert H]]]].
  destruct (dirty v1) eqn:Hd1.
  - inversion Hd; subst. simpl in Hb. right.
    split; [ | exact Hb]. exists a1, v1. split; [left | auto].
  - ok_at Hd v2 Hv2. destruct (dirty v2) eqn:Hd2.
    + inversion Hd; subst. simpl in Hb. right.
      split; [ | exact Hb]. exists a2, v2. split; [right; left | auto].
    + ok_at Hd v3 Hv3. inversion Hd; subst.
      apply when_eval_Ok in Hb as [[Hd3 ->]|[Hd3 He]]; [left | right].
      * split; [ | reflexivity]. intros a Ha.
        apply elem_of_cons in Ha as [->|Ha]; [eauto | ].
        apply elem_of_cons in Ha as [->|Ha]; [eauto | ].
        apply list_elem_of_singleton in Ha as ->. eauto.
      * split; [ | exact He]. exists a3, v3.
        split; [right; right; left | auto].
Qed.

End AppendOverloads.

Lemma same_view_measures (ops ops' : list Var) :
  Forall2 (fun o o' => view_of o' = view_of o) ops ops' ->
  max_count ops' = max_count ops /\ sum_subtree ops' = sum_subtree ops.
Proof.
  intros H.
  assert (Hs : size <$> ops' = size <$> ops).
  { induction H as [|o o' l l' Ho _ IH]; [reflexivity | ].
    rewrite !fmap_cons. unfold view_of in Ho. inversion Ho.
    f_equal. exact IH. }
  assert (Ht : subtree_size <$> ops' = subtree_size <$> ops).
  { clear Hs. induction H as [|o o' l l' Ho _ IH]; [reflexivity | ].
    rewrite !fmap_cons. unfold view_of in Ho. inversion Ho.
    f_equal. exact IH. }
  split; [ | unfold sum_subtree; rewrite Ht; reflexivity].
  destruct H as [|o o' l l' Ho _]; [reflexivity | ].
  rewrite !fmap_cons in Hs. inversion Hs as [[H1 H2]].
  unfold max_count. rewrite H1, H2. reflexivity.
Qed.

Lemma Forall2_choice {X Y Z : Type} (P : X -> Z -> Prop) (Q : Y -> Z -> Prop)
    l k :
  Forall2 (fun x y => exists z, P x z /\ Q y z) l k ->
  exists m, Forall2 P l m /\ Forall2 Q k m.
Proof.
  induction 1 as [|x y l k (z & Hp & Hq) _ (m & H1 & H2)].
  - exists []. split; constructor.
  - exists (z :: m). split; constructor; assumption.
Qed.

Section AppendFacts.
Context {B : Build}.

Lemma append_overload_Ok fuel t c args m s idx s' :
  append_overload fuel t c args = Some m ->
  m s = Ok idx s' ->
  exists s1 ops,
    barrier fuel args s s1 /\
    Forall2 (fun a o => node s1 a = Some o) args ops /\
    idx = u32 (N.of_nat (length (__trace s1))) /\
    view s' = view s1 ++
      [(max_count ops, u32 (1 + sum_subtree ops), false, deps_of args)].
Proof.
  intros Hm H. destruct args as [|a1 [|a2 [|a3 [|a4 args]]]];
    inversion Hm; subst m; clear Hm.
  - apply append0_Ok in H as [Hi Hv]. exists s, [].
    split; [left; split; [ | reflexivity] | ].
    { intros a Ha. apply elem_of_nil in Ha. contradiction. }
    split; [constructor | ]. split; [exact Hi | exact Hv].
  - apply append1_Ok in H as (s1 & o1 & Hb & H1 & Hi & Hv).
    exists s1, [o1]. split; [exact Hb | ].
    split; [repeat constructor; assumption | ]. split; [exact Hi | ].
    assert (E : subtree_size o1 + 1 = 1 + sum_subtree [o1])
      by (unfold sum_subtree; simpl; lia).
    rewrite Hv, E. reflexivity.
  - apply append2_Ok in H as (s1 & o1 & o2 & Hb & H1 & H2 & Hi & Hv).
    exists s1, [o1; o2]. split; [exact Hb | ].
    split; [repeat constructor; assumption | ]. split; [exact Hi | ].
    assert (E : subtree_size o1 + subtree_size o2 + 1
                = 1 + sum_subtree [o1; o2])
      by (unfold sum_subtree; simpl; lia).
    rewrite Hv, E. reflexivity.
  - apply append3_Ok in H as (s1 & o1 & o2 & o3 & Hb & H1 & H2 & H3 & Hi & Hv).
    exists s1, [o1; o2; o3]. split; [exact Hb | ].
    split; [repeat constructor; assumption | ]. split; [exact Hi | ].
    assert (E : subtree_size o1 + subtree_size o2 + subtree_size o3 + 1
                = 1 + sum_subtree [o1; o2; o3])
      by (unfold sum_subtree; simpl; lia).
    rewrite Hv, E. reflexivity.
Qed.

Lemma barrier_shape fuel args s s1 : barrier fuel args s s1 -> shape s1 = shape s.
Proof.
  intros [[_ ->]|[_ He]]; [reflexivity | ].
  apply (keeps_Ok (fun x => shape x = shape s) _ _ _ _
           (keeps_eval_shape fuel (shape s)) eq_refl He).
Qed.

Lemma barrier_not_dirty fuel args s s1 :
  dirty_queued s -> barrier fuel args s s1 ->
  forall a o, a ∈ args -> node s1 a = Some o -> dirty o = false.
Proof.
  intros Hq [[Hall ->]|[_ He]] a o Ha Ho.
  - destruct (Hall a Ha) as (v & Hv & Hd). congruence.
  - pose proof (cuda_eval_clean fuel s Hq) as Hc. rewrite He in Hc.
    destruct Hc as (Hn & _). eapply Hn; eauto.
Qed.

(** The nodes that were in the trace before the insertion keep their
    view. *)
Lemma old_node_after_insert s1 s' p a o :
  view s' = view s1 ++ [p] -> node s1 a = Some o ->
  exists o', node s' a = Some o' /\ view_of o' = view_of o.
Proof.
  intros Hv Ho. apply view_node. rewrite Hv.
  rewrite lookup_app_l.
  - apply view_node. eauto.
  - rewrite length_view. unfold node in Ho. eapply lookup_lt_Some; eauto.
Qed.

Lemma new_node_after_insert s1 s' p :
  view s' = view s1 ++ [p] ->
  exists v, node s' (N.of_nat (length (__trace s1))) = Some v /\ view_of v = p.
Proof.
  intros Hv. apply view_node. rewrite Hv, Nat2N.id, <- length_view.
  apply list_lookup_middle. reflexivity.
Qed.

Lemma shape_node s s1 a o :
  shape s1 = shape s -> node s1 a = Some o ->
  exists o0, node s a = Some o0 /\
    subtree_size o0 = subtree_size o /\ size o0 = size o.
Proof.
  intros Hs Ho.
  assert (H : shape s !! N.to_nat a = Some (size o, subtree_size o)).
  { rewrite <- Hs. unfold shape. rewrite list_lookup_fmap.
    unfold node in Ho. rewrite Ho. reflexivity. }
  unfold shape in H. rewrite list_lookup_fmap in H. unfold node.
  destruct (__trace s !! N.to_nat a) as [o0|]; simpl in H; [ | discriminate].
  inversion H. eauto.
Qed.

End AppendFacts.

Lemma Forall2_impl_elem {X Y : Type} (P Q : X -> Y -> Prop) l k :
  Forall2 P l k -> (forall x y, x ∈ l -> P x y -> Q x y) -> Forall2 Q l k.
Proof.
  induction 1 as [|x y l k Hxy _ IH]; intros HPQ; constructor.
  - apply HPQ; [left | exact Hxy].
  - apply IH. intros x' y' Hx'. apply HPQ. right. exact Hx'.
Qed.

Lemma Forall2_elem_l {X Y : Type} (P : X -> Y -> Prop) l k x :
  Forall2 P l k -> x ∈ l -> exists y, P x y.
Proof.
  induction 1 as [|x' y l k Hxy _ IH]; intros Hx.
  - apply elem_of_nil in Hx. contradiction.
  - apply elem_of_cons in Hx as [->|Hx]; eauto.
Qed.

(** C7, as amended.  An append with up to three operands that returns, in
    a trace of fewer than 2^32 nodes, returns the index of a node whose
    subtree size is 1 plus the sum of the subtree sizes of the operands
    reduced modulo 2^32, and whose element count is the largest element
    count of the operands, 1 without operands; the operands have the same
    two fields before and after the call. *)
Theorem C7_append_subtree_and_count {B : Build} (fuel : nat) (t : EnokiType)
    (c : string) (args : list N) (m : M N) (s : State) (idx : N) (s' : State) :
  append_overload fuel t c args = Some m ->
  N.of_nat (length (__trace s)) < 2 ^ 32 ->
  m s = Ok idx s' ->
  exists v ops,
    node s' idx = Some v /\
    Forall2 (fun a o => node s' a = Some o) args ops /\
    subtree_size v = u32 (1 + sum_subtree ops) /\
    size v = max_count ops /\
    Forall2 (fun a o => exists o0, node s a = Some o0 /\
               subtree_size o0 = subtree_size o /\ size o0 = size o)
            args ops.
Proof.
  intros Hm Hlen H.
  destruct (append_overload_Ok _ _ _ _ _ _ _ _ Hm H)
    as (s1 & ops & Hb & Hops & Hi & Hv).
  pose proof (barrier_shape _ _ _ _ Hb) as Hsh.
  assert (Hl : length (__trace s1) = length (__trace s)).
  { rewrite <- !length_shape, Hsh. reflexivity. }
  assert (Hidx : idx = N.of_nat (length (__trace s1))).
  { rewrite Hi. unfold u32. apply N.mod_small. rewrite Hl. exact Hlen. }
  destruct (new_node_after_insert _ _ _ Hv) as (v & Hnew & Hview).
  assert (Hold : Forall2 (fun a o => exists o', node s' a = Some o' /\
                            view_of o' = view_of o) args ops).
  { eapply Forall2_impl; [exact Hops | ]. intros a o Ho.
    eapply old_node_after_insert; eauto. }
  apply Forall2_choice in Hold as (ops' & Hops' & Hsame).
  destruct (same_view_measures _ _ Hsame) as [Hmax Hsum].
  unfold view_of in Hview. inversion Hview as [[Hsz Hst Hd Hdep]].
  exists v, ops'. rewrite Hmax, Hsum, Hidx.
  split; [exact Hnew | ]. split; [exact Hops' | ].
  split; [exact Hst | ]. split; [exact Hsz | ].
  eapply Forall2_impl_elem; [exact Hops' | ]. intros a o' Ha Ho'.
  destruct (Forall2_elem_l _ _ _ _ Hops Ha) as [o Ho].
  destruct (old_node_after_insert _ _ _ _ _ Hv Ho) as (o'' & Ho'' & Hvv).
  rewrite Ho' in Ho''. inversion Ho''; subst o''.
  destruct (shape_node _ _ _ _ Hsh Ho) as (o0 & Ho0 & H1 & H2).
  exists o0. unfold view_of in Hvv. inversion Hvv. split; [exact Ho0 | ].
  split; congruence.
Qed.

Lemma C7_append_subtree_and_count_witness :
  @append_overload debug_build 100 UInt32 "add.u32 $r1, $r2, $r3" [10; 11] =
    Some (@cuda_trace_append2 debug_build 100 UInt32 "add.u32 $r1, $r2, $r3"
            10 11) /\
  N.of_nat (length (__trace (doubled_state 1))) < 2 ^ 32 /\
  exists idx s',
    @cuda_trace_append2 debug_build 100 UInt32 "add.u32 $r1, $r2, $r3" 10 11
      (doubled_state 1) = Ok idx s' /\
    exists v ops,
      node s' idx = Some v /\
      Forall2 (fun a o => node s' a = Some o) [10; 11] ops /\
      subtree_size v = u32 (1 + sum_subtree ops) /\
      size v = max_count ops.
Proof.
  set (s := doubled_state 1).
  assert (H1 : @append_overload debug_build 100 UInt32 "add.u32 $r1, $r2, $r3"
                 [10; 11] =
               Some (@cuda_trace_append2 debug_build 100 UInt32
                       "add.u32 $r1, $r2, $r3" 10 11)) by reflexivity.
  assert (H2 : N.of_nat (length (__trace s)) < 2 ^ 32)
    by (vm_compute; reflexivity).
  split; [exact H1 | ]. split; [exact H2 | ].
  destruct (@cuda_trace_append2 debug_build 100 UInt32
              "add.u32 $r1, $r2, $r3" 10 11 s) as [idx s'|msg s'|r] eqn:E;
    [ | vm_compute in E; discriminate E | vm_compute in E; discriminate E].
  exists idx, s'. split; [reflexivity | ].
  destruct (@C7_append_subtree_and_count debug_build 100 UInt32
              "add.u32 $r1, $r2, $r3" [10; 11] _ s idx s' H1 H2 E)
    as (v & ops & Ha & Hb & Hc & Hd & _).
  exists v, ops. auto.
Defined.

(** The claim C7 as the specification states it fails after one append
    without operands and 31 appends that each take the previous node
    twice: the subtree size of node 41 is 2^32 - 1, and the node appended
    with node 41 as both operands has the subtree size 2^32 - 1 as well,
    not 2^33 - 1. *)
Lemma C7_counterexample :
  exists s idx s',
    @run_calls debug_build (doubled 31) state0 = Some s /\
    @cuda_trace_append2 debug_build 100 UInt32 "add.u32 $r1, $r2, $r3"
      41 41 s = Ok idx s' /\
    subtree_size <$> node s' 41 = Some 4294967295 /\
    subtree_size <$> node s' idx = Some 4294967295 /\
    4294967295 <> 1 + (4294967295 + 4294967295).
Proof.
  eexists. eexists. eexists.
  split; [vm_compute; reflexivity | ].
  split; [vm_compute; reflexivity | ].
  split; [vm_compute; reflexivity | ].
  split; [vm_compute; reflexivity | ].
  intros H. discriminate H.
Qed.

(** ** The read-after-write barrier *)

(** C8.  In a reachable state, an append with up to three operands that
    returns leaves none of its operands dirty, and these operands are the
    dependencies of the node at the end of the trace.  When one of them was
    dirty at the call, [cuda_eval] ran from the state of the call to its
    end, left a state without dirty nodes, and the trace after the append
    is the trace of that state followed by the new node. *)
Theorem C8_read_after_write {B : Build} (fuel : nat) (t : EnokiType)
    (c : string) (args : list N) (m : M N) (s : State) (idx : N) (s' : State) :
  reachable s ->
  append_overload fuel t c args = Some m ->
  m s = Ok idx s' ->
  (forall a, a ∈ args -> exists o, node s' a = Some o /\ dirty o = false) /\
  dep <$> last (__trace s') = Some (deps_of args) /\
  ((exists a v, a ∈ args /\ node s a = Some v /\ dirty v = true) ->
   exists s1,
     cuda_eval fuel s = Ok tt s1 /\ clean s1 /\
     (forall a, a ∈ args -> exists o, node s1 a = Some o /\ dirty o = false) /\
     exists p, view s' = view s1 ++ [p]).
Proof.
  intros Hr Hm H. apply reachable_dirty_queued in Hr.
  destruct (append_overload_Ok _ _ _ _ _ _ _ _ Hm H)
    as (s1 & ops & Hb & Hops & Hi & Hv).
  assert (Hclean : forall a, a ∈ args ->
            exists o, node s1 a = Some o /\ dirty o = false).
  { intros a Ha. destruct (Forall2_elem_l _ _ _ _ Hops Ha) as [o Ho].
    exists o. split; [exact Ho | ].
    eapply barrier_not_dirty; eauto. }
  split; [ | split].
  - intros a Ha. destruct (Hclean a Ha) as (o & Ho & Hd).
    destruct (old_node_after_insert _ _ _ _ _ Hv Ho) as (o' & Ho' & Hvv).
    exists o'. split; [exact Ho' | ].
    unfold view_of in Hvv. inversion Hvv. congruence.
  - assert (Hlast : last (view s') =
              Some (max_count ops, u32 (1 + sum_subtree ops), false,
                    deps_of args)).
    { rewrite Hv. apply last_snoc. }
    unfold view in Hlast. rewrite fmap_last in Hlast.
    destruct (last (__trace s')) as [v|]; simpl in *; [ | discriminate].
    unfold view_of in Hlast. inversion Hlast. reflexivity.
  - intros (a & v & Ha & Hva & Hd).
    destruct Hb as [[Hall _]|[_ He]].
    + destruct (Hall a Ha) as (v' & Hv' & Hd'). congruence.
    + exists s1. split; [exact He | ].
      pose proof (cuda_eval_clean fuel s Hr) as Hc. rewrite He in Hc.
      split; [exact Hc | ]. split; [exact Hclean | eauto].
Qed.

Lemma C8_read_after_write_witness :
  @reachable debug_build dirty_state /\
  @append_overload debug_build 100 UInt32 "neg.s32 $r1, $r2" [11] =
    Some (@cuda_trace_append1 debug_build 100 UInt32 "neg.s32 $r1, $r2" 11) /\
  dirty <$> node dirty_state 11 = Some true /\
  exists idx s',
    @cuda_trace_append1 debug_build 100 UInt32 "neg.s32 $r1, $r2" 11
      dirty_state = Ok idx s' /\
    (forall a, a ∈ [11] -> exists o, node s' a = Some o /\ dirty o = false) /\
    dep <$> last (__trace s') = Some (11, 0, 0) /\
    exists s1, @cuda_eval debug_build 100 dirty_state = Ok tt s1 /\ clean s1.
Proof.
  set (s := dirty_state).
  assert (H1 : @reachable debug_build s).
  { exists dirty_operand. vm_compute. reflexivity. }
  assert (H2 : @append_overload debug_build 100 UInt32 "neg.s32 $r1, $r2"
                 [11] =
               Some (@cuda_trace_append1 debug_build 100 UInt32
                       "neg.s32 $r1, $r2" 11)) by reflexivity.
  assert (H3 : dirty <$> node s 11 = Some true) by reflexivity.
  split; [exact H1 | ]. split; [exact H2 | ]. split; [exact H3 | ].
  destruct (@cuda_trace_append1 debug_build 100 UInt32 "neg.s32 $r1, $r2"
              11 s) as [idx s'|msg s'|r] eqn:E;
    [ | vm_compute in E; discriminate E | vm_compute in E; discriminate E].
  exists idx, s'. split; [reflexivity | ].
  destruct (@C8_read_after_write debug_build 100 UInt32 "neg.s32 $r1, $r2"
              [11] _ s idx s' H1 H2 E) as (Ha & Hb & Hc).
  split; [exact Ha | ]. split; [exact Hb | ].
  destruct Hc as (s1 & He & Hcl & _).
  - destruct (node s 11) as [v|] eqn:Hv; [ | discriminate H3].
    exists 11, v. split; [left | ]. split; [exact Hv | ].
    simpl in H3. inversion H3. reflexivity.
  - exists s1. auto.
Defined.

(** ** Side effects *)

Lemma active_gc_closed A : gc_closed (fun s => __active s = A).
Proof. split. intros s i v v' Hs _ _. exact Hs. Qed.

Lemma ext_count_set_node index c s i v v' :
  ext_count index c s -> node s i = Some v ->
  ref_count_ext v' = ref_count_ext v ->
  ext_count index c (set_node i v' s).
Proof.
  unfold ext_count. intros Hs Hv He.
  rewrite (node_set_node _ _ _ _ _ Hv).
  destruct (decide (i = index)) as [->|Hne]; [ | exact Hs].
  rewrite Hv in Hs. simpl in *. congruence.
Qed.

Lemma ext_count_gc_closed index c : gc_closed (ext_count index c).
Proof.
  split. intros s i v v' Hs Hv Hstep.
  eapply ext_count_set_node; eauto.
  destruct (gc_step_meta _ _ Hstep) as (_ & _ & _ & H & _). exact H.
Qed.

Section SideEffects.
Context {B : Build}.

(** An external decrement of a node above the reserved indices that
    returns: the count was not 0 and is one less; when it was 1, the node is
    no longer in the active set. *)
Lemma dec_ref_ext_Ok fuel index s v s' :
  ENOKI_CUDA_REG_RESERVED <= index ->
  node s index = Some v ->
  cuda_dec_ref_ext fuel index s = Ok tt s' ->
  ref_count_ext v <> 0 /\
  ext_count index (u32_pred (ref_count_ext v)) s' /\
  (ref_count_ext v = 1 -> index ∉ __active s').
Proof.
  intros Hres Hv H. unfold cuda_dec_ref_ext in H.
  ok_size H.
  assert (Hlt : (index <? ENOKI_CUDA_REG_RESERVED) = false)
    by (apply N.ltb_ge; exact Hres).
  assert (Hne : (N.of_nat (length (__trace s)) =? 0) = false).
  { apply N.eqb_neq. unfold node in Hv. apply lookup_lt_Some in Hv. lia. }
  rewrite Hlt, Hne in H. simpl in H.
  ok_assert H. ok_at H v0 Hv0. rewrite Hv in Hv0. inversion Hv0; subst v0.
  destruct (ref_count_ext v =? 0) eqn:Hz; [discriminate H | ].
  apply N.eqb_neq in Hz. split; [exact Hz | ].
  apply bind_Ok in H as ([] & sa & Hu & H).
  apply update_Ok in Hu as (v0 & Hv0' & ->).
  rewrite Hv in Hv0'. inversion Hv0'; subst v0.
  set (v1 := set_ref_count_ext (u32_pred (ref_count_ext v)) v) in *.
  ok_at H w Hw. rewrite (node_set_node_eq _ _ _ _ Hv) in Hw.
  inversion Hw; subst w.
  apply bind_Ok in H as ([] & sb & Hact & H).
  ok_at H w Hw2.
  assert (Hext : ext_count index (u32_pred (ref_count_ext v)) sb).
  { destruct (ref_count_ext v1 =? 0); simpl in Hact; inversion Hact; subst sb;
      unfold ext_count, node; simpl;
      (rewrite list_lookup_insert_eq;
         [reflexivity | unfold node in Hv; eapply lookup_lt_Some; eauto]). }
  split.
  - destruct (is_collected w); simpl in H; [ | inversion H; subst; exact Hext].
    eapply (keeps_Ok (ext_count index _)); [ | exact Hext | exact H].
    apply keeps_var_free, ext_count_gc_closed.
  - intros H1.
    assert (Hnot : index ∉ __active sb).
    { assert (E : (ref_count_ext v1 =? 0) = true).
      { unfold v1. simpl. rewrite H1. reflexivity. }
      rewrite E in Hact. simpl in Hact. inversion Hact. simpl.
      apply not_elem_of_difference. right.
      apply elem_of_singleton. reflexivity. }
    destruct (is_collected w); simpl in H; [ | inversion H; subst; exact Hnot].
    assert (Hact' : __active s' = __active sb).
    { eapply (keeps_Ok (fun x => __active x = __active sb));
        [ | reflexivity | exact H].
      apply keeps_var_free, active_gc_closed. }
    rewrite Hact'. exact Hnot.
Qed.

End SideEffects.

Section SideEffectClaims.
Context {B : Build}.

Lemma mark_side_effect_Ok index s v s1 :
  node s index = Some v ->
  cuda_var_mark_side_effect index s = Ok tt s1 ->
  s1 = set_node index (set_side_effect true v) s.
Proof.
  intros Hv H. unfold cuda_var_mark_side_effect in H.
  ok_size H. ok_assert H.
  apply update_Ok in H as (v0 & Hv0 & ->). congruence.
Qed.

(** The emission of a computed node that is marked as a side effect
    decrements its external count. *)
Lemma assemble_side_effect fuel index s v size_ reg_map acc r s2 :
  ENOKI_CUDA_REG_RESERVED <= index ->
  node s index = Some v ->
  side_effect v = true -> data v = 0 ->
  assemble_var fuel size_ reg_map acc index s = Ok r s2 ->
  ref_count_ext v <> 0 /\
  ext_count index (u32_pred (ref_count_ext v)) s2.
Proof.
  intros Hres Hv Hse Hdata H. unfold assemble_var in H.
  destruct acc as [oss ptrs]. ok_at H var Hvar.
  rewrite Hv in Hvar. inversion Hvar; subst var.
  destruct (is_collected v || _); [discriminate H | ].
  destruct (negb (size v =? 1) && _); [discriminate H | ].
  rewrite Hdata in H. simpl in H. unfold emit_compute in H.
  apply bind_Ok in H as (oss1 & sa & Hc & H).
  assert (sa = s); [ | subst sa].
  { eapply pure_Ok; [ | exact Hc]. repeat pure_step. }
  apply bind_Ok in H as (st & sa & Hg & H). inversion Hg; subst st sa.
  apply bind_Ok in H as (oss2 & sa & Hr & H).
  apply (pure_Ok _ _ _ _ (pure_cuda_render_cmd _ _ _ _)) in Hr. subst sa.
  rewrite Hse in H. simpl in H.
  apply bind_Ok in H as ([] & sa & Hd & H).
  destruct (dec_ref_ext_Ok _ _ _ _ _ Hres Hv Hd) as (Hnz & Hext & _).
  split; [exact Hnz | ].
  eapply (keeps_Ok (ext_count index _)); [ | exact Hext | exact H].
  repeat keeps_step;
    lazymatch goal with
    | |- keeps _ (cuda_var_size _) => apply keeps_pure, pure_cuda_var_size
    | |- keeps _ (emit_store _ _ _ _ _) => apply keeps_pure, pure_emit_store
    | |- keeps _ (cudaMalloc _) => intros x Hx; exact Hx
    | |- keeps _ (update _ _) =>
        apply keeps_update; intros x w Hx Hw;
        eapply ext_count_set_node; eauto
    end.
Qed.

End SideEffectClaims.

(** C1, as amended.  For a node above the reserved indices:
    [cuda_var_mark_side_effect] only sets the flag of the node, so the
    active set and the reference counts stay as they are; an external
    decrement that takes the count of a marked node from 1 to 0 removes the
    node from the active set; and when [cuda_jit_assemble] emits a marked
    node that has no device pointer, the external count of the node was not
    0 and is one less afterwards. *)
Theorem C1_marked_node_follows_external_count {B : Build} (fuel : nat)
    (index : N) (s : State) (v : Var) :
  ENOKI_CUDA_REG_RESERVED <= index ->
  node s index = Some v ->
  (forall s1,
     cuda_var_mark_side_effect index s = Ok tt s1 ->
     s1 = set_node index (set_side_effect true v) s) /\
  (side_effect v = true -> ref_count_ext v = 1 ->
   forall s2, cuda_dec_ref_ext fuel index s = Ok tt s2 ->
     index ∉ __active s2) /\
  (side_effect v = true -> data v = 0 ->
   forall size_ reg_map acc r s2,
     assemble_var fuel size_ reg_map acc index s = Ok r s2 ->
     ref_count_ext v <> 0 /\
     ref_count_ext <$> node s2 index = Some (u32_pred (ref_count_ext v))).
Proof.
  intros Hres Hv. split; [ | split].
  - intros s1. apply mark_side_effect_Ok. exact Hv.
  - intros _ H1 s2 H.
    destruct (dec_ref_ext_Ok _ _ _ _ _ Hres Hv H) as (_ & _ & Hn). auto.
  - intros Hse Hd size_ reg_map acc r s2 H.
    eapply assemble_side_effect; eauto.
Qed.

Lemma C1_marked_node_follows_external_count_witness :
  ENOKI_CUDA_REG_RESERVED <= 11 /\
  (exists v, node held_state 11 = Some v /\
     side_effect v = true /\ ref_count_ext v = 1) /\
  (11 ∈ __active held_state) /\
  exists s2,
    @cuda_dec_ref_ext debug_build 100 11 held_state = Ok tt s2 /\
    (11 ∉ __active s2).
Proof.
  set (s := held_state).
  set (v := default (Variable_ Invalid) (node s 11)).
  assert (H1 : ENOKI_CUDA_REG_RESERVED <= 11) by (vm_compute; discriminate).
  assert (H2 : node s 11 = Some v) by reflexivity.
  split; [exact H1 | ].
  split; [exists v; split; [exact H2 | split; reflexivity] | ].
  split; [vm_compute; reflexivity | ].
  destruct (@cuda_dec_ref_ext debug_build 100 11 s) as [[] s2|msg s2|r] eqn:E;
    [ | vm_compute in E; discriminate E | vm_compute in E; discriminate E].
  exists s2. split; [reflexivity | ].
  destruct (@C1_marked_node_follows_external_count debug_build 100 11 s v
              H1 H2) as (_ & H & _).
  apply (H eq_refl eq_refl s2 E).
Defined.

(** The claim C1 as the specification states it fails on two appended
    nodes of which the second is marked and then released: the node keeps
    its flag, it is no longer in the active set, the evaluation does not
    schedule it, and the one kernel that is launched has one pointer, the
    buffer of node 10. *)
Lemma C1_counterexample :
  @run_calls debug_build released_side_effect state0 = Some released_state /\
  side_effect <$> node released_state 11 = Some true /\
  (11 ∉ __active released_state) /\
  schedule_of 100 released_state = Some [[10]] /\
  ~ scheduled 100 released_state 11 /\
  exists s',
    @cuda_eval debug_build 100 released_state = Ok tt s' /\
    (length ∘ l_ptrs) <$> launches s' = [1%nat].
Proof.
  set (s := released_state).
  assert (Hs : schedule_of 100 s = Some [[10]]) by (vm_compute; reflexivity).
  split; [vm_compute; reflexivity | ].
  split; [reflexivity | ].
  split; [vm_compute; intros H; discriminate H | ].
  split; [exact Hs | ].
  split.
  { intros (ls & l & Hls & Hl & Hin).
    rewrite Hs in Hls. inversion Hls; subst ls.
    apply list_elem_of_singleton in Hl as ->.
    apply list_elem_of_singleton in Hin. discriminate Hin. }
  eexists. split; [vm_compute; reflexivity | reflexivity].
Qed.

(** ** The state after an evaluation *)

(** C6, as amended.  After an evaluation that returns, from a reachable
    state: the active set is empty, the dirty queue is empty, no node is
    dirty, and every scheduled node that has an instruction and a device
    pointer has its three dependency slots at 0. *)
Theorem C6_after_evaluate {B : Build} (fuel : nat) (s s' : State) :
  reachable s ->
  cuda_eval fuel s = Ok tt s' ->
  __active s' = ∅ /\
  __dirty s' = [] /\
  (forall i v, node s' i = Some v -> dirty v = false) /\
  (forall idx v,
     scheduled fuel s idx -> node s' idx = Some v ->
     empty (cmd v) = false -> data v <> 0 -> dep v = (0, 0, 0)).
Proof.
  intros Hr H. apply reachable_dirty_queued in Hr.
  pose proof (cuda_eval_clean fuel s Hr) as Hc. rewrite H in Hc.
  destruct Hc as (Hnd & Hact & Hdq).
  split; [exact Hact | ]. split; [exact Hdq | ]. split; [exact Hnd | ].
  intros idx v Hsch. apply (cuda_eval_collapsed fuel idx s s' Hsch H).
Qed.

Lemma C6_after_evaluate_witness :
  @reachable debug_build three_operands_state /\
  exists s',
    @cuda_eval debug_build 100 three_operands_state = Ok tt s' /\
    __active s' = ∅ /\
    scheduled 100 three_operands_state 16 /\
    dep <$> node s' 16 = Some (0, 0, 0) /\
    data <$> node s' 16 = Some 1.
Proof.
  set (s := three_operands_state).
  assert (H1 : @reachable debug_build s).
  { exists three_operands. vm_compute. reflexivity. }
  split; [exact H1 | ].
  destruct (@cuda_eval debug_build 100 s) as [[] s'|msg s'|r] eqn:E;
    [ | vm_compute in E; discriminate E | vm_compute in E; discriminate E].
  exists s'.
  destruct (@C6_after_evaluate debug_build 100 s s' H1 E) as (Ha & _ & _ & Hc).
  assert (Hs : scheduled 100 s 16).
  { exists [[13; 14; 15; 10; 11; 12; 16]], [13; 14; 15; 10; 11; 12; 16].
    split; [vm_compute; reflexivity | ]. split; [left | ].
    do 6 right. left. }
  assert (Hn : exists v, node s' 16 = Some v /\ empty (cmd v) = false /\
                         data v = 1).
  { vm_compute in E. inversion E. eexists. split; [reflexivity | ].
    split; reflexivity. }
  destruct Hn as (v & Hv & Hcmd & Hdata).
  split; [reflexivity | ]. split; [exact Ha | ]. split; [exact Hs | ].
  rewrite Hv. simpl. split; [ | congruence].
  f_equal. apply (Hc 16 v Hs Hv Hcmd). rewrite Hdata. discriminate.
Defined.

(** The claim C6 as the specification states it fails on two appended
    nodes of which the second is marked as a side effect: the evaluation
    schedules node 11, which has an instruction, and leaves it without a
    device pointer. *)
Lemma C6_counterexample :
  @reachable debug_build held_state /\
  scheduled 100 held_state 11 /\
  exists s',
    @cuda_eval debug_build 100 held_state = Ok tt s' /\
    (empty ∘ cmd) <$> node s' 11 = Some false /\
    data <$> node s' 11 = Some 0.
Proof.
  split; [exists held_side_effect; vm_compute; reflexivity | ].
  split.
  - exists [[10; 11]], [10; 11].
    split; [vm_compute; reflexivity | ]. split; [left | right; left].
  - eexists. split; [vm_compute; reflexivity | ]. split; reflexivity.
Qed.

(** * Further properties of the code *)

Lemma acyclicb_spec tr : acyclicb tr = true -> acyclic tr.
Proof.
  unfold acyclicb, acyclic. intros H i v d Hv Hd Hres.
  rewrite forallb_forall in H.
  specialize (H (i, v)). simpl in H.
  assert (Hin : In (i, v) (imap (fun i v => (i, v)) tr)).
  { apply list_elem_of_In. apply list_elem_of_lookup. exists i.
    rewrite list_lookup_imap, Hv. reflexivity. }
  specialize (H Hin). rewrite forallb_forall in H.
  apply list_elem_of_In in Hd. specialize (H d Hd).
  apply orb_true_iff in H as [H|H].
  - apply N.ltb_lt in H. lia.
  - apply N.ltb_lt in H. lia.
Qed.

Lemma reorder_deps_perm tr d d' :
  reorder_deps tr d = Some d' -> array3_to_list d' ≡ₚ array3_to_list d.
Proof.
  unfold reorder_deps. destruct d as [[d0 d1] d2]. intros H.
  destruct (prio tr (d0, d1, d2) 1) as [p1|]; simpl in H; [ | discriminate].
  destruct (prio tr (d0, d1, d2) 2) as [p2|]; simpl in H; [ | discriminate].
  destruct (p1 <? p2); simpl in H.
  - destruct (prio tr (d1, d0, d2) 0) as [q0|]; simpl in H; [ | discriminate].
    destruct (prio tr (d1, d0, d2) 2) as [q2|]; simpl in H; [ | discriminate].
    destruct (q0 <? q2); simpl in H.
    + destruct (prio tr (d2, d0, d1) 0) as [r0|]; simpl in H; [ | discriminate].
      destruct (prio tr (d2, d0, d1) 1) as [r1|]; simpl in H; [ | discriminate].
      destruct (r0 <? r1); inversion H; subst; simpl; solve_Permutation.
    + destruct (prio tr (d1, d0, d2) 0) as [r0|]; simpl in H; [ | discriminate].
      destruct (prio tr (d1, d0, d2) 1) as [r1|]; simpl in H; [ | discriminate].
      destruct (r0 <? r1); inversion H; subst; simpl; solve_Permutation.
  - destruct (prio tr (d0, d1, d2) 0) as [q0|]; simpl in H; [ | discriminate].
    destruct (prio tr (d0, d1, d2) 2) as [q2|]; simpl in H; [ | discriminate].
    destruct (q0 <? q2); simpl in H.
    + destruct (prio tr (d2, d1, d0) 0) as [r0|]; simpl in H; [ | discriminate].
      destruct (prio tr (d2, d1, d0) 1) as [r1|]; simpl in H; [ | discriminate].
      destruct (r0 <? r1); inversion H; subst; simpl; solve_Permutation.
    + destruct (prio tr (d0, d1, d2) 0) as [r0|]; simpl in H; [ | discriminate].
      destruct (prio tr (d0, d1, d2) 1) as [r1|]; simpl in H; [ | discriminate].
      destruct (r0 <? r1); inversion H; subst; simpl; solve_Permutation.
Qed.
Lemma dependencies_first_snoc tr sw idx :
  dependencies_first tr sw ->
  (forall v d, tr !! N.to_nat idx = Some v -> d ∈ array3_to_list (dep v) ->
     ENOKI_CUDA_REG_RESERVED <= d -> d ∈ sw) ->
  dependencies_first tr (sw ++ [idx]).
Proof.
  intros Hsw Hidx pos i v d Hpos Hv Hd Hres.
  destruct (decide (pos < length sw)%nat) as [Hlt|Hge].
  - rewrite lookup_app_l in Hpos by exact Hlt.
    destruct (Hsw pos i v d Hpos Hv Hd Hres) as (pos' & Hlt' & Hpos').
    exists pos'. split; [exact Hlt' | ].
    rewrite lookup_app_l by lia. exact Hpos'.
  - rewrite lookup_app_r in Hpos by lia.
    destruct (pos - length sw)%nat as [|n] eqn:E; simpl in Hpos;
      [ | discriminate].
    inversion Hpos; subst i.
    pose proof (Hidx v d Hv Hd Hres) as Hin.
    apply list_elem_of_lookup in Hin as (pos' & Hpos').
    exists pos'. pose proof (lookup_lt_Some _ _ _ Hpos') as Hlen.
    split; [lia | ]. rewrite lookup_app_l by exact Hlen. exact Hpos'.
Qed.

(** What one traversal adds: the schedule grows at its end, the visited
    nodes stay the scheduled ones and the ones of the stack, the start node
    is scheduled unless it is on the stack, and, in a trace whose
    dependencies point backwards, dependencies stay before their users. *)
Lemma sweep_recursive_order fuel tr stack vis sw idx b' :
  visited_split stack (vis, sw) ->
  sweep_recursive fuel tr vis sw idx = inr b' ->
  (exists new, b'.2 = sw ++ new) /\
  visited_split stack b' /\
  (idx ∈ b'.2 \/ idx ∈ stack) /\
  (acyclic tr -> (forall x, x ∈ stack -> idx < x) ->
   dependencies_first tr sw -> dependencies_first tr b'.2).
Proof.
  revert stack vis sw idx b'.
  induction fuel as [|fuel IH]; intros stack vis sw idx b' Hsplit H;
    simpl in H; [discriminate | ].
  destruct (decide (idx ∈ vis)) as [Hin|Hin].
  { inversion H; subst. simpl. split; [exists []; rewrite app_nil_r; reflexivity | ].
    split; [exact Hsplit | ]. split; [apply (Hsplit idx); exact Hin | auto]. }
  destruct (tr !! N.to_nat idx) as [v|] eqn:Hv; [ | discriminate].
  destruct (reorder_deps tr (dep v)) as [deps|] eqn:Hre; [ | discriminate].
  apply reorder_deps_perm in Hre.
  assert (Hsplit1 : visited_split (idx :: stack) ({[idx]} ∪ vis, sw)).
  { intros x. simpl. rewrite elem_of_union, elem_of_singleton, elem_of_cons.
    specialize (Hsplit x). simpl in Hsplit. tauto. }
  assert (Hfold : forall l b0 r stack', visited_split stack' b0 ->
     fold_left (fun acc k =>
        match acc with
        | inl e => inl e
        | inr (visited, sweep) =>
            if ENOKI_CUDA_REG_RESERVED <=? k
            then sweep_recursive fuel tr visited sweep k
            else inr (visited, sweep)
        end) l (inr b0) = inr r ->
     (exists new, r.2 = b0.2 ++ new) /\
     visited_split stack' r /\
     (forall k, k ∈ l -> ENOKI_CUDA_REG_RESERVED <= k ->
        k ∈ r.2 \/ k ∈ stack') /\
     (acyclic tr ->
      (forall k x, k ∈ l -> ENOKI_CUDA_REG_RESERVED <= k -> x ∈ stack' ->
         k < x) ->
      dependencies_first tr b0.2 -> dependencies_first tr r.2)).
  { induction l as [|k l IHl]; intros b0 r stack' Hb0 Hr; simpl in Hr.
    - inversion Hr; subst.
      split; [exists []; rewrite app_nil_r; reflexivity | ].
      split; [exact Hb0 | ]. split; [ | auto].
      intros k Hk. apply elem_of_nil in Hk. contradiction.
    - destruct b0 as [v0 s0].
      destruct (ENOKI_CUDA_REG_RESERVED <=? k) eqn:Hres.
      + destruct (sweep_recursive fuel tr v0 s0 k) as [e|b2] eqn:Hrec.
        * exfalso. eapply fold_left_inl; [ | exact Hr]. reflexivity.
        * destruct (IH _ _ _ _ _ Hb0 Hrec) as ((new1 & Hnew1) & Hb2 & Hk & Hord).
          destruct (IHl _ _ _ Hb2 Hr) as ((new2 & Hnew2) & Hr2 & Hks & Hord2).
          simpl in *.
          split; [exists (new1 ++ new2); rewrite Hnew2, Hnew1, app_assoc;
                  reflexivity | ].
          split; [exact Hr2 | ]. split.
          -- intros k' Hk' Hres'. apply elem_of_cons in Hk' as [->|Hk'];
               [ | auto].
             destruct Hk as [Hk|Hk]; [ | right; exact Hk].
             left. rewrite Hnew2. apply elem_of_app. left. exact Hk.
          -- intros Hac Hlt Hdf. apply Hord2; [exact Hac | | ].
             ++ intros k' x Hk' Hres' Hx. apply Hlt; [ | exact Hres' | exact Hx].
                apply elem_of_cons. right. exact Hk'.
             ++ apply Hord; [exact Hac | | exact Hdf].
                intros x Hx. apply Hlt; [ | | exact Hx].
                ** apply elem_of_cons. left. reflexivity.
                ** apply N.leb_le. exact Hres.
      + destruct (IHl _ _ _ Hb0 Hr) as (Hnew & Hr2 & Hks & Hord2).
        split; [exact Hnew | ]. split; [exact Hr2 | ]. split.
        * intros k' Hk' Hres'. apply elem_of_cons in Hk' as [->|Hk'];
            [ | auto].
          apply N.leb_gt in Hres. lia.
        * intros Hac Hlt Hdf. apply Hord2; [exact Hac | | exact Hdf].
          intros k' x Hk' Hres' Hx. apply Hlt; [ | exact Hres' | exact Hx].
          apply elem_of_cons. right. exact Hk'. }
  destruct (fold_left _ _ _) as [e|[vis2 sw2]] eqn:Hf; [discriminate | ].
  inversion H; subst b'. clear H.
  destruct (Hfold _ _ _ _ Hsplit1 Hf) as ((new & Hnew) & Hsplit2 & Hks & Hord).
  simpl in *.
  split; [exists (new ++ [idx]); rewrite Hnew, app_assoc; reflexivity | ].
  split.
  { intros x. simpl. rewrite elem_of_app, list_elem_of_singleton.
    specialize (Hsplit2 x). simpl in Hsplit2.
    rewrite elem_of_cons in Hsplit2. tauto. }
  split.
  { left. apply elem_of_app. right. apply list_elem_of_singleton. reflexivity. }
  intros Hac Hlt Hdf.
  assert (Hback : forall d, d ∈ array3_to_list (dep v) ->
            ENOKI_CUDA_REG_RESERVED <= d -> d < idx).
  { intros d Hd Hres. pose proof (Hac _ _ _ Hv Hd Hres). lia. }
  apply dependencies_first_snoc.
  - apply Hord; [exact Hac | | exact Hdf].
    intros k x Hk Hres Hx. rewrite Hre in Hk.
    apply elem_of_cons in Hx as [->|Hx]; [auto | ].
    pose proof (Hback _ Hk Hres). pose proof (Hlt _ Hx). lia.
  - intros v' d Hv' Hd Hres. rewrite Hv in Hv'. inversion Hv'; subst v'.
    pose proof (Hback _ Hd Hres) as Hlt'.
    rewrite <- Hre in Hd.
    destruct (Hks _ Hd Hres) as [Hin'|Hin']; [exact Hin' | ].
    apply elem_of_cons in Hin' as [->|Hin']; [lia | ].
    pose proof (Hlt _ Hin'). lia.
Qed.
(** The buckets of [cuda_eval]: each schedule holds exactly the visited
    nodes of its bucket, respects the dependencies of a trace that points
    backwards, and the seeds are scheduled. *)
Lemma build_sweeps_order fuel tr active sweeps :
  build_sweeps fuel tr active = inr sweeps ->
  (forall sz b, sweeps !! sz = Some b ->
     visited_split [] b /\ (acyclic tr -> dependencies_first tr b.2)) /\
  (forall idx, idx ∈ active ->
     exists v b, tr !! N.to_nat idx = Some v /\ sweeps !! size v = Some b /\
                 idx ∈ b.2).
Proof.
  unfold build_sweeps.
  assert (Hgen : forall l (m0 m : gmap N (gset N * list N)),
    (forall sz b, m0 !! sz = Some b ->
       visited_split [] b /\ (acyclic tr -> dependencies_first tr b.2)) ->
    fold_left (fun acc idx =>
      match acc with
      | inl e => inl e
      | inr sweeps =>
          match tr !! N.to_nat idx with
          | None => inl UndefinedBehaviour
          | Some v =>
              let sweep := default (∅, []) (sweeps !! size v) in
              match sweep_recursive fuel tr sweep.1 sweep.2 idx with
              | inl e => inl e
              | inr r => inr (<[size v := r]> sweeps)
              end
          end
      end) l (inr m0) = inr m ->
    (forall sz b, m !! sz = Some b ->
       visited_split [] b /\ (acyclic tr -> dependencies_first tr b.2)) /\
    (forall sz b0 x, m0 !! sz = Some b0 -> x ∈ b0.2 ->
       exists b, m !! sz = Some b /\ x ∈ b.2) /\
    (forall idx, idx ∈ l ->
       exists v b, tr !! N.to_nat idx = Some v /\ m !! size v = Some b /\
                   idx ∈ b.2)).
  { induction l as [|idx l IHl]; intros m0 m Hm0 Hm; simpl in Hm.
    - inversion Hm; subst. split; [exact Hm0 | ]. split.
      + intros sz b0 x Hb Hx. exists b0. auto.
      + intros idx Hidx. apply elem_of_nil in Hidx. contradiction.
    - destruct (tr !! N.to_nat idx) as [v|] eqn:Hv;
        [ | exfalso; eapply fold_left_inl; [ | exact Hm]; reflexivity].
      destruct (sweep_recursive fuel tr _ _ idx) as [e|r] eqn:Hrec;
        [exfalso; eapply fold_left_inl; [ | exact Hm]; reflexivity | ].
      assert (Hold : visited_split [] (default (∅, []) (m0 !! size v)) /\
                (acyclic tr ->
                 dependencies_first tr (default (∅, []) (m0 !! size v)).2)).
      { destruct (m0 !! size v) as [b0|] eqn:Hb0; simpl.
        - eapply Hm0; eauto.
        - split.
          + intros x. simpl. rewrite elem_of_empty, elem_of_nil. tauto.
          + intros _ pos i w d Hpos. rewrite lookup_nil in Hpos.
            discriminate. }
      destruct Hold as [Hsplit Hdf].
      destruct (default (∅, []) (m0 !! size v)) as [v0 s0] eqn:Hdef.
      simpl in Hrec, Hdf.
      destruct (sweep_recursive_order _ _ _ _ _ _ _ Hsplit Hrec)
        as ((new & Hnew) & Hsplit' & Hin & Hord).
      destruct (IHl (<[size v := r]> m0) m) as (Hinv & Hmono & Hseeds);
        [ | exact Hm | ].
      { intros sz b Hb. destruct (decide (size v = sz)) as [<-|Hne].
        - rewrite lookup_insert_eq in Hb. inversion Hb; subst b.
          split; [exact Hsplit' | ]. intros Hac. apply Hord; [exact Hac | | auto].
          intros x Hx. apply elem_of_nil in Hx. contradiction.
        - rewrite lookup_insert_ne in Hb by exact Hne. eapply Hm0; eauto. }
      split; [exact Hinv | ]. split.
      + intros sz b0 x Hb0 Hx. destruct (decide (size v = sz)) as [<-|Hne].
        * apply (Hmono (size v) r x); [apply lookup_insert_eq | ].
          rewrite Hb0 in Hdef. simpl in Hdef. subst b0. simpl in Hx.
          rewrite Hnew. apply elem_of_app. left. exact Hx.
        * apply (Hmono sz b0 x); [ | exact Hx].
          rewrite lookup_insert_ne by exact Hne. exact Hb0.
      + intros idx' Hidx'. apply elem_of_cons in Hidx' as [->|Hidx'];
          [ | auto].
        destruct Hin as [Hin|Hin]; [ | apply elem_of_nil in Hin; contradiction].
        destruct (Hmono (size v) r idx (lookup_insert_eq _ _ _) Hin)
          as (b & Hb & Hx).
        exists v, b. auto. }
  intros H. destruct (Hgen active ∅ sweeps) as (Hinv & _ & Hseeds);
    [ | exact H | split; [exact Hinv | exact Hseeds]].
  intros sz b Hb. rewrite lookup_empty in Hb. discriminate.
Qed.

(** X1.  Every node of the active set is in one of the schedules that
    [cuda_eval] builds. *)
Theorem X_active_nodes_are_scheduled fuel s ls idx :
  schedule_of fuel s = Some ls -> idx ∈ __active s ->
  exists l, l ∈ ls /\ idx ∈ l.
Proof.
  unfold schedule_of. intros H Hidx.
  destruct (build_sweeps _ _ _) as [e|sweeps] eqn:Hb; [discriminate | ].
  inversion H; subst ls.
  destruct (build_sweeps_order _ _ _ _ Hb) as [_ Hseeds].
  destruct (Hseeds idx) as (v & b & _ & Hlook & Hin).
  { apply elem_of_elements. exact Hidx. }
  exists b.2. split; [ | exact Hin].
  apply list_elem_of_fmap. exists (size v, b). split; [reflexivity | ].
  apply elem_of_map_to_list. exact Hlook.
Qed.

Lemma X_active_nodes_are_scheduled_witness :
  schedule_of 100 three_operands_state = Some [[13; 14; 15; 10; 11; 12; 16]] /\
  16 ∈ __active three_operands_state /\
  exists l, l ∈ [[13; 14; 15; 10; 11; 12; 16]] /\ 16 ∈ l.
Proof.
  assert (H : schedule_of 100 three_operands_state
              = Some [[13; 14; 15; 10; 11; 12; 16]]) by (vm_compute; reflexivity).
  assert (Ha : 16 ∈ __active three_operands_state).
  { apply (bool_decide_unpack (16 ∈ __active three_operands_state)).
    vm_compute. exact I. }
  split; [exact H | ]. split; [exact Ha | ].
  exact (X_active_nodes_are_scheduled 100 three_operands_state _ 16 H Ha).
Defined.

(** X2.  In a trace whose dependencies all point to earlier nodes, every
    schedule that [cuda_eval] builds lists the dependencies of a node
    before the node. *)
Theorem X_schedule_dependencies_first fuel s ls l :
  acyclic_state s -> schedule_of fuel s = Some ls -> l ∈ ls ->
  dependencies_first (__trace s) l.
Proof.
  unfold schedule_of. intros Hac H Hl.
  destruct (build_sweeps _ _ _) as [e|sweeps] eqn:Hb; [discriminate | ].
  inversion H; subst ls.
  apply list_elem_of_fmap in Hl as ([sz b] & -> & Hin).
  apply elem_of_map_to_list in Hin.
  destruct (build_sweeps_order _ _ _ _ Hb) as [Hinv _].
  apply (Hinv sz b Hin). exact Hac.
Qed.

Lemma X_schedule_dependencies_first_witness :
  acyclic_state three_operands_state /\
  schedule_of 100 three_operands_state = Some [[13; 14; 15; 10; 11; 12; 16]] /\
  dependencies_first (__trace three_operands_state)
    [13; 14; 15; 10; 11; 12; 16].
Proof.
  assert (Hac : acyclic_state three_operands_state).
  { apply acyclicb_spec. vm_compute. reflexivity. }
  assert (H : schedule_of 100 three_operands_state
              = Some [[13; 14; 15; 10; 11; 12; 16]]) by (vm_compute; reflexivity).
  split; [exact Hac | ]. split; [exact H | ].
  apply (X_schedule_dependencies_first 100 three_operands_state _ _ Hac H).
  apply list_elem_of_singleton. reflexivity.
Defined.
(** ** Only what the active nodes need is scheduled *)

(** A traversal adds to the schedule only nodes of the trace that its
    start node reaches. *)
Lemma sweep_recursive_reach fuel tr vis sw idx b' :
  sweep_recursive fuel tr vis sw idx = inr b' ->
  exists new, b'.2 = sw ++ new /\
    forall x, x ∈ new -> reaches tr idx x /\ is_Some (tr !! N.to_nat x).
Proof.
  revert vis sw idx b'.
  induction fuel as [|fuel IH]; intros vis sw idx b' H; simpl in H;
    [discriminate | ].
  destruct (decide (idx ∈ vis)) as [Hin|Hin].
  { inversion H; subst. exists []. simpl. rewrite app_nil_r.
    split; [reflexivity | ]. intros x Hx. apply elem_of_nil in Hx.
    contradiction. }
  destruct (tr !! N.to_nat idx) as [v|] eqn:Hv; [ | discriminate].
  destruct (reorder_deps tr (dep v)) as [deps|] eqn:Hre; [ | discriminate].
  apply reorder_deps_perm in Hre.
  assert (Hfold : forall l b0 r,
     fold_left (fun acc k =>
        match acc with
        | inl e => inl e
        | inr (visited, sweep) =>
            if ENOKI_CUDA_REG_RESERVED <=? k
            then sweep_recursive fuel tr visited sweep k
            else inr (visited, sweep)
        end) l (inr b0) = inr r ->
     exists new, r.2 = b0.2 ++ new /\
       forall x, x ∈ new ->
         (exists k, k ∈ l /\ ENOKI_CUDA_REG_RESERVED <= k /\ reaches tr k x) /\
         is_Some (tr !! N.to_nat x)).
  { induction l as [|k l IHl]; intros b0 r Hr; simpl in Hr.
    - inversion Hr; subst. exists []. rewrite app_nil_r.
      split; [reflexivity | ]. intros x Hx. apply elem_of_nil in Hx.
      contradiction.
    - destruct b0 as [v0 s0].
      destruct (ENOKI_CUDA_REG_RESERVED <=? k) eqn:Hres.
      + destruct (sweep_recursive fuel tr v0 s0 k) as [e|b2] eqn:Hrec.
        * exfalso. eapply fold_left_inl; [ | exact Hr]. reflexivity.
        * destruct (IH _ _ _ _ Hrec) as (new1 & Hnew1 & Hr1).
          destruct (IHl _ _ Hr) as (new2 & Hnew2 & Hr2). simpl in *.
          exists (new1 ++ new2). split.
          { rewrite Hnew2, Hnew1, app_assoc. reflexivity. }
          intros x Hx. apply elem_of_app in Hx as [Hx|Hx].
          -- destruct (Hr1 x Hx) as [Hreach Hex]. split; [ | exact Hex].
             exists k. split; [left | ]. split; [ | exact Hreach].
             apply N.leb_le. exact Hres.
          -- destruct (Hr2 x Hx) as [(k' & Hk' & Hres' & Hreach) Hex].
             split; [ | exact Hex]. exists k'. split; [right; exact Hk' | auto].
      + destruct (IHl _ _ Hr) as (new2 & Hnew2 & Hr2).
        exists new2. split; [exact Hnew2 | ].
        intros x Hx. destruct (Hr2 x Hx) as [(k' & Hk' & Hres' & Hreach) Hex].
        split; [ | exact Hex]. exists k'. split; [right; exact Hk' | auto]. }
  destruct (fold_left _ _ _) as [e|[vis2 sw2]] eqn:Hf; [discriminate | ].
  inversion H; subst b'. clear H.
  destruct (Hfold _ _ _ Hf) as (new & Hnew & Hr). simpl in *.
  exists (new ++ [idx]). split; [rewrite Hnew, app_assoc; reflexivity | ].
  intros x Hx. apply elem_of_app in Hx as [Hx|Hx].
  - destruct (Hr x Hx) as [(k & Hk & Hres & Hreach) Hex].
    split; [ | exact Hex].
    eapply reaches_step; [exact Hv | | exact Hres | exact Hreach].
    rewrite <- Hre. exact Hk.
  - apply list_elem_of_singleton in Hx as ->.
    split; [apply reaches_refl | rewrite Hv; eauto].
Qed.

Lemma build_sweeps_reach fuel tr active sweeps :
  build_sweeps fuel tr active = inr sweeps ->
  forall sz b x, sweeps !! sz = Some b -> x ∈ b.2 ->
    is_Some (tr !! N.to_nat x) /\
    exists idx v, idx ∈ active /\ tr !! N.to_nat idx = Some v /\
                  size v = sz /\ reaches tr idx x.
Proof.
  unfold build_sweeps.
  assert (Hgen : forall l (m0 m : gmap N (gset N * list N)),
    fold_left (fun acc idx =>
      match acc with
      | inl e => inl e
      | inr sweeps =>
          match tr !! N.to_nat idx with
          | None => inl UndefinedBehaviour
          | Some v =>
              let sweep := default (∅, []) (sweeps !! size v) in
              match sweep_recursive fuel tr sweep.1 sweep.2 idx with
              | inl e => inl e
              | inr r => inr (<[size v := r]> sweeps)
              end
          end
      end) l (inr m0) = inr m ->
    forall sz b x, m !! sz = Some b -> x ∈ b.2 ->
      (exists b0, m0 !! sz = Some b0 /\ x ∈ b0.2) \/
      (is_Some (tr !! N.to_nat x) /\
       exists idx v, idx ∈ l /\ tr !! N.to_nat idx = Some v /\
                     size v = sz /\ reaches tr idx x)).
  { induction l as [|idx l IHl]; intros m0 m Hm sz b x Hb Hx; simpl in Hm.
    - inversion Hm; subst. left. eauto.
    - destruct (tr !! N.to_nat idx) as [v|] eqn:Hv;
        [ | exfalso; eapply fold_left_inl; [ | exact Hm]; reflexivity].
      destruct (sweep_recursive fuel tr _ _ idx) as [e|r] eqn:Hrec;
        [exfalso; eapply fold_left_inl; [ | exact Hm]; reflexivity | ].
      destruct (IHl _ _ Hm sz b x Hb Hx)
        as [(b0 & Hb0 & Hx0)|(Hex & i & w & Hi & Hw & Hsz & Hreach)].
      + destruct (decide (size v = sz)) as [<-|Hne].
        * rewrite lookup_insert_eq in Hb0. inversion Hb0; subst b0.
          destruct (sweep_recursive_reach _ _ _ _ _ _ Hrec)
            as (new & Hnew & Hr).
          rewrite Hnew in Hx0. apply elem_of_app in Hx0 as [Hx0|Hx0].
          -- left. destruct (m0 !! size v) as [b1|] eqn:Hb1; simpl in Hx0.
             ++ eauto.
             ++ apply elem_of_nil in Hx0. contradiction.
          -- right. destruct (Hr x Hx0) as [Hreach Hex].
             split; [exact Hex | ]. exists idx, v.
             split; [left | auto].
        * rewrite lookup_insert_ne in Hb0 by exact Hne. left. eauto.
      + right. split; [exact Hex | ]. exists i, w. split; [right; exact Hi | auto]. }
  intros H sz b x Hb Hx.
  destruct (Hgen _ _ _ H sz b x Hb Hx) as [(b0 & Hb0 & _)|Hr];
    [rewrite lookup_empty in Hb0; discriminate | exact Hr].
Qed.

(** X3.  A schedule that [cuda_eval] builds has no repetition, and each
    of its entries is a node of the trace that an active node is or
    reaches through dependencies at or above the reserved count: nothing
    is scheduled that the active nodes do not need. *)
Theorem X_scheduled_nodes_are_needed fuel s ls l :
  schedule_of fuel s = Some ls -> l ∈ ls ->
  NoDup l /\
  forall x, x ∈ l ->
    is_Some (node s x) /\
    exists idx, idx ∈ __active s /\ reaches (__trace s) idx x.
Proof.
  intros H Hl. split.
  - unfold schedule_of in H.
    destruct (build_sweeps _ _ _) as [e|sweeps] eqn:Hb; [discriminate | ].
    inversion H; subst ls.
    apply list_elem_of_fmap in Hl as ([sz b] & -> & Hin).
    apply elem_of_map_to_list in Hin.
    apply (build_sweeps_ok _ _ _ _ Hb sz b Hin).
  - unfold schedule_of in H.
    destruct (build_sweeps _ _ _) as [e|sweeps] eqn:Hb; [discriminate | ].
    inversion H; subst ls.
    apply list_elem_of_fmap in Hl as ([sz b] & -> & Hin).
    apply elem_of_map_to_list in Hin.
    intros x Hx.
    destruct (build_sweeps_reach _ _ _ _ Hb sz b x Hin Hx)
      as (Hex & idx & v & Hidx & _ & _ & Hreach).
    split; [exact Hex | ]. exists idx. split; [ | exact Hreach].
    apply elem_of_elements. exact Hidx.
Qed.

Lemma X_scheduled_nodes_are_needed_witness :
  schedule_of 100 three_operands_state = Some [[13; 14; 15; 10; 11; 12; 16]] /\
  NoDup [13; 14; 15; 10; 11; 12; 16] /\
  forall x, x ∈ [13; 14; 15; 10; 11; 12; 16] ->
    is_Some (node three_operands_state x) /\
    exists idx, idx ∈ __active three_operands_state /\
                reaches (__trace three_operands_state) idx x.
Proof.
  assert (H : schedule_of 100 three_operands_state
              = Some [[13; 14; 15; 10; 11; 12; 16]]) by (vm_compute; reflexivity).
  split; [exact H | ].
  apply (X_scheduled_nodes_are_needed 100 three_operands_state _ _ H).
  apply list_elem_of_singleton. reflexivity.
Defined.
(** ** The order of the operands in a traversal *)

Lemma prio_slot tr d j p :
  prio tr d j = Some p ->
  exists k, arr_get d j = Some k /\ p = prio_of tr k.
Proof.
  unfold prio, prio_of. destruct (arr_get d j) as [k|]; simpl; [ | discriminate].
  intros H. exists k. split; [reflexivity | ].
  destruct (ENOKI_CUDA_REG_RESERVED <=? k); [ | congruence].
  destruct (tr !! N.to_nat k); simpl in *; congruence.
Qed.

Ltac prio_case H :=
  lazymatch type of H with
  | mbind _ (prio ?tr ?d ?j) = _ =>
      let p := fresh "p" in
      let Hp := fresh "Hp" in
      destruct (prio tr d j) as [p|] eqn:Hp; simpl in H; [ | discriminate];
      apply prio_slot in Hp as (? & Hp & ->); simpl in Hp;
      inversion Hp; subst; clear Hp
  end.

(** X4.  The three swaps of [sweep_recursive] permute the operands and put
    an operand of largest subtree size first. *)
Theorem X_heaviest_operand_first tr d0 d1 d2 e0 e1 e2 :
  reorder_deps tr (d0, d1, d2) = Some (e0, e1, e2) ->
  [e0; e1; e2] ≡ₚ [d0; d1; d2] /\
  prio_of tr d0 <= prio_of tr e0 /\
  prio_of tr d1 <= prio_of tr e0 /\
  prio_of tr d2 <= prio_of tr e0.
Proof.
  unfold reorder_deps. intros H.
  prio_case H. prio_case H.
  match type of H with
  | context [?a <? ?b] => destruct (N.ltb_spec a b); simpl in H
  end;
    prio_case H; prio_case H;
    match type of H with
    | context [?a <? ?b] => destruct (N.ltb_spec a b); simpl in H
    end;
    prio_case H; prio_case H;
    match type of H with
    | context [?a <? ?b] => destruct (N.ltb_spec a b); simpl in H
    end;
    inversion H; subst; (split; [solve_Permutation | lia]).
Qed.

Lemma X_heaviest_operand_first_witness :
  reorder_deps (__trace three_operands_state) (10, 12, 15) = Some (15, 10, 12) /\
  ([15; 10; 12] ≡ₚ [10; 12; 15] /\
   prio_of (__trace three_operands_state) 10
     <= prio_of (__trace three_operands_state) 15 /\
   prio_of (__trace three_operands_state) 12
     <= prio_of (__trace three_operands_state) 15 /\
   prio_of (__trace three_operands_state) 15
     <= prio_of (__trace three_operands_state) 15).
Proof.
  assert (H : reorder_deps (__trace three_operands_state) (10, 12, 15)
              = Some (15, 10, 12)) by (vm_compute; reflexivity).
  split; [exact H | ].
  exact (X_heaviest_operand_first _ _ _ _ _ _ _ H).
Defined.

(** ** Dependencies point backwards *)

Lemma arr_set_elem a j x d :
  d ∈ array3_to_list (arr_set a j x) -> d ∈ array3_to_list a \/ d = x.
Proof.
  destruct a as [[a0 a1] a2].
  destruct j as [|p]; [ | destruct p as [p|p| ]; try destruct p]; simpl;
    rewrite ?elem_of_cons; intros H; rewrite ?elem_of_cons; tauto.
Qed.

Lemma gc_step_deps v v' d :
  gc_step v v' -> d ∈ array3_to_list (dep v') ->
  d ∈ array3_to_list (dep v) \/ d = 0.
Proof.
  intros H. destruct H; simpl; auto. apply arr_set_elem.
Qed.

Lemma acyclic_set_node s i v v' :
  acyclic_state s -> node s i = Some v ->
  (forall d, d ∈ array3_to_list (dep v') ->
     d ∈ array3_to_list (dep v) \/ d = 0) ->
  acyclic_state (set_node i v' s).
Proof.
  unfold acyclic_state, acyclic, set_node, node. simpl.
  intros Hs Hv Hsub j w d Hw Hd Hres.
  destruct (decide (N.to_nat i = j)) as [<-|Hne].
  - rewrite list_lookup_insert_eq in Hw by (eapply lookup_lt_Some; eauto).
    inversion Hw; subst w.
    destruct (Hsub d Hd) as [Hd'| ->].
    + eapply Hs; eauto.
    + unfold ENOKI_CUDA_REG_RESERVED in Hres. lia.
  - rewrite list_lookup_insert_ne in Hw by exact Hne. eapply Hs; eauto.
Qed.

Lemma acyclic_closed : asm_closed (fun _ => True) acyclic_state.
Proof.
  split; [split; [split | | ] | | | ]; try (intros; assumption).
  - intros s i v v' Hs Hv Hstep. eapply acyclic_set_node; eauto.
    intros d. apply gc_step_deps. exact Hstep.
  - intros s i v n Hs Hv. eapply acyclic_set_node; eauto.
  - intros s i v p _ Hs Hv. eapply acyclic_set_node; eauto.
Qed.

Lemma acyclic_emplace s v :
  acyclic_state s ->
  (forall d, d ∈ array3_to_list (dep v) -> ENOKI_CUDA_REG_RESERVED <= d ->
     (N.to_nat d < length (__trace s))%nat) ->
  acyclic_state (with_trace (fun tr => tr ++ [v]) s).
Proof.
  unfold acyclic_state, acyclic. simpl. intros Hs Hv j w d Hw Hd Hres.
  apply lookup_snoc_Some in Hw as [[_ Hw]|[Hj Hw]].
  - eapply Hs; eauto.
  - subst j w. apply Hv; auto.
Qed.

Lemma acyclic_init s :
  acyclic_state
    (with_active (fun _ => ∅)
      (with_trace (fun _ =>
         Variable_ Invalid :: Variable_ UInt64 ::
         replicate 8 (Variable_ UInt32)) s)).
Proof. apply acyclicb_spec. reflexivity. Qed.

(** A read of the trace that succeeds shows that the index is in range. *)
Lemma triple_at_bind {A} (P : State -> Prop) index (k : Var -> M A) Q E :
  (forall v, triple (fun s => P s /\ node s index = Some v) (k v) Q E) ->
  triple P (bind (at_ index) k) Q E.
Proof.
  intros Hk s Hs. unfold bind, at_.
  destruct (__trace s !! N.to_nat index) as [v|] eqn:Hv; simpl; [ | exact I].
  apply Hk. split; [exact Hs | exact Hv].
Qed.

Lemma node_lt s i v : node s i = Some v -> (N.to_nat i < length (__trace s))%nat.
Proof. unfold node. apply lookup_lt_Some. Qed.

Section Backwards.
Context {B : Build}.

Lemma keeps_eval_with (I : State -> Prop) fuel :
  asm_closed (fun _ => True) I ->
  (forall s i v, I s -> node s i = Some v ->
     I (set_node i (set_dirty false v) s)) ->
  (forall s f, I s -> I (with_active f s)) ->
  (forall s f, I s -> I (with_dirty f s)) ->
  keeps I (cuda_eval fuel).
Proof.
  intros HI Hd Ha Hq. unfold cuda_eval. repeat keeps_step.
  - apply keeps_update. intros s v Hs Hv. apply Hd; auto.
  - apply keeps_modify. intros s Hs. apply Ha. exact Hs.
  - apply keeps_modify. intros s Hs. apply Hq. exact Hs.
  - eapply keeps_eval_bucket; [exact HI | intros; exact Logic.I].
Qed.

Lemma keeps_acyclic_eval fuel : keeps acyclic_state (cuda_eval fuel).
Proof.
  apply keeps_eval_with; [apply acyclic_closed | | auto | auto].
  intros s i v Hs Hv. eapply acyclic_set_node; eauto.
Qed.

Ltac ac_leaf :=
  lazymatch goal with
  | |- keeps _ (update _ _) =>
      apply keeps_update; intros ? ? ? ?; eapply acyclic_set_node; eauto
  | |- keeps _ (modify (with_active _)) =>
      apply keeps_modify; intros ? ?; assumption
  | |- keeps _ (cuda_inc_ref_ext _) =>
      apply keeps_inc_ref_ext, acyclic_closed
  | |- keeps _ (cuda_inc_ref_int _) =>
      apply keeps_inc_ref_int, acyclic_closed
  | |- keeps _ (cuda_dec_ref_ext _ _) =>
      apply keeps_dec_ref_ext, acyclic_closed
  | |- keeps _ (cuda_dec_ref_int _ _) =>
      apply keeps_dec_ref_int, acyclic_closed
  | |- keeps _ (cuda_var_free _ _) =>
      apply keeps_var_free, acyclic_closed
  | |- keeps _ (cuda_eval _) => apply keeps_acyclic_eval
  end.

(** the end of every append: the new node, whose operands are in range *)
Ltac ac_emplace :=
  eapply triple_bind with (Q' := fun _ => acyclic_state);
    [ apply triple_modify; intros s Hs; apply acyclic_emplace; [tauto | ];
      intros d Hd Hres; simpl in Hd;
      repeat (apply elem_of_cons in Hd as [->|Hd];
              [first [ eapply node_lt; intuition eassumption
                     | unfold ENOKI_CUDA_REG_RESERVED in Hres; lia ] | ]);
      apply elem_of_nil in Hd; contradiction
    | intros ?; refine (_ : keeps acyclic_state _);
      repeat keeps_step; ac_leaf ].

Lemma keeps_acyclic_append0 t c : keeps acyclic_state (cuda_trace_append0 t c).
Proof.
  unfold cuda_trace_append0. keeps_step; [keeps_step | ].
  eapply triple_bind with (Q' := fun _ => acyclic_state).
  - apply triple_modify. intros s Hs. apply acyclic_emplace; [exact Hs | ].
    intros d Hd Hres. simpl in Hd.
    repeat (apply elem_of_cons in Hd as [->|Hd];
            [unfold ENOKI_CUDA_REG_RESERVED in Hres; lia | ]).
    apply elem_of_nil in Hd. contradiction.
  - intros ?. refine (_ : keeps acyclic_state _). repeat keeps_step; ac_leaf.
Qed.

Lemma keeps_acyclic_append1 fuel t c a1 :
  keeps acyclic_state (cuda_trace_append1 fuel t c a1).
Proof.
  unfold cuda_trace_append1.
  do 4 (keeps_step; [repeat keeps_step; try ac_leaf | ]).
  keeps_step; [keeps_step | ].
  apply triple_at_bind; intros v1.
  ac_emplace.
Qed.

Lemma keeps_acyclic_append2 fuel t c a1 a2 :
  keeps acyclic_state (cuda_trace_append2 fuel t c a1 a2).
Proof.
  unfold cuda_trace_append2.
  do 5 (keeps_step; [repeat keeps_step; try ac_leaf | ]).
  keeps_step; [keeps_step | ].
  apply triple_at_bind; intros v1. apply triple_at_bind; intros v2.
  ac_emplace.
Qed.

Lemma keeps_acyclic_append3 fuel t c a1 a2 a3 :
  keeps acyclic_state (cuda_trace_append3 fuel t c a1 a2 a3).
Proof.
  unfold cuda_trace_append3.
  do 5 (keeps_step; [repeat keeps_step; try ac_leaf | ]).
  keeps_step; [keeps_step | ].
  apply triple_at_bind; intros v1. apply triple_at_bind; intros v2.
  apply triple_at_bind; intros v3.
  ac_emplace.
Qed.

Lemma keeps_acyclic_printf fuel fmt narg arg :
  keeps acyclic_state (cuda_trace_printf fuel fmt narg arg).
Proof.
  unfold cuda_trace_printf, cuda_var_mark_side_effect, arg_at.
  repeat keeps_step;
    lazymatch goal with
    | |- keeps _ (printf_block _ _ _) => apply keeps_pure, pure_printf_block
    | |- keeps _ (cuda_trace_append0 _ _) => apply keeps_acyclic_append0
    | |- keeps _ (cuda_trace_append1 _ _ _ _) => apply keeps_acyclic_append1
    | |- keeps _ (cuda_trace_append2 _ _ _ _ _) => apply keeps_acyclic_append2
    | |- keeps _ (cuda_trace_append3 _ _ _ _ _ _) =>
        apply keeps_acyclic_append3
    | _ => ac_leaf
    end.
Qed.

Lemma keeps_acyclic_exec c :
  triple (fun s => acyclic_state s /\ parent_exists c s) (exec c)
    (fun _ => acyclic_state) acyclic_state.
Proof.
  assert (Hw : keeps acyclic_state (exec c) ->
     triple (fun s => acyclic_state s /\ parent_exists c s) (exec c)
       (fun _ => acyclic_state) acyclic_state).
  { intros H. eapply triple_pre; [exact H | ]. intros s [Hs _]. exact Hs. }
  destruct c;
    lazymatch goal with
    | |- context [call_var_register] => clear Hw
    | _ => apply Hw
    end; simpl; unfold ignore.
  - apply keeps_modify. intros s _. apply acyclic_init.
  - apply keeps_modify. intros s _ i v d Hv. simpl in Hv.
    rewrite lookup_nil in Hv. discriminate.
  - unfold cuda_var_set_comment. ac_leaf.
  - unfold cuda_var_set_size. ac_leaf.
  - unfold cuda_var_register.
    eapply triple_bind with (Q' := fun _ => acyclic_state).
    + eapply triple_bind with
        (Q' := fun _ s => acyclic_state s /\ parent_exists
                 (call_var_register t sz ptr parent dealloc) s).
      * intros s Hs. exact Hs.
      * intros n.
        eapply triple_bind with (Q' := fun _ => acyclic_state).
        -- apply triple_modify. intros s [Hs Hp]. apply acyclic_emplace;
             [exact Hs | ].
           intros d Hd Hres. simpl in Hd, Hp.
           repeat (apply elem_of_cons in Hd as [->|Hd];
                   [unfold ENOKI_CUDA_REG_RESERVED in *; lia | ]).
           apply elem_of_nil in Hd. contradiction.
        -- intros ?. refine (_ : keeps acyclic_state _).
           repeat keeps_step; ac_leaf.
    + intros ?. apply keeps_pure, pure_ret.
  - ac_leaf.
  - ac_leaf.
  - ac_leaf.
  - ac_leaf.
  - ac_leaf.
  - unfold cuda_var_mark_side_effect. repeat keeps_step; ac_leaf.
  - unfold cuda_var_mark_dirty. repeat keeps_step; try ac_leaf.
    apply keeps_modify. intros s Hs. exact Hs.
  - repeat keeps_step. apply keeps_acyclic_append0.
  - repeat keeps_step. apply keeps_acyclic_append1.
  - repeat keeps_step. apply keeps_acyclic_append2.
  - repeat keeps_step. apply keeps_acyclic_append3.
  - apply keeps_acyclic_printf.
  - ac_leaf.
  - apply keeps_modify. intros s Hs. exact Hs.
  - unfold cuda_fetch_element. repeat keeps_step; ac_leaf.
  - unfold cuda_var_ptr. repeat keeps_step.
  - unfold cuda_var_size. repeat keeps_step.
  - repeat keeps_step. intros s Hs. exact Hs.
  - apply keeps_pure, pure_ret.
Qed.

End Backwards.

Lemma run_calls_acyclic `{B : Build} l s s' :
  acyclic_state s -> parents_exist l s -> run_calls l s = Some s' ->
  acyclic_state s'.
Proof.
  revert s. induction l as [|c l IH]; intros s Hs Hp; simpl.
  - intros H. inversion H; subst. exact Hs.
  - simpl in Hp. destruct Hp as [Hc Hl].
    pose proof (keeps_acyclic_exec c s (conj Hs Hc)) as Hk.
    destruct (exec c s) as [a s1|msg s1|r]; simpl in *; try discriminate;
      apply IH; assumption.
Qed.

(** X5.  In every state that the exported functions produce from the
    initial one, each dependency at or above the reserved count is the
    index of an earlier node, provided that each registration names as
    its parent a reserved index or a node that exists. *)
Theorem X_dependencies_point_backwards `{B : Build} l s :
  parents_exist l state0 -> run_calls l state0 = Some s -> acyclic_state s.
Proof.
  apply run_calls_acyclic. intros i v d Hv. simpl in Hv.
  rewrite lookup_nil in Hv. discriminate.
Qed.

Lemma X_dependencies_point_backwards_witness :
  @parents_exist debug_build registered_parent state0 /\
  @run_calls debug_build registered_parent state0
    = Some registered_parent_state /\
  acyclic_state registered_parent_state.
Proof.
  assert (Hp : @parents_exist debug_build registered_parent state0).
  { vm_compute. repeat split; auto. }
  assert (Hr : @run_calls debug_build registered_parent state0
               = Some registered_parent_state) by (vm_compute; reflexivity).
  split; [exact Hp | ]. split; [exact Hr | ].
  exact (@X_dependencies_point_backwards debug_build _ _ Hp Hr).
Defined.

(** ** Reference counts: what the four functions compute *)

Lemma u32_pred_small n : 0 < n -> n < 2 ^ 32 -> u32_pred n = n - 1.
Proof.
  intros H0 H. unfold u32_pred, u32.
  replace (n + (2 ^ 32 - 1)) with ((n - 1) + 1 * 2 ^ 32) by lia.
  rewrite N.Div0.mod_add. apply N.mod_small. lia.
Qed.

Lemma set_node_same s i v : node s i = Some v -> set_node i v s = s.
Proof.
  unfold node, set_node, with_trace. intros H. destruct s; simpl in *.
  f_equal. apply list_insert_id. exact H.
Qed.

Lemma set_node_twice s i v v' :
  set_node i v' (set_node i v s) = set_node i v' s.
Proof.
  unfold set_node, with_trace. simpl. f_equal. apply list_insert_insert_eq.
Qed.

Lemma in_range s index v :
  node s index = Some v ->
  (N.of_nat (length (__trace s)) =? 0) = false /\
  (index <? N.of_nat (length (__trace s))) = true.
Proof.
  intros Hv. apply node_lt in Hv. split; [apply N.eqb_neq | apply N.ltb_lt]; lia.
Qed.

Lemma bind_eq {A C} (c : M A) (k : A -> M C) s a s1 :
  c s = Ok a s1 -> bind c k s = k a s1.
Proof. intros H. unfold bind. rewrite H. reflexivity. Qed.

Lemma at_eq index s v : node s index = Some v -> at_ index s = Ok v s.
Proof. unfold at_, node. intros H. rewrite H. reflexivity. Qed.

Section Counts.
Context {B : Build}.

Lemma inc_ref_ext_eq index s v :
  ENOKI_CUDA_REG_RESERVED <= index -> node s index = Some v ->
  cuda_inc_ref_ext index s =
  Ok tt (set_node index (set_ref_count_ext (u32_succ (ref_count_ext v)) v) s).
Proof.
  intros Hres Hv. unfold cuda_inc_ref_ext.
  apply N.ltb_ge in Hres. rewrite Hres.
  destruct (in_range _ _ _ Hv) as [_ Hin].
  unfold bind at 1, trace_size. unfold bind at 1, assert_. rewrite Hin.
  unfold ret. rewrite update_unfold, Hv. reflexivity.
Qed.

Lemma inc_ref_int_eq index s v :
  ENOKI_CUDA_REG_RESERVED <= index -> node s index = Some v ->
  cuda_inc_ref_int index s =
  Ok tt (set_node index (set_ref_count_int (u32_succ (ref_count_int v)) v) s).
Proof.
  intros Hres Hv. unfold cuda_inc_ref_int.
  apply N.ltb_ge in Hres. rewrite Hres.
  destruct (in_range _ _ _ Hv) as [_ Hin].
  unfold bind at 1, trace_size. unfold bind at 1, assert_. rewrite Hin.
  unfold ret. rewrite update_unfold, Hv. reflexivity.
Qed.

(** a decrement that does not reach 0 *)
Lemma dec_ref_ext_eq fuel index s v :
  ENOKI_CUDA_REG_RESERVED <= index -> node s index = Some v ->
  ref_count_ext v <> 0 -> u32_pred (ref_count_ext v) <> 0 ->
  cuda_dec_ref_ext fuel index s =
  Ok tt (set_node index (set_ref_count_ext (u32_pred (ref_count_ext v)) v) s).
Proof.
  intros Hres Hv Hnz Hpz. unfold cuda_dec_ref_ext.
  apply N.ltb_ge in Hres.
  destruct (in_range _ _ _ Hv) as [Hne Hin].
  unfold bind at 1, trace_size. rewrite Hres, Hne. simpl.
  unfold bind at 1, assert_. rewrite Hin. unfold ret.
  rewrite (bind_eq _ _ _ _ _ (at_eq _ _ _ Hv)).
  apply N.eqb_neq in Hnz. rewrite Hnz.
  unfold bind at 1. rewrite update_unfold, Hv.
  set (v1 := set_ref_count_ext _ v). set (s1 := set_node index v1 s).
  assert (Hv1 : node s1 index = Some v1)
    by (apply (node_set_node_eq s index v1 v); exact Hv).
  rewrite (bind_eq _ _ _ _ _ (at_eq _ _ _ Hv1)).
  apply N.eqb_neq in Hpz. simpl. rewrite Hpz. simpl.
  unfold bind at 1, ret.
  rewrite (bind_eq _ _ _ _ _ (at_eq _ _ _ Hv1)).
  unfold is_collected. simpl. rewrite Hpz, andb_false_r. reflexivity.
Qed.

(** a decrement after which the node is still referenced *)
Lemma dec_ref_int_eq fuel index s v :
  ENOKI_CUDA_REG_RESERVED <= index -> node s index = Some v ->
  is_collected (set_ref_count_int (u32_pred (ref_count_int v)) v) = false ->
  cuda_dec_ref_int fuel index s =
  Ok tt (set_node index (set_ref_count_int (u32_pred (ref_count_int v)) v) s).
Proof.
  intros Hres Hv Hc. unfold cuda_dec_ref_int, dec_ref_int_with.
  apply N.ltb_ge in Hres. rewrite Hres.
  destruct (in_range _ _ _ Hv) as [Hne Hin].
  unfold bind at 1, trace_size. rewrite Hne.
  unfold bind at 1, assert_. rewrite Hin. unfold ret.
  unfold bind at 1. rewrite update_unfold, Hv.
  set (v1 := set_ref_count_int _ v) in *. set (s1 := set_node index v1 s).
  assert (Hv1 : node s1 index = Some v1)
    by (apply (node_set_node_eq s index v1 v); exact Hv).
  rewrite (bind_eq _ _ _ _ _ (at_eq _ _ _ Hv1)).
  rewrite Hc. reflexivity.
Qed.

End Counts.

(** X6.  For a node above the reserved indices that holds an external
    reference and whose counts are below 2^32 - 1, an increment of either
    count followed by the decrement of the same count leaves the whole
    state as it was. *)
Theorem X_count_round_trip `{B : Build} fuel index s v :
  ENOKI_CUDA_REG_RESERVED <= index -> node s index = Some v ->
  0 < ref_count_ext v -> ref_count_ext v + 1 < 2 ^ 32 ->
  ref_count_int v + 1 < 2 ^ 32 ->
  (let* _ := cuda_inc_ref_ext index in cuda_dec_ref_ext fuel index) s = Ok tt s
  /\
  (let* _ := cuda_inc_ref_int index in cuda_dec_ref_int fuel index) s = Ok tt s.
Proof.
  intros Hres Hv He0 He Hi. split.
  - unfold bind. rewrite (inc_ref_ext_eq _ _ _ Hres Hv).
    rewrite u32_succ_small by exact He.
    set (v1 := set_ref_count_ext _ v).
    assert (Hp : u32_pred (ref_count_ext v1) = ref_count_ext v).
    { simpl. rewrite u32_pred_small by lia. lia. }
    rewrite (dec_ref_ext_eq fuel index _ v1 Hres
               (node_set_node_eq _ _ _ _ Hv)); [ | simpl; lia | lia].
    rewrite set_node_twice, Hp.
    f_equal. apply set_node_same. rewrite Hv. f_equal.
    destruct v; reflexivity.
  - unfold bind. rewrite (inc_ref_int_eq _ _ _ Hres Hv).
    rewrite u32_succ_small by exact Hi.
    set (v1 := set_ref_count_int _ v).
    assert (Hp : u32_pred (ref_count_int v1) = ref_count_int v).
    { simpl. rewrite u32_pred_small by lia. lia. }
    rewrite (dec_ref_int_eq fuel index _ v1 Hres
               (node_set_node_eq _ _ _ _ Hv)).
    + rewrite set_node_twice, Hp.
      f_equal. apply set_node_same. rewrite Hv. f_equal.
      destruct v; reflexivity.
    + rewrite Hp. unfold is_collected. simpl.
      assert (Hz : (ref_count_ext v =? 0) = false) by (apply N.eqb_neq; lia).
      rewrite Hz. apply andb_false_r.
Qed.

Lemma X_count_round_trip_witness :
  node handles_held_state 10 =
    Some (mkVar UInt32 "mov.u32 $r1, 1" "" 1 0 1 1 (0, 0, 0) false false
            true 1) /\
  (let* _ := @cuda_inc_ref_ext debug_build 10
   in @cuda_dec_ref_ext debug_build 5 10) handles_held_state
    = Ok tt handles_held_state /\
  (let* _ := @cuda_inc_ref_int debug_build 10
   in @cuda_dec_ref_int debug_build 5 10) handles_held_state
    = Ok tt handles_held_state.
Proof.
  assert (Hv : node handles_held_state 10 =
    Some (mkVar UInt32 "mov.u32 $r1, 1" "" 1 0 1 1 (0, 0, 0) false false
            true 1)) by (vm_compute; reflexivity).
  split; [exact Hv | ].
  refine (@X_count_round_trip debug_build 5 10 _ _ _ Hv _ _ _);
    simpl; unfold ENOKI_CUDA_REG_RESERVED; lia.
Defined.

(** ** What a release leaves alone *)

Section Frame.
Context {B : Build}.
Variable j : N.
Variable Inv : State -> Prop.
Hypothesis Hother : forall s i v v',
  Inv s -> node s i = Some v -> i <> j -> Inv (set_node i v' s).
Hypothesis Hint : forall s v n,
  ENOKI_CUDA_REG_RESERVED <= j -> Inv s -> node s j = Some v ->
  Inv (set_node j (set_ref_count_int n v) s).
Hypothesis Hheld : forall s v,
  ENOKI_CUDA_REG_RESERVED <= j -> Inv s -> node s j = Some v ->
  is_collected v = false.
Hypothesis Hactive : forall s f, Inv s -> Inv (with_active f s).

Lemma frame_update i f : i <> j -> keeps Inv (update i f).
Proof.
  intros Hne. apply keeps_update. intros s v Hs Hv. eapply Hother; eauto.
Qed.

Lemma frame_dec_ref_int_with var_free d :
  (forall i, i <> j -> keeps Inv (var_free i)) ->
  keeps Inv (dec_ref_int_with var_free d).
Proof.
  intros Hfree. unfold dec_ref_int_with.
  destruct (d <? ENOKI_CUDA_REG_RESERVED) eqn:Hres; [keeps_step | ].
  apply N.ltb_ge in Hres.
  keeps_step; [keeps_step | ].
  destruct (_ =? 0); [keeps_step | ].
  keeps_step; [keeps_step | ].
  keeps_step.
  - apply keeps_update. intros s v Hs Hv.
    destruct (decide (d = j)) as [->|Hne].
    + apply Hint; auto.
    + eapply Hother; eauto.
  - apply triple_at_bind. intros v.
    destruct (is_collected v) eqn:Hc; simpl.
    + destruct (decide (d = j)) as [->|Hne].
      * intros s [Hs Hv]. rewrite (Hheld s v Hres Hs Hv) in Hc. discriminate.
      * eapply triple_pre; [apply Hfree; exact Hne | ]. intros s [Hs _].
        exact Hs.
    + intros s [Hs _]. exact Hs.
Qed.

Lemma frame_var_free fuel idx : idx <> j -> keeps Inv (cuda_var_free fuel idx).
Proof.
  revert idx. induction fuel as [|fuel IH]; intros idx Hne; simpl.
  - keeps_step.
  - repeat keeps_step;
      lazymatch goal with
      | |- keeps _ (dec_ref_int_with _ _) =>
          apply frame_dec_ref_int_with; exact IH
      | |- keeps _ (update _ _) => apply frame_update; exact Hne
      end.
Qed.

Lemma frame_dec_ref_int fuel index : keeps Inv (cuda_dec_ref_int fuel index).
Proof.
  apply frame_dec_ref_int_with. intros i. apply frame_var_free.
Qed.

Lemma frame_dec_ref_ext fuel index :
  index <> j -> keeps Inv (cuda_dec_ref_ext fuel index).
Proof.
  intros Hne. unfold cuda_dec_ref_ext. repeat keeps_step.
  - apply frame_update. exact Hne.
  - apply keeps_modify. intros s Hs. apply Hactive. exact Hs.
  - apply frame_var_free. exact Hne.
Qed.

End Frame.

(** X7.  A node that holds an external reference keeps its buffer, its
    dependencies and that reference through every decrement of an internal
    count, and through the external decrement and the release of any other
    node, whatever these collect on the way. *)
Theorem X_held_node_survives `{B : Build} fuel index j s s' w :
  node s j = Some w -> ref_count_ext w <> 0 ->
  state_after (cuda_dec_ref_int fuel index s) = Some s' \/
  index <> j /\
  (state_after (cuda_dec_ref_ext fuel index s) = Some s' \/
   state_after (cuda_var_free fuel index s) = Some s') ->
  exists w', node s' j = Some w' /\ data w' = data w /\ dep w' = dep w /\
             ref_count_ext w' = ref_count_ext w.
Proof.
  intros Hw Hext Hrun.
  set (Inv := fun s0 => exists w', node s0 j = Some w' /\ data w' = data w /\
                dep w' = dep w /\ ref_count_ext w' = ref_count_ext w).
  assert (Hs : Inv s) by (exists w; auto).
  assert (Hother : forall s i v v',
    Inv s -> node s i = Some v -> i <> j -> Inv (set_node i v' s)).
  { intros s0 i v v' (w' & Hw' & H) _ Hne. exists w'. split; [ | exact H].
    rewrite node_set_node_ne by exact Hne. exact Hw'. }
  assert (Hint : forall s v n,
    ENOKI_CUDA_REG_RESERVED <= j -> Inv s -> node s j = Some v ->
    Inv (set_node j (set_ref_count_int n v) s)).
  { intros s0 v n _ (w' & Hw' & H) Hv. rewrite Hw' in Hv. inversion Hv; subst v.
    exists (set_ref_count_int n w'). split; [ | exact H].
    eapply node_set_node_eq; eauto. }
  assert (Hheld : forall s v,
    ENOKI_CUDA_REG_RESERVED <= j -> Inv s -> node s j = Some v ->
    is_collected v = false).
  { intros s0 v _ (w' & Hw' & _ & _ & He) Hv. rewrite Hw' in Hv.
    inversion Hv; subst v. unfold is_collected. rewrite He.
    apply N.eqb_neq in Hext. rewrite Hext. apply andb_false_r. }
  assert (Hactive : forall s f, Inv s -> Inv (with_active f s))
    by (intros s0 f H; exact H).
  destruct Hrun as [Hrun|[Hne [Hrun|Hrun]]].
  - pose proof (frame_dec_ref_int j Inv Hother Hint Hheld fuel index s Hs) as H.
    destruct (cuda_dec_ref_int fuel index s); inversion Hrun; subst; exact H.
  - pose proof (frame_dec_ref_ext j Inv Hother Hint Hheld Hactive fuel index
                  Hne s Hs) as H.
    destruct (cuda_dec_ref_ext fuel index s); inversion Hrun; subst; exact H.
  - pose proof (frame_var_free j Inv Hother Hint Hheld fuel index Hne s Hs)
      as H.
    destruct (cuda_var_free fuel index s); inversion Hrun; subst; exact H.
Qed.

(** X8.  The four reference-counting functions and the release never
    change a reserved node, whatever index they are called on and whatever
    they collect. *)
Theorem X_reserved_nodes_untouched `{B : Build} fuel index j s s' w :
  j < ENOKI_CUDA_REG_RESERVED -> node s j = Some w ->
  state_after (cuda_inc_ref_ext index s) = Some s' \/
  state_after (cuda_inc_ref_int index s) = Some s' \/
  state_after (cuda_dec_ref_ext fuel index s) = Some s' \/
  state_after (cuda_dec_ref_int fuel index s) = Some s' ->
  node s' j = Some w.
Proof.
  intros Hj Hw Hrun.
  set (Inv := fun s0 => node s0 j = Some w).
  assert (Hother : forall s i v v',
    Inv s -> node s i = Some v -> i <> j -> Inv (set_node i v' s)).
  { intros s0 i v v' H _ Hne. unfold Inv.
    rewrite node_set_node_ne by exact Hne. exact H. }
  assert (Hint : forall s v n,
    ENOKI_CUDA_REG_RESERVED <= j -> Inv s -> node s j = Some v ->
    Inv (set_node j (set_ref_count_int n v) s)) by (intros; lia).
  assert (Hheld : forall s v,
    ENOKI_CUDA_REG_RESERVED <= j -> Inv s -> node s j = Some v ->
    is_collected v = false) by (intros; lia).
  assert (Hactive : forall s f, Inv s -> Inv (with_active f s))
    by (intros s0 f H; exact H).
  assert (Hinc : forall f, ENOKI_CUDA_REG_RESERVED <= index ->
            keeps Inv (update index f)).
  { intros f Hres. apply (frame_update j Inv Hother). lia. }
  destruct Hrun as [Hrun|[Hrun|[Hrun|Hrun]]].
  - assert (H : keeps Inv (cuda_inc_ref_ext index)).
    { unfold cuda_inc_ref_ext.
      destruct (N.ltb_spec index ENOKI_CUDA_REG_RESERVED) as [Hres|Hres];
        repeat keeps_step. apply Hinc. exact Hres. }
    specialize (H s Hw).
    destruct (cuda_inc_ref_ext index s); inversion Hrun; subst; exact H.
  - assert (H : keeps Inv (cuda_inc_ref_int index)).
    { unfold cuda_inc_ref_int.
      destruct (N.ltb_spec index ENOKI_CUDA_REG_RESERVED) as [Hres|Hres];
        repeat keeps_step. apply Hinc. exact Hres. }
    specialize (H s Hw).
    destruct (cuda_inc_ref_int index s); inversion Hrun; subst; exact H.
  - destruct (index <? ENOKI_CUDA_REG_RESERVED) eqn:Hres.
    + unfold cuda_dec_ref_ext, bind, trace_size in Hrun.
      rewrite Hres in Hrun. simpl in Hrun. inversion Hrun; subst. exact Hw.
    + apply N.ltb_ge in Hres.
      assert (Hne : index <> j) by lia.
      pose proof (frame_dec_ref_ext j Inv Hother Hint Hheld Hactive fuel
                    index Hne s Hw) as H.
      destruct (cuda_dec_ref_ext fuel index s); inversion Hrun; subst; exact H.
  - pose proof (frame_dec_ref_int j Inv Hother Hint Hheld fuel index s Hw) as H.
    destruct (cuda_dec_ref_int fuel index s); inversion Hrun; subst; exact H.
Qed.

Lemma X_held_node_survives_witness :
  node handles_held_state 12 =
    Some (mkVar UInt32 "neg.s32 $r1, $r2" "" 1 0 1 1 (11, 0, 0) false false
            true 2) /\
  state_after (@cuda_dec_ref_ext debug_build 100 16 handles_held_state)
    = Some top_released_state /\
  exists w', node top_released_state 12 = Some w' /\ data w' = 0 /\
             dep w' = (11, 0, 0) /\ ref_count_ext w' = 1.
Proof.
  assert (Hv : node handles_held_state 12 =
    Some (mkVar UInt32 "neg.s32 $r1, $r2" "" 1 0 1 1 (11, 0, 0) false false
            true 2)) by (vm_compute; reflexivity).
  assert (Hr : state_after
                 (@cuda_dec_ref_ext debug_build 100 16 handles_held_state)
               = Some top_released_state) by (vm_compute; reflexivity).
  split; [exact Hv | ]. split; [exact Hr | ].
  refine (@X_held_node_survives debug_build 100 16 12 _ _ _ Hv _ _).
  - simpl. lia.
  - right. split; [lia | ]. left. exact Hr.
Defined.

Lemma X_reserved_nodes_untouched_witness :
  node handles_held_state 2 = Some (Variable_ UInt32) /\
  state_after (@cuda_dec_ref_ext debug_build 100 16 handles_held_state)
    = Some top_released_state /\
  node top_released_state 2 = Some (Variable_ UInt32).
Proof.
  assert (Hv : node handles_held_state 2 = Some (Variable_ UInt32))
    by (vm_compute; reflexivity).
  assert (Hr : state_after
                 (@cuda_dec_ref_ext debug_build 100 16 handles_held_state)
               = Some top_released_state) by (vm_compute; reflexivity).
  split; [exact Hv | ]. split; [exact Hr | ].
  refine (@X_reserved_nodes_untouched debug_build 100 16 2 _ _ _ _ Hv _).
  - unfold ENOKI_CUDA_REG_RESERVED. lia.
  - right. right. left. exact Hr.
Defined.

(** ** The release of a node *)

Section Release.
Context {B : Build}.

(** A release that returns leaves the node without buffer and without
    dependencies. *)
Lemma var_free_Ok fuel idx s s' :
  cuda_var_free fuel idx s = Ok tt s' ->
  exists w, node s' idx = Some w /\ data w = 0 /\ dep w = (0, 0, 0).
Proof.
  destruct fuel as [|fuel]; simpl; [discriminate | ].
  intros H. ok_at H v0 Hv0.
  apply bind_Ok in H as ([] & s1 & Hloop & H).
  pose proof (drop_deps_zero fuel idx s Logic.I) as Hz.
  assert (Hloop' :
    (let* _ := drop_dep fuel idx 0 in
     let* _ := drop_dep fuel idx 1 in
     let* _ := drop_dep fuel idx 2 in ret tt) s = Ok tt s1) by exact Hloop.
  rewrite Hloop' in Hz. destruct Hz as (H0 & H1 & H2).
  ok_at H v1 Hv1.
  apply bind_Ok in H as ([] & s2 & Hfree & H).
  assert (s2 = s1) as ->.
  { destruct (free v1); simpl in Hfree; inversion Hfree; reflexivity. }
  apply update_Ok in H as (v2 & Hv2 & ->).
  rewrite Hv1 in Hv2. inversion Hv2; subst v2.
  exists (set_data 0 v1). split; [eapply node_set_node_eq; eauto | ].
  split; [reflexivity | ]. simpl.
  apply arr_all_zero; [apply (H0 v1) | apply (H1 v1) | apply (H2 v1)];
    exact Hv1.
Qed.

End Release.

(** X9.  When the last handle of a node above the reserved indices that no
    node depends on is released and the call returns, the node has left the
    active set, it has no buffer and no dependencies, and its external
    count is 0. *)
Theorem X_last_release_frees `{B : Build} fuel index s v s' :
  ENOKI_CUDA_REG_RESERVED <= index -> node s index = Some v ->
  ref_count_ext v = 1 -> ref_count_int v = 0 ->
  cuda_dec_ref_ext fuel index s = Ok tt s' ->
  (index ∉ __active s') /\
  exists w, node s' index = Some w /\ data w = 0 /\ dep w = (0, 0, 0) /\
            ref_count_ext w = 0.
Proof.
  intros Hres Hv He Hi H.
  destruct (dec_ref_ext_Ok _ _ _ _ _ Hres Hv H) as (_ & Hext & Hact).
  split; [apply Hact; exact He | ].
  unfold cuda_dec_ref_ext in H.
  ok_size H.
  destruct (in_range _ _ _ Hv) as [Hne Hin].
  apply N.ltb_ge in Hres. rewrite Hres, Hne in H. simpl in H.
  ok_assert H. ok_at H v0 Hv0. rewrite Hv in Hv0. inversion Hv0; subst v0.
  rewrite He in H. simpl in H.
  apply bind_Ok in H as ([] & sa & Hu & H).
  apply update_Ok in Hu as (v0 & Hv0' & ->).
  rewrite Hv in Hv0'. inversion Hv0'; subst v0.
  set (v1 := set_ref_count_ext _ v) in *.
  ok_at H w1 Hw1. rewrite (node_set_node_eq _ _ _ _ Hv) in Hw1.
  inversion Hw1; subst w1.
  apply bind_Ok in H as ([] & sb & Hm & H).
  ok_at H w2 Hw2.
  assert (Hw2' : w2 = v1).
  { assert (Hn : node sb index = Some v1).
    { destruct (ref_count_ext v1 =? 0); simpl in Hm; inversion Hm; subst sb;
        apply (node_set_node_eq _ _ _ _ Hv). }
    congruence. }
  subst w2.
  assert (Hc : is_collected v1 = true).
  { unfold is_collected, v1. simpl. rewrite Hi, He. reflexivity. }
  rewrite Hc in H. simpl in H.
  destruct (var_free_Ok _ _ _ _ H) as (w & Hw & Hd & Hdep).
  exists w. split; [exact Hw | ]. split; [exact Hd | ]. split; [exact Hdep | ].
  unfold ext_count in Hext. rewrite Hw, He in Hext. simpl in Hext.
  inversion Hext as [Hw0]. rewrite Hw0. reflexivity.
Qed.

Lemma X_last_release_frees_witness :
  node view_unused_state 11 =
    Some (mkVar Float32 "" "" 8 4128 1 0 (10, 0, 0) false false false 0) /\
  @cuda_dec_ref_ext debug_build 10 11 view_unused_state
    = Ok tt view_released_state /\
  (11 ∉ __active view_released_state) /\
  exists w, node view_released_state 11 = Some w /\ data w = 0 /\
            dep w = (0, 0, 0) /\ ref_count_ext w = 0.
Proof.
  assert (Hv : node view_unused_state 11 =
    Some (mkVar Float32 "" "" 8 4128 1 0 (10, 0, 0) false false false 0))
    by (vm_compute; reflexivity).
  assert (Hr : @cuda_dec_ref_ext debug_build 10 11 view_unused_state
               = Ok tt view_released_state) by (vm_compute; reflexivity).
  split; [exact Hv | ]. split; [exact Hr | ].
  refine (@X_last_release_frees debug_build 10 11 _ _ _ _ Hv _ _ Hr);
    try reflexivity.
  unfold ENOKI_CUDA_REG_RESERVED. lia.
Defined.

(** ** Evaluations that have nothing to do, and evaluations that fail *)

Lemma eval_nothing_to_do `{B : Build} fuel s :
  active_empty s -> dirty_empty s -> cuda_eval fuel s = Ok tt s.
Proof.
  unfold active_empty, dirty_empty. intros Ha Hd.
  rewrite cuda_eval_unfold, Ha, Hd, elements_empty. simpl.
  rewrite map_to_list_empty. simpl. unfold ret. f_equal.
  destruct s; simpl in *. subst. reflexivity.
Qed.

Lemma eval_empties `{B : Build} fuel :
  triple (fun _ => True) (cuda_eval fuel)
    (fun _ s => active_empty s /\ dirty_empty s)
    (fun s => active_empty s /\ dirty_empty s).
Proof.
  intros s _. rewrite cuda_eval_unfold.
  destruct (build_sweeps _ _ _) as [e|sweeps]; [exact I | ].
  pose proof (clear_dirty_loop (__dirty s) s) as Hc.
  destruct (for_each (__dirty s) clear_dirty s) as [[] s1|msg s1|r];
    [ | contradiction | exact I].
  apply (keeps_buckets (fun s => active_empty s /\ dirty_empty s) fuel).
  - apply asm_closed_and;
      [apply active_empty_closed | apply dirty_empty_closed].
  - split; reflexivity.
Qed.

(** X10.  An evaluation that follows an evaluation that returned has
    nothing to do: it returns and leaves the state, the list of launched
    kernels included, as it is. *)
Theorem X_second_eval_does_nothing `{B : Build} fuel fuel' s s' :
  cuda_eval fuel s = Ok tt s' -> cuda_eval fuel' s' = Ok tt s'.
Proof.
  intros H. pose proof (eval_empties fuel s Logic.I) as He.
  rewrite H in He. destruct He as [Ha Hd].
  apply eval_nothing_to_do; assumption.
Qed.

Lemma X_second_eval_does_nothing_witness :
  @cuda_eval debug_build 100 three_operands_state
    = Ok tt three_operands_evaluated /\
  @cuda_eval debug_build 0 three_operands_evaluated
    = Ok tt three_operands_evaluated.
Proof.
  assert (H : @cuda_eval debug_build 100 three_operands_state
              = Ok tt three_operands_evaluated) by (vm_compute; reflexivity).
  split; [exact H | ].
  exact (@X_second_eval_does_nothing debug_build 100 0 _ _ H).
Defined.

(** X11.  An evaluation that throws, in a state that the exported
    functions can produce, has dropped the work all the same: the active
    set and the dirty queue are empty and no node is dirty, while the
    trace has the nodes, the element counts and the subtree sizes that it
    had. *)
Theorem X_failed_eval_drops_the_work `{B : Build} fuel s msg s' :
  reachable s -> cuda_eval fuel s = Throw msg s' ->
  clean s' /\ shape s' = shape s.
Proof.
  intros Hr H. split.
  - pose proof (cuda_eval_clean fuel s (reachable_dirty_queued s Hr)) as Hc.
    rewrite H in Hc. exact Hc.
  - pose proof (keeps_eval_shape fuel (shape s) s eq_refl) as Hs.
    rewrite H in Hs. exact Hs.
Qed.

Lemma X_failed_eval_drops_the_work_witness :
  @reachable debug_build reserved_operand_state /\
  @cuda_eval debug_build 100 reserved_operand_state
    = Throw "CUDABackend: internal error -- variable not found!"
        reserved_operand_failed /\
  clean reserved_operand_failed /\
  shape reserved_operand_failed = shape reserved_operand_state.
Proof.
  assert (Hr : @reachable debug_build reserved_operand_state).
  { exists reserved_operand. vm_compute. reflexivity. }
  assert (H : @cuda_eval debug_build 100 reserved_operand_state
    = Throw "CUDABackend: internal error -- variable not found!"
        reserved_operand_failed) by (vm_compute; reflexivity).
  split; [exact Hr | ]. split; [exact H | ].
  exact (@X_failed_eval_drops_the_work debug_build 100 _ _ _ Hr H).
Defined.
(** ** The kernels that an evaluation launches *)

Section Launches.
Context {B : Build}.
Variable L : list Launch.

Lemma launched_ext_closed : ext_closed (launched L).
Proof. split; [split | | ]; intros; assumption. Qed.

Lemma keeps_launched_update index f : keeps (launched L) (update index f).
Proof. apply keeps_update. intros s v Hs _. exact Hs. Qed.

Lemma keeps_launched_assemble fuel size_ sweep :
  keeps (launched L) (cuda_jit_assemble fuel size_ sweep).
Proof.
  unfold cuda_jit_assemble. repeat keeps_step.
  unfold assemble_var. destruct acc as [oss ptrs].
  repeat keeps_step; [apply keeps_pure, pure_emit_load | ].
  unfold emit_compute.
  repeat keeps_step;
    lazymatch goal with
    | |- keeps _ (cuda_render_cmd _ _ _ _) =>
        apply keeps_pure, pure_cuda_render_cmd
    | |- keeps _ (cuda_dec_ref_ext _ _) =>
        apply keeps_dec_ref_ext, launched_ext_closed
    | |- keeps _ (cuda_var_size _) => apply keeps_pure, pure_cuda_var_size
    | |- keeps _ (cudaMalloc _) => intros s Hs; exact Hs
    | |- keeps _ (emit_store _ _ _ _ _) => apply keeps_pure, pure_emit_store
    | |- keeps _ (update _ _) => apply keeps_launched_update
    end.
Qed.

Lemma keeps_launched_collapse fuel idx : keeps (launched L) (collapse_var fuel idx).
Proof.
  unfold collapse_var. simpl.
  repeat keeps_step;
    lazymatch goal with
    | |- keeps _ (cuda_dec_ref_int _ _) =>
        apply keeps_dec_ref_int, launched_ext_closed
    | |- keeps _ (update _ _) => apply keeps_launched_update
    end.
Qed.

End Launches.

Section LaunchLog.
Context {B : Build}.

(** One bucket that is processed to its end adds one launch, of the
    element count of the bucket. *)
Lemma eval_bucket_launch fuel b s s' :
  eval_bucket fuel b s = Ok tt s' ->
  exists l, launches s' = launches s ++ [l] /\ l_size l = b.1.
Proof.
  unfold eval_bucket. intros H.
  apply bind_Ok in H as (res & s1 & Ha & H).
  rewrite (assemble_nonempty _ _ _ _ _ _ Ha) in H.
  pose proof (keeps_Ok _ _ _ _ _
    (keeps_launched_assemble (launches s) fuel b.1 b.2.2) eq_refl Ha) as H1.
  apply bind_Ok in H as ([] & s2 & Hrun & H).
  unfold cuda_jit_run, modify in Hrun. inversion Hrun; subst s2. clear Hrun.
  exists (mkLaunch res.1 res.2 b.1). split; [ | reflexivity].
  refine (keeps_Ok (launched _) _ _ _ _ _ _ H).
  - apply keeps_for_each. intros idx _. apply keeps_launched_collapse.
  - unfold launched. simpl. rewrite H1. reflexivity.
Qed.

Lemma eval_buckets_launches fuel bs s s' :
  for_each bs (eval_bucket fuel) s = Ok tt s' ->
  exists ls, launches s' = launches s ++ ls /\ l_size <$> ls = bs.*1.
Proof.
  revert s. induction bs as [|b bs IH]; intros s H; simpl in H.
  - inversion H; subst. exists []. rewrite app_nil_r. auto.
  - apply bind_Ok in H as ([] & s1 & Hb & H).
    destruct (eval_bucket_launch _ _ _ _ Hb) as (l & Hl & Hsz).
    destruct (IH _ H) as (ls & Hls & Hszs).
    exists (l :: ls). split.
    + rewrite Hls, Hl, <- app_assoc. reflexivity.
    + rewrite !fmap_cons, Hsz, Hszs. reflexivity.
Qed.

End LaunchLog.

(** The buckets are the element counts of the seeds. *)
Lemma build_sweeps_keys fuel tr active sweeps :
  build_sweeps fuel tr active = inr sweeps ->
  forall sz, is_Some (sweeps !! sz) <->
    exists idx v, idx ∈ active /\ tr !! N.to_nat idx = Some v /\ size v = sz.
Proof.
  unfold build_sweeps.
  assert (Hgen : forall l (m0 m : gmap N (gset N * list N)),
    fold_left (fun acc idx =>
      match acc with
      | inl e => inl e
      | inr sweeps =>
          match tr !! N.to_nat idx with
          | None => inl UndefinedBehaviour
          | Some v =>
              let sweep := default (∅, []) (sweeps !! size v) in
              match sweep_recursive fuel tr sweep.1 sweep.2 idx with
              | inl e => inl e
              | inr r => inr (<[size v := r]> sweeps)
              end
          end
      end) l (inr m0) = inr m ->
    forall sz, is_Some (m !! sz) <->
      is_Some (m0 !! sz) \/
      exists idx v, idx ∈ l /\ tr !! N.to_nat idx = Some v /\ size v = sz).
  { induction l as [|idx l IHl]; intros m0 m Hm sz; simpl in Hm.
    - inversion Hm; subst. split; [auto | ].
      intros [H|(idx & v & Hin & _)]; [exact H | ].
      apply elem_of_nil in Hin. contradiction.
    - destruct (tr !! N.to_nat idx) as [v|] eqn:Hv;
        [ | exfalso; eapply fold_left_inl; [ | exact Hm]; reflexivity].
      destruct (sweep_recursive fuel tr _ _ idx) as [e|r] eqn:Hrec;
        [exfalso; eapply fold_left_inl; [ | exact Hm]; reflexivity | ].
      rewrite (IHl _ _ Hm sz). rewrite lookup_insert_is_Some. split.
      + intros [[Heq|[_ H]]|(idx' & v' & Hin & Hv' & Hsz)].
        * right. exists idx, v. split; [left | auto].
        * left. exact H.
        * right. exists idx', v'. split; [right; exact Hin | auto].
      + intros [H|(idx' & v' & Hin & Hv' & Hsz)].
        * left. destruct (decide (size v = sz)); [left | right]; auto.
        * apply elem_of_cons in Hin as [->|Hin].
          -- left. left. congruence.
          -- right. exists idx', v'. auto. }
  intros H sz. rewrite (Hgen _ _ _ H sz). rewrite lookup_empty. split.
  - intros [[x Hx]|H']; [discriminate | exact H'].
  - intros H'. right. exact H'.
Qed.

(** X12.  An evaluation that returns launches one kernel for each element
    count that occurs among the active nodes, and no other: the element
    counts of the kernels that it adds to the list of launches have no
    repetition and are those of the nodes of the active set. *)
Theorem X_one_launch_per_element_count `{B : Build} fuel s s' :
  cuda_eval fuel s = Ok tt s' ->
  exists ls,
    launches s' = launches s ++ ls /\
    NoDup (l_size <$> ls) /\
    forall sz, sz ∈ (l_size <$> ls) <->
      exists idx v, idx ∈ __active s /\ node s idx = Some v /\ size v = sz.
Proof.
  intros H. rewrite cuda_eval_unfold in H.
  destruct (build_sweeps _ _ _) as [e|sweeps] eqn:Hb; [discriminate | ].
  destruct (for_each (__dirty s) clear_dirty s) as [[] s1|msg s1|r] eqn:Hc;
    try discriminate.
  assert (H1 : launches s1 = launches s).
  { refine (keeps_Ok (launched (launches s)) _ _ _ _ _ eq_refl Hc).
    apply keeps_for_each. intros idx _. apply keeps_launched_update. }
  destruct (eval_buckets_launches _ _ _ _ H) as (ls & Hls & Hsz).
  exists ls. simpl in Hls. rewrite H1 in Hls. split; [exact Hls | ].
  rewrite Hsz. split; [apply NoDup_fst_map_to_list | ].
  intros sz. pose proof (build_sweeps_keys _ _ _ _ Hb sz) as Hk.
  rewrite list_elem_of_fmap. split.
  - intros ([k b] & -> & Hin). apply elem_of_map_to_list in Hin.
    destruct Hk as [Hk _].
    destruct (Hk (ex_intro _ b Hin)) as (idx & v & Hi & Hv & Hs).
    exists idx, v. split; [apply elem_of_elements; exact Hi | auto].
  - intros (idx & v & Hi & Hv & Hs). destruct Hk as [_ Hk].
    destruct Hk as [b Hb'].
    { exists idx, v. split; [apply elem_of_elements; exact Hi | auto]. }
    exists (sz, b). split; [reflexivity | ].
    apply elem_of_map_to_list. exact Hb'.
Qed.

Lemma X_one_launch_per_element_count_witness :
  @cuda_eval debug_build 100 two_sizes_state = Ok tt two_sizes_evaluated /\
  exists ls,
    launches two_sizes_evaluated = launches two_sizes_state ++ ls /\
    NoDup (l_size <$> ls) /\
    forall sz, sz ∈ (l_size <$> ls) <->
      exists idx v, idx ∈ __active two_sizes_state /\
        node two_sizes_state idx = Some v /\ size v = sz.
Proof.
  assert (H : @cuda_eval debug_build 100 two_sizes_state
              = Ok tt two_sizes_evaluated) by (vm_compute; reflexivity).
  split; [exact H | ].
  exact (@X_one_launch_per_element_count debug_build 100 _ _ H).
Defined.

(** ** The trace only grows *)

Lemma origin_set_node s i v v' :
  node s i = Some v -> origin_of v' = origin_of v ->
  origin (set_node i v' s) = origin s.
Proof.
  unfold origin, set_node, node. simpl. intros Hv Heq.
  rewrite list_fmap_insert, Heq. apply list_insert_id.
  rewrite list_lookup_fmap, Hv. reflexivity.
Qed.

Lemma gc_step_origin v v' : gc_step v v' -> origin_of v' = origin_of v.
Proof. intros H. destruct H; reflexivity. Qed.

Lemma begins_with_set_node l s i v v' :
  begins_with l s -> node s i = Some v -> origin_of v' = origin_of v ->
  begins_with l (set_node i v' s).
Proof.
  unfold begins_with. intros Hs Hv Heq.
  rewrite (origin_set_node _ _ _ _ Hv Heq). exact Hs.
Qed.

Lemma begins_with_closed l : asm_closed (fun _ => True) (begins_with l).
Proof.
  split; [split; [split | | ] | | | ]; try (intros; assumption).
  - intros s i v v' Hs Hv Hstep. eapply begins_with_set_node; eauto.
    apply gc_step_origin. exact Hstep.
  - intros s i v n Hs Hv. eapply begins_with_set_node; eauto.
  - intros s i v p _ Hs Hv. eapply begins_with_set_node; eauto.
Qed.

Lemma begins_with_emplace l s v :
  begins_with l s -> begins_with l (with_trace (fun tr => tr ++ [v]) s).
Proof.
  unfold begins_with, origin. simpl. intros Hs. rewrite fmap_app.
  apply prefix_app_r. exact Hs.
Qed.

Section Grows.
Context {B : Build}.
Variable l : list (EnokiType * string * bool * N).

Ltac bw_leaf :=
  lazymatch goal with
  | |- keeps _ (update _ _) =>
      apply keeps_update; intros ? ? ? ?; eapply begins_with_set_node; eauto
  | |- keeps _ (emplace_back _) =>
      apply keeps_modify; intros ? ?; apply begins_with_emplace; assumption
  | |- keeps _ (modify (with_active _)) =>
      apply keeps_modify; intros ? ?; assumption
  | |- keeps _ (modify (with_dirty _)) =>
      apply keeps_modify; intros ? ?; assumption
  | |- keeps _ (cuda_inc_ref_ext _) =>
      apply keeps_inc_ref_ext, begins_with_closed
  | |- keeps _ (cuda_inc_ref_int _) =>
      apply keeps_inc_ref_int, begins_with_closed
  | |- keeps _ (cuda_dec_ref_ext _ _) =>
      apply keeps_dec_ref_ext, begins_with_closed
  | |- keeps _ (cuda_dec_ref_int _ _) =>
      apply keeps_dec_ref_int, begins_with_closed
  | |- keeps _ (cuda_var_free _ _) =>
      apply keeps_var_free, begins_with_closed
  | |- keeps _ (cuda_eval _) =>
      apply keeps_eval_with;
        [ apply begins_with_closed
        | intros ? ? ? ? ?; eapply begins_with_set_node; eauto
        | auto | auto ]
  end.

Lemma keeps_begins_with_append0 t c :
  keeps (begins_with l) (cuda_trace_append0 t c).
Proof. unfold cuda_trace_append0. repeat keeps_step; bw_leaf. Qed.

Lemma keeps_begins_with_append1 fuel t c a1 :
  keeps (begins_with l) (cuda_trace_append1 fuel t c a1).
Proof. unfold cuda_trace_append1. repeat keeps_step; bw_leaf. Qed.

Lemma keeps_begins_with_append2 fuel t c a1 a2 :
  keeps (begins_with l) (cuda_trace_append2 fuel t c a1 a2).
Proof. unfold cuda_trace_append2. repeat keeps_step; bw_leaf. Qed.

Lemma keeps_begins_with_append3 fuel t c a1 a2 a3 :
  keeps (begins_with l) (cuda_trace_append3 fuel t c a1 a2 a3).
Proof. unfold cuda_trace_append3. repeat keeps_step; bw_leaf. Qed.

Lemma keeps_begins_with_printf fuel fmt narg arg :
  keeps (begins_with l) (cuda_trace_printf fuel fmt narg arg).
Proof.
  unfold cuda_trace_printf, cuda_var_mark_side_effect, arg_at.
  repeat keeps_step;
    lazymatch goal with
    | |- keeps _ (printf_block _ _ _) => apply keeps_pure, pure_printf_block
    | |- keeps _ (cuda_trace_append0 _ _) => apply keeps_begins_with_append0
    | |- keeps _ (cuda_trace_append1 _ _ _ _) =>
        apply keeps_begins_with_append1
    | |- keeps _ (cuda_trace_append2 _ _ _ _ _) =>
        apply keeps_begins_with_append2
    | |- keeps _ (cuda_trace_append3 _ _ _ _ _ _) =>
        apply keeps_begins_with_append3
    | _ => bw_leaf
    end.
Qed.

Lemma keeps_begins_with_exec c :
  replaces_trace c = false -> keeps (begins_with l) (exec c).
Proof.
  destruct c; simpl; intros Hc; try discriminate; unfold ignore.
  - unfold cuda_var_set_comment. bw_leaf.
  - unfold cuda_var_set_size. bw_leaf.
  - unfold cuda_var_register. repeat keeps_step; bw_leaf.
  - bw_leaf.
  - bw_leaf.
  - bw_leaf.
  - bw_leaf.
  - bw_leaf.
  - unfold cuda_var_mark_side_effect. repeat keeps_step; bw_leaf.
  - unfold cuda_var_mark_dirty. repeat keeps_step; bw_leaf.
  - repeat keeps_step. apply keeps_begins_with_append0.
  - repeat keeps_step. apply keeps_begins_with_append1.
  - repeat keeps_step. apply keeps_begins_with_append2.
  - repeat keeps_step. apply keeps_begins_with_append3.
  - apply keeps_begins_with_printf.
  - bw_leaf.
  - apply keeps_modify. intros s Hs. exact Hs.
  - unfold cuda_fetch_element. repeat keeps_step; bw_leaf.
  - unfold cuda_var_ptr. repeat keeps_step.
  - unfold cuda_var_size. repeat keeps_step.
  - repeat keeps_step. intros s Hs. exact Hs.
  - apply keeps_pure, pure_ret.
Qed.

End Grows.

(** X13.  No exported function other than [cuda_init] and [cuda_shutdown]
    removes a node from the trace or changes the type, the instruction
    template, the ownership flag or the subtree size of a node that
    exists, whether the call returns or throws: the trace only grows at
    its end. *)
Theorem X_trace_only_grows `{B : Build} c s s' :
  replaces_trace c = false -> state_after (exec c s) = Some s' ->
  origin s `prefix_of` origin s'.
Proof.
  intros Hc H.
  assert (Hs : begins_with (origin s) s) by (unfold begins_with; reflexivity).
  pose proof (keeps_begins_with_exec (origin s) c Hc s Hs) as Hk.
  destruct (exec c s); inversion H; subst; exact Hk.
Qed.

Lemma X_trace_only_grows_witness :
  state_after (@exec debug_build (call_dec_ref_ext 100 16) handles_held_state)
    = Some top_released_state /\
  origin handles_held_state `prefix_of` origin top_released_state.
Proof.
  assert (H : state_after
                (@exec debug_build (call_dec_ref_ext 100 16) handles_held_state)
              = Some top_released_state) by (vm_compute; reflexivity).
  split; [exact H | ].
  exact (@X_trace_only_grows debug_build (call_dec_ref_ext 100 16) _ _
           eq_refl H).
Defined.

(** ** What the expansion of a template writes *)

(** X14.  A template without ['$'] is copied to the output as it is,
    after four spaces, and gets a semicolon and a newline unless it is
    empty or ends in a newline; the state is not touched. *)
Theorem X_plain_template_is_copied oss tr reg_map index v s :
  tr !! N.to_nat index = Some v -> no_dollar (cmd v) = true ->
  cuda_render_cmd oss tr reg_map index s =
  Ok (terminate_line (cmd v) (oss << "    " << cmd v)) s.
Proof.
  intros Hv Hnd.
  pose proof (render_loop_skip (cmd v) tr reg_map index (cmd v) ""
                (oss << "    ") Hnd) as Hr.
  rewrite append_nil_r in Hr.
  unfold cuda_render_cmd. rewrite Hv. unfold bind at 1. simpl.
  unfold bind at 1. rewrite Hr. reflexivity.
Qed.

Lemma X_plain_template_is_copied_witness :
  cuda_render_cmd "" [Variable_ Invalid; set_cmd "ret" (Variable_ UInt32)]
    ∅ 1 state0
  = Ok ("    ret;" << endl) state0.
Proof.
  exact (X_plain_template_is_copied ""
           [Variable_ Invalid; set_cmd "ret" (Variable_ UInt32)] ∅ 1
           (set_cmd "ret" (Variable_ UInt32)) state0 eq_refl eq_refl).
Defined.

Lemma digit_offset k :
  1 <= k <= 4 -> u8 (N_of_ascii (digit k) + 256 - 48) = k.
Proof.
  intros Hk. assert (H : k = 1 \/ k = 2 \/ k = 3 \/ k = 4) by lia.
  destruct H as [->|[->|[->| ->]]]; reflexivity.
Qed.

Section Placeholders.
Variables (full : string) (tr : list Var) (reg_map : gmap N N) (index : N).

(** The scan at a placeholder whose letter is one of [t], [b], [r] and
    whose digit names a node of the trace. *)
Lemma render_placeholder ty k rest oss v target dv s :
  is_tbr ty = true -> 1 <= k <= 4 ->
  tr !! N.to_nat index = Some v ->
  placeholder_target index v k = Some target ->
  tr !! N.to_nat target = Some dv ->
  render_loop full tr reg_map index (placeholder ty k << rest) oss s =
  match
    (if is_char ty "t" then cuda_register_type (type dv)
     else if is_char ty "b" then cuda_register_type_bin (type dv)
     else if is_char ty "r" then cuda_register_name (type dv)
     else None)
  with
  | None =>
      Throw ("CUDABackend: internal error -- unsupported type: "
             << full << " marked with type ") s
  | Some res =>
      if is_char ty "r" then
        match reg_map !! target with
        | None => Throw "CUDABackend: internal error -- variable not found!" s
        | Some r =>
            render_loop full tr reg_map index rest (oss << res << dec r) s
        end
      else render_loop full tr reg_map index rest (oss << res) s
  end.
Proof.
  intros Hty Hk Hv Ht Hdv.
  change (placeholder ty k << rest)
    with (String "$" (String ty (String (digit k) rest))).
  cbn [render_loop]. change (is_char "$" "$") with true. cbv iota.
  rewrite (digit_offset k Hk).
  assert (Hl : negb (is_char ty "t") && negb (is_char ty "b")
               && negb (is_char ty "r") = false).
  { unfold is_tbr in Hty.
    destruct (is_char ty "t"), (is_char ty "b"), (is_char ty "r");
      simpl in *; congruence. }
  rewrite Hl.
  assert (Hb : (k <? 1) && (4 <? k) = false).
  { destruct (N.ltb_spec k 1); [lia | reflexivity]. }
  rewrite Hb, Hv. unfold bind at 1. simpl.
  unfold placeholder_target in Ht.
  assert (Hd : (if k =? 1 then ret index
                else if k <? 2 then abort_with UndefinedBehaviour
                else defined (arr_get (dep v) (k - 2))) s = Ok target s).
  { destruct (N.eqb_spec k 1) as [->|Hne].
    - inversion Ht. reflexivity.
    - destruct (N.ltb_spec k 2); [lia | ]. rewrite Ht. reflexivity. }
  unfold bind at 1. rewrite Hd.
  assert (Hlen : (N.of_nat (length tr) <=? target) = false).
  { apply N.leb_gt. apply lookup_lt_Some in Hdv. lia. }
  rewrite Hlen, Hdv. unfold bind, defined, ret.
  destruct (if (ty =? "t")%char then _ else _) as [res|]; [ | reflexivity].
  destruct (ty =? "r")%char; [ | reflexivity].
  destruct (reg_map !! target); reflexivity.
Qed.

End Placeholders.

(** X15.  In a template, after text without ['$'], the placeholder
    [$r] followed by a digit 1 to 4 is replaced by the register name of
    the type of the node that the digit names (1: the node itself, 2 to 4:
    its first, second and third operand) and the register number of that
    node; [$t] and [$b] are replaced by the type and the binary type of
    that node.  The scan goes on behind the digit. *)
Theorem X_placeholder_expansion full tr reg_map index v pre k rest oss
    target dv s :
  tr !! N.to_nat index = Some v -> no_dollar pre = true -> 1 <= k <= 4 ->
  placeholder_target index v k = Some target ->
  tr !! N.to_nat target = Some dv ->
  (forall name r,
     cuda_register_name (type dv) = Some name -> reg_map !! target = Some r ->
     render_loop full tr reg_map index (pre << placeholder "r" k << rest) oss s
     = render_loop full tr reg_map index rest (oss << pre << name << dec r) s)
  /\
  (forall t,
     cuda_register_type (type dv) = Some t ->
     render_loop full tr reg_map index (pre << placeholder "t" k << rest) oss s
     = render_loop full tr reg_map index rest (oss << pre << t) s) /\
  (forall t,
     cuda_register_type_bin (type dv) = Some t ->
     render_loop full tr reg_map index (pre << placeholder "b" k << rest) oss s
     = render_loop full tr reg_map index rest (oss << pre << t) s).
Proof.
  intros Hv Hpre Hk Ht Hdv. split; [ | split].
  - intros name r Hn Hr. rewrite append_assoc.
    rewrite render_loop_skip by exact Hpre.
    rewrite (render_placeholder full tr reg_map index "r" k rest _ v target dv
               s eq_refl Hk Hv Ht Hdv).
    change (is_char "r" "t") with false. change (is_char "r" "b") with false.
    change (is_char "r" "r") with true. cbv iota.
    rewrite Hn, Hr. reflexivity.
  - intros t Htype. rewrite append_assoc.
    rewrite render_loop_skip by exact Hpre.
    rewrite (render_placeholder full tr reg_map index "t" k rest _ v target dv
               s eq_refl Hk Hv Ht Hdv).
    change (is_char "t" "t") with true. change (is_char "t" "r") with false.
    cbv iota. rewrite Htype. reflexivity.
  - intros t Htype. rewrite append_assoc.
    rewrite render_loop_skip by exact Hpre.
    rewrite (render_placeholder full tr reg_map index "b" k rest _ v target dv
               s eq_refl Hk Hv Ht Hdv).
    change (is_char "b" "t") with false. change (is_char "b" "b") with true.
    change (is_char "b" "r") with false.
    cbv iota. rewrite Htype. reflexivity.
Qed.

Lemma X_placeholder_expansion_witness :
  render_loop "mad.lo.u32 $r1, $r2, $r3, $r4" (__trace three_operands_state)
    (make_reg_map [13; 14; 15; 10; 11; 12; 16]) 16
    ("mad.lo.u32 " << placeholder "r" 1 << ", $r2, $r3, $r4") "" state0
  = render_loop "mad.lo.u32 $r1, $r2, $r3, $r4" (__trace three_operands_state)
      (make_reg_map [13; 14; 15; 10; 11; 12; 16]) 16
      ", $r2, $r3, $r4" ("" << "mad.lo.u32 " << "%r" << dec 16) state0.
Proof.
  refine (proj1 (X_placeholder_expansion "mad.lo.u32 $r1, $r2, $r3, $r4"
            (__trace three_operands_state)
            (make_reg_map [13; 14; 15; 10; 11; 12; 16]) 16
            (mkVar UInt32 "mad.lo.u32 $r1, $r2, $r3, $r4" "" 1 0 1 0
               (10, 12, 15) false false true 7)
            "mad.lo.u32 " 1 ", $r2, $r3, $r4" "" 16
            (mkVar UInt32 "mad.lo.u32 $r1, $r2, $r3, $r4" "" 1 0 1 0
               (10, 12, 15) false false true 7)
            state0 _ _ _ _ _) "%r" 16 _ _);
    try (vm_compute; reflexivity).
  lia.
Defined.

(** ** The bookkeeping of an append *)

Lemma set_int_same v : set_ref_count_int (ref_count_int v) v = v.
Proof. destruct v; reflexivity. Qed.

Lemma counted_nil s : counted [] s s.
Proof.
  unfold counted. repeat split; try reflexivity.
  intros a v Hv. unfold uses. simpl.
  destruct (a <? ENOKI_CUDA_REG_RESERVED); simpl; rewrite set_int_same;
    exact Hv.
Qed.

Lemma uses_cons_other args a x :
  a <> x \/ x < ENOKI_CUDA_REG_RESERVED ->
  uses (x :: args) a = uses args a.
Proof.
  unfold uses. intros H.
  destruct (N.ltb_spec a ENOKI_CUDA_REG_RESERVED); [reflexivity | ].
  simpl. destruct (N.eq_dec x a) as [->|Hne]; [ | reflexivity].
  destruct H; [contradiction | lia].
Qed.

Lemma uses_cons_same args a :
  ENOKI_CUDA_REG_RESERVED <= a -> uses (a :: args) a = S (uses args a).
Proof.
  unfold uses. intros H. apply N.ltb_ge in H. rewrite H. simpl.
  destruct (N.eq_dec a a); [reflexivity | contradiction].
Qed.

Lemma uses_absent args a : a ∉ args -> uses args a = 0%nat.
Proof.
  unfold uses. intros H. destruct (a <? _); [reflexivity | ].
  apply count_occ_not_In. intros Hin. apply H. apply list_elem_of_In.
  exact Hin.
Qed.

Section Bookkeeping.
Context {B : Build}.

(** The increments for the operands, one after the other, raise the
    internal count of every operand above the reserved indices once for
    each occurrence, and change nothing else. *)
Lemma inc_each_counted {A} (k : M A) args s :
  (forall a, a ∈ args -> is_Some (node s a)) ->
  exists s', counted args s s' /\ inc_each args k s = k s'.
Proof.
  revert s. induction args as [|x args IH]; intros s Hex.
  - exists s. split; [apply counted_nil | reflexivity].
  - destruct (Hex x) as [vx Hvx]; [left | ].
    cbn [inc_each fold_right].
    destruct (N.ltb_spec x ENOKI_CUDA_REG_RESERVED) as [Hres|Hres].
    + destruct (IH s) as (s' & Hc & Hk).
      { intros a Ha. apply Hex. right. exact Ha. }
      exists s'. split.
      * destruct Hc as (H1 & H2 & H3 & H4 & H5). repeat split; auto.
        intros a v Hv. rewrite uses_cons_other by (right; exact Hres). auto.
      * unfold bind at 1, cuda_inc_ref_int.
        apply N.ltb_lt in Hres. rewrite Hres. exact Hk.
    + set (s1 := set_node x
                   (set_ref_count_int (u32_succ (ref_count_int vx)) vx) s).
      destruct (IH s1) as (s' & Hc & Hk).
      { intros a Ha. destruct (Hex a) as [va Hva]; [right; exact Ha | ].
        unfold s1. rewrite (node_set_node _ _ _ _ _ Hvx).
        destruct (decide (x = a)); eauto. }
      exists s'. split.
      * destruct Hc as (H1 & H2 & H3 & H4 & H5).
        split; [exact H1 | ]. split; [exact H2 | ]. split; [exact H3 | ].
        split; [rewrite H4; unfold s1, set_node; simpl;
                apply length_insert | ].
        intros a v Hv. destruct (decide (x = a)) as [<-|Hne].
        -- rewrite Hvx in Hv. inversion Hv; subst v.
           rewrite (H5 x _ (node_set_node_eq _ _ _ _ Hvx)).
           rewrite uses_cons_same by exact Hres.
           rewrite Nat.iter_succ_r. reflexivity.
        -- rewrite uses_cons_other by (left; congruence).
           apply H5. unfold s1. rewrite node_set_node_ne by exact Hne.
           exact Hv.
      * unfold bind at 1. rewrite (inc_ref_int_eq _ _ _ Hres Hvx). exact Hk.
Qed.

(** The common end of the four overloads: the new node is in place, the
    operands are counted, the node gets its handle and becomes active. *)
Lemma append_end args new s :
  ENOKI_CUDA_REG_RESERVED <= N.of_nat (length (__trace s)) ->
  N.of_nat (length (__trace s)) < 2 ^ 32 ->
  (forall a, a ∈ args -> is_Some (node s a)) ->
  ref_count_ext new = 0 ->
  let idx := N.of_nat (length (__trace s)) in
  exists s',
    (let* _ := emplace_back new in
     inc_each args
       (let* _ := cuda_inc_ref_ext (u32 idx) in
        let* _ := modify (with_active (fun a => {[u32 idx]} ∪ a)) in
        ret (u32 idx))) s = Ok idx s' /\
    __active s' = {[idx]} ∪ __active s /\
    launches s' = launches s /\ __dirty s' = __dirty s /\
    length (__trace s') = S (length (__trace s)) /\
    node s' idx = Some (set_ref_count_ext 1 new) /\
    forall a v, node s a = Some v ->
      node s' a =
      Some (set_ref_count_int
              (Nat.iter (uses args a) u32_succ (ref_count_int v)) v).
Proof.
  intros Hres Hlt Hex Hnew idx.
  assert (Hu : u32 idx = idx) by (apply N.mod_small; exact Hlt).
  rewrite Hu.
  set (s1 := with_trace (fun tr => tr ++ [new]) s).
  assert (Hold : forall a v, node s a = Some v -> node s1 a = Some v).
  { intros a v Hv. unfold node, s1. simpl.
    rewrite lookup_app_l by (eapply lookup_lt_Some; exact Hv). exact Hv. }
  assert (Hidx : node s1 idx = Some new).
  { unfold node, s1, idx. simpl. rewrite Nat2N.id.
    apply list_lookup_middle. reflexivity. }
  destruct (inc_each_counted
              (let* _ := cuda_inc_ref_ext idx in
               let* _ := modify (with_active (fun a => {[idx]} ∪ a)) in
               ret idx) args s1) as (s2 & Hc & Hk).
  { intros a Ha. destruct (Hex a Ha) as [v Hv]. exists v. auto. }
  destruct Hc as (H1 & H2 & H3 & H4 & H5).
  assert (Hnot : idx ∉ args).
  { intros Hin. destruct (Hex idx Hin) as [v Hv]. apply node_lt in Hv.
    unfold idx in Hv. lia. }
  pose proof (H5 idx new Hidx) as Hidx2.
  rewrite (uses_absent _ _ Hnot) in Hidx2. simpl in Hidx2.
  rewrite set_int_same in Hidx2.
  exists (with_active (fun a => {[idx]} ∪ a)
            (set_node idx (set_ref_count_ext 1 new) s2)).
  split; [ | split; [ | split; [ | split; [ | split; [ | split]]]]].
  - unfold bind at 1. simpl. fold s1. rewrite Hk.
    unfold bind at 1. rewrite (inc_ref_ext_eq _ _ _ Hres Hidx2).
    rewrite Hnew. reflexivity.
  - simpl. rewrite H1. reflexivity.
  - simpl. rewrite H3. reflexivity.
  - simpl. rewrite H2. reflexivity.
  - simpl. rewrite length_insert, H4. unfold s1. simpl.
    rewrite length_app. simpl. lia.
  - apply (node_set_node_eq (with_active _ s2) idx _ new). exact Hidx2.
  - intros a v Hv.
    assert (Hne : idx <> a).
    { apply node_lt in Hv. unfold idx. lia. }
    rewrite <- (H5 a v (Hold a v Hv)).
    apply (node_set_node_ne s2 idx a). exact Hne.
Qed.

End Bookkeeping.

Ltac run_at H :=
  rewrite (bind_eq _ _ _ _ _ (at_eq _ _ _ H)).

Ltac run_size :=
  unfold bind at 1, trace_size.

Lemma assert_true `{B : Build} s : assert_ true s = Ok tt s.
Proof. reflexivity. Qed.

Ltac run_assert :=
  cbn [andb]; rewrite (bind_eq _ _ _ _ _ (assert_true _)).

(** X16.  An append to a trace of at least [ENOKI_CUDA_REG_RESERVED] and
    fewer than 2^32 nodes whose operands exist and are not dirty returns
    the index of a new last node without evaluating anything: nothing is
    launched, the new node joins the active set with external count 1 and
    without buffer, and the internal count of every operand above the
    reserved indices grows by one for each time it occurs among the
    operands, modulo 2^32; no other field of an existing node changes. *)
Theorem X_append_bookkeeping `{B : Build} fuel t c args m s :
  append_overload fuel t c args = Some m ->
  ENOKI_CUDA_REG_RESERVED <= N.of_nat (length (__trace s)) ->
  N.of_nat (length (__trace s)) < 2 ^ 32 ->
  (forall a, a ∈ args -> exists v, node s a = Some v /\ dirty v = false) ->
  exists s' w,
    m s = Ok (N.of_nat (length (__trace s))) s' /\
    __active s' = {[N.of_nat (length (__trace s))]} ∪ __active s /\
    launches s' = launches s /\ __dirty s' = __dirty s /\
    length (__trace s') = S (length (__trace s)) /\
    node s' (N.of_nat (length (__trace s))) = Some w /\
    ref_count_ext w = 1 /\ ref_count_int w = 0 /\ data w = 0 /\
    forall a v, node s a = Some v ->
      node s' a =
      Some (set_ref_count_int
              (Nat.iter (uses args a) u32_succ (ref_count_int v)) v).
Proof.
  intros Hm Hres Hlt Hargs.
  assert (Hex : forall a, a ∈ args -> is_Some (node s a)).
  { intros a Ha. destruct (Hargs a Ha) as (v & Hv & _). eauto. }
  assert (Hin : forall a, a ∈ args ->
            (a <? N.of_nat (length (__trace s))) = true).
  { intros a Ha. destruct (Hex a Ha) as [v Hv].
    apply (in_range _ _ _ Hv). }
  assert (Hfin : forall new,
    ref_count_ext new = 0 -> ref_count_int new = 0 -> data new = 0 ->
    exists s' w,
      (let* _ := emplace_back new in
       inc_each args
         (let* _ := cuda_inc_ref_ext (u32 (N.of_nat (length (__trace s)))) in
          let* _ := modify (with_active (fun a =>
                      {[u32 (N.of_nat (length (__trace s)))]} ∪ a)) in
          ret (u32 (N.of_nat (length (__trace s)))))) s
      = Ok (N.of_nat (length (__trace s))) s' /\
      __active s' = {[N.of_nat (length (__trace s))]} ∪ __active s /\
      launches s' = launches s /\ __dirty s' = __dirty s /\
      length (__trace s') = S (length (__trace s)) /\
      node s' (N.of_nat (length (__trace s))) = Some w /\
      ref_count_ext w = 1 /\ ref_count_int w = 0 /\ data w = 0 /\
      forall a v, node s a = Some v ->
        node s' a =
        Some (set_ref_count_int
                (Nat.iter (uses args a) u32_succ (ref_count_int v)) v)).
  { intros new He Hi Hd.
    destruct (append_end args new s Hres Hlt Hex He)
      as (s' & H0 & H1 & H2 & H3 & H4 & H5 & H6).
    exists s', (set_ref_count_ext 1 new).
    split; [exact H0 | ]. repeat (split; [assumption | ]).
    split; [reflexivity | ]. split; [exact Hi | ]. split; [exact Hd | ].
    exact H6. }
  destruct args as [|a1 [|a2 [|a3 [|a4 args]]]];
    inversion Hm; subst m; clear Hm.
  - unfold cuda_trace_append0. run_size.
    apply Hfin; reflexivity.
  - destruct (Hargs a1) as (v1 & Hv1 & Hd1); [left | ].
    unfold cuda_trace_append1. run_size.
    rewrite (Hin a1) by left. run_assert.
    run_at Hv1. rewrite Hd1. unfold bind at 1. simpl. run_size.
    run_at Hv1. apply Hfin; reflexivity.
  - destruct (Hargs a1) as (v1 & Hv1 & Hd1); [left | ].
    destruct (Hargs a2) as (v2 & Hv2 & Hd2); [right; left | ].
    unfold cuda_trace_append2. run_size.
    rewrite (Hin a1) by left. rewrite (Hin a2) by (right; left). run_assert.
    run_at Hv1.
    assert (Hd : (if dirty v1 then ret true
                  else let* v2 := at_ a2 in ret (dirty v2)) s = Ok false s).
    { rewrite Hd1. run_at Hv2. rewrite Hd2. reflexivity. }
    rewrite (bind_eq _ _ _ _ _ Hd). unfold bind at 1. simpl.
    run_size. run_at Hv1. run_at Hv2. apply Hfin; reflexivity.
  - destruct (Hargs a1) as (v1 & Hv1 & Hd1); [left | ].
    destruct (Hargs a2) as (v2 & Hv2 & Hd2); [right; left | ].
    destruct (Hargs a3) as (v3 & Hv3 & Hd3); [right; right; left | ].
    unfold cuda_trace_append3. run_size.
    rewrite (Hin a1) by left. rewrite (Hin a2) by (right; left).
    rewrite (Hin a3) by (right; right; left). run_assert.
    run_at Hv1.
    assert (Hd : (if dirty v1 then ret true
                  else
                    let* v2 := at_ a2 in
                    if dirty v2 then ret true
                    else let* v3 := at_ a3 in ret (dirty v3)) s = Ok false s).
    { rewrite Hd1. run_at Hv2. rewrite Hd2. run_at Hv3. rewrite Hd3.
      reflexivity. }
    rewrite (bind_eq _ _ _ _ _ Hd). unfold bind at 1. simpl.
    run_size. run_at Hv1. run_at Hv2. run_at Hv3. apply Hfin; reflexivity.
Qed.

Lemma X_append_bookkeeping_witness :
  exists s' w,
    @cuda_trace_append2 debug_build 10 Float32 "mul.f32 $r1, $r2, $r3" 10 10
      squared_state = Ok (N.of_nat (length (__trace squared_state))) s' /\
    __active s' = {[N.of_nat (length (__trace squared_state))]}
                  ∪ __active squared_state /\
    launches s' = launches squared_state /\
    __dirty s' = __dirty squared_state /\
    length (__trace s') = S (length (__trace squared_state)) /\
    node s' (N.of_nat (length (__trace squared_state))) = Some w /\
    ref_count_ext w = 1 /\ ref_count_int w = 0 /\ data w = 0 /\
    forall a v, node squared_state a = Some v ->
      node s' a =
      Some (set_ref_count_int
              (Nat.iter (uses [10; 10] a) u32_succ (ref_count_int v)) v).
Proof.
  apply (@X_append_bookkeeping debug_build 10 Float32
           "mul.f32 $r1, $r2, $r3" [10; 10] _ squared_state eq_refl).
  - vm_compute. discriminate.
  - vm_compute. reflexivity.
  - intros a Ha.
    exists (mkVar Float32 "mov.f32 $r1, 0f40000000" "" 1 0 1 0 (0, 0, 0)
              false false true 1).
    repeat (apply elem_of_cons in Ha as [->|Ha];
            [split; vm_compute; reflexivity | ]).
    apply elem_of_nil in Ha. contradiction.
Defined.

(** ** Registration of a buffer *)

(** X17.  The registration of a buffer in a trace of at least
    [ENOKI_CUDA_REG_RESERVED] and fewer than 2^32 nodes, with a parent
    that is a reserved index or a node of the trace, returns the index of
    a new last node that carries the buffer, the element count and the
    ownership flag, holds one external reference, has an empty template
    and subtree size 0, and is not put into the active set; the internal
    count of a parent above the reserved indices grows by one. *)
Theorem X_register_bookkeeping `{B : Build} t sz ptr parent dealloc s :
  ENOKI_CUDA_REG_RESERVED <= N.of_nat (length (__trace s)) ->
  N.of_nat (length (__trace s)) < 2 ^ 32 ->
  parent < ENOKI_CUDA_REG_RESERVED \/ is_Some (node s parent) ->
  exists s',
    cuda_var_register t sz ptr parent dealloc s
      = Ok (N.of_nat (length (__trace s))) s' /\
    __active s' = __active s /\ launches s' = launches s /\
    length (__trace s') = S (length (__trace s)) /\
    node s' (N.of_nat (length (__trace s))) =
      Some (mkVar t "" "" sz ptr 1 0 (parent, 0, 0) false false dealloc 0) /\
    forall a v, node s a = Some v ->
      node s' a =
      Some (set_ref_count_int
              (Nat.iter (uses [parent] a) u32_succ (ref_count_int v)) v).
Proof.
  intros Hres Hlt Hp.
  set (idx := N.of_nat (length (__trace s))).
  set (new := set_free dealloc (set_size sz (set_data ptr
                (set_cmd "" (set_dep (parent, 0, 0) (Variable_ t)))))).
  assert (Hu : u32 idx = idx) by (apply N.mod_small; exact Hlt).
  set (s1 := with_trace (fun tr => tr ++ [new]) s).
  assert (Hold : forall a v, node s a = Some v -> node s1 a = Some v).
  { intros a v Hv. unfold node, s1. simpl.
    rewrite lookup_app_l by (eapply lookup_lt_Some; exact Hv). exact Hv. }
  assert (Hidx : node s1 idx = Some new).
  { unfold node, s1, idx. simpl. rewrite Nat2N.id.
    apply list_lookup_middle. reflexivity. }
  set (s2 := set_node idx (set_ref_count_ext 1 new) s1).
  assert (Hold2 : forall a v, node s a = Some v -> node s2 a = Some v).
  { intros a v Hv. unfold s2. rewrite node_set_node_ne; [auto | ].
    apply node_lt in Hv. unfold idx. lia. }
  destruct (inc_each_counted (ret idx) [parent] s2) as (s' & Hc & Hk).
  { intros a Ha. apply list_elem_of_singleton in Ha as ->.
    destruct Hp as [Hp|[pv Hpv]]; [ | eauto].
    assert (Hin : (N.to_nat parent < length (__trace s2))%nat).
    { unfold s2, s1. simpl. rewrite length_insert, length_app. simpl.
      unfold idx in Hres. lia. }
    apply lookup_lt_is_Some_2. exact Hin. }
  destruct Hc as (H1 & H2 & H3 & H4 & H5).
  exists s'. split; [ | split; [ | split; [ | split; [ | split]]]].
  - unfold cuda_var_register. unfold bind at 1, trace_size. fold idx.
    rewrite Hu. unfold bind at 1. simpl. fold new. fold s1.
    unfold bind at 1. rewrite (inc_ref_ext_eq _ _ _ Hres Hidx).
    change (set_ref_count_ext (u32_succ (ref_count_ext new)) new)
      with (set_ref_count_ext 1 new). fold s2.
    exact Hk.
  - rewrite H1. reflexivity.
  - rewrite H3. reflexivity.
  - rewrite H4. unfold s2, s1. simpl. rewrite length_insert, length_app.
    simpl. lia.
  - assert (Hn : node s2 idx = Some (set_ref_count_ext 1 new))
      by (apply (node_set_node_eq s1 idx _ new); exact Hidx).
    rewrite (H5 idx _ Hn).
    assert (Hne : parent <> idx).
    { destruct Hp as [Hp|[pv Hpv]]; [unfold idx in *; lia | ].
      apply node_lt in Hpv. unfold idx. lia. }
    rewrite uses_absent.
    + reflexivity.
    + intros Hin. apply list_elem_of_singleton in Hin. congruence.
  - intros a v Hv. apply H5. apply Hold2. exact Hv.
Qed.

Lemma X_register_bookkeeping_witness :
  exists s',
    @cuda_var_register debug_build Float32 8 4128 10 false
      buffer_registered_state
      = Ok (N.of_nat (length (__trace buffer_registered_state))) s' /\
    __active s' = __active buffer_registered_state /\
    launches s' = launches buffer_registered_state /\
    length (__trace s') = S (length (__trace buffer_registered_state)) /\
    node s' (N.of_nat (length (__trace buffer_registered_state))) =
      Some (mkVar Float32 "" "" 8 4128 1 0 (10, 0, 0) false false false 0) /\
    forall a v, node buffer_registered_state a = Some v ->
      node s' a =
      Some (set_ref_count_int
              (Nat.iter (uses [10] a) u32_succ (ref_count_int v)) v).
Proof.
  apply (@X_register_bookkeeping debug_build Float32 8 4128 10 false
           buffer_registered_state).
  - vm_compute. discriminate.
  - vm_compute. reflexivity.
  - right. vm_compute. eauto.
Defined.

(** ** Reading an element *)



(** ** An empty trace *)

(** X19.  On an empty trace, before [cuda_init] or after [cuda_shutdown],
    the external decrement returns for every index and changes nothing,
    the internal decrement of an index above the reserved ones throws,
    and the two increments of such an index never return. *)
Theorem X_counts_on_empty_trace `{B : Build} fuel index s :
  __trace s = [] ->
  cuda_dec_ref_ext fuel index s = Ok tt s /\
  (ENOKI_CUDA_REG_RESERVED <= index ->
   cuda_dec_ref_int fuel index s = Throw "CUDA tracing JIT is uninitialized!" s
   /\ (exists r, cuda_inc_ref_ext index s = Abort r)
   /\ (exists r, cuda_inc_ref_int index s = Abort r)).
Proof.
  intros Ht. split.
  - unfold cuda_dec_ref_ext, bind, trace_size. rewrite Ht. simpl.
    rewrite orb_true_r. reflexivity.
  - intros Hres. apply N.ltb_ge in Hres.
    assert (Hlt : (index <? 0) = false) by (apply N.ltb_ge; lia).
    split; [ | split].
    + unfold cuda_dec_ref_int, dec_ref_int_with, bind, trace_size.
      rewrite Hres, Ht. reflexivity.
    + unfold cuda_inc_ref_ext, bind, trace_size, assert_.
      rewrite Hres, Ht.
      change (N.of_nat (length (@nil Var))) with 0. rewrite Hlt.
      destruct NDEBUG; simpl; [ | eauto].
      unfold update, bind, at_. rewrite Ht, lookup_nil. simpl. eauto.
    + unfold cuda_inc_ref_int, bind, trace_size, assert_.
      rewrite Hres, Ht.
      change (N.of_nat (length (@nil Var))) with 0. rewrite Hlt.
      destruct NDEBUG; simpl; [ | eauto].
      unfold update, bind, at_. rewrite Ht, lookup_nil. simpl. eauto.
Qed.

Lemma X_counts_on_empty_trace_witness :
  @cuda_dec_ref_ext debug_build 5 12 state0 = Ok tt state0 /\
  (ENOKI_CUDA_REG_RESERVED <= 12 ->
   @cuda_dec_ref_int debug_build 5 12 state0
     = Throw "CUDA tracing JIT is uninitialized!" state0
   /\ (exists r, @cuda_inc_ref_ext debug_build 12 state0 = Abort r)
   /\ (exists r, @cuda_inc_ref_int debug_build 12 state0 = Abort r)).
Proof.
  exact (@X_counts_on_empty_trace debug_build 5 12 state0 eq_refl).
Defined.

(** ** The table of the types *)

(** X20.  The four tables of the types agree: a type has a register name
    exactly when it has a byte size; every type with a register name has
    a type token and a binary type token, and unless it is [Bool] the
    binary token is [b] followed by the number of its bits. *)
Theorem X_type_tables_agree (t : EnokiType) :
  (is_Some (cuda_register_name t) <-> cuda_register_size t <> SIZE_MAX) /\
  (is_Some (cuda_register_name t) ->
   is_Some (cuda_register_type t) /\
   (t <> Bool ->
    cuda_register_type_bin t = Some (bits_token (cuda_register_size t)))).
Proof.
  destruct t; simpl; (split; [split | ]);
    try (intros [x Hx]; discriminate);
    try (intros H; exfalso; apply H; reflexivity);
    try (intros _; eauto; fail);
    try (intros _; vm_compute; discriminate);
    try (intros _; split; [eauto | ]; intros Hb;
         first [reflexivity | exfalso; apply Hb; reflexivity]).
Qed.

(** ** Nodes that make an evaluation fail *)

Lemma bind_not_Ok {A C} (c : M A) (k : A -> M C) s :
  (forall a s1, c s = Ok a s1 -> forall r s', k a s1 <> Ok r s') ->
  forall r s', bind c k s <> Ok r s'.
Proof.
  intros H r s'. unfold bind. destruct (c s) as [a s1|msg s1|e] eqn:Hc;
    [ | discriminate | discriminate].
  apply (H a s1 eq_refl).
Qed.

Section Poison.
Context {B : Build}.
Variable idx : N.
Variable allowed : N -> Prop.
Variable bad : N -> Prop.
Variable P : State -> Prop.
Hypothesis HP : asm_closed allowed P.
Hypothesis Hallowed : forall i, i <> idx -> allowed i.
Hypothesis Hfail : forall fuel size_ reg_map acc s r s',
  bad size_ -> P s -> assemble_var fuel size_ reg_map acc idx s <> Ok r s'.

Lemma poison_fold fuel size_ reg_map sweep acc s r s' :
  idx ∈ sweep -> bad size_ -> P s ->
  fold_each sweep acc (assemble_var fuel size_ reg_map) s <> Ok r s'.
Proof.
  revert acc s r s'.
  induction sweep as [|x l IH]; intros acc s r s' Hin Hbad Hs.
  - apply elem_of_nil in Hin. contradiction.
  - simpl. apply bind_not_Ok. intros acc' s1 Hx.
    destruct (decide (x = idx)) as [->|Hne].
    + exfalso. eapply Hfail; eauto.
    + apply elem_of_cons in Hin as [Heq|Hin]; [congruence | ].
      intros r0 s0. apply IH; auto.
      eapply (keeps_Ok P); [ | exact Hs | exact Hx].
      eapply keeps_assemble_var; [exact HP | ]. apply Hallowed. exact Hne.
Qed.

Lemma poison_bucket fuel b s s' :
  idx ∈ b.2.2 -> bad b.1 -> P s -> eval_bucket fuel b s <> Ok tt s'.
Proof.
  intros Hin Hbad Hs. unfold eval_bucket. apply bind_not_Ok.
  intros res s1 Ha. exfalso. unfold cuda_jit_assemble in Ha.
  apply bind_Ok in Ha as (acc & s2 & Hf & _).
  eapply poison_fold; eauto.
Qed.

Lemma poison_buckets fuel bs s s' :
  (forall b, b ∈ bs ->
     (idx ∈ b.2.2 /\ bad b.1) \/ (forall i, i ∈ b.2.2 -> allowed i)) ->
  (exists b, b ∈ bs /\ idx ∈ b.2.2 /\ bad b.1) ->
  P s -> for_each bs (eval_bucket fuel) s <> Ok tt s'.
Proof.
  revert s s'.
  induction bs as [|b l IH]; intros s s' Hall (b' & Hb' & Hin & Hbad) Hs.
  - apply elem_of_nil in Hb'. contradiction.
  - simpl. apply bind_not_Ok. intros [] s1 Hb.
    destruct (Hall b) as [[Hi Hbd]|Hal]; [left | | ].
    + exfalso. eapply poison_bucket; eauto.
    + apply elem_of_cons in Hb' as [->|Hb'].
      * exfalso. eapply poison_bucket; eauto.
      * intros r0 s0. destruct r0. apply IH.
        -- intros b0 Hb0. apply Hall. right. exact Hb0.
        -- exists b'. auto.
        -- eapply (keeps_Ok P); [ | exact Hs | exact Hb].
           eapply keeps_eval_bucket; [exact HP | exact Hal].
Qed.

Hypothesis Hdirty : forall s i v,
  P s -> node s i = Some v -> P (set_node i (set_dirty false v) s).
Hypothesis Hactive : forall s f, P s -> P (with_active f s).
Hypothesis Hqueue : forall s f, P s -> P (with_dirty f s).

Lemma poison_eval fuel s s' :
  P s ->
  (forall sweeps,
     build_sweeps fuel (__trace s) (elements (__active s)) = inr sweeps ->
     (forall b, b ∈ map_to_list sweeps ->
        (idx ∈ b.2.2 /\ bad b.1) \/ (forall i, i ∈ b.2.2 -> allowed i)) /\
     (exists b, b ∈ map_to_list sweeps /\ idx ∈ b.2.2 /\ bad b.1)) ->
  cuda_eval fuel s <> Ok tt s'.
Proof.
  intros Hs Hsw. rewrite cuda_eval_unfold.
  destruct (build_sweeps _ _ _) as [e|sweeps] eqn:Hb; [discriminate | ].
  destruct (Hsw sweeps eq_refl) as [Hall Hex].
  destruct (for_each (__dirty s) clear_dirty s) as [[] s1|msg s1|r] eqn:Hc;
    try discriminate.
  apply poison_buckets; [exact Hall | exact Hex | ].
  apply Hqueue, Hactive.
  refine (keeps_Ok P _ _ _ _ _ Hs Hc).
  apply keeps_for_each. intros i _. apply keeps_update.
  intros s0 v H0 Hv. apply Hdirty; assumption.
Qed.

End Poison.

Lemma hollow_set_node idx s i v v' :
  hollow idx s -> node s i = Some v ->
  (i = idx -> cmd v' = cmd v /\ (data v' = data v \/ data v' = 0)) ->
  hollow idx (set_node i v' s).
Proof.
  intros (w & Hw & Hc & Hd) Hv Hsame. unfold hollow.
  rewrite (node_set_node _ _ _ _ _ Hv).
  destruct (decide (i = idx)) as [->|Hne]; [ | eauto].
  rewrite Hw in Hv. inversion Hv; subst w.
  destruct (Hsame eq_refl) as [H1 H2]. exists v'.
  split; [reflexivity | ]. rewrite H1. split; [exact Hc | ].
  destruct H2 as [H2|H2]; congruence.
Qed.

Lemma hollow_closed idx : asm_closed (fun i => i <> idx) (hollow idx).
Proof.
  split; [split; [split | | ] | | | ]; try (intros; assumption).
  - intros s i v v' Hs Hv Hstep. eapply hollow_set_node; eauto.
    intros _. destruct Hstep; simpl; auto.
  - intros s i v n Hs Hv. eapply hollow_set_node; eauto.
  - intros s i v p Hne Hs Hv. eapply hollow_set_node; eauto.
    intros ->. contradiction.
Qed.

Lemma sized_set_node idx sz s i v v' :
  sized idx sz s -> node s i = Some v -> size v' = size v ->
  sized idx sz (set_node i v' s).
Proof.
  intros (w & Hw & Hsz) Hv Hsame. unfold sized.
  rewrite (node_set_node _ _ _ _ _ Hv).
  destruct (decide (i = idx)) as [->|Hne]; [ | eauto].
  rewrite Hw in Hv. inversion Hv; subst w. exists v'.
  split; [reflexivity | congruence].
Qed.

Lemma sized_closed idx sz : asm_closed (fun _ => True) (sized idx sz).
Proof.
  split; [split; [split | | ] | | | ]; try (intros; assumption).
  - intros s i v v' Hs Hv Hstep. eapply sized_set_node; eauto.
    destruct (gc_step_meta _ _ Hstep) as (_ & H & _). exact H.
  - intros s i v n Hs Hv. eapply sized_set_node; eauto.
  - intros s i v p _ Hs Hv. eapply sized_set_node; eauto.
Qed.

(** X21.  While a node with an empty instruction template and without a
    buffer is in the active set, no evaluation returns: it throws (the
    scheduled node is found invalid) or fails earlier. *)
Theorem X_hollow_node_fails `{B : Build} fuel idx s v :
  idx ∈ __active s -> node s idx = Some v ->
  empty (cmd v) = true -> data v = 0 ->
  forall s', cuda_eval fuel s <> Ok tt s'.
Proof.
  intros Hact Hv Hc Hd s'.
  apply (poison_eval idx (fun i => i <> idx) (fun _ => True) (hollow idx)
           (hollow_closed idx)).
  - auto.
  - intros fuel0 size_ reg_map [oss ptrs] s0 r s1 _ (w & Hw & Hcw & Hdw).
    unfold assemble_var. rewrite (bind_eq _ _ _ _ _ (at_eq _ _ _ Hw)).
    rewrite Hcw, Hdw. simpl. rewrite orb_true_r. discriminate.
  - intros s0 i w Hs Hw. eapply hollow_set_node; eauto.
  - auto.
  - auto.
  - exists v. auto.
  - intros sweeps Hb. split.
    + intros b _. destruct (decide (idx ∈ b.2.2)) as [Hin|Hin]; [auto | ].
      right. intros i Hi ->. contradiction.
    + destruct (build_sweeps_order _ _ _ _ Hb) as [_ Hseeds].
      destruct (Hseeds idx) as (w & b & _ & Hlook & Hin).
      { apply elem_of_elements. exact Hact. }
      exists (size w, b). split; [ | auto].
      apply elem_of_map_to_list. exact Hlook.
Qed.

Lemma X_hollow_node_fails_witness :
  (10 ∈ __active hollow_state) /\
  node hollow_state 10 =
    Some (mkVar UInt32 "" "" 1 0 1 0 (0, 0, 0) false false true 1) /\
  forall s', @cuda_eval debug_build 100 hollow_state <> Ok tt s'.
Proof.
  assert (Ha : 10 ∈ __active hollow_state).
  { apply (bool_decide_unpack (10 ∈ __active hollow_state)).
    vm_compute. exact I. }
  assert (Hv : node hollow_state 10 =
    Some (mkVar UInt32 "" "" 1 0 1 0 (0, 0, 0) false false true 1))
    by (vm_compute; reflexivity).
  split; [exact Ha | ]. split; [exact Hv | ].
  exact (@X_hollow_node_fails debug_build 100 10 _ _ Ha Hv eq_refl eq_refl).
Defined.

(** X22.  In a trace whose dependencies point to earlier nodes, while an
    active node has an operand above the reserved indices whose element
    count is neither 1 nor the element count of the node, no evaluation
    returns: the operand is scheduled with the node, and the assembly
    rejects it. *)
Theorem X_mixed_sizes_fail `{B : Build} fuel idx d s v w :
  acyclic_state s -> idx ∈ __active s -> node s idx = Some v ->
  d ∈ array3_to_list (dep v) -> ENOKI_CUDA_REG_RESERVED <= d ->
  node s d = Some w -> size w <> 1 -> size w <> size v ->
  forall s', cuda_eval fuel s <> Ok tt s'.
Proof.
  intros Hac Hact Hv Hd Hres Hw H1 Hne s'.
  apply (poison_eval d (fun _ => True)
           (fun size_ => size w <> 1 /\ size w <> size_) (sized d (size w))
           (sized_closed d (size w))).
  - auto.
  - intros fuel0 size_ reg_map [oss ptrs] s0 r s1 [Hb1 Hb2] (w0 & Hw0 & Hsz).
    unfold assemble_var. rewrite (bind_eq _ _ _ _ _ (at_eq _ _ _ Hw0)).
    destruct (is_collected w0 || _); [discriminate | ].
    rewrite Hsz.
    apply N.eqb_neq in Hb1, Hb2. rewrite Hb1, Hb2. discriminate.
  - intros s0 i w0 Hs Hw0. eapply sized_set_node; eauto.
  - auto.
  - auto.
  - exists w. auto.
  - intros sweeps Hb. split; [intros b _; right; auto | ].
    destruct (build_sweeps_order _ _ _ _ Hb) as [Hinv Hseeds].
    destruct (Hseeds idx) as (v0 & b & Hv0 & Hlook & Hin).
    { apply elem_of_elements. exact Hact. }
    unfold node in Hv. rewrite Hv in Hv0. inversion Hv0; subst v0.
    exists (size v, b). split; [apply elem_of_map_to_list; exact Hlook | ].
    split; [ | auto]. simpl.
    destruct (Hinv _ _ Hlook) as [_ Hdf].
    apply list_elem_of_lookup in Hin as [pos Hpos].
    destruct (Hdf Hac pos idx v d Hpos Hv Hd Hres) as (pos' & _ & Hpos').
    apply list_elem_of_lookup. eauto.
Qed.

Lemma X_mixed_sizes_fail_witness :
  acyclic_state mixed_sizes_state /\
  (12 ∈ __active mixed_sizes_state) /\
  node mixed_sizes_state 12 =
    Some (mkVar Float32 "add.f32 $r1, $r2, $r3" "" 16 0 1 0 (10, 11, 0)
            false false true 1) /\
  node mixed_sizes_state 11 =
    Some (mkVar Float32 "" "" 8 4128 1 1 (0, 0, 0) false false false 0) /\
  forall s', @cuda_eval debug_build 100 mixed_sizes_state <> Ok tt s'.
Proof.
  assert (Hac : acyclic_state mixed_sizes_state).
  { apply acyclicb_spec. vm_compute. reflexivity. }
  assert (Ha : 12 ∈ __active mixed_sizes_state).
  { apply (bool_decide_unpack (12 ∈ __active mixed_sizes_state)).
    vm_compute. exact I. }
  assert (Hv : node mixed_sizes_state 12 =
    Some (mkVar Float32 "add.f32 $r1, $r2, $r3" "" 16 0 1 0 (10, 11, 0)
            false false true 1)) by (vm_compute; reflexivity).
  assert (Hw : node mixed_sizes_state 11 =
    Some (mkVar Float32 "" "" 8 4128 1 1 (0, 0, 0) false false false 0))
    by (vm_compute; reflexivity).
  split; [exact Hac | ]. split; [exact Ha | ]. split; [exact Hv | ].
  split; [exact Hw | ].
  refine (@X_mixed_sizes_fail debug_build 100 12 11 _ _ _ Hac Ha Hv _ _ Hw _ _).
  - simpl. apply elem_of_cons. right. apply elem_of_cons. left. reflexivity.
  - unfold ENOKI_CUDA_REG_RESERVED. lia.
  - simpl. lia.
  - simpl. lia.
Defined.

(** ** The dirty queue and a new start *)

Lemma stale_queue_aborts q i s :
  i ∈ q -> (length (__trace s) <= N.to_nat i)%nat ->
  for_each q clear_dirty s = Abort UndefinedBehaviour.
Proof.
  revert s. induction q as [|x q IH]; intros s Hin Hlen.
  - apply elem_of_nil in Hin. contradiction.
  - simpl. unfold bind, clear_dirty at 1. rewrite update_unfold.
    destruct (node s x) as [v|] eqn:Hv; [ | reflexivity].
    apply elem_of_cons in Hin as [->|Hin].
    + apply node_lt in Hv. lia.
    + apply IH; [exact Hin | ].
      unfold set_node. simpl. rewrite length_insert. exact Hlen.
Qed.

(** X23.  [cuda_init] and [cuda_shutdown] leave the dirty queue as it
    is: when the queue holds an index at or above the reserved count and
    the trace is initialised again, the next evaluation writes the dirty
    flag of a node that does not exist, which is undefined behaviour. *)
Theorem X_dirty_queue_survives_init `{B : Build} fuel i s :
  i ∈ __dirty s -> ENOKI_CUDA_REG_RESERVED <= i ->
  (let* _ := cuda_shutdown in cuda_eval fuel) s = Abort UndefinedBehaviour /\
  (let* _ := cuda_init in cuda_eval fuel) s = Abort UndefinedBehaviour.
Proof.
  intros Hin Hres. split.
  - unfold bind at 1. simpl. rewrite cuda_eval_unfold. simpl.
    rewrite elements_empty. simpl.
    rewrite (stale_queue_aborts _ i); [reflexivity | exact Hin | simpl; lia].
  - unfold bind at 1. simpl. rewrite cuda_eval_unfold. simpl.
    rewrite elements_empty. simpl.
    rewrite (stale_queue_aborts _ i); [reflexivity | exact Hin | ].
    simpl. unfold ENOKI_CUDA_REG_RESERVED in Hres. lia.
Qed.

Lemma X_dirty_queue_survives_init_witness :
  (11 ∈ __dirty marked_then_init_state) /\
  (let* _ := @cuda_shutdown in @cuda_eval debug_build 100)
    marked_then_init_state = Abort UndefinedBehaviour /\
  (let* _ := @cuda_init in @cuda_eval debug_build 100)
    marked_then_init_state = Abort UndefinedBehaviour.
Proof.
  assert (H : 11 ∈ __dirty marked_then_init_state).
  { vm_compute. apply list_elem_of_singleton. reflexivity. }
  split; [exact H | ].
  refine (@X_dirty_queue_survives_init debug_build 100 11 _ H _).
  unfold ENOKI_CUDA_REG_RESERVED. lia.
Defined.

(** ** The internal count of a node is the number of its uses *)

Lemma slots_app tr v a : slots (tr ++ [v]) a = (slots tr a + occ (dep v) a)%nat.
Proof. unfold slots. rewrite sum_list_with_app. simpl. lia. Qed.

Lemma slots_insert tr j v v' a :
  tr !! j = Some v ->
  (slots (<[j := v']> tr) a + occ (dep v) a = slots tr a + occ (dep v') a)%nat.
Proof.
  unfold slots. revert j. induction tr as [|w tr IH]; intros j Hv.
  - rewrite lookup_nil in Hv. discriminate.
  - destruct j as [|j]; simpl in *.
    + inversion Hv; subst. lia.
    + specialize (IH j Hv). lia.
Qed.

Lemma occ_arr_set D i d a :
  arr_get D i = Some d -> ENOKI_CUDA_REG_RESERVED <= a ->
  (occ (arr_set D i 0) a + (if decide (a = d) then 1 else 0) = occ D a)%nat.
Proof.
  unfold occ, ENOKI_CUDA_REG_RESERVED. destruct D as [[d0 d1] d2].
  intros Hi Ha. destruct_slot i; simpl in Hi; inversion Hi; subst;
    cbn [arr_set array3_to_list count_occ];
    repeat match goal with
    | |- context [N.eq_dec ?x ?y] => destruct (N.eq_dec x y)
    | |- context [decide (?x = ?y)] => destruct (decide (x = y))
    end; subst; try lia.
Qed.

Lemma u32_lt n : u32 n < 2 ^ 32.
Proof. unfold u32. apply N.mod_lt. discriminate. Qed.

Lemma u32_cancel x y : u32 (x + 1) = u32 (y + 1) -> u32 x = u32 y.
Proof.
  unfold u32. intros H.
  assert (Hx : x mod 2 ^ 32 = ((x + 1) mod 2 ^ 32 + (2 ^ 32 - 1)) mod 2 ^ 32).
  { rewrite N.Div0.add_mod_idemp_l.
    replace (x + 1 + (2 ^ 32 - 1)) with (x + 1 * 2 ^ 32) by lia.
    rewrite N.Div0.mod_add. reflexivity. }
  assert (Hy : y mod 2 ^ 32 = ((y + 1) mod 2 ^ 32 + (2 ^ 32 - 1)) mod 2 ^ 32).
  { rewrite N.Div0.add_mod_idemp_l.
    replace (y + 1 + (2 ^ 32 - 1)) with (y + 1 * 2 ^ 32) by lia.
    rewrite N.Div0.mod_add. reflexivity. }
  rewrite Hx, Hy, H. reflexivity.
Qed.

Lemma u32_pred_owed x p : u32 (u32_pred x + (p + 1)) = u32 (x + p).
Proof.
  unfold u32_pred, u32. rewrite N.Div0.add_mod_idemp_l.
  replace (x + (2 ^ 32 - 1) + (p + 1)) with (x + p + 1 * 2 ^ 32) by lia.
  apply N.Div0.mod_add.
Qed.

Lemma u32_succ_owed x p : u32 (u32_succ x + p) = u32 (x + (p + 1)).
Proof.
  unfold u32_succ, u32. rewrite N.Div0.add_mod_idemp_l. f_equal. lia.
Qed.

Lemma balanced_but_ext owed owed' s :
  (forall a, ENOKI_CUDA_REG_RESERVED <= a -> owed a = owed' a) ->
  balanced_but owed s -> balanced_but owed' s.
Proof.
  intros Heq Hs a v Ha Hv. rewrite <- (Heq a Ha). apply Hs; assumption.
Qed.

Lemma balanced_but_reserved d owed s :
  d < ENOKI_CUDA_REG_RESERVED ->
  balanced_but (owed_add d owed) s <-> balanced_but owed s.
Proof.
  intros Hd. split; apply balanced_but_ext; intros a Ha; unfold owed_add;
    destruct (decide (a = d)); try reflexivity; lia.
Qed.

(** a change of a node that keeps its count and its dependencies *)
Lemma balanced_other owed s j v v' :
  balanced_but owed s -> node s j = Some v ->
  ref_count_int v' = ref_count_int v -> dep v' = dep v ->
  balanced_but owed (set_node j v' s).
Proof.
  intros Hs Hv Hi Hd a w Ha Hw.
  assert (Hsl : slots (__trace (set_node j v' s)) a = slots (__trace s) a).
  { pose proof (slots_insert (__trace s) (N.to_nat j) v v' a Hv) as H.
    rewrite Hd in H. unfold set_node. simpl. lia. }
  rewrite Hsl. rewrite (node_set_node _ _ _ _ _ Hv) in Hw.
  destruct (decide (j = a)) as [->|Hne]; [ | apply Hs; assumption].
  inversion Hw; subst w. rewrite Hi. apply Hs; assumption.
Qed.

(** a decrement of the count of [d] *)
Lemma balanced_dec owed s d v :
  balanced_but owed s -> node s d = Some v ->
  balanced_but (owed_add d owed)
    (set_node d (set_ref_count_int (u32_pred (ref_count_int v)) v) s).
Proof.
  intros Hs Hv a w Ha Hw.
  assert (Hsl : slots (__trace (set_node d (set_ref_count_int
                  (u32_pred (ref_count_int v)) v) s)) a
                = slots (__trace s) a).
  { pose proof (slots_insert (__trace s) (N.to_nat d) v
                  (set_ref_count_int (u32_pred (ref_count_int v)) v) a Hv)
      as H.
    simpl in H. unfold set_node. simpl. lia. }
  rewrite Hsl. rewrite (node_set_node _ _ _ _ _ Hv) in Hw. unfold owed_add.
  destruct (decide (d = a)) as [->|Hne].
  - inversion Hw; subst w. simpl. rewrite decide_True by reflexivity.
    destruct (Hs a v Ha Hv) as [_ Heq].
    split; [apply u32_lt | ].
    rewrite Nat2N.inj_succ, <- N.add_1_r, u32_pred_owed. exact Heq.
  - rewrite decide_False by congruence. apply Hs; assumption.
Qed.

(** an increment of the count of [d] *)
Lemma balanced_inc owed s d v :
  balanced_but (owed_add d owed) s -> node s d = Some v ->
  balanced_but owed
    (set_node d (set_ref_count_int (u32_succ (ref_count_int v)) v) s).
Proof.
  intros Hs Hv a w Ha Hw.
  assert (Hsl : slots (__trace (set_node d (set_ref_count_int
                  (u32_succ (ref_count_int v)) v) s)) a
                = slots (__trace s) a).
  { pose proof (slots_insert (__trace s) (N.to_nat d) v
                  (set_ref_count_int (u32_succ (ref_count_int v)) v) a Hv)
      as H.
    simpl in H. unfold set_node. simpl. lia. }
  rewrite Hsl. rewrite (node_set_node _ _ _ _ _ Hv) in Hw.
  destruct (decide (d = a)) as [->|Hne].
  - inversion Hw; subst w. simpl.
    destruct (Hs a v Ha Hv) as [_ Heq]. unfold owed_add in Heq.
    rewrite decide_True in Heq by reflexivity.
    split; [apply u32_lt | ].
    rewrite u32_succ_owed. rewrite Nat2N.inj_succ, <- N.add_1_r in Heq.
    exact Heq.
  - specialize (Hs a w Ha Hw). unfold owed_add in Hs.
    rewrite decide_False in Hs by congruence. exact Hs.
Qed.

(** the slot [i] of node [idx], which holds [d], is cleared *)
Lemma balanced_clear_slot owed s idx v i d :
  balanced_but (owed_add d owed) s -> node s idx = Some v ->
  arr_get (dep v) i = Some d ->
  balanced_but owed (set_node idx (set_dep (arr_set (dep v) i 0) v) s).
Proof.
  intros Hs Hv Hi a w Ha Hw.
  pose proof (slots_insert (__trace s) (N.to_nat idx) v
                (set_dep (arr_set (dep v) i 0) v) a Hv) as Hsl.
  simpl in Hsl. pose proof (occ_arr_set _ _ _ a Hi Ha) as Hocc.
  assert (Hw0 : exists w0, node s a = Some w0 /\
                  ref_count_int w = ref_count_int w0).
  { rewrite (node_set_node _ _ _ _ _ Hv) in Hw.
    destruct (decide (idx = a)) as [->|Hne]; [ | eauto].
    inversion Hw; subst w. eauto. }
  destruct Hw0 as (w0 & Hw0 & Hint). rewrite Hint.
  destruct (Hs a w0 Ha Hw0) as [Hlt Heq]. split; [exact Hlt | ].
  unfold owed_add in Heq. unfold set_node. simpl.
  destruct (decide (a = d)) as [->|Hne].
  - apply u32_cancel. rewrite Nat2N.inj_succ, <- N.add_1_r in Heq.
    rewrite <- N.add_assoc, Heq. f_equal. lia.
  - rewrite Heq. f_equal. lia.
Qed.

(** *** Rules for triples whose exception clause is arbitrary *)

Lemma triple_size_bind {A} (P : State -> Prop) (k : N -> M A) Q E :
  (forall n, triple (fun s => P s /\ n = N.of_nat (length (__trace s)))
               (k n) Q E) ->
  triple P (bind trace_size k) Q E.
Proof. intros Hk s Hs. unfold bind, trace_size. apply Hk. auto. Qed.

Lemma triple_defined_bind {A C} (P : State -> Prop) (o : option A)
    (k : A -> M C) Q E :
  (forall a, o = Some a -> triple P (k a) Q E) ->
  triple P (bind (defined o) k) Q E.
Proof.
  intros Hk s Hs. unfold bind. destruct o as [a|]; simpl; [ | exact I].
  apply (Hk a eq_refl). exact Hs.
Qed.

Lemma triple_assert_bind `{B : Build} {A} (P : State -> Prop) c
    (k : unit -> M A) Q E :
  triple P (k tt) Q E -> triple P (bind (assert_ c) k) Q E.
Proof.
  intros Hk s Hs. unfold bind, assert_.
  destruct c; simpl; [apply Hk; exact Hs | ].
  destruct NDEBUG; simpl; [apply Hk; exact Hs | exact I].
Qed.

Lemma triple_when (P : State -> Prop) b c (Q : unit -> State -> Prop) E :
  (b = true -> triple P c Q E) -> (forall s, P s -> Q tt s) ->
  triple P (when b c) Q E.
Proof.
  intros Hc Hp. destruct b; simpl; [auto | ]. apply triple_ret. exact Hp.
Qed.

Lemma triple_for_each {A} (P : State -> Prop) (l : list A) body E :
  (forall x, x ∈ l -> triple P (body x) (fun _ => P) E) ->
  triple P (for_each l body) (fun _ => P) E.
Proof.
  induction l as [|x l IH]; intros Hb; simpl.
  - apply triple_ret. auto.
  - eapply triple_bind; [apply Hb; left | ].
    intros ?. apply IH. intros y Hy. apply Hb. right. exact Hy.
Qed.

Lemma triple_update (P : State -> Prop) index f
    (Q : unit -> State -> Prop) E :
  (forall s v, P s -> node s index = Some v ->
     Q tt (set_node index (f v) s)) ->
  triple P (update index f) Q E.
Proof.
  intros H s Hs. rewrite update_unfold.
  destruct (node s index) as [v|] eqn:Hv; [ | exact I]. apply H; auto.
Qed.

Lemma triple_false_pre {A} (P : State -> Prop) (c : M A) Q E :
  (forall s, ~ P s) -> triple P c Q E.
Proof. intros H s Hs. destruct (H s Hs). Qed.

Lemma nonempty_set_node s j v :
  __trace s <> [] -> __trace (set_node j v s) <> [].
Proof.
  unfold set_node. simpl. intros H Heq. apply H.
  apply (f_equal length) in Heq. rewrite length_insert in Heq.
  destruct (__trace s); [reflexivity | discriminate].
Qed.

Lemma releasing_set owed owed' F s j v v' :
  releasing owed F s -> node s j = Some v ->
  (forall d, d ∈ array3_to_list (dep v') ->
     d ∈ array3_to_list (dep v) \/ d = 0) ->
  balanced_but owed' (set_node j v' s) -> F (set_node j v' s) ->
  releasing owed' F (set_node j v' s).
Proof.
  intros (Hac & _ & Hne & _) Hv Hd Hb HF.
  split; [eapply acyclic_set_node; eauto | ].
  split; [exact Hb | ]. split; [apply nonempty_set_node; exact Hne | exact HF].
Qed.

Section Cascade.
Context {B : Build}.

Lemma rel_dec_ref_int_with var_free d owed F :
  (ENOKI_CUDA_REG_RESERVED <= d -> above d F) ->
  (ENOKI_CUDA_REG_RESERVED <= d -> forall owed' F', above d F' ->
     triple (releasing owed' F') (var_free d)
       (fun _ => releasing owed' F') (fun _ => False)) ->
  triple (releasing owed F) (dec_ref_int_with var_free d)
    (fun _ => releasing (owed_add d owed) F) (fun _ => False).
Proof.
  intros HF Hfree. unfold dec_ref_int_with.
  destruct (N.ltb_spec d ENOKI_CUDA_REG_RESERVED) as [Hres|Hres].
  { apply triple_ret. intros s (H1 & H2 & H3 & H4).
    split; [exact H1 | ]. split; [ | auto].
    apply balanced_but_reserved; assumption. }
  specialize (HF Hres). specialize (Hfree Hres).
  apply triple_size_bind. intros n.
  destruct (n =? 0) eqn:Hn.
  { apply triple_false_pre. intros s [(_ & _ & Hne & _) Hlen].
    apply N.eqb_eq in Hn. apply Hne.
    destruct (__trace s); [reflexivity | simpl in Hlen; lia]. }
  apply triple_assert_bind.
  eapply triple_bind with (Q' := fun _ => releasing (owed_add d owed) F).
  - apply triple_update. intros s v [Hs _] Hv.
    eapply releasing_set; eauto.
    + apply balanced_dec; [apply Hs | exact Hv].
    + apply HF; [lia | apply Hs].
  - intros ?. apply triple_at_bind. intros v.
    apply triple_when.
    + intros _. eapply triple_pre; [apply Hfree; exact HF | ].
      intros s [Hs _]. exact Hs.
    + intros s [Hs _]. exact Hs.
Qed.

(** The body of the loops of [cuda_var_free] and of [collapse_var]: the
    count of the dependency in slot [i] goes down, and the slot is
    cleared. *)
Lemma rel_drop_slot var_free x i owed F :
  above x F ->
  (forall d owed' F', d < x -> above d F' ->
     triple (releasing owed' F') (var_free d)
       (fun _ => releasing owed' F') (fun _ => False)) ->
  triple (releasing owed F)
    (let* v := at_ x in
     let* d := defined (arr_get (dep v) i) in
     let* _ := dec_ref_int_with var_free d in
     update x (fun v => set_dep (arr_set (dep v) i 0) v))
    (fun _ => releasing owed F) (fun _ => False).
Proof.
  intros HF Hfree.
  apply triple_at_bind. intros v.
  apply triple_defined_bind. intros d Hd.
  assert (Hin : d ∈ array3_to_list (dep v)).
  { destruct (dep v) as [[d0 d1] d2]. destruct_slot i; simpl in Hd;
      inversion Hd; subst; simpl; rewrite !elem_of_cons; auto. }
  destruct (decide (ENOKI_CUDA_REG_RESERVED <= d /\ x <= d)) as [[Hres Hge]|Hok].
  { apply triple_false_pre. intros s [(Hac & _) Hv].
    pose proof (Hac _ _ _ Hv Hin Hres). lia. }
  eapply triple_bind with
    (Q' := fun _ s => releasing (owed_add d owed) F s /\ node s x = Some v).
  - eapply triple_conseq.
    + apply (rel_dec_ref_int_with var_free d owed
               (fun s => F s /\ node s x = Some v)).
      * intros Hres s j v' Hj [H1 H2].
        split; [apply HF; [lia | exact H1] | ].
        rewrite node_set_node_ne by lia. exact H2.
      * intros Hres owed' F' HF'. apply Hfree; [lia | exact HF'].
    + intros s [(H1 & H2 & H3 & H4) Hv].
      exact (conj H1 (conj H2 (conj H3 (conj H4 Hv)))).
    + intros ? s (H1 & H2 & H3 & H4 & Hv).
      exact (conj (conj H1 (conj H2 (conj H3 H4))) Hv).
    + auto.
  - intros ?. apply triple_update. intros s v0 [Hs Hv] Hv0.
    rewrite Hv in Hv0. inversion Hv0; subst v0.
    eapply releasing_set; eauto.
    + intros d0. apply arr_set_elem.
    + eapply balanced_clear_slot; [apply Hs | exact Hv | exact Hd].
    + apply HF; [lia | apply Hs].
Qed.

Lemma rel_var_free fuel x owed F :
  above x F ->
  triple (releasing owed F) (cuda_var_free fuel x)
    (fun _ => releasing owed F) (fun _ => False).
Proof.
  revert x owed F.
  induction fuel as [|fuel IH]; intros x owed F HF; cbn [cuda_var_free].
  - intros s _. exact I.
  - apply triple_at_bind. intros v0.
    eapply triple_bind with (Q' := fun _ => releasing owed F).
    + eapply triple_pre; [ | intros s [Hs _]; exact Hs].
      apply triple_for_each. intros i _.
      apply rel_drop_slot; [exact HF | ].
      intros d owed' F' _ HF'. apply IH. exact HF'.
    + intros ?. apply triple_at_bind. intros v.
      eapply triple_bind with (Q' := fun _ => releasing owed F).
      * destruct (free v); simpl; apply triple_ret; intros s [Hs _]; exact Hs.
      * intros ?. apply triple_update. intros s v1 Hs Hv1.
        eapply releasing_set; eauto.
        -- eapply balanced_other; [apply Hs | exact Hv1 | | ]; reflexivity.
        -- apply HF; [lia | apply Hs].
Qed.

Lemma sound_releasing s :
  sound s -> __trace s <> [] ->
  releasing (fun _ => 0%nat) (fun _ => True) s.
Proof. intros [H1 H2] H3. exact (conj H1 (conj H2 (conj H3 I))). Qed.

Lemma above_True x : above x (fun _ => True).
Proof. intros s j v' _ _. exact I. Qed.

Lemma node_nonempty s i v : node s i = Some v -> __trace s <> [].
Proof.
  unfold node. intros H Heq. rewrite Heq, lookup_nil in H. discriminate.
Qed.

(** from a release to the invariant between two calls *)
Lemma releasing_keeps {A} (c : M A) :
  triple (releasing (fun _ => 0%nat) (fun _ => True)) c
    (fun _ => releasing (fun _ => 0%nat) (fun _ => True)) (fun _ => False) ->
  triple (fun s => sound s /\ __trace s <> []) c (fun _ => sound) sound.
Proof.
  intros H. eapply triple_conseq; [exact H | | | ].
  - intros s [Hs Hne]. apply sound_releasing; assumption.
  - intros ? s (H1 & H2 & _). split; assumption.
  - intros s [].
Qed.

Lemma sound_var_free fuel x : keeps sound (cuda_var_free fuel x).
Proof.
  intros s Hs. destruct (__trace s) as [|w tr] eqn:Ht.
  - destruct fuel; simpl; [exact I | ].
    unfold bind, at_. rewrite Ht, lookup_nil. exact I.
  - apply (releasing_keeps _ (rel_var_free fuel x _ _ (above_True x))).
    split; [exact Hs | ]. rewrite Ht. discriminate.
Qed.

Lemma sound_update index f :
  (forall v, ref_count_int (f v) = ref_count_int v /\ dep (f v) = dep v) ->
  keeps sound (update index f).
Proof.
  intros Hf. apply keeps_update. intros s v [H1 H2] Hv.
  destruct (Hf v) as [Hi Hd]. split.
  - eapply acyclic_set_node; eauto. intros d. rewrite Hd. auto.
  - eapply balanced_other; eauto.
Qed.

Lemma sound_collapse_var fuel idx : keeps sound (collapse_var fuel idx).
Proof.
  unfold collapse_var. apply triple_at_bind. intros v.
  apply triple_when; [ | intros s [Hs _]; exact Hs].
  intros _. eapply triple_pre.
  - apply releasing_keeps. apply triple_for_each. intros j _.
    apply (rel_drop_slot (cuda_var_free fuel) idx j); [apply above_True | ].
    intros d owed' F' _ HF'. apply rel_var_free. exact HF'.
  - intros s [Hs Hv]. split; [exact Hs | ]. eapply node_nonempty; eauto.
Qed.

Lemma sound_dec_ref_ext fuel index : keeps sound (cuda_dec_ref_ext fuel index).
Proof.
  unfold cuda_dec_ref_ext. repeat keeps_step.
  - apply sound_update. intros v. split; reflexivity.
  - apply keeps_modify. intros s Hs. exact Hs.
  - apply sound_var_free.
Qed.

Lemma sound_inc_ref_ext index : keeps sound (cuda_inc_ref_ext index).
Proof.
  unfold cuda_inc_ref_ext. repeat keeps_step.
  apply sound_update. intros v. split; reflexivity.
Qed.

(** an increment that was owed *)
Lemma owed_inc_ref_int a owed (E : State -> Prop) :
  triple (fun s => acyclic_state s /\ balanced_but (owed_add a owed) s)
    (cuda_inc_ref_int a)
    (fun _ s => acyclic_state s /\ balanced_but owed s) E.
Proof.
  unfold cuda_inc_ref_int.
  destruct (N.ltb_spec a ENOKI_CUDA_REG_RESERVED) as [Hres|Hres].
  { apply triple_ret. intros s [H1 H2]. split; [exact H1 | ].
    apply (balanced_but_reserved a); assumption. }
  apply triple_size_bind. intros n. apply triple_assert_bind.
  apply triple_update. intros s v [[H1 H2] _] Hv. split.
  - eapply acyclic_set_node; eauto.
  - apply balanced_inc; assumption.
Qed.

Lemma sound_eval fuel : keeps sound (cuda_eval fuel).
Proof.
  unfold cuda_eval. repeat keeps_step.
  - apply sound_update. intros v. split; reflexivity.
  - apply keeps_modify. intros s Hs. exact Hs.
  - apply keeps_modify. intros s Hs. exact Hs.
  - unfold eval_bucket. repeat keeps_step.
    + unfold cuda_jit_assemble. repeat keeps_step.
      unfold assemble_var. destruct acc as [oss ptrs].
      repeat keeps_step; [apply keeps_pure, pure_emit_load | ].
      unfold emit_compute.
      repeat keeps_step;
        lazymatch goal with
        | |- keeps _ (cuda_render_cmd _ _ _ _) =>
            apply keeps_pure, pure_cuda_render_cmd
        | |- keeps _ (cuda_dec_ref_ext _ _) => apply sound_dec_ref_ext
        | |- keeps _ (cuda_var_size _) => apply keeps_pure, pure_cuda_var_size
        | |- keeps _ (cudaMalloc _) => intros s Hs; exact Hs
        | |- keeps _ (emit_store _ _ _ _ _) =>
            apply keeps_pure, pure_emit_store
        | |- keeps _ (update _ _) =>
            apply sound_update; intros v; split; reflexivity
        end.
    + intros s Hs. exact Hs.
    + apply sound_collapse_var.
Qed.

End Cascade.

(** *** New nodes *)

Lemma u32_add_both x y k : u32 x = u32 y -> u32 (x + k) = u32 (y + k).
Proof.
  unfold u32. intros H.
  rewrite <- (N.Div0.add_mod_idemp_l x), <- (N.Div0.add_mod_idemp_l y), H.
  reflexivity.
Qed.

Lemma slots_beyond tr a :
  acyclic tr -> ENOKI_CUDA_REG_RESERVED <= a ->
  (length tr <= N.to_nat a)%nat -> slots tr a = 0%nat.
Proof.
  intros Hac Ha Hlen. unfold slots.
  assert (H : forall i v, tr !! i = Some v -> occ (dep v) a = 0%nat).
  { intros i v Hv. unfold occ. apply count_occ_not_In. intros Hin.
    apply list_elem_of_In in Hin. pose proof (Hac i v a Hv Hin Ha).
    apply lookup_lt_Some in Hv. lia. }
  clear Hac Hlen. induction tr as [|w tr IH]; [reflexivity | ].
  simpl. rewrite (H 0%nat w eq_refl). apply IH.
  intros i v Hv. apply (H (S i) v Hv).
Qed.

(** After [emplace_back], the counts of the operands of the new node are
    owed. *)
Lemma balanced_emplace s new :
  sound s -> ref_count_int new = 0 ->
  balanced_but (occ (dep new)) (with_trace (fun tr => tr ++ [new]) s).
Proof.
  intros [Hac Hb] Hnew a w Ha Hw. simpl. rewrite slots_app.
  apply node_emplace in Hw as [Hw|[Hlen ->]].
  - destruct (Hb a w Ha Hw) as [Hlt Heq]. split; [exact Hlt | ].
    rewrite N.add_0_r in Heq. rewrite Nat2N.inj_add.
    apply u32_add_both. exact Heq.
  - rewrite Hnew. split; [reflexivity | ].
    rewrite (slots_beyond _ a Hac Ha) by lia. reflexivity.
Qed.

Lemma occ_owed a1 a2 a3 a :
  occ (a1, a2, a3) a =
  owed_add a1 (owed_add a2 (owed_add a3 (fun _ => 0%nat))) a.
Proof.
  unfold occ, owed_add. cbn [array3_to_list count_occ].
  repeat match goal with
  | |- context [N.eq_dec ?x ?y] => destruct (N.eq_dec x y)
  | |- context [decide (?x = ?y)] => destruct (decide (x = y))
  end; subst; congruence.
Qed.

Section Calls.
Context {B : Build}.

(** The common end of the appends and of the registration: the counts of
    the three slots are owed; the increments of the operands, of which
    [k] stands for the rest, meet them. *)
Lemma sound_emplace new a1 a2 a3 :
  ref_count_int new = 0 -> dep new = (a1, a2, a3) ->
  triple (fun s => sound s /\
            forall d, d ∈ [a1; a2; a3] -> ENOKI_CUDA_REG_RESERVED <= d ->
              (N.to_nat d < length (__trace s))%nat)
    (emplace_back new)
    (fun _ s => acyclic_state s /\
       balanced_but
         (owed_add a1 (owed_add a2 (owed_add a3 (fun _ => 0%nat)))) s)
    sound.
Proof.
  intros Hi Hd. apply triple_modify. intros s [Hs Hargs]. split.
  - apply acyclic_emplace; [apply Hs | ]. rewrite Hd. exact Hargs.
  - eapply balanced_but_ext; [ | apply balanced_emplace; eassumption].
    intros a _. rewrite Hd. apply occ_owed.
Qed.

Lemma owed_reserved_0 owed s :
  balanced_but (owed_add 0 owed) s -> balanced_but owed s.
Proof. apply balanced_but_reserved. reflexivity. Qed.

Ltac so_leaf :=
  lazymatch goal with
  | |- keeps _ (update _ _) =>
      apply sound_update; intros ?; split; reflexivity
  | |- keeps _ (modify (with_active _)) =>
      apply keeps_modify; intros ? ?; assumption
  | |- keeps _ (modify (with_dirty _)) =>
      apply keeps_modify; intros ? ?; assumption
  | |- keeps _ (cuda_inc_ref_ext _) => apply sound_inc_ref_ext
  | |- keeps _ (cuda_dec_ref_ext _ _) => apply sound_dec_ref_ext
  | |- keeps _ (cuda_var_free _ _) => apply sound_var_free
  | |- keeps _ (cuda_eval _) => apply sound_eval
  end.

(** the increments of the operands, one after the other *)
Ltac so_inc :=
  eapply triple_bind; [apply owed_inc_ref_int | intros ?].

Lemma sound_append0 t c : keeps sound (cuda_trace_append0 t c).
Proof.
  unfold cuda_trace_append0. keeps_step; [keeps_step | ].
  eapply triple_bind.
  - eapply triple_pre; [apply (sound_emplace _ 0 0 0); reflexivity | ].
    intros s Hs. split; [exact Hs | ]. intros d Hd Hres.
    repeat (apply elem_of_cons in Hd as [->|Hd];
            [unfold ENOKI_CUDA_REG_RESERVED in Hres; lia | ]).
    apply elem_of_nil in Hd. contradiction.
  - intros ?. eapply triple_pre.
    + refine (_ : keeps sound _). repeat keeps_step; so_leaf.
    + intros s [H1 H2]. split; [exact H1 | ].
      do 3 apply owed_reserved_0 in H2. exact H2.
Qed.

(** the operands of an append are nodes of the trace *)
Ltac so_args :=
  intros s Hs; split; [tauto | ]; intros d Hd Hres;
  repeat (apply elem_of_cons in Hd as [->|Hd];
          [first [ eapply node_lt; intuition eassumption
                 | unfold ENOKI_CUDA_REG_RESERVED in Hres; lia ] | ]);
  apply elem_of_nil in Hd; contradiction.

Lemma sound_append1 fuel t c a1 :
  keeps sound (cuda_trace_append1 fuel t c a1).
Proof.
  unfold cuda_trace_append1.
  do 4 (keeps_step; [repeat keeps_step; try so_leaf | ]).
  keeps_step; [keeps_step | ].
  apply triple_at_bind; intros v1.
  eapply triple_bind.
  - eapply triple_pre; [apply (sound_emplace _ a1 0 0); reflexivity | so_args].
  - intros ?. so_inc. eapply triple_pre.
    + refine (_ : keeps sound _). repeat keeps_step; so_leaf.
    + intros s [H1 H2]. split; [exact H1 | ].
      do 2 apply owed_reserved_0 in H2. exact H2.
Qed.

Lemma sound_append2 fuel t c a1 a2 :
  keeps sound (cuda_trace_append2 fuel t c a1 a2).
Proof.
  unfold cuda_trace_append2.
  do 5 (keeps_step; [repeat keeps_step; try so_leaf | ]).
  keeps_step; [keeps_step | ].
  apply triple_at_bind; intros v1. apply triple_at_bind; intros v2.
  eapply triple_bind.
  - eapply triple_pre; [apply (sound_emplace _ a1 a2 0); reflexivity | so_args].
  - intros ?. so_inc. so_inc. eapply triple_pre.
    + refine (_ : keeps sound _). repeat keeps_step; so_leaf.
    + intros s [H1 H2]. split; [exact H1 | ].
      apply owed_reserved_0 in H2. exact H2.
Qed.

Lemma sound_append3 fuel t c a1 a2 a3 :
  keeps sound (cuda_trace_append3 fuel t c a1 a2 a3).
Proof.
  unfold cuda_trace_append3.
  do 5 (keeps_step; [repeat keeps_step; try so_leaf | ]).
  keeps_step; [keeps_step | ].
  apply triple_at_bind; intros v1. apply triple_at_bind; intros v2.
  apply triple_at_bind; intros v3.
  eapply triple_bind.
  - eapply triple_pre; [apply (sound_emplace _ a1 a2 a3); reflexivity | so_args].
  - intros ?. so_inc. so_inc. so_inc. eapply triple_pre.
    + refine (_ : keeps sound _). repeat keeps_step; so_leaf.
    + intros s [H1 H2]. split; assumption.
Qed.

Lemma sound_printf fuel fmt narg arg :
  keeps sound (cuda_trace_printf fuel fmt narg arg).
Proof.
  unfold cuda_trace_printf, cuda_var_mark_side_effect, arg_at.
  repeat keeps_step;
    lazymatch goal with
    | |- keeps _ (printf_block _ _ _) => apply keeps_pure, pure_printf_block
    | |- keeps _ (cuda_trace_append0 _ _) => apply sound_append0
    | |- keeps _ (cuda_trace_append1 _ _ _ _) => apply sound_append1
    | |- keeps _ (cuda_trace_append2 _ _ _ _ _) => apply sound_append2
    | |- keeps _ (cuda_trace_append3 _ _ _ _ _ _) => apply sound_append3
    | _ => so_leaf
    end.
Qed.

Lemma sound_init s :
  sound
    (with_active (fun _ => ∅)
      (with_trace (fun _ =>
         Variable_ Invalid :: Variable_ UInt64 ::
         replicate 8 (Variable_ UInt32)) s)).
Proof.
  split; [apply acyclic_init | ].
  intros a v Ha Hv. apply node_lt in Hv. simpl in Hv.
  unfold ENOKI_CUDA_REG_RESERVED in Ha. lia.
Qed.

Lemma sound_exec c :
  counts_by_library c = true ->
  triple (fun s => sound s /\ parent_exists c s) (exec c)
    (fun _ => sound) sound.
Proof.
  intros Hc.
  assert (Hw : keeps sound (exec c) ->
     triple (fun s => sound s /\ parent_exists c s) (exec c)
       (fun _ => sound) sound).
  { intros H. eapply triple_pre; [exact H | ]. intros s [Hs _]. exact Hs. }
  destruct c; try discriminate;
    lazymatch goal with
    | |- context [call_var_register] => clear Hw
    | _ => apply Hw
    end; simpl; unfold ignore.
  - apply keeps_modify. intros s _. apply sound_init.
  - apply keeps_modify. intros s _. split.
    + intros i v d Hv. simpl in Hv. rewrite lookup_nil in Hv. discriminate.
    + intros a v _ Hv. unfold node in Hv. simpl in Hv.
      rewrite lookup_nil in Hv. discriminate.
  - unfold cuda_var_set_comment. so_leaf.
  - unfold cuda_var_set_size. so_leaf.
  - unfold cuda_var_register.
    eapply triple_bind with (Q' := fun _ => sound).
    + eapply triple_bind with
        (Q' := fun _ s => sound s /\ parent_exists
                 (call_var_register t sz ptr parent dealloc) s).
      * intros s Hs. exact Hs.
      * intros n. eapply triple_bind.
        -- eapply triple_pre;
             [apply (sound_emplace _ parent 0 0); reflexivity | ].
           intros s [Hs Hp]. split; [exact Hs | ]. intros d Hd Hres.
           simpl in Hp.
           repeat (apply elem_of_cons in Hd as [->|Hd];
                   [unfold ENOKI_CUDA_REG_RESERVED in *; lia | ]).
           apply elem_of_nil in Hd. contradiction.
        -- intros ?.
           eapply triple_bind with
             (Q' := fun _ s => acyclic_state s /\
                      balanced_but (owed_add parent (fun _ => 0%nat)) s).
           ++ unfold cuda_inc_ref_ext.
              destruct (_ <? _).
              ** apply triple_ret. intros s [H1 H2]. split; [exact H1 | ].
                 eapply balanced_but_ext; [ | exact H2].
                 intros x Hx. unfold owed_add.
                 repeat destruct (decide _); subst; try reflexivity;
                   unfold ENOKI_CUDA_REG_RESERVED in Hx; lia.
              ** apply triple_size_bind. intros n0. apply triple_assert_bind.
                 apply triple_update. intros s v [[H1 H2] _] Hv. split.
                 --- eapply acyclic_set_node; eauto.
                 --- eapply balanced_other;
                       [ | exact Hv | reflexivity | reflexivity].
                     eapply balanced_but_ext; [ | exact H2].
                     intros x Hx. unfold owed_add.
                     repeat destruct (decide _); subst; try reflexivity;
                       unfold ENOKI_CUDA_REG_RESERVED in Hx; lia.
           ++ intros ?. so_inc. apply triple_ret. intros s Hs. exact Hs.
    + intros ?. apply keeps_pure, pure_ret.
  - so_leaf.
  - so_leaf.
  - so_leaf.
  - unfold cuda_var_mark_side_effect. repeat keeps_step; so_leaf.
  - unfold cuda_var_mark_dirty. repeat keeps_step; so_leaf.
  - repeat keeps_step. apply sound_append0.
  - repeat keeps_step. apply sound_append1.
  - repeat keeps_step. apply sound_append2.
  - repeat keeps_step. apply sound_append3.
  - apply sound_printf.
  - so_leaf.
  - apply keeps_modify. intros s Hs. exact Hs.
  - unfold cuda_fetch_element. repeat keeps_step; so_leaf.
  - unfold cuda_var_ptr. repeat keeps_step.
  - unfold cuda_var_size. repeat keeps_step.
  - repeat keeps_step. intros s Hs. exact Hs.
  - apply keeps_pure, pure_ret.
Qed.

Lemma run_calls_sound l s s' :
  sound s -> library_counts l = true -> parents_exist l s ->
  run_calls l s = Some s' -> sound s'.
Proof.
  revert s. induction l as [|c l IH]; intros s Hs Hl Hp; simpl.
  - intros H. inversion H; subst. exact Hs.
  - simpl in Hp, Hl. destruct Hp as [Hc Hp].
    apply andb_true_iff in Hl as [Hcl Hl].
    pose proof (sound_exec c Hcl s (conj Hs Hc)) as Hk.
    destruct (exec c s) as [a s1|msg s1|r]; simpl in *; try discriminate;
      apply IH; assumption.
Qed.

End Calls.

Lemma slots_bound tr a : (slots tr a <= 3 * length tr)%nat.
Proof.
  unfold slots. induction tr as [|w tr IH]; simpl; [lia | ].
  assert (H : (occ (dep w) a <= 3)%nat).
  { unfold occ. destruct (dep w) as [[d0 d1] d2].
    cbn [array3_to_list count_occ].
    repeat match goal with
    | |- context [N.eq_dec ?x ?y] => destruct (N.eq_dec x y)
    end; lia. }
  lia.
Qed.

Lemma slots_used tr i v a :
  tr !! i = Some v -> a ∈ array3_to_list (dep v) -> (1 <= slots tr a)%nat.
Proof.
  unfold slots. revert i. induction tr as [|w tr IH]; intros i Hv Ha.
  - rewrite lookup_nil in Hv. discriminate.
  - destruct i as [|i]; simpl in *.
    + inversion Hv; subst w.
      assert (H : (1 <= occ (dep v) a)%nat).
      { unfold occ. apply count_occ_In. apply list_elem_of_In. exact Ha. }
      lia.
    + specialize (IH i Hv Ha). lia.
Qed.

(** X24.  In every state that the exported functions produce from the
    initial one, when the calls leave the internal counts to the library
    (no direct [cuda_inc_ref_int] or [cuda_dec_ref_int]) and every
    registration names a reserved index or an existing node as its
    parent, the internal count of each node above the reserved indices
    is the number of dependency slots of the trace that hold its index,
    modulo 2^32.  So, in a trace of fewer than 2^32 / 3 nodes, a node
    that another node depends on is never collected. *)
Theorem X_internal_count_is_number_of_uses `{B : Build} l s :
  library_counts l = true -> parents_exist l state0 ->
  run_calls l state0 = Some s ->
  (forall a v, ENOKI_CUDA_REG_RESERVED <= a -> node s a = Some v ->
     ref_count_int v = u32 (N.of_nat (slots (__trace s) a))) /\
  (3 * N.of_nat (length (__trace s)) < 2 ^ 32 ->
   forall i v d, node s i = Some v -> d ∈ array3_to_list (dep v) ->
     ENOKI_CUDA_REG_RESERVED <= d ->
     exists w, node s d = Some w /\ is_collected w = false).
Proof.
  intros Hl Hp Hr.
  assert (Hs : sound s).
  { apply (run_calls_sound l state0 s); try assumption. split.
    - intros i v d Hv. simpl in Hv. rewrite lookup_nil in Hv. discriminate.
    - intros a v _ Hv. unfold node in Hv. simpl in Hv.
      rewrite lookup_nil in Hv. discriminate. }
  destruct Hs as [Hac Hb].
  assert (Hcount : forall a v, ENOKI_CUDA_REG_RESERVED <= a ->
            node s a = Some v ->
            ref_count_int v = u32 (N.of_nat (slots (__trace s) a))).
  { intros a v Ha Hv. destruct (Hb a v Ha Hv) as [Hlt Heq].
    rewrite N.add_0_r in Heq. rewrite <- Heq. symmetry.
    apply N.mod_small. exact Hlt. }
  split; [exact Hcount | ].
  intros Hlen i v d Hv Hd Hres.
  pose proof (Hac _ _ _ Hv Hd Hres) as Hlt.
  pose proof (node_lt _ _ _ Hv) as Hi.
  destruct (lookup_lt_is_Some_2 (__trace s) (N.to_nat d)) as [w Hw]; [lia | ].
  exists w. split; [exact Hw | ].
  pose proof (slots_used _ _ _ _ Hv Hd) as H1.
  pose proof (slots_bound (__trace s) d) as H3.
  unfold is_collected. rewrite (Hcount d w Hres Hw).
  unfold u32. rewrite N.mod_small by lia.
  assert (Hz : (N.of_nat (slots (__trace s) d) =? 0) = false)
    by (apply N.eqb_neq; lia).
  rewrite Hz. reflexivity.
Qed.

Lemma X_internal_count_is_number_of_uses_witness :
  @library_counts view_unused = true /\
  @parents_exist debug_build view_unused state0 /\
  @run_calls debug_build view_unused state0 = Some view_unused_state /\
  (forall a v, ENOKI_CUDA_REG_RESERVED <= a ->
     node view_unused_state a = Some v ->
     ref_count_int v = u32 (N.of_nat (slots (__trace view_unused_state) a))) /\
  (3 * N.of_nat (length (__trace view_unused_state)) < 2 ^ 32 ->
   forall i v d, node view_unused_state i = Some v ->
     d ∈ array3_to_list (dep v) -> ENOKI_CUDA_REG_RESERVED <= d ->
     exists w, node view_unused_state d = Some w /\ is_collected w = false).
Proof.
  assert (Hl : library_counts view_unused = true) by reflexivity.
  assert (Hp : @parents_exist debug_build view_unused state0).
  { vm_compute. repeat split; auto. }
  assert (Hr : @run_calls debug_build view_unused state0
               = Some view_unused_state) by (vm_compute; reflexivity).
  split; [exact Hl | ]. split; [exact Hp | ]. split; [exact Hr | ].
  exact (@X_internal_count_is_number_of_uses debug_build _ _ Hl Hp Hr).
Defined.

(** ** The traversal and the release come to an end *)

Lemma prio_total tr d i :
  i < 3 ->
  (forall k, k ∈ array3_to_list d -> ENOKI_CUDA_REG_RESERVED <= k ->
     is_Some (tr !! N.to_nat k)) ->
  is_Some (prio tr d i).
Proof.
  intros Hi Hd. unfold prio. destruct d as [[d0 d1] d2].
  assert (Hk : exists k, arr_get (d0, d1, d2) i = Some k /\
                 k ∈ array3_to_list (d0, d1, d2)).
  { destruct_slot i; simpl; try lia; eexists; (split; [reflexivity | ]);
      rewrite !elem_of_cons; auto. }
  destruct Hk as (k & -> & Hin). simpl.
  destruct (N.leb_spec ENOKI_CUDA_REG_RESERVED k) as [Hres|Hres]; [ | eauto].
  destruct (Hd k Hin Hres) as [v ->]. simpl. eauto.
Qed.

Lemma bind_is_Some {A C} (o : option A) (f : A -> option C) :
  is_Some o -> (forall x, is_Some (f x)) -> is_Some (o ≫= f).
Proof. intros [x ->] Hf. simpl. apply Hf. Qed.

Lemma reorder_deps_total tr d :
  (forall k, k ∈ array3_to_list d -> ENOKI_CUDA_REG_RESERVED <= k ->
     is_Some (tr !! N.to_nat k)) ->
  is_Some (reorder_deps tr d).
Proof.
  intros Hd. unfold reorder_deps.
  assert (Hp : forall d' i, i < 3 -> array3_to_list d' ≡ₚ array3_to_list d ->
            is_Some (prio tr d' i)).
  { intros d' i Hi Hperm. apply prio_total; [exact Hi | ].
    intros k Hk. apply Hd. rewrite <- Hperm. exact Hk. }
  destruct d as [[d0 d1] d2].
  apply bind_is_Some; [apply Hp; [lia | reflexivity] | intros p1].
  apply bind_is_Some; [apply Hp; [lia | reflexivity] | intros p2].
  cbv zeta.
  assert (He : array3_to_list
                 (if p1 <? p2 then swap01 (d0, d1, d2) else (d0, d1, d2))
               ≡ₚ array3_to_list (d0, d1, d2)).
  { destruct (p1 <? p2); simpl; solve_Permutation. }
  apply bind_is_Some; [apply Hp; [lia | exact He] | intros q0].
  apply bind_is_Some; [apply Hp; [lia | exact He] | intros q2].
  cbv zeta.
  assert (Hf : array3_to_list
                 (if q0 <? q2
                  then swap02 (if p1 <? p2 then swap01 (d0, d1, d2)
                               else (d0, d1, d2))
                  else (if p1 <? p2 then swap01 (d0, d1, d2)
                        else (d0, d1, d2)))
               ≡ₚ array3_to_list (d0, d1, d2)).
  { destruct (q0 <? q2), (p1 <? p2); simpl; solve_Permutation. }
  apply bind_is_Some; [apply Hp; [lia | exact Hf] | intros r0].
  apply bind_is_Some; [apply Hp; [lia | exact Hf] | intros r1].
  eauto.
Qed.

(** In a trace whose dependencies point backwards, a traversal from a
    node of the trace needs no more nested calls than the index of the
    node, and reads no node that does not exist. *)
Lemma sweep_recursive_total fuel tr vis sw idx :
  acyclic tr -> (N.to_nat idx < length tr)%nat -> (N.to_nat idx < fuel)%nat ->
  exists b', sweep_recursive fuel tr vis sw idx = inr b'.
Proof.
  intros Hac. revert vis sw idx.
  induction fuel as [|fuel IH]; intros vis sw idx Hlen Hfuel; [lia | ].
  simpl. destruct (decide (idx ∈ vis)); [eauto | ].
  destruct (lookup_lt_is_Some_2 tr (N.to_nat idx) Hlen) as [v Hv].
  rewrite Hv.
  assert (Hback : forall k, k ∈ array3_to_list (dep v) ->
            ENOKI_CUDA_REG_RESERVED <= k -> (N.to_nat k < N.to_nat idx)%nat).
  { intros k Hk Hres. exact (Hac _ _ _ Hv Hk Hres). }
  destruct (reorder_deps_total tr (dep v)) as [deps Hre].
  { intros k Hk Hres. apply lookup_lt_is_Some_2.
    pose proof (Hback k Hk Hres). lia. }
  rewrite Hre. apply reorder_deps_perm in Hre.
  assert (Hfold : forall l b0,
     (forall k, k ∈ l -> ENOKI_CUDA_REG_RESERVED <= k ->
        (N.to_nat k < N.to_nat idx)%nat) ->
     exists r, fold_left (fun acc k =>
        match acc with
        | inl e => inl e
        | inr (visited, sweep) =>
            if ENOKI_CUDA_REG_RESERVED <=? k
            then sweep_recursive fuel tr visited sweep k
            else inr (visited, sweep)
        end) l (inr b0) = inr r).
  { induction l as [|k l IHl]; intros b0 Hl; simpl; [eauto | ].
    destruct b0 as [v0 s0].
    destruct (N.leb_spec ENOKI_CUDA_REG_RESERVED k) as [Hres|Hres].
    - destruct (IH v0 s0 k) as [b2 Hb2].
      + assert (Hk : k ∈ k :: l) by left.
        pose proof (Hl k Hk Hres). lia.
      + assert (Hk : k ∈ k :: l) by left.
        pose proof (Hl k Hk Hres). lia.
      + rewrite Hb2. apply IHl. intros k' Hk'. apply Hl. right. exact Hk'.
    - apply IHl. intros k' Hk'. apply Hl. right. exact Hk'. }
  destruct (Hfold (array3_to_list deps) ({[idx]} ∪ vis, sw)) as [[v2 s2] Hr].
  { intros k Hk. apply Hback. rewrite <- Hre. exact Hk. }
  rewrite Hr. eauto.
Qed.

Lemma build_sweeps_total fuel tr active :
  acyclic tr -> (length tr <= fuel)%nat ->
  (forall idx, idx ∈ active -> (N.to_nat idx < length tr)%nat) ->
  exists sweeps, build_sweeps fuel tr active = inr sweeps.
Proof.
  intros Hac Hfuel. unfold build_sweeps. generalize (∅ : gmap N (gset N * list N)).
  induction active as [|idx l IH]; intros m0 Hl; simpl; [eauto | ].
  assert (Hidx : (N.to_nat idx < length tr)%nat) by (apply Hl; left).
  destruct (lookup_lt_is_Some_2 tr (N.to_nat idx) Hidx) as [v Hv].
  rewrite Hv.
  destruct (sweep_recursive_total fuel tr (default (∅, []) (m0 !! size v)).1
              (default (∅, []) (m0 !! size v)).2 idx Hac Hidx) as [r Hr];
    [lia | ].
  simpl. rewrite Hr. apply IH. intros i Hi. apply Hl. right. exact Hi.
Qed.

(** X25.  In a trace whose dependencies point to earlier nodes and whose
    active nodes exist, the first loop of [cuda_eval] comes to an end: the
    traversals read no node outside the trace, and their nesting is
    bounded by the number of nodes. *)
Theorem X_scheduling_succeeds fuel s :
  acyclic_state s ->
  (forall idx, idx ∈ __active s -> is_Some (node s idx)) ->
  (length (__trace s) <= fuel)%nat ->
  exists ls, schedule_of fuel s = Some ls.
Proof.
  intros Hac Hact Hfuel. unfold schedule_of.
  destruct (build_sweeps_total fuel (__trace s) (elements (__active s)) Hac
              Hfuel) as [sweeps ->]; [ | eauto].
  intros idx Hidx. apply elem_of_elements in Hidx.
  destruct (Hact idx Hidx) as [v Hv]. eapply node_lt; eauto.
Qed.

Lemma X_scheduling_succeeds_witness :
  acyclic_state three_operands_state /\
  exists ls, schedule_of 17 three_operands_state = Some ls.
Proof.
  assert (Hac : acyclic_state three_operands_state).
  { apply acyclicb_spec. vm_compute. reflexivity. }
  split; [exact Hac | ].
  apply (X_scheduling_succeeds 17 three_operands_state Hac).
  - intros idx Hidx. apply elem_of_elements in Hidx.
    assert (He : elements (__active three_operands_state) = [16])
      by (vm_compute; reflexivity).
    rewrite He in Hidx. apply list_elem_of_singleton in Hidx as ->.
    vm_compute. eauto.
  - vm_compute. lia.
Defined.

Lemma length_set_node_trace i v s :
  length (__trace (set_node i v s)) = length (__trace s).
Proof. unfold set_node. simpl. apply length_insert. Qed.

Section Ends.
Context {B : Build}.

Lemma dec_total var_free d s :
  acyclic_state s ->
  (ENOKI_CUDA_REG_RESERVED <= d -> (N.to_nat d < length (__trace s))%nat) ->
  (ENOKI_CUDA_REG_RESERVED <= d -> forall s1,
     acyclic_state s1 -> length (__trace s1) = length (__trace s) ->
     exists s2, var_free d s1 = Ok tt s2 /\ acyclic_state s2 /\
                length (__trace s2) = length (__trace s)) ->
  exists s', dec_ref_int_with var_free d s = Ok tt s' /\ acyclic_state s' /\
             length (__trace s') = length (__trace s).
Proof.
  intros Hac Hlen Hfree. unfold dec_ref_int_with.
  destruct (N.ltb_spec d ENOKI_CUDA_REG_RESERVED) as [Hres|Hres]; [eauto | ].
  specialize (Hlen Hres). specialize (Hfree Hres).
  destruct (lookup_lt_is_Some_2 _ _ Hlen) as [v Hv].
  change (node s d = Some v) in Hv.
  destruct (in_range s d v Hv) as [Hne Hin].
  unfold bind at 1, trace_size. rewrite Hne.
  rewrite Hin, (bind_eq _ _ _ _ _ (assert_true _)).
  unfold bind at 1. rewrite update_unfold, Hv.
  set (v1 := set_ref_count_int _ v). set (s1 := set_node d v1 s).
  assert (Hv1 : node s1 d = Some v1)
    by (apply (node_set_node_eq s d v1 v); exact Hv).
  assert (Hac1 : acyclic_state s1).
  { eapply acyclic_set_node; eauto. }
  rewrite (bind_eq _ _ _ _ _ (at_eq _ _ _ Hv1)).
  destruct (is_collected v1); simpl.
  - apply Hfree; [exact Hac1 | apply length_set_node_trace].
  - exists s1. split; [reflexivity | ]. split; [exact Hac1 | ].
    apply length_set_node_trace.
Qed.

Lemma slot_total var_free idx i s :
  i < 3 -> acyclic_state s -> (N.to_nat idx < length (__trace s))%nat ->
  (forall d s1, (N.to_nat d < N.to_nat idx)%nat ->
     acyclic_state s1 -> length (__trace s1) = length (__trace s) ->
     exists s2, var_free d s1 = Ok tt s2 /\ acyclic_state s2 /\
                length (__trace s2) = length (__trace s)) ->
  exists s',
    (let* v := at_ idx in
     let* d := defined (arr_get (dep v) i) in
     let* _ := dec_ref_int_with var_free d in
     update idx (fun v => set_dep (arr_set (dep v) i 0) v)) s = Ok tt s' /\
    acyclic_state s' /\ length (__trace s') = length (__trace s).
Proof.
  intros Hi Hac Hlen Hfree.
  destruct (lookup_lt_is_Some_2 _ _ Hlen) as [v Hv].
  rewrite (bind_eq _ _ _ _ _ (at_eq _ _ _ Hv)).
  assert (Hd : exists d, arr_get (dep v) i = Some d /\
                 d ∈ array3_to_list (dep v)).
  { destruct (dep v) as [[d0 d1] d2].
    destruct_slot i; simpl; try lia; eexists; (split; [reflexivity | ]);
      rewrite !elem_of_cons; auto. }
  destruct Hd as (d & Hd & Hin). rewrite Hd.
  unfold bind at 1. simpl.
  assert (Hback : ENOKI_CUDA_REG_RESERVED <= d ->
            (N.to_nat d < N.to_nat idx)%nat).
  { intros Hres. exact (Hac _ _ _ Hv Hin Hres). }
  destruct (dec_total var_free d s Hac) as (s1 & Hdec & Hac1 & Hlen1).
  { intros Hres. specialize (Hback Hres). lia. }
  { intros Hres s1 Hs1 Hl1. apply Hfree; auto. }
  rewrite (bind_eq _ _ _ _ _ Hdec). rewrite update_unfold.
  destruct (lookup_lt_is_Some_2 (__trace s1) (N.to_nat idx)) as [w Hw];
    [lia | ].
  unfold node. rewrite Hw. eexists. split; [reflexivity | ]. split.
  - eapply acyclic_set_node; eauto. intros d0. apply arr_set_elem.
  - rewrite length_set_node_trace. exact Hlen1.
Qed.

(** In a trace whose dependencies point backwards, the release of a node
    of the trace returns: it needs no more nested calls than the index
    of the node, fails no assertion and reads no node that does not
    exist. *)
Lemma var_free_total fuel idx s :
  acyclic_state s -> (N.to_nat idx < length (__trace s))%nat ->
  (N.to_nat idx < fuel)%nat ->
  exists s', cuda_var_free fuel idx s = Ok tt s' /\ acyclic_state s' /\
             length (__trace s') = length (__trace s).
Proof.
  revert idx s. induction fuel as [|fuel IH]; intros idx s Hac Hlen Hfuel;
    [lia | ].
  cbn [cuda_var_free].
  destruct (lookup_lt_is_Some_2 _ _ Hlen) as [v0 Hv0].
  rewrite (bind_eq _ _ _ _ _ (at_eq _ _ _ Hv0)).
  assert (Hslot : forall i s0, i < 3 -> acyclic_state s0 ->
            length (__trace s0) = length (__trace s) ->
            exists s',
              (let* v := at_ idx in
               let* d := defined (arr_get (dep v) i) in
               let* _ := dec_ref_int_with (cuda_var_free fuel) d in
               update idx (fun v => set_dep (arr_set (dep v) i 0) v)) s0
                = Ok tt s' /\
              acyclic_state s' /\ length (__trace s') = length (__trace s)).
  { intros i s0 Hi Hac0 Hlen0.
    destruct (slot_total (cuda_var_free fuel) idx i s0 Hi Hac0)
      as (s' & H1 & H2 & H3); [lia | | ].
    - intros d s1 Hd Hac1 Hlen1.
      destruct (IH d s1 Hac1) as (s2 & H1 & H2 & H3); [lia | lia | ].
      exists s2. split; [exact H1 | ]. split; [exact H2 | lia].
    - exists s'. split; [exact H1 | ]. split; [exact H2 | lia]. }
  destruct (Hslot 0 s) as (s1 & H1 & Hac1 & Hl1); [lia | exact Hac | lia | ].
  destruct (Hslot 1 s1) as (s2 & H2 & Hac2 & Hl2); [lia | exact Hac1 | lia | ].
  destruct (Hslot 2 s2) as (s3 & H3 & Hac3 & Hl3); [lia | exact Hac2 | lia | ].
  assert (Hloop : for_each [0; 1; 2] (fun i =>
            let* v := at_ idx in
            let* d := defined (arr_get (dep v) i) in
            let* _ := dec_ref_int_with (cuda_var_free fuel) d in
            update idx (fun v => set_dep (arr_set (dep v) i 0) v)) s
          = Ok tt s3).
  { cbn [for_each]. rewrite (bind_eq _ _ _ _ _ H1), (bind_eq _ _ _ _ _ H2),
      (bind_eq _ _ _ _ _ H3). reflexivity. }
  rewrite (bind_eq _ _ _ _ _ Hloop).
  destruct (lookup_lt_is_Some_2 (__trace s3) (N.to_nat idx)) as [v Hv];
    [lia | ].
  change (node s3 idx = Some v) in Hv.
  rewrite (bind_eq _ _ _ _ _ (at_eq _ _ _ Hv)).
  assert (Hfree : when (free v) (cudaFree (data v)) s3 = Ok tt s3)
    by (destruct (free v); reflexivity).
  rewrite (bind_eq _ _ _ _ _ Hfree), update_unfold, Hv.
  eexists. split; [reflexivity | ]. split.
  - eapply acyclic_set_node; eauto.
  - rewrite length_set_node_trace. exact Hl3.
Qed.

End Ends.

(** X26.  In a trace whose dependencies point to earlier nodes, the
    release of a handle of a node whose external count is not 0 returns,
    and so does the internal decrement of a node of the trace, whatever
    they collect: no assertion fails, no node outside the trace is read,
    and the nesting of the calls is bounded by the number of nodes. *)
Theorem X_release_returns `{B : Build} fuel index s v :
  acyclic_state s -> node s index = Some v ->
  (length (__trace s) <= fuel)%nat ->
  (ref_count_ext v <> 0 -> exists s', cuda_dec_ref_ext fuel index s = Ok tt s')
  /\ exists s', cuda_dec_ref_int fuel index s = Ok tt s'.
Proof.
  intros Hac Hv Hfuel. pose proof (node_lt _ _ _ Hv) as Hlen. split.
  - intros Hext. unfold cuda_dec_ref_ext.
    destruct (in_range s index v Hv) as [Hne Hin].
    unfold bind at 1, trace_size. rewrite Hne, orb_false_r.
    destruct (index <? ENOKI_CUDA_REG_RESERVED); [eauto | ].
    rewrite Hin, (bind_eq _ _ _ _ _ (assert_true _)).
    rewrite (bind_eq _ _ _ _ _ (at_eq _ _ _ Hv)).
    apply N.eqb_neq in Hext. rewrite Hext.
    unfold bind at 1. rewrite update_unfold, Hv.
    set (v1 := set_ref_count_ext _ v). set (s1 := set_node index v1 s).
    assert (Hv1 : node s1 index = Some v1)
      by (apply (node_set_node_eq s index v1 v); exact Hv).
    rewrite (bind_eq _ _ _ _ _ (at_eq _ _ _ Hv1)).
    set (s2 := if ref_count_ext v1 =? 0
               then with_active (fun a => a ∖ {[index]}) s1 else s1).
    assert (Hw : when (ref_count_ext v1 =? 0)
                   (modify (with_active (fun a => a ∖ {[index]}))) s1
                 = Ok tt s2).
    { unfold s2. destruct (ref_count_ext v1 =? 0); reflexivity. }
    rewrite (bind_eq _ _ _ _ _ Hw).
    assert (Hv2 : node s2 index = Some v1).
    { unfold s2. destruct (ref_count_ext v1 =? 0); exact Hv1. }
    assert (Hac2 : acyclic_state s2).
    { assert (Hac1 : acyclic_state s1) by (eapply acyclic_set_node; eauto).
      unfold s2. destruct (ref_count_ext v1 =? 0); exact Hac1. }
    assert (Hl2 : length (__trace s2) = length (__trace s)).
    { unfold s2. destruct (ref_count_ext v1 =? 0); apply length_set_node_trace. }
    rewrite (bind_eq _ _ _ _ _ (at_eq _ _ _ Hv2)).
    destruct (is_collected v1); simpl; [ | eauto].
    destruct (var_free_total fuel index s2 Hac2) as (s' & H & _); [lia | lia | ].
    eauto.
  - destruct (dec_total (cuda_var_free fuel) index s Hac) as (s' & H & _).
    + intros _. exact Hlen.
    + intros _ s1 Hac1 Hl1.
      destruct (var_free_total fuel index s1 Hac1) as (s2 & H1 & H2 & H3);
        [lia | lia | ].
      exists s2. split; [exact H1 | ]. split; [exact H2 | lia].
    + eauto.
Qed.

Lemma X_release_returns_witness :
  acyclic_state handles_held_state /\
  node handles_held_state 16 =
    Some (mkVar UInt32 "mad.lo.u32 $r1, $r2, $r3, $r4" "" 1 0 1 0
            (10, 12, 15) false false true 7) /\
  (1 <> 0 ->
   exists s', @cuda_dec_ref_ext debug_build 17 16 handles_held_state
              = Ok tt s') /\
  exists s', @cuda_dec_ref_int debug_build 17 16 handles_held_state
             = Ok tt s'.
Proof.
  assert (Hac : acyclic_state handles_held_state).
  { apply acyclicb_spec. vm_compute. reflexivity. }
  assert (Hv : node handles_held_state 16 =
    Some (mkVar UInt32 "mad.lo.u32 $r1, $r2, $r3, $r4" "" 1 0 1 0
            (10, 12, 15) false false true 7)) by (vm_compute; reflexivity).
  split; [exact Hac | ]. split; [exact Hv | ].
  refine (@X_release_returns debug_build 17 16 _ _ Hac Hv _).
  vm_compute. lia.
Defined.

(** ** The active nodes exist *)

Lemma active_exist_closed : asm_closed (fun _ => True) active_exist.
Proof.
  split; [split; [split | | ] | | | ]; try (intros; assumption).
  - intros s i v v' Hs _ _ idx Hidx. rewrite length_set_node_trace.
    apply Hs. exact Hidx.
  - intros s i v n Hs _ idx Hidx. rewrite length_set_node_trace.
    apply Hs. exact Hidx.
  - intros s i Hs idx Hidx. simpl in Hidx.
    apply elem_of_difference in Hidx as [Hidx _]. apply Hs. exact Hidx.
  - intros s i v p _ Hs _ idx Hidx. rewrite length_set_node_trace.
    apply Hs. exact Hidx.
Qed.

Lemma active_exist_beyond_closed n :
  asm_closed (fun _ => True) (active_exist_beyond n).
Proof.
  apply asm_closed_and; [apply active_exist_closed | ].
  split; [split; [split | | ] | | | ]; try (intros; assumption);
    intros; rewrite length_set_node_trace; assumption.
Qed.

Lemma u32_le n : u32 n <= n.
Proof. unfold u32. apply N.Div0.mod_le. Qed.

Lemma active_exist_set_node s i v :
  active_exist s -> active_exist (set_node i v s).
Proof.
  intros Hs idx Hidx. rewrite length_set_node_trace. apply Hs. exact Hidx.
Qed.

Lemma active_exist_emplace s v n :
  active_exist s -> n = N.of_nat (length (__trace s)) ->
  active_exist_beyond (u32 n) (with_trace (fun tr => tr ++ [v]) s).
Proof.
  intros Hs Hn. pose proof (u32_le n) as Hle.
  split; [intros idx Hidx; specialize (Hs idx Hidx) | ]; simpl in *;
    rewrite length_app; simpl; lia.
Qed.

Lemma active_exist_insert s n :
  active_exist_beyond n s ->
  active_exist (with_active (fun a => {[n]} ∪ a) s).
Proof.
  intros [Hs Hn] idx Hidx. simpl in *.
  apply elem_of_union in Hidx as [Hidx|Hidx]; [ | apply Hs; exact Hidx].
  apply elem_of_singleton in Hidx. subst. exact Hn.
Qed.

Section ActiveExist.
Context {B : Build}.

Lemma keeps_active_exist_eval fuel : keeps active_exist (cuda_eval fuel).
Proof.
  unfold cuda_eval. repeat keeps_step.
  - apply keeps_update. intros s v Hs _. apply active_exist_set_node.
    exact Hs.
  - apply keeps_modify. intros s Hs idx Hidx. simpl in Hidx.
    apply elem_of_empty in Hidx. contradiction.
  - apply keeps_modify. intros s Hs. exact Hs.
  - eapply keeps_eval_bucket;
      [apply active_exist_closed | intros; exact Logic.I].
Qed.

Ltac ae_leaf :=
  lazymatch goal with
  | |- keeps active_exist (update _ _) =>
      apply keeps_update; intros ? ? ? ?; apply active_exist_set_node;
      assumption
  | |- keeps _ (modify (with_dirty _)) =>
      apply keeps_modify; intros ? ?; assumption
  | |- keeps active_exist (cuda_inc_ref_ext _) =>
      apply keeps_inc_ref_ext, active_exist_closed
  | |- keeps active_exist (cuda_inc_ref_int _) =>
      apply keeps_inc_ref_int, active_exist_closed
  | |- keeps active_exist (cuda_dec_ref_ext _ _) =>
      apply keeps_dec_ref_ext, active_exist_closed
  | |- keeps active_exist (cuda_dec_ref_int _ _) =>
      apply keeps_dec_ref_int, active_exist_closed
  | |- keeps active_exist (cuda_var_free _ _) =>
      apply keeps_var_free, active_exist_closed
  | |- keeps (active_exist_beyond _) (cuda_inc_ref_ext _) =>
      apply keeps_inc_ref_ext, active_exist_beyond_closed
  | |- keeps (active_exist_beyond _) (cuda_inc_ref_int _) =>
      apply keeps_inc_ref_int, active_exist_beyond_closed
  | |- keeps active_exist (cuda_eval _) => apply keeps_active_exist_eval
  end.

(** a step after the new node is in the trace *)
Lemma beyond_step {A} n (c : M unit) (k : unit -> M A) :
  keeps (active_exist_beyond n) c ->
  triple (active_exist_beyond n) (k tt) (fun _ => active_exist) active_exist ->
  triple (active_exist_beyond n) (bind c k) (fun _ => active_exist)
    active_exist.
Proof.
  intros Hc Hk. eapply triple_bind with (Q' := fun _ => active_exist_beyond n).
  - eapply triple_conseq; [exact Hc | auto | auto | intros s Hs; apply Hs].
  - intros []. exact Hk.
Qed.

(** the end of every append, from the count of the nodes on *)
Ltac ae_end :=
  apply triple_size_bind; intros n;
  repeat (apply triple_at_bind; intros ?);
  eapply triple_bind with (Q' := fun _ => active_exist_beyond (u32 n));
    [ apply triple_modify; intros s Hs; apply active_exist_emplace; tauto
    | intros ?;
      repeat (apply beyond_step; [ae_leaf | ]);
      eapply triple_bind with (Q' := fun _ => active_exist);
        [ apply triple_modify; intros s Hs; apply active_exist_insert;
          exact Hs
        | intros ?; apply triple_ret; auto ] ].

Lemma keeps_active_exist_append0 t c :
  keeps active_exist (cuda_trace_append0 t c).
Proof. unfold cuda_trace_append0. refine (_ : triple _ _ _ _). ae_end. Qed.

Lemma keeps_active_exist_append1 fuel t c a1 :
  keeps active_exist (cuda_trace_append1 fuel t c a1).
Proof.
  unfold cuda_trace_append1.
  do 4 (keeps_step;
        [repeat keeps_step; try ae_leaf | ]).
  refine (_ : triple _ _ _ _). ae_end.
Qed.

Lemma keeps_active_exist_append2 fuel t c a1 a2 :
  keeps active_exist (cuda_trace_append2 fuel t c a1 a2).
Proof.
  unfold cuda_trace_append2.
  do 5 (keeps_step;
        [repeat keeps_step; try ae_leaf | ]).
  refine (_ : triple _ _ _ _). ae_end.
Qed.

Lemma keeps_active_exist_append3 fuel t c a1 a2 a3 :
  keeps active_exist (cuda_trace_append3 fuel t c a1 a2 a3).
Proof.
  unfold cuda_trace_append3.
  do 5 (keeps_step;
        [repeat keeps_step; try ae_leaf | ]).
  refine (_ : triple _ _ _ _). ae_end.
Qed.

Lemma keeps_active_exist_printf fuel fmt narg arg :
  keeps active_exist (cuda_trace_printf fuel fmt narg arg).
Proof.
  unfold cuda_trace_printf, cuda_var_mark_side_effect, arg_at.
  repeat keeps_step;
    lazymatch goal with
    | |- keeps _ (printf_block _ _ _) => apply keeps_pure, pure_printf_block
    | |- keeps _ (cuda_trace_append0 _ _) => apply keeps_active_exist_append0
    | |- keeps _ (cuda_trace_append1 _ _ _ _) =>
        apply keeps_active_exist_append1
    | |- keeps _ (cuda_trace_append2 _ _ _ _ _) =>
        apply keeps_active_exist_append2
    | |- keeps _ (cuda_trace_append3 _ _ _ _ _ _) =>
        apply keeps_active_exist_append3
    | _ => ae_leaf
    end.
Qed.

Lemma active_exist_grow s v :
  active_exist s -> active_exist (with_trace (fun tr => tr ++ [v]) s).
Proof.
  intros Hs idx Hidx. specialize (Hs idx Hidx). simpl in *.
  rewrite length_app. lia.
Qed.

Lemma keeps_active_exist_exec c : keeps active_exist (exec c).
Proof.
  destruct c; simpl; unfold ignore.
  - apply keeps_modify. intros s _ idx Hidx. simpl in Hidx.
    apply elem_of_empty in Hidx. contradiction.
  - apply keeps_modify. intros s _ idx Hidx. simpl in Hidx.
    apply elem_of_empty in Hidx. contradiction.
  - unfold cuda_var_set_comment. ae_leaf.
  - unfold cuda_var_set_size. ae_leaf.
  - unfold cuda_var_register. repeat keeps_step; try ae_leaf.
    apply keeps_modify. intros s Hs. apply active_exist_grow. exact Hs.
  - ae_leaf.
  - ae_leaf.
  - ae_leaf.
  - ae_leaf.
  - ae_leaf.
  - unfold cuda_var_mark_side_effect. repeat keeps_step; ae_leaf.
  - unfold cuda_var_mark_dirty. repeat keeps_step; ae_leaf.
  - repeat keeps_step. apply keeps_active_exist_append0.
  - repeat keeps_step. apply keeps_active_exist_append1.
  - repeat keeps_step. apply keeps_active_exist_append2.
  - repeat keeps_step. apply keeps_active_exist_append3.
  - apply keeps_active_exist_printf.
  - ae_leaf.
  - apply keeps_modify. intros s Hs. exact Hs.
  - unfold cuda_fetch_element.
    repeat keeps_step; try ae_leaf.
  - unfold cuda_var_ptr. repeat keeps_step.
  - unfold cuda_var_size. repeat keeps_step.
  - repeat keeps_step. intros s Hs. exact Hs.
  - apply keeps_pure, pure_ret.
Qed.

End ActiveExist.

(** X27.  In every state that the exported functions produce from the
    initial one, whether the calls returned or threw, each index of the
    active set is the index of a node of the trace: the scheduler never
    starts from a node that does not exist. *)
Theorem X_active_nodes_exist `{B : Build} l s idx :
  run_calls l state0 = Some s -> idx ∈ __active s -> is_Some (node s idx).
Proof.
  assert (Hgen : forall s0, active_exist s0 -> run_calls l s0 = Some s ->
                   active_exist s).
  { induction l as [|c l IH]; intros s0 Hs0; simpl.
    - intros H. inversion H; subst. exact Hs0.
    - pose proof (keeps_active_exist_exec c s0 Hs0) as Hk.
      destruct (exec c s0) as [a s1|msg s1|r]; simpl in *; try discriminate;
        apply IH; assumption. }
  intros Hrun Hidx. apply lookup_lt_is_Some. eapply Hgen; eauto.
  intros i Hi. simpl in Hi. apply elem_of_empty in Hi. contradiction.
Qed.

Lemma X_active_nodes_exist_witness :
  @run_calls debug_build squared state0 = Some (state_after_calls squared) /\
  11 ∈ __active (state_after_calls squared) /\
  is_Some (node (state_after_calls squared) 11).
Proof.
  assert (Hr : @run_calls debug_build squared state0
               = Some (state_after_calls squared)) by (vm_compute; reflexivity).
  assert (Ha : 11 ∈ __active (state_after_calls squared)).
  { apply (bool_decide_unpack (11 ∈ __active (state_after_calls squared))).
    vm_compute. exact I. }
  split; [exact Hr | ]. split; [exact Ha | ].
  exact (@X_active_nodes_exist debug_build squared _ 11 Hr Ha).
Defined.

(** ** An evaluation gives every active node its buffer *)

Lemma awaiting_other idx sz s i v' :
  awaiting idx sz s -> i <> idx -> awaiting idx sz (set_node i v' s).
Proof.
  intros [Hd (v & Hv & H)] Hne. split; [exact Hd | ]. exists v.
  split; [ | exact H]. rewrite node_set_node_ne by exact Hne. exact Hv.
Qed.

Lemma awaiting_self idx sz s v v' :
  awaiting idx sz s -> node s idx = Some v -> same_node v v' ->
  awaiting idx sz (set_node idx v' s).
Proof.
  intros [Hd (w & Hw & H1 & H2 & H3 & H4)] Hv (E1 & E2 & E3 & E4 & _).
  rewrite Hv in Hw. inversion Hw; subst w.
  split; [exact Hd | ]. exists v'.
  split; [eapply node_set_node_eq; eauto | ].
  rewrite E1, E2, E3, E4. auto.
Qed.

Lemma materialised_other idx sz s i v' :
  materialised idx sz s -> i <> idx -> materialised idx sz (set_node i v' s).
Proof.
  intros [Ha (v & Hv & Hd)] Hne. split; [apply awaiting_other; assumption | ].
  exists v. split; [ | exact Hd].
  rewrite node_set_node_ne by exact Hne. exact Hv.
Qed.

Lemma materialised_self idx sz s v v' :
  materialised idx sz s -> node s idx = Some v -> same_node v v' ->
  materialised idx sz (set_node idx v' s).
Proof.
  intros [Ha (w & Hw & Hd)] Hv Hsame.
  split; [eapply awaiting_self; eauto | ].
  rewrite Hv in Hw. inversion Hw; subst w. exists v'.
  split; [eapply node_set_node_eq; eauto | ].
  destruct Hsame as (_ & _ & _ & _ & [E|E]); congruence.
Qed.

Section Materialise.
Context {B : Build}.
Variables idx sz : N.
Variable Inv : State -> Prop.
Hypothesis Hlive : forall s, Inv s -> awaiting idx sz s.
Hypothesis Hother : forall s i v v',
  Inv s -> node s i = Some v -> i <> idx -> Inv (set_node i v' s).
Hypothesis Hself : forall s v v',
  Inv s -> node s idx = Some v -> same_node v v' -> Inv (set_node idx v' s).
Hypothesis Hactive : forall s f, Inv s -> Inv (with_active f s).
Hypothesis Hdev : forall s f, Inv s -> dev_next (with_dev_next f s) <> 0 ->
  Inv (with_dev_next f s).
Hypothesis Hlaunch : forall s f, Inv s -> Inv (with_launches f s).

Lemma mat_int s v n :
  ENOKI_CUDA_REG_RESERVED <= idx -> Inv s -> node s idx = Some v ->
  Inv (set_node idx (set_ref_count_int n v) s).
Proof.
  intros _ Hs Hv. apply (Hself s v _ Hs Hv).
  unfold same_node. simpl. auto 10.
Qed.

Lemma mat_held s v :
  ENOKI_CUDA_REG_RESERVED <= idx -> Inv s -> node s idx = Some v ->
  is_collected v = false.
Proof.
  intros _ Hs Hv. destruct (Hlive s Hs) as [_ (w & Hw & He & _)].
  rewrite Hv in Hw. inversion Hw; subst w. unfold is_collected.
  apply N.eqb_neq in He. rewrite He. apply andb_false_r.
Qed.

Lemma mat_update i f :
  (forall v, same_node v (f v)) -> keeps Inv (update i f).
Proof.
  intros Hf. apply keeps_update. intros s v Hs Hv.
  destruct (decide (i = idx)) as [->|Hne].
  - apply (Hself s v _ Hs Hv). apply Hf.
  - eapply Hother; eauto.
Qed.

Lemma mat_collapse_var fuel i : keeps Inv (collapse_var fuel i).
Proof.
  unfold collapse_var.
  repeat keeps_step.
  - apply (frame_dec_ref_int idx Inv Hother mat_int mat_held).
  - apply mat_update. intros v. unfold same_node. simpl. auto 10.
Qed.

(** The assembly of the node [index], from the state in which the loop
    has read it as [var]. *)
Lemma mat_emit_compute fuel size_ reg_map index var oss ptrs :
  triple (fun s => Inv s /\ node s index = Some var)
    (emit_compute fuel size_ reg_map index var oss ptrs)
    (fun _ => Inv) Inv.
Proof.
  set (K := fun s => Inv s /\ node s index = Some var).
  assert (HK : forall s, K s -> Inv s) by (intros s [Hs _]; exact Hs).
  unfold emit_compute.
  eapply triple_bind with (Q' := fun _ => K).
  { eapply triple_conseq; [apply (keeps_pure K) | auto | auto | auto].
    destruct (empty (comment var)); repeat pure_step. }
  intros oss1.
  eapply triple_bind with (Q' := fun _ => K).
  { eapply triple_conseq; [apply (keeps_pure K), pure_get | auto | auto | auto]. }
  intros st.
  eapply triple_bind with (Q' := fun _ => K).
  { eapply triple_conseq;
      [apply (keeps_pure K), pure_cuda_render_cmd | auto | auto | auto]. }
  intros oss2.
  eapply triple_bind with (Q' := fun _ => Inv).
  { destruct (side_effect var) eqn:Hse; simpl;
      [ | apply triple_ret; auto].
    destruct (decide (index = idx)) as [->|Hne].
    - apply triple_false_pre. intros s [Hs Hv].
      destruct (Hlive s Hs) as [_ (w & Hw & _ & Hw2 & _)]. congruence.
    - eapply triple_pre; [ | exact HK].
      apply (frame_dec_ref_ext idx Inv Hother mat_int mat_held Hactive).
      exact Hne. }
  intros ?. apply triple_at_bind. intros var'.
  destruct (ref_count_ext var' =? 0); [apply triple_ret; tauto | ].
  destruct (negb (size var' =? size_)); [apply triple_ret; tauto | ].
  eapply triple_bind with (Q' := fun _ s => Inv s).
  { eapply triple_conseq;
      [apply (keeps_pure Inv), pure_cuda_var_size | tauto | auto | auto]. }
  intros n.
  eapply triple_bind with (Q' := fun p s => Inv s /\ p <> 0).
  { intros s Hs. simpl. destruct (Hlive s Hs) as [Hd _].
    split; [ | exact Hd]. apply Hdev; [exact Hs | simpl; lia]. }
  intros p.
  eapply triple_bind with (Q' := fun _ => Inv).
  { apply triple_update. intros s v [Hs Hp] Hv.
    destruct (decide (index = idx)) as [->|Hne].
    - apply (Hself s v _ Hs Hv).
      unfold same_node. simpl. auto 10.
    - eapply Hother; eauto. }
  intros ?. refine (_ : keeps Inv _). repeat keeps_step.
  apply keeps_pure, pure_emit_store.
Qed.

Lemma mat_assemble_var fuel size_ reg_map acc index :
  keeps Inv (assemble_var fuel size_ reg_map acc index).
Proof.
  unfold assemble_var. destruct acc as [oss ptrs].
  apply triple_at_bind. intros var.
  destruct (is_collected var || _); [intros s [Hs _]; exact Hs | ].
  destruct (negb (size var =? 1) && _); [intros s [Hs _]; exact Hs | ].
  destruct (negb (data var =? 0)).
  - eapply triple_conseq;
      [ apply (keeps_pure (fun s => Inv s /\ node s index = Some var)),
          pure_emit_load
      | auto | intros ? s [Hs _]; exact Hs | intros s [Hs _]; exact Hs ].
  - apply mat_emit_compute.
Qed.

Lemma mat_eval_bucket fuel b : keeps Inv (eval_bucket fuel b).
Proof.
  unfold eval_bucket, cuda_jit_assemble. repeat keeps_step.
  - apply mat_assemble_var.
  - apply keeps_modify. intros s Hs. apply Hlaunch. exact Hs.
  - apply mat_collapse_var.
Qed.

End Materialise.

Section Progress.
Context {B : Build}.
Variables idx sz : N.

Lemma awaiting_keeps_hyps :
  (forall s, awaiting idx sz s -> awaiting idx sz s) /\
  (forall s i v v', awaiting idx sz s -> node s i = Some v -> i <> idx ->
     awaiting idx sz (set_node i v' s)) /\
  (forall s v v', awaiting idx sz s -> node s idx = Some v ->
     same_node v v' -> awaiting idx sz (set_node idx v' s)) /\
  (forall s f, awaiting idx sz s -> awaiting idx sz (with_active f s)) /\
  (forall s f, awaiting idx sz s -> dev_next (with_dev_next f s) <> 0 ->
     awaiting idx sz (with_dev_next f s)) /\
  (forall s f, awaiting idx sz s -> awaiting idx sz (with_launches f s)).
Proof.
  split; [auto | ]. split; [intros; apply awaiting_other; assumption | ].
  split; [intros; eapply awaiting_self; eassumption | ].
  split; [intros s f H; exact H | ].
  split; [ | intros s f H; exact H].
  intros s f [_ H] Hd. split; [exact Hd | exact H].
Qed.

Lemma materialised_keeps_hyps :
  (forall s, materialised idx sz s -> awaiting idx sz s) /\
  (forall s i v v', materialised idx sz s -> node s i = Some v -> i <> idx ->
     materialised idx sz (set_node i v' s)) /\
  (forall s v v', materialised idx sz s -> node s idx = Some v ->
     same_node v v' -> materialised idx sz (set_node idx v' s)) /\
  (forall s f, materialised idx sz s -> materialised idx sz (with_active f s)) /\
  (forall s f, materialised idx sz s -> dev_next (with_dev_next f s) <> 0 ->
     materialised idx sz (with_dev_next f s)) /\
  (forall s f, materialised idx sz s ->
     materialised idx sz (with_launches f s)).
Proof.
  split; [intros s [H _]; exact H | ].
  split; [intros; apply materialised_other; assumption | ].
  split; [intros; eapply materialised_self; eassumption | ].
  split; [intros s f H; exact H | ].
  split; [ | intros s f H; exact H].
  intros s f [[_ H] H'] Hd. split; [split; [exact Hd | exact H] | exact H'].
Qed.

Lemma awaiting_eval_bucket fuel b : keeps (awaiting idx sz) (eval_bucket fuel b).
Proof.
  destruct awaiting_keeps_hyps as (H1 & H2 & H3 & H4 & H5 & H6).
  apply (mat_eval_bucket idx sz _ H1 H2 H3 H4 H5 H6).
Qed.

Lemma awaiting_assemble_var fuel size_ reg_map acc index :
  keeps (awaiting idx sz) (assemble_var fuel size_ reg_map acc index).
Proof.
  destruct awaiting_keeps_hyps as (H1 & H2 & H3 & H4 & H5 & H6).
  apply (mat_assemble_var idx sz _ H1 H2 H3 H4 H5).
Qed.

Lemma materialised_eval_bucket fuel b :
  keeps (materialised idx sz) (eval_bucket fuel b).
Proof.
  destruct materialised_keeps_hyps as (H1 & H2 & H3 & H4 & H5 & H6).
  apply (mat_eval_bucket idx sz _ H1 H2 H3 H4 H5 H6).
Qed.

Lemma materialised_assemble_var fuel size_ reg_map acc index :
  keeps (materialised idx sz) (assemble_var fuel size_ reg_map acc index).
Proof.
  destruct materialised_keeps_hyps as (H1 & H2 & H3 & H4 & H5 & H6).
  apply (mat_assemble_var idx sz _ H1 H2 H3 H4 H5).
Qed.

Lemma materialised_collapse_var fuel i :
  keeps (materialised idx sz) (collapse_var fuel i).
Proof.
  destruct materialised_keeps_hyps as (H1 & H2 & H3 & H4 & H5 & H6).
  apply (mat_collapse_var idx sz _ H1 H2 H3).
Qed.

Lemma keeps_weaken {A} (I : State -> Prop) (c : M A) :
  keeps I c -> triple I c (fun _ => I) (fun _ => True).
Proof.
  intros H. eapply triple_conseq; [exact H | auto | auto | intros; exact Logic.I].
Qed.

(** The assembly of the node [idx] in the bucket of its element count
    gives it a buffer, unless it has one. *)
Lemma assemble_var_materialises fuel reg_map acc :
  triple (awaiting idx sz) (assemble_var fuel sz reg_map acc idx)
    (fun _ => materialised idx sz) (fun _ => True).
Proof.
  unfold assemble_var. destruct acc as [oss ptrs].
  apply triple_at_bind. intros var.
  set (K := fun s => awaiting idx sz s /\ node s idx = Some var).
  assert (Hfacts : forall s, K s ->
            ref_count_ext var <> 0 /\ side_effect var = false /\
            size var = sz).
  { intros s [[_ (w & Hw & H1 & H2 & _ & H4)] Hv].
    rewrite Hv in Hw. inversion Hw; subst w. auto. }
  destruct (is_collected var || _); [intros s _; exact I | ].
  destruct (negb (size var =? 1) && _); [intros s _; exact I | ].
  destruct (negb (data var =? 0)) eqn:Hdata.
  { eapply triple_conseq;
      [ apply (keeps_pure K), pure_emit_load | auto | | intros; exact I ].
    intros ? s [Ha Hv]. split; [exact Ha | ]. exists var.
    split; [exact Hv | ]. apply negb_true_iff, N.eqb_neq in Hdata.
    exact Hdata. }
  unfold emit_compute.
  eapply triple_bind with (Q' := fun _ => K).
  { eapply triple_conseq;
      [apply (keeps_pure K) | auto | auto | intros; exact I].
    destruct (empty (comment var)); repeat pure_step. }
  intros oss1.
  eapply triple_bind with (Q' := fun _ => K).
  { eapply triple_conseq;
      [apply (keeps_pure K), pure_get | auto | auto | intros; exact I]. }
  intros st.
  eapply triple_bind with (Q' := fun _ => K).
  { eapply triple_conseq;
      [ apply (keeps_pure K), pure_cuda_render_cmd
      | auto | auto | intros; exact I ]. }
  intros oss2.
  eapply triple_bind with (Q' := fun _ => K).
  { destruct (side_effect var) eqn:Hse; simpl; [ | apply triple_ret; auto].
    apply triple_false_pre. intros s Hs.
    destruct (Hfacts s Hs) as (_ & H & _). congruence. }
  intros ?. apply triple_at_bind. intros var'.
  set (K2 := fun s => awaiting idx sz s /\ node s idx = Some var').
  assert (Hfacts2 : forall s, K2 s ->
            ref_count_ext var' <> 0 /\ size var' = sz).
  { intros s [[_ (w & Hw & H1 & _ & _ & H4)] Hv].
    rewrite Hv in Hw. inversion Hw; subst w. auto. }
  apply (triple_pre _ K2); [ | intros s [[Ha _] Hv']; split; assumption].
  destruct (ref_count_ext var' =? 0) eqn:He.
  { apply triple_false_pre. intros s Hs.
    destruct (Hfacts2 s Hs) as (H & _). apply N.eqb_eq in He. contradiction. }
  destruct (negb (size var' =? sz)) eqn:Hsz.
  { apply triple_false_pre. intros s Hs.
    destruct (Hfacts2 s Hs) as (_ & H).
    apply negb_true_iff, N.eqb_neq in Hsz. contradiction. }
  eapply triple_bind with (Q' := fun _ => K2).
  { eapply triple_conseq;
      [ apply (keeps_pure K2), pure_cuda_var_size
      | auto | auto | intros; exact I ]. }
  intros n.
  eapply triple_bind with (Q' := fun p s => K2 s /\ p <> 0).
  { intros s [[Hd Hs] Hv]. simpl.
    split; [split; [split; [simpl; lia | exact Hs] | exact Hv] | exact Hd]. }
  intros p.
  eapply triple_bind with (Q' := fun _ => materialised idx sz).
  { apply triple_update. intros s v [[Ha Hv] Hp] Hv0.
    split.
    - eapply awaiting_self; [exact Ha | exact Hv0 | ].
      unfold same_node. simpl. auto 10.
    - exists (set_data p v). split; [eapply node_set_node_eq; eauto | exact Hp]. }
  intros ?. apply keeps_weaken. repeat keeps_step.
  apply keeps_pure, pure_emit_store.
Qed.

Lemma fold_materialises fuel reg_map sweep acc :
  idx ∈ sweep ->
  triple (awaiting idx sz)
    (fold_each sweep acc (assemble_var fuel sz reg_map))
    (fun _ => materialised idx sz) (fun _ => True).
Proof.
  revert acc. induction sweep as [|x l IH]; intros acc Hin.
  - apply elem_of_nil in Hin. contradiction.
  - simpl. destruct (decide (x = idx)) as [->|Hne].
    + eapply triple_bind; [apply assemble_var_materialises | ].
      intros acc'. apply keeps_weaken. apply keeps_fold_each.
      intros acc0 y _. apply materialised_assemble_var.
    + apply elem_of_cons in Hin as [Heq|Hin]; [congruence | ].
      eapply triple_bind; [apply keeps_weaken, awaiting_assemble_var | ].
      intros acc'. apply IH. exact Hin.
Qed.

Lemma bucket_materialises fuel b :
  idx ∈ b.2.2 -> b.1 = sz ->
  triple (awaiting idx sz) (eval_bucket fuel b)
    (fun _ => materialised idx sz) (fun _ => True).
Proof.
  intros Hin Hsz. unfold eval_bucket, cuda_jit_assemble. rewrite Hsz.
  eapply triple_bind with (Q' := fun _ => materialised idx sz).
  - eapply triple_bind; [apply fold_materialises; exact Hin | ].
    intros acc. apply triple_ret. auto.
  - intros res. apply keeps_weaken. repeat keeps_step.
    + apply keeps_modify. intros s Hs. exact Hs.
    + apply materialised_collapse_var.
Qed.

Lemma buckets_materialise fuel bs :
  (exists b, b ∈ bs /\ idx ∈ b.2.2 /\ b.1 = sz) ->
  triple (awaiting idx sz) (for_each bs (eval_bucket fuel))
    (fun _ => materialised idx sz) (fun _ => True).
Proof.
  induction bs as [|b l IH]; intros (b' & Hb' & Hin & Hsz).
  - apply elem_of_nil in Hb'. contradiction.
  - simpl. apply elem_of_cons in Hb' as [->|Hb'].
    + eapply triple_bind; [apply bucket_materialises; assumption | ].
      intros ?. apply keeps_weaken. apply keeps_for_each.
      intros b0 _. apply materialised_eval_bucket.
    + eapply triple_bind; [apply keeps_weaken, awaiting_eval_bucket | ].
      intros ?. apply IH. eauto.
Qed.

End Progress.

(** X28.  An evaluation that returns has given a buffer to every node
    that was in the active set with a handle, a template and no
    side-effect mark: its buffer pointer is not null afterwards (the
    allocator hands out addresses other than null). *)
Theorem X_active_node_gets_buffer `{B : Build} fuel idx s v s' :
  dev_next s <> 0 -> idx ∈ __active s -> node s idx = Some v ->
  ref_count_ext v <> 0 -> side_effect v = false -> empty (cmd v) = false ->
  cuda_eval fuel s = Ok tt s' ->
  exists v', node s' idx = Some v' /\ data v' <> 0.
Proof.
  intros Hdev Hact Hv Hext Hse Hcmd H.
  assert (Ha : awaiting idx (size v) s).
  { split; [exact Hdev | ]. exists v. auto 10. }
  rewrite cuda_eval_unfold in H.
  destruct (build_sweeps _ _ _) as [e|sweeps] eqn:Hb; [discriminate | ].
  destruct (for_each (__dirty s) clear_dirty s) as [[] s1|msg s1|r] eqn:Hc;
    try discriminate.
  assert (Ha1 : awaiting idx (size v) s1).
  { refine (keeps_Ok (awaiting idx (size v)) _ _ _ _ _ Ha Hc).
    apply keeps_for_each. intros i _. apply keeps_update.
    intros s0 w Hs0 Hw. destruct (decide (i = idx)) as [->|Hne].
    - eapply awaiting_self; [exact Hs0 | exact Hw | ].
      unfold same_node. simpl. auto 10.
    - apply awaiting_other; assumption. }
  destruct (build_sweeps_order _ _ _ _ Hb) as [_ Hseeds].
  destruct (Hseeds idx) as (w & b & Hw & Hlook & Hin).
  { apply elem_of_elements. exact Hact. }
  unfold node in Hv. rewrite Hv in Hw. inversion Hw; subst w.
  pose proof (buckets_materialise idx (size v) fuel (map_to_list sweeps)) as Hm.
  specialize (Hm (ex_intro _ (size v, b)
    (conj (proj2 (elem_of_map_to_list sweeps (size v) b) Hlook)
          (conj Hin eq_refl)))).
  specialize (Hm (with_dirty (fun _ => []) (with_active (fun _ => ∅) s1)) Ha1).
  rewrite H in Hm. destruct Hm as [_ Hd]. exact Hd.
Qed.

Lemma X_active_node_gets_buffer_witness :
  (16 ∈ __active three_operands_state) /\
  node three_operands_state 16 =
    Some (mkVar UInt32 "mad.lo.u32 $r1, $r2, $r3, $r4" "" 1 0 1 0
            (10, 12, 15) false false true 7) /\
  @cuda_eval debug_build 100 three_operands_state
    = Ok tt three_operands_evaluated /\
  exists v', node three_operands_evaluated 16 = Some v' /\ data v' <> 0.
Proof.
  assert (Ha : 16 ∈ __active three_operands_state).
  { apply (bool_decide_unpack (16 ∈ __active three_operands_state)).
    vm_compute. exact I. }
  assert (Hv : node three_operands_state 16 =
    Some (mkVar UInt32 "mad.lo.u32 $r1, $r2, $r3, $r4" "" 1 0 1 0
            (10, 12, 15) false false true 7)) by (vm_compute; reflexivity).
  assert (H : @cuda_eval debug_build 100 three_operands_state
              = Ok tt three_operands_evaluated) by (vm_compute; reflexivity).
  split; [exact Ha | ]. split; [exact Hv | ]. split; [exact H | ].
  refine (@X_active_node_gets_buffer debug_build 100 16 _ _ _ _ Ha Hv _ _ _ H).
  - vm_compute. discriminate.
  - simpl. lia.
  - reflexivity.
  - reflexivity.
Defined.
